(** * Eidolon renderer substrate: RenderTypes.h / RenderTypes.cpp

    A shallow embedding of the numeric substrate of the Eidolon renderer:
    the geometric routines of [RenderTypes.cpp] (basis functions, point
    search in tetrahedra and hexahedra, hexahedron/threshold intersection),
    [Ray::intersectsTri], the endian swaps and the [Matrix<T>] container of
    [RenderTypes.h].  Part III adds the cell, row and shared-segment
    operations of [Matrix<T>], [MetaType], [mat4], [rotator], further
    methods of [vec3] and [Ray], and the interpolation and slicing
    routines.

    [typedef double real] is kept as a parameter of the development: the
    geometric code is written once over an interface [RealOps] of the
    operations the C++ text uses, and read at two instances,
      - [float], Rocq's primitive IEEE 754 binary64 numbers, which is what
        the compiled program computes with (round to nearest, no fused
        operations), and
      - [Q], exact rational arithmetic, for the algebraic statements that
        hold in doubles only up to rounding.
    [typedef u32 sval] is a [Z] with its 32-bit wrap-around written out. *)

From Stdlib Require Import ZArith QArith Qabs Qpower Lia Lqa Floats Ascii.
From stdpp Require Import base list strings gmap pretty sorting.

#[local] Set Warnings "-inexact-float".

(** ** Numeric interface *)

Module Numeric.

(** The operations on [real] used by the source: literals [0], [1.0] and
    [dEPSILON] ([#define dEPSILON 1.0e-10]), the four arithmetic operators,
    unary minus, [fabs], and the comparisons [<], [<=] and [==].  The C++
    [a>b] and [a>=b] are the same comparisons with the operands exchanged. *)
Class RealOps (real : Type) : Type := {
  rzero : real;
  rone : real;
  dEPSILON : real;
  radd : real -> real -> real;
  rsub : real -> real -> real;
  rmul : real -> real -> real;
  rdiv : real -> real -> real;
  ropp : real -> real;
  fabs : real -> real;
  rltb : real -> real -> bool;
  rleb : real -> real -> bool;
  reqb : real -> real -> bool
}.

(** [sqrt] from <cmath>, only available where the carrier has one. *)
Class RealSqrt (real : Type) : Type := {
  rsqrt : real -> real
}.

Declare Scope real_scope.
Delimit Scope real_scope with re.
Notation "x + y" := (radd x y) : real_scope.
Notation "x - y" := (rsub x y) : real_scope.
Notation "x * y" := (rmul x y) : real_scope.
Notation "x / y" := (rdiv x y) : real_scope.
Notation "- x" := (ropp x) : real_scope.
Notation "x <? y" := (rltb x y) : real_scope.
Notation "x <=? y" := (rleb x y) : real_scope.
Notation "x >? y" := (rltb y x) : real_scope.
Notation "x >=? y" := (rleb y x) : real_scope.
Notation "x =? y" := (reqb x y) : real_scope.

(** The program's instance: IEEE 754 binary64.  Comparisons with a NaN
    operand are [false], division by zero gives an infinity or a NaN. *)
#[export] Instance float_ops : RealOps float := {|
  rzero := 0%float;
  rone := 1%float;
  dEPSILON := 1.0e-10%float;
  radd := PrimFloat.add;
  rsub := PrimFloat.sub;
  rmul := PrimFloat.mul;
  rdiv := PrimFloat.div;
  ropp := PrimFloat.opp;
  fabs := PrimFloat.abs;
  rltb := PrimFloat.ltb;
  rleb := PrimFloat.leb;
  reqb := PrimFloat.eqb
|}.

#[export] Instance float_sqrt : RealSqrt float := {|
  rsqrt := PrimFloat.sqrt
|}.

(** The exact instance.  [Qdiv x 0] is [0], where a double gives an
    infinity or a NaN: statements over [Q] about a quotient are made only
    where the code has already excluded a zero divisor. *)
#[export] Instance Q_ops : RealOps Q := {|
  rzero := 0%Q;
  rone := 1%Q;
  dEPSILON := (1 # 10000000000)%Q;
  radd := Qplus;
  rsub := Qminus;
  rmul := Qmult;
  rdiv := Qdiv;
  ropp := Qopp;
  fabs := Qabs;
  rltb := fun a b => negb (Qle_bool b a);
  rleb := Qle_bool;
  reqb := Qeq_bool
|}.

Section MinMax.
Context {real : Type} {ops : RealOps real}.
Local Open Scope real_scope.

(** [template<typename T> T _min(const T& a, const T& b) { return a<b ? a : b; }] *)
Definition _min (a b : real) : real := if a <? b then a else b.
(** [template<typename T> T _max(const T& a, const T& b) { return a>b ? a : b; }] *)
Definition _max (a b : real) : real := if a >? b then a else b.

(** [equalsEpsilon]: [fabs(v1-v2)<=dEPSILON]. *)
Definition equalsEpsilon (v1 v2 : real) : bool := fabs (v1 - v2) <=? dEPSILON.

(** Sum of an array of coefficients, first to last. *)
Definition rsum (l : list real) : real := foldl radd rzero l.

(** The coefficients sum to exactly 1, and to 1 within [tol]. *)
Definition sums_to_one (coeffs : list real) : bool := rsum coeffs =? rone.
Definition sums_to_one_within (tol : real) (coeffs : list real) : bool :=
  fabs (rsum coeffs - rone) <=? tol.
End MinMax.

End Numeric.
Export Numeric.

(** [triple<F,S,T>] of RenderTypes.h. *)
Record triple (F S T : Type) : Type := Triple {
  first : F;
  second : S;
  third : T
}.
Arguments Triple {F S T} _ _ _.
Arguments first {F S T} _.
Arguments second {F S T} _.
Arguments third {F S T} _.

(** ** class vec3 *)

Module Vec.
Section Vec3.
Context {real : Type} {ops : RealOps real}.
Local Open Scope real_scope.

Record vec3 : Type := Vec3 { _x : real; _y : real; _z : real }.

(** [vec3(real val=0)]: all components set to [val]. *)
Definition vec3_of (val : real) : vec3 := Vec3 val val val.

Definition vadd (a v : vec3) : vec3 := Vec3 (_x a + _x v) (_y a + _y v) (_z a + _z v).
Definition vsub (a v : vec3) : vec3 := Vec3 (_x a - _x v) (_y a - _y v) (_z a - _z v).
(** [vec3 operator * (real v)]. *)
Definition vscale (a : vec3) (v : real) : vec3 := Vec3 (_x a * v) (_y a * v) (_z a * v).

Definition cross (a v : vec3) : vec3 :=
  Vec3 (_y a * _z v - _z a * _y v) (_z a * _x v - _x a * _z v) (_x a * _y v - _y a * _x v).
Definition dot (a v : vec3) : real := _x a * _x v + _y a * _y v + _z a * _z v.
Definition lenSq (a : vec3) : real := _x a * _x a + _y a * _y a + _z a * _z a.

(** The mutating [setMinVals]/[setMaxVals] return the updated vector. *)
Definition setMinVals (a v : vec3) : vec3 :=
  Vec3 (_min (_x a) (_x v)) (_min (_y a) (_y v)) (_min (_z a) (_z v)).
Definition setMaxVals (a v : vec3) : vec3 :=
  Vec3 (_max (_x a) (_x v)) (_max (_y a) (_y v)) (_max (_z a) (_z v)).

(** [operator <] and [operator >], each with its [dEPSILON] margin. *)
Definition vlt (a v : vec3) : bool :=
  ((_x a - dEPSILON) <? _x v) && ((_y a - dEPSILON) <? _y v) && ((_z a - dEPSILON) <? _z v).
Definition vgt (a v : vec3) : bool :=
  ((_x a + dEPSILON) >? _x v) && ((_y a + dEPSILON) >? _y v) && ((_z a + dEPSILON) >? _z v).

(** [inAABB]: this vector [>minv] and [<maxv]. *)
Definition inAABB (a minv maxv : vec3) : bool := vgt a minv && vlt a maxv.

Definition isInUnitCube (a : vec3) (margin : real) : bool :=
  (_x a >=? - margin) && (_x a <=? (rone + margin))
  && (_y a >=? - margin) && (_y a <=? (rone + margin))
  && (_z a >=? - margin) && (_z a <=? (rone + margin)).

(** [isZero]: [equalsEpsilon(_x+_y+_z,0.0)]. *)
Definition isZero (a : vec3) : bool := equalsEpsilon (_x a + _y a + _z a) rzero.

(** [inv]: each component inverted, or 0 if already 0. *)
Definition inv (a : vec3) : vec3 :=
  Vec3 (if _x a =? rzero then rzero else rone / _x a)
       (if _y a =? rzero then rzero else rone / _y a)
       (if _z a =? rzero then rzero else rone / _z a).

Context {sq : RealSqrt real}.

Definition len (a : vec3) : real := rsqrt (_x a * _x a + _y a * _y a + _z a * _z a).
(** [norm]: the zero vector when [l==0.0], else this vector times [1.0/l]. *)
Definition norm (a : vec3) : vec3 :=
  let l := len a in if l =? rzero then vec3_of rzero else vscale a (rone / l).
End Vec3.
Arguments vec3 real : clear implicits.
End Vec.
Export Vec.

(** ** Geometry routines of RenderTypes.cpp *)

Module Geometry.
Section Routines.
Context {real : Type} {ops : RealOps real}.
Local Open Scope real_scope.

Local Abbreviation vec3 := (vec3 real).

(** A [real*] or [vec3*] array argument is a list; [c[i]] reads it.  The
    callers in RenderTypes.cpp pass arrays of the four or eight entries
    the routines index; past the end of a shorter list, where the C++
    would read outside the array, the model reads zero. *)
Definition at_r (coeffs : list real) (i : nat) : real := nth i coeffs rzero.
Definition at_v (vs : list vec3) (i : nat) : vec3 := nth i vs (vec3_of rzero).

(** [basis_Tet1NL] writes four coefficients. *)
Definition basis_Tet1NL (xi0 xi1 xi2 : real) : list real :=
  [ rone - xi0 - xi1 - xi2; xi0; xi1; xi2 ].

(** [basis_Hex1NL] writes eight coefficients. *)
Definition basis_Hex1NL (xi0 xi1 xi2 : real) : list real :=
  let xi012 := xi0 * xi1 * xi2 in
  let xi12 := xi1 * xi2 in
  let xi01 := xi0 * xi1 in
  let xi02 := xi0 * xi2 in
  [ rone - xi0 - xi1 - xi2 + xi01 + xi02 + xi12 - xi012;
    xi0 - xi01 - xi02 + xi012;
    xi1 - xi01 - xi12 + xi012;
    xi01 - xi012;
    xi2 - xi02 - xi12 + xi012;
    xi02 - xi012;
    xi12 - xi012;
    xi012 ].

Definition pointSearchLinTet (pt n1 n2 n3 n4 : vec3) : vec3 :=
  let minv := setMinVals (setMinVals (setMinVals n1 n2) n3) n4 in
  let maxv := setMaxVals (setMaxVals (setMaxVals n1 n2) n3) n4 in
  if negb (inAABB pt minv maxv) then vec3_of (- rone) else
  let x1 := _x n1 in let y1 := _y n1 in let z1 := _z n1 in
  let dx := _x pt - x1 in let dy := _y pt - y1 in let dz := _z pt - z1 in
  let dx2 := _x n2 - x1 in let dy2 := _y n2 - y1 in let dz2 := _z n2 - z1 in
  let dx3 := _x n3 - x1 in let dy3 := _y n3 - y1 in let dz3 := _z n3 - z1 in
  let dx4 := _x n4 - x1 in let dy4 := _y n4 - y1 in let dz4 := _z n4 - z1 in
  let invdet :=
    rone / (dx2 * (dz4 * dy3 - dz3 * dy4) - dy2 * (dz4 * dx3 - dz3 * dx4)
            + dz2 * (dy4 * dx3 - dy3 * dx4)) in
  let xi1 := invdet * ((dx * (dz4 * dy3 - dz3 * dy4)) + (dy * (dz3 * dx4 - dz4 * dx3))
                       + (dz * (dy4 * dx3 - dy3 * dx4))) in
  let xi2 := invdet * ((dx * (dz2 * dy4 - dz4 * dy2)) + (dy * (dz4 * dx2 - dz2 * dx4))
                       + (dz * (dy2 * dx4 - dy4 * dx2))) in
  let xi3 := invdet * ((dx * (dz3 * dy2 - dz2 * dy3)) + (dy * (dz2 * dx3 - dz3 * dx2))
                       + (dz * (dy3 * dx2 - dy2 * dx3))) in
  Vec3 xi1 xi2 xi3.

(** [vec3 divtets[5][4]]: xi values for dividing a hex into 5 tets. *)
Definition divtets : list (list vec3) :=
  let o := rzero in let l := rone in
  [ [Vec3 o o o; Vec3 l o l; Vec3 l l o; Vec3 o l l];
    [Vec3 o o o; Vec3 l l o; Vec3 o l o; Vec3 o l l];
    [Vec3 o o o; Vec3 l o l; Vec3 o l l; Vec3 o o l];
    [Vec3 l o l; Vec3 l l o; Vec3 o l l; Vec3 l l l];
    [Vec3 o o o; Vec3 l o o; Vec3 l l o; Vec3 l o l] ].

Section Hex.
Variables (pt n1 n2 n3 n4 n5 n6 n7 n8 : vec3).

(** The inner loop body: one tet vertex, interpolated within the hex
    from the xi triple [tt]. *)
Definition hexInterp (tt : vec3) : vec3 :=
  let coeffs := basis_Hex1NL (_x tt) (_y tt) (_z tt) in
  vadd (vadd (vadd (vadd (vadd (vadd (vadd
    (vscale n1 (at_r coeffs 0)) (vscale n2 (at_r coeffs 1)))
    (vscale n3 (at_r coeffs 2))) (vscale n4 (at_r coeffs 3)))
    (vscale n5 (at_r coeffs 4))) (vscale n6 (at_r coeffs 5)))
    (vscale n7 (at_r coeffs 6))) (vscale n8 (at_r coeffs 7)).

(** [pointSearchLinTet] run on the tet built from one row of [divtets]. *)
Definition tetXi (row : list vec3) : vec3 :=
  let tet := map hexInterp row in
  pointSearchLinTet pt (at_v tet 0) (at_v tet 1) (at_v tet 2) (at_v tet 3).

(** The test [xi.isInUnitCube() && (xi.x()+xi.y()+xi.z())<=(1.0+dEPSILON)]. *)
Definition inSimplex (xi : vec3) : bool :=
  isInUnitCube xi rzero && ((_x xi + _y xi + _z xi) <=? (rone + dEPSILON)).

(** The value returned from inside the loop: the row's corner xi values
    weighted by the Tet1NL coefficients of [xi]. *)
Definition tetBlend (row : list vec3) (xi : vec3) : vec3 :=
  let coeffs := basis_Tet1NL (_x xi) (_y xi) (_z xi) in
  vadd (vadd (vadd (vscale (at_v row 0) (at_r coeffs 0))
                   (vscale (at_v row 1) (at_r coeffs 1)))
             (vscale (at_v row 2) (at_r coeffs 2)))
       (vscale (at_v row 3) (at_r coeffs 3)).

(** [for(int t=0;t<5;t++)] over the rows still to be searched, then the
    final [return vec3(-1)]. *)
Fixpoint searchTets (rows : list (list vec3)) : vec3 :=
  match rows with
  | [] => vec3_of (- rone)
  | row :: rest =>
      let xi := tetXi row in
      if inSimplex xi then tetBlend row xi else searchTets rest
  end.

Definition hexBounds : vec3 * vec3 :=
  let minv := setMinVals (setMinVals (setMinVals (setMinVals (setMinVals (setMinVals
                (setMinVals n1 n2) n3) n4) n5) n6) n7) n8 in
  let maxv := setMaxVals (setMaxVals (setMaxVals (setMaxVals (setMaxVals (setMaxVals
                (setMaxVals n1 n2) n3) n4) n5) n6) n7) n8 in
  (minv, maxv).

Definition pointSearchLinHex : vec3 :=
  let '(minv, maxv) := hexBounds in
  if negb (inAABB pt minv maxv) then vec3_of (- rone)
  else searchTets divtets.

(** [pointInHex]. *)
Definition pointInHex : bool := isInUnitCube pointSearchLinHex rzero.
End Hex.

(** [pointInTet]. *)
Definition pointInTet (pt n1 n2 n3 n4 : vec3) : bool :=
  let xi := pointSearchLinTet pt n1 n2 n3 n4 in
  isInUnitCube xi rzero && ((_x xi + _y xi + _z xi) <=? rone).

(** *** calculateHexValueIntersects *)

(** [typedef triple<sval,sval,real> intersect]. *)
Definition intersect : Type := triple nat nat real.

(** [static sval indices[][2]]: the edges between vertices of a hexahedron. *)
Definition indices : list (nat * nat) :=
  [ (0,1); (1,3); (3,2); (2,0); (4,5); (5,7); (7,6); (6,4); (0,4); (1,5); (2,6); (3,7) ]%nat.

(** The edge test [h1>=val ? h2<val : h2>=val]. *)
Definition edgeCrossed (val h1 h2 : real) : bool :=
  if h1 >=? val then h2 <? val else h2 >=? val.

(** The entry written for a crossed edge. *)
Definition edgeIntersect (absvals : list real) (i1 i2 : nat) : intersect :=
  let vsum := at_r absvals i1 + at_r absvals i2 in
  Triple i1 i2 (if vsum =? rzero then rzero else at_r absvals i1 / vsum).

(** [for(int i=0;i<12 && count<6;i++)] over the edges still to be checked;
    [results] holds the [count] entries written so far. *)
Fixpoint hexEdgeLoop (val : real) (vals absvals : list real) (edges : list (nat * nat))
    (count : nat) (results : list intersect) : nat * list intersect :=
  match edges with
  | [] => (count, results)
  | (i1, i2) :: rest =>
      if (count <? 6)%nat then
        let h1 := at_r vals i1 in
        let h2 := at_r vals i2 in
        if edgeCrossed val h1 h2
        then hexEdgeLoop val vals absvals rest (S count) (results ++ [edgeIntersect absvals i1 i2])
        else hexEdgeLoop val vals absvals rest count results
      else (count, results)
  end.

(** Returns the count and the entries written to [results]. *)
Definition calculateHexValueIntersects (val : real) (vals : list real) : nat * list intersect :=
  let absvals := map (fun i => fabs (val - at_r vals i)) (seq 0 8) in
  hexEdgeLoop val vals absvals indices 0%nat [].

(** The edges of a table whose endpoint heights pass the edge test, in
    table order. *)
Definition crossedEdges (val : real) (vals : list real) (edges : list (nat * nat))
    : list (nat * nat) :=
  List.filter (fun e => edgeCrossed val (at_r vals (fst e)) (at_r vals (snd e))) edges.

(** The entry of an edge, from the heights themselves: the fraction is
    [|val-h1| / (|val-h1| + |val-h2|)], or 0 when that sum is 0. *)
Definition edgeEntry (val : real) (vals : list real) (e : nat * nat) : intersect :=
  let a1 := fabs (val - at_r vals (fst e)) in
  let a2 := fabs (val - at_r vals (snd e)) in
  Triple (fst e) (snd e) (if a1 + a2 =? rzero then rzero else a1 / (a1 + a2)).

(** *** class Ray *)

Record Ray : Type := mkRay {
  pos : vec3; dir : vec3; invdir : vec3;
  signx : bool; signy : bool; signz : bool
}.

Definition realtriple : Type := triple real real real.

Definition intersectsTri (r : Ray) (v0 v1 v2 : vec3) : realtriple :=
  let e1 := vsub v1 v0 in
  let e2 := vsub v2 v0 in
  let p := cross (dir r) e2 in
  let det := dot e1 p in
  if equalsEpsilon det rzero then Triple (- rone) (- rone) (- rone) else
  let invdet := rone / det in
  let t := vsub (pos r) v0 in
  let u := dot p t * invdet in
  if (u <? rzero) || (u >? rone) then Triple (- rone) (- rone) (- rone) else
  let q := cross t e1 in
  let v := dot (dir r) q * invdet in
  if (v <? rzero) || ((u + v) >? rone) then Triple (- rone) (- rone) (- rone) else
  let len := dot e2 q * invdet in
  if len >? dEPSILON then Triple len u v
  else Triple (- rone) (- rone) (- rone).

(** [Ray::getPosition(t)]: [pos+(dir*t)]. *)
Definition getPosition (r : Ray) (t : real) : vec3 := vadd (pos r) (vscale (dir r) t).

(** The point of the triangle with coordinates [(u,v)], as the comment of
    [intersectsTri] gives it: [p=(1-u-v)*v0+u*v1+v*v2]. *)
Definition triPoint (v0 v1 v2 : vec3) (u v : real) : vec3 :=
  vadd (vadd (vscale v0 (rone - u - v)) (vscale v1 u)) (vscale v2 v).

(** The ray passes through the triangle at distance [t], at the point
    with coordinates [(u,v)]. *)
Definition passesThrough (r : Ray) (v0 v1 v2 : vec3) (t u v : real) : bool :=
  (t >? rzero) && (u >=? rzero) && (v >=? rzero) && (u + v <=? rone)
  && (_x (getPosition r t) =? _x (triPoint v0 v1 v2 u v))
  && (_y (getPosition r t) =? _y (triPoint v0 v1 v2 u v))
  && (_z (getPosition r t) =? _z (triPoint v0 v1 v2 u v)).

(** The determinant and the three quotients [intersectsTri] computes, and
    the conjunction of its four tests. *)
Definition triDet (r : Ray) (v0 v1 v2 : vec3) : real :=
  dot (vsub v1 v0) (cross (dir r) (vsub v2 v0)).
Definition triU (r : Ray) (v0 v1 v2 : vec3) : real :=
  dot (cross (dir r) (vsub v2 v0)) (vsub (pos r) v0) * (rone / triDet r v0 v1 v2).
Definition triV (r : Ray) (v0 v1 v2 : vec3) : real :=
  dot (dir r) (cross (vsub (pos r) v0) (vsub v1 v0)) * (rone / triDet r v0 v1 v2).
Definition triLen (r : Ray) (v0 v1 v2 : vec3) : real :=
  dot (vsub v2 v0) (cross (vsub (pos r) v0) (vsub v1 v0)) * (rone / triDet r v0 v1 v2).
Definition triAccepts (r : Ray) (v0 v1 v2 : vec3) : bool :=
  negb (equalsEpsilon (triDet r v0 v1 v2) rzero)
  && negb ((triU r v0 v1 v2 <? rzero) || (triU r v0 v1 v2 >? rone))
  && negb ((triV r v0 v1 v2 <? rzero) || (triU r v0 v1 v2 + triV r v0 v1 v2 >? rone))
  && (triLen r v0 v1 v2 >? dEPSILON).

(** [Ray(pos,dir)] through [setDirection], which throws
    [std::invalid_argument] (here [None]) when [v.isZero()]. *)
Definition Ray_new {sq : RealSqrt real} (p v : vec3) : option Ray :=
  if isZero v then None else
  let d := norm v in
  let i := inv d in
  Some (mkRay p d i (_x i <? rzero) (_y i <? rzero) (_z i <? rzero)).
End Routines.
Arguments Ray real : clear implicits.
Arguments intersect real : clear implicits.
Arguments realtriple real : clear implicits.

(** A corner value of the reference cell: xi is 0 or 1. *)
Definition corner (b : bool) : float := if b then 1%float else 0%float.

(** Equality of points in exact arithmetic. *)
Definition vec_eq (a b : vec3 Q) : Prop := (_x a == _x b /\ _y a == _y b /\ _z a == _z b)%Q.
End Geometry.
Export Geometry.

(** ** Endian swaps of RenderTypes.h *)

Module Endian.
Local Open Scope Z_scope.

(** [union {T v; u8 b[sizeof(T)];}]: a value of a [size]-byte type is its
    object representation, an integer below [256^size]; [b] lists its
    bytes as they lie in memory on the (little-endian) host. *)
Fixpoint to_bytes (size : nat) (v : Z) : list Z :=
  match size with
  | O => []
  | S k => (v mod 256) :: to_bytes k (v / 256)
  end.

Fixpoint from_bytes (b : list Z) : Z :=
  match b with
  | [] => 0
  | x :: r => x + 256 * from_bytes r
  end.

Definition byte_at (b : list Z) (i : nat) : Z := nth i b 0.

(** [swapEndianN]: [for(x=0;x<sizeof(T);x++) dst.b[x]=src.b[sizeof(T)-x-1];] *)
Definition swapEndianN (size : nat) (t : Z) : Z :=
  let src := to_bytes size t in
  from_bytes (map (fun x => byte_at src (size - x - 1)) (seq 0 size)).

Definition swapEndian32 (t : Z) : Z :=
  let src := to_bytes 4 t in
  from_bytes [ byte_at src 3; byte_at src 2; byte_at src 1; byte_at src 0 ].

Definition swapEndian64 (t : Z) : Z :=
  let src := to_bytes 8 t in
  from_bytes [ byte_at src 7; byte_at src 6; byte_at src 5; byte_at src 4;
               byte_at src 3; byte_at src 2; byte_at src 1; byte_at src 0 ].

Definition is_byte (b : Z) : Prop := 0 <= b < 256.

(** A value fits its type. *)
Definition fits (size : nat) (v : Z) : Prop := 0 <= v < 256 ^ Z.of_nat size.

(** The element types of the four matrix typedefs, as object
    representations: [real] is a double (8 bytes), [indexval] a u32,
    [vec3] three doubles, [color] four floats (4 bytes each). *)
Definition real_bits : Type := Z.
Definition indexval : Type := Z.
Definition vec3_bits : Type := vec3 Z.
Record color : Type := Color { _r : Z; _g : Z; _b : Z; _a : Z }.

(** [template<typename T> struct SwapEndian] and its specialisations. *)
Class SwapEndian (T : Type) : Type := { swap : T -> T }.

Definition SwapEndian_real : SwapEndian real_bits := {| swap := swapEndian64 |}.
Definition SwapEndian_indexval : SwapEndian indexval := {| swap := swapEndian32 |}.
Definition SwapEndian_vec3 : SwapEndian vec3_bits :=
  {| swap := fun t => Vec3 (swapEndian64 (_x t)) (swapEndian64 (_y t)) (swapEndian64 (_z t)) |}.
Definition SwapEndian_color : SwapEndian color :=
  {| swap := fun t => Color (swapEndian32 (_r t)) (swapEndian32 (_g t))
                            (swapEndian32 (_b t)) (swapEndian32 (_a t)) |}.
(** The unspecialised template, for a scalar type of [size] bytes. *)
Definition SwapEndian_N (size : nat) : SwapEndian Z := {| swap := swapEndianN size |}.

(** Well-formed elements of each type. *)
Definition fits_real (x : real_bits) : Prop := fits 8 x.
Definition fits_indexval (x : indexval) : Prop := fits 4 x.
Definition fits_vec3 (v : vec3_bits) : Prop := fits 8 (_x v) /\ fits 8 (_y v) /\ fits 8 (_z v).
Definition fits_color (c : color) : Prop :=
  fits 4 (_r c) /\ fits 4 (_g c) /\ fits 4 (_b c) /\ fits 4 (_a c).
End Endian.
Export Endian.

(** ** Exceptions and the state-and-exception monad of the Matrix methods *)

Module Mem.
(** [MemException] carries its message, [IndexException] the index name,
    the offending value and the bound. *)
Inductive exn : Type :=
| MemException (msg : string)
| IndexException (name : string) (val maxval : Z).

Inductive outcome (A : Type) : Type :=
| Returns (a : A)
| Throws (e : exn).
Arguments Returns {A} _.
Arguments Throws {A} _.

(** A method runs on a state and leaves a state, also when it throws. *)
Definition M (S A : Type) : Type := S -> outcome A * S.

Definition ret {S A} (a : A) : M S A := fun s => (Returns a, s).
Definition throw {S A} (e : exn) : M S A := fun s => (Throws e, s).
Definition bind {S A B} (c : M S A) (k : A -> M S B) : M S B :=
  fun s => match c s with
           | (Returns a, s') => k a s'
           | (Throws e, s') => (Throws e, s')
           end.
Definition get {S} : M S S := fun s => (Returns s, s).
Definition put {S} (s : S) : M S unit := fun _ => (Returns tt, s).
Definition modify {S} (f : S -> S) : M S unit := fun s => (Returns tt, f s).

(** [for] over a list of indices, stopping at the first throw. *)
Fixpoint for_each {S A} (l : list A) (body : A -> M S unit) : M S unit :=
  match l with
  | [] => ret tt
  | a :: r => bind (body a) (fun _ => for_each r body)
  end.
End Mem.
Export Mem.

Notation "c >>= k" := (bind c k) (at level 58, left associativity).
Notation "c >> d" := (bind c (fun _ => d)) (at level 58, left associativity).

(** ** template<typename T> class Matrix *)

Module Mat.
Local Open Scope Z_scope.

(** [typedef u32 sval]: arithmetic on size values wraps at 32 bits. *)
Definition u32 (z : Z) : Z := z mod 2 ^ 32.

(** What [Matrix<T>] needs of [T]: [sizeof(T)] and the value whose bytes
    are all zero, which is what [memset(p,0,len)] leaves in every cell. *)
Class Element (T : Type) : Type := { sizeofT : Z; zeroT : T }.

Definition Element_real : Element real_bits := {| sizeofT := 8; zeroT := 0 |}.
Definition Element_indexval : Element indexval := {| sizeofT := 4; zeroT := 0 |}.
Definition Element_vec3 : Element vec3_bits := {| sizeofT := 24; zeroT := Vec3 0 0 0 |}.
Definition Element_color : Element color := {| sizeofT := 16; zeroT := Color 0 0 0 0 |}.

(** The named POSIX shared memory objects of the host, each with its
    length in bytes, and the process ids that segment names are built
    from.  Only the failures that depend on this state are modelled:
    [EEXIST] from an exclusive [shm_open] and [EINVAL] from a zero-length
    [mmap]. *)
Record World : Type := mkWorld {
  pid : Z;
  ppid : Z;
  segments : gmap string Z
}.

Inductive errno : Type := EEXIST | EINVAL.
Definition strerror (e : errno) : string :=
  match e with EEXIST => "File exists" | EINVAL => "Invalid argument" end.

(** [MemException(m,err)]: the message, then the text of the error. *)
Definition MemExceptionErrno (m : string) (e : errno) : exn :=
  MemException (m +:+ ": errno: " +:+ strerror e).

(** [MAXSHMNAMLEN] is [NAME_MAX] on Linux. *)
Definition MAXSHMNAMLEN : nat := 255.

Definition hex_digit (d : Z) : ascii :=
  nth (Z.to_nat d) (String.list_ascii_of_string "0123456789abcdef") "0"%char.

(** [out << std::hex << counter] for a positive [int]. *)
Fixpoint hex_go (fuel : nat) (x : Z) (acc : string) : string :=
  match fuel with
  | O => acc
  | S f =>
      let acc' := String (hex_digit (x mod 16)) acc in
      if x / 16 =? 0 then acc' else hex_go f (x / 16) acc'
  end.
Definition hex (x : Z) : string := hex_go 8 x "".

(** What [c_str()] shows to a C function: the characters before the
    first NUL. *)
Fixpoint c_str (s : string) : string :=
  match s with
  | EmptyString => EmptyString
  | String c r => if Ascii.eqb c "000"%char then EmptyString else String c (c_str r)
  end.

Definition replace_slash (s : string) : string :=
  String.string_of_list_ascii
    (map (fun c => if Ascii.eqb c "/"%char then "_"%char else c) (String.list_ascii_of_string s)).

Definition truncate_name (s : string) : string :=
  if (MAXSHMNAMLEN <=? String.length s)%nat
  then String.string_of_list_ascii (<[(MAXSHMNAMLEN - 1)%nat := "000"%char]> (String.list_ascii_of_string s))
  else s.

(** [shm_open(name, O_CREAT|O_RDWR|(excl ? O_EXCL : 0), ...)]: [None] is a
    valid descriptor. *)
Definition shm_open (name : string) (excl : bool) (w : World) : option errno * World :=
  match segments w !! name with
  | Some _ => if excl then (Some EEXIST, w) else (None, w)
  | None => (None, mkWorld (pid w) (ppid w) (<[name := 0]> (segments w)))
  end.

Definition ftruncate (name : string) (size : Z) (w : World) : World :=
  mkWorld (pid w) (ppid w) (<[name := size]> (segments w)).

Definition shm_unlink (name : string) (w : World) : World :=
  mkWorld (pid w) (ppid w) (delete name (segments w)).

(** A run of stores into an array: [d[f j] = g j] for each [j] of [js] in
    turn. *)
Definition insert_all {T J : Type} (f : J -> nat) (g : J -> T) (js : list J) (d : list T)
    : list T :=
  foldl (fun d j => <[f j := g j]> d) d js.

(** The growth policy in the words of the specification:
    [max(1000, ceil(current_rows * 1.5) + requested)]. *)
Definition spec_capacity (rows requested : Z) : Z :=
  Z.max 1000 ((rows * 3 + 1) / 2 + requested).

(** The growth policy as the comment of [resize] gives it,
    [max(1000,(_n*1.5)+reserveNum)] with the product rounded down, or just
    [_n] on the first allocation. *)
Definition grown_capacity (allocated : bool) (rows requested : Z) : Z :=
  if allocated then Z.max 1000 (rows * 3 / 2 + requested) else rows.

(** The row counts and requests for which the [sval] computations of
    [resize] do not wrap: [_n+reserveNum] always, and [_n*3] and
    [(_n*3)/2+reserveNum] when there is storage already (the first
    allocation does not compute them). *)
Definition no_wrap (allocated : bool) (rows requested : Z) : Prop :=
  rows + requested < 2 ^ 32
  /\ (allocated = true -> 3 * rows < 2 ^ 32 /\ rows * 3 / 2 + requested < 2 ^ 32).

Section Matrix.
Context {T : Type} {elem : Element T}.

Record Matrix : Type := mkMatrix {
  _name : string;
  _type : string;
  _sharedname : string;
  data : option (list T);
  _n_actual : Z;
  _n : Z;
  _m : Z;
  _isShared : bool
}.

Definition set_sharedname (s : string) (a : Matrix) : Matrix :=
  mkMatrix (_name a) (_type a) s (data a) (_n_actual a) (_n a) (_m a) (_isShared a).
Definition set_data (d : option (list T)) (a : Matrix) : Matrix :=
  mkMatrix (_name a) (_type a) (_sharedname a) d (_n_actual a) (_n a) (_m a) (_isShared a).
Definition set_n_actual (k : Z) (a : Matrix) : Matrix :=
  mkMatrix (_name a) (_type a) (_sharedname a) (data a) k (_n a) (_m a) (_isShared a).
Definition set_n (k : Z) (a : Matrix) : Matrix :=
  mkMatrix (_name a) (_type a) (_sharedname a) (data a) (_n_actual a) k (_m a) (_isShared a).
Definition set_m (k : Z) (a : Matrix) : Matrix :=
  mkMatrix (_name a) (_type a) (_sharedname a) (data a) (_n_actual a) (_n a) k (_isShared a).
Definition set_isShared (b : bool) (a : Matrix) : Matrix :=
  mkMatrix (_name a) (_type a) (_sharedname a) (data a) (_n_actual a) (_n a) (_m a) b.

(** The object and the host it runs on. *)
Record Env : Type := mkEnv { this : Matrix; os : World }.

Definition on_this (f : Matrix -> Matrix) : M Env unit :=
  modify (fun e => mkEnv (f (this e)) (os e)).
Definition on_os (f : World -> World) : M Env unit :=
  modify (fun e => mkEnv (this e) (f (os e))).
Definition self : M Env Matrix := fun e => (Returns (this e), e).

(** [memSize]: [sval(sizeof(T)*_n*_m)]. *)
Definition memSize (a : Matrix) : Z := u32 (sizeofT * _n a * _m a).

(** [_max<sval>]. *)
Definition _max_sval (a b : Z) : Z := if a >? b then a else b.

(** [memset(p,0,count*sizeof(T))] on a fresh array of [count] cells. *)
Definition zeros (count : Z) : list T := replicate (Z.to_nat count) zeroT.

(** [memcpy(dst,src,count*sizeof(T))].  A copy that runs past the end of
    either array is undefined in C++; here it stops there. *)
Definition memcpy (dst src : list T) (count : Z) : list T :=
  let copied := take (length dst) (take (Z.to_nat count) src) in
  copied ++ drop (length copied) dst.

(** [data[i]], and [data[i]=t].  Through a NULL pointer or past the end
    of the array both are undefined in C++; here the read gives the zero
    cell and the write does nothing. *)
Definition cell (a : Matrix) (i : Z) : T :=
  match data a with
  | Some d => nth (Z.to_nat i) d zeroT
  | None => zeroT
  end.
Definition store (i : Z) (t : T) (a : Matrix) : Matrix :=
  set_data (option_map (fun d => <[Z.to_nat i := t]> d) (data a)) a.

(** The index [m+(_m*n)] of [at], [atc], [ats] and [getIndex]. *)
Definition index (a : Matrix) (n m : Z) : Z := u32 (m + u32 (_m a * n)).
(** [at(n,m)] as an rvalue. *)
Definition at_ (a : Matrix) (n m : Z) : T := cell a (index a n m).
(** [ats(n,m,t)], and [at(n,m)=t]. *)
Definition ats (n m : Z) (t : T) (a : Matrix) : Matrix := store (index a n m) t a.

Definition checkIndex (name : string) (val maxval : Z) : M Env unit :=
  if val >=? maxval then throw (IndexException name val maxval) else ret tt.

Definition checkNotShared : M Env unit :=
  self >>= fun a =>
  if _isShared a
  then throw (MemException "Operation may only be performed on non-shared matrices")
  else ret tt.

Definition getIndex (n m : Z) : M Env Z :=
  self >>= fun a =>
  checkIndex "n" n (_n a) >>
  checkIndex "m" m (_m a) >>
  ret (index a n m).

Definition getAt (n m : Z) : M Env T :=
  getIndex n m >>= fun i => self >>= fun a => ret (cell a i).

Definition setAt (t : T) (n m : Z) : M Env unit :=
  getIndex n m >>= fun i => on_this (store i t).

(** [resize(reserveNum)]. *)
Definition resize (reserveNum : Z) : M Env unit :=
  self >>= fun a =>
  if (u32 (_n a + reserveNum) <=? _n_actual a) && negb (_isShared a) then ret tt else
  let new_n_actual :=
    match data a with
    | None => _n a
    | Some _ => _max_sval 1000 (u32 (u32 (_n a * 3) / 2 + reserveNum))
    end in
  if (new_n_actual <? _n_actual a) && negb (_isShared a) then ret tt else
  let olddata := data a in
  let fresh := zeros (u32 (new_n_actual * _m a)) in
  let newdata :=
    match olddata with
    | Some old => memcpy fresh old (u32 (_n_actual a * _m a))
    | None => fresh
    end in
  on_this (fun a => set_n_actual new_n_actual (set_data (Some newdata) a)).

(** [chooseSharedName(counter)], the Linux branch. *)
Definition chooseSharedName (counter : Z) : M Env unit :=
  modify (fun e =>
    let out := "__viz__" +:+ pretty (ppid (os e)) +:+ "_" +:+ pretty (pid (os e))
               +:+ (if counter >? 0 then "_" +:+ hex counter else "")
               +:+ "_" +:+ _name (this e) in
    mkEnv (set_sharedname (truncate_name (replace_slash out)) (this e)) (os e)).

(** The retry loop of [createShared]:
    [for(int c=1;c<100000 && isCreator && shm_fd==-1 && errno==EEXIST;c++)].
    [fd] is the result of the previous [shm_open]. *)
Fixpoint retryNames (fuel : nat) (c : Z) (isCreator : bool) (fd : option errno)
    : M Env (option errno) :=
  match fuel with
  | O => ret fd
  | S f =>
      match fd with
      | Some EEXIST =>
          if (c <? 100000) && isCreator then
            chooseSharedName c >>
            (fun e =>
               let '(fd', w) := shm_open (c_str (_sharedname (this e))) true (os e) in
               (Returns fd', mkEnv (this e) w)) >>= fun fd' =>
            retryNames f (c + 1) isCreator fd'
          else ret fd
      | _ => ret fd
      end
  end.

(** [createShared], the Linux/OSX branch.  The result stands for the
    mapped pointer: an array of [size/sizeof(T)] cells.  Its content is
    that of the segment, zero for a segment just created; every caller
    in this model overwrites all [size] bytes. *)
Definition createShared : M Env (list T) :=
  self >>= fun a =>
  let size := memSize a in
  let isCreator := String.eqb (_sharedname a) "" in
  (if isCreator then chooseSharedName 0 else ret tt) >>
  (fun e =>
     let '(fd, w) := shm_open (c_str (_sharedname (this e))) isCreator (os e) in
     (Returns fd, mkEnv (this e) w)) >>= fun fd =>
  retryNames (Z.to_nat 99999) 1 isCreator fd >>= fun fd =>
  self >>= fun a =>
  match fd with
  | Some err =>
      throw (MemExceptionErrno
               ("Unable to open shared memory descriptor, filename:" +:+ _sharedname a) err)
  | None =>
      (if isCreator then on_os (ftruncate (c_str (_sharedname a)) size) else ret tt) >>
      if size =? 0 then
        (if isCreator then on_os (shm_unlink (c_str (_sharedname a))) else ret tt) >>
        throw (MemExceptionErrno "Unable to mmap shared memory" EINVAL)
      else
        ret (zeros (size / sizeofT))
  end.

(** [closeShared(ptr)]: [munmap], then the name is forgotten. *)
Definition closeShared (ptr : option (list T)) : M Env unit :=
  match ptr with
  | None => ret tt
  | Some _ => on_this (set_sharedname "")
  end.

(** [unlinkShared(name)] of RenderTypes.cpp. *)
Definition unlinkShared (name : string) : M Env unit := on_os (shm_unlink (c_str name)).

Definition is_allocated (a : Matrix) : bool :=
  match data a with Some _ => true | None => false end.

Definition setShared (val : bool) : M Env unit :=
  self >>= fun a =>
  if is_allocated a && Bool.eqb val (_isShared a) then ret tt else
  (if val then
     let size := memSize a in
     if size =? 0 then throw (MemException "Cannot make empty matrix shared") else
     on_this (set_n_actual (_n a)) >>
     createShared >>= fun shared =>
     on_this (set_data (Some
       match data a with
       | Some d => memcpy shared d (size / sizeofT)
       | None => zeros (size / sizeofT)
       end))
   else
     let olddata := data a in
     resize 0 >>
     closeShared olddata) >>
  on_this (set_isShared val).

(** [Matrix(name,n,m,isShared)] and [Matrix(name,type,n,m,isShared)]. *)
Definition Matrix_new (name type : string) (n m : Z) (isShared : bool) (w : World)
    : outcome unit * Env :=
  setShared isShared (mkEnv (mkMatrix name type "" None 0 n m false) w).

Definition clear : M Env unit :=
  self >>= fun a =>
  (match data a with
   | Some _ =>
       if _isShared a then
         closeShared (data a) >>
         self >>= fun a' => unlinkShared (_sharedname a')
       else ret tt
   | None => ret tt
   end) >>
  on_this (fun a => set_data None (set_isShared false (set_n 0 (set_n_actual 0 a)))).

(** [fill(t)]: the first [_n*_m] cells. *)
Definition fill (t : T) : M Env unit :=
  on_this (fun a =>
    foldl (fun a i => store i t a) a (seqZ 0 (u32 (_n a * _m a)))).

Definition setN (_newn : Z) : M Env unit :=
  checkNotShared >> on_this (set_n _newn) >> resize 0.

Definition setM (_newm : Z) : M Env unit :=
  checkNotShared >>
  self >>= fun a =>
  let _newm := _max_sval 1 _newm in
  if _newm >? u32 (_m a * _n a) then throw (MemException "New m value larger than matrix size")
  else on_this (fun a => set_m _newm (set_n (u32 (_n a * _m a) / _newm) a)).

Definition addRows (num : Z) : M Env unit :=
  self >>= fun a => setN (u32 (_n a + num)).

Definition reserveRows (num : Z) : M Env unit :=
  checkNotShared >> resize num.

(** A [const Matrix<T>&] argument refers to another object or to the
    object the method is called on; [deref] reads it, given that object
    as it is at the time of the read. *)
Inductive matrix_ref : Type :=
| other_matrix (t : Matrix)
| this_matrix.
Definition deref (t : matrix_ref) (a : Matrix) : Matrix :=
  match t with other_matrix o => o | this_matrix => a end.

(** [append(const Matrix<T>& t)].  [t.m()] and [t.n()] are read before
    [addRows], [t.data] and [t.memSize()] after it, so that [a.append(a)]
    copies from the grown object.  Source and destination then overlap,
    which is undefined for [memcpy]; here the source is read as it is
    before the copy. *)
Definition append_matrix (t : matrix_ref) : M Env unit :=
  self >>= fun a =>
  if negb (_m (deref t a) =? _m a)
  then throw (MemException "Column dimensions of `this' and `t' do not match")
  else
    let oldn := _n a in
    addRows (_n (deref t a)) >>
    on_this (fun a =>
      let src := deref t a in
      let off := Z.to_nat (u32 (_m a * oldn)) in
      set_data
        (option_map (fun d =>
           take off d ++ memcpy (drop off d)
                                (match data src with Some s => s | None => [] end)
                                (memSize src / sizeofT))
           (data a)) a).

(** [append(const T& t,sval m=0)]. *)
Definition append (t : T) (m : Z) : M Env unit :=
  addRows 1 >>
  on_this (fun a => ats (u32 (_n a - 1)) m t a).

Definition removeRow (n : Z) : M Env unit :=
  checkNotShared >>
  self >>= fun a =>
  checkIndex "n" n (_n a) >>
  (if n <? u32 (_n a - 1) then
     on_this (fun a =>
       let dst := Z.to_nat (u32 (n * _m a)) in
       let src := Z.to_nat (u32 (u32 (n + 1) * _m a)) in
       let count := u32 (u32 (u32 (_n a - n) - 1) * _m a) in
       set_data
         (option_map (fun d => take dst d ++ memcpy (drop dst d) (drop src d) count) (data a)) a)
   else ret tt) >>
  setN (u32 (_n a - 1)).

(** [reorderColumns(orderinds)]: [orderinds] points to an array of at
    least [_m] indices. *)
Definition orderind (orderinds : list Z) (j : Z) : Z := nth (Z.to_nat j) orderinds 0.

Definition reorderRow (orderinds : list Z) (a : Matrix) (i : Z) : Matrix :=
  let buff := map (fun j => at_ a i j) (seqZ 0 (_m a)) in
  foldl (fun a j => ats i j (nth (Z.to_nat (orderind orderinds j)) buff zeroT) a)
        a (seqZ 0 (_m a)).

Definition reorderColumns (orderinds : list Z) : M Env unit :=
  self >>= fun a =>
  for_each (seqZ 0 (_m a)) (fun j => checkIndex "sortinds" (orderind orderinds j) (_m a)) >>
  on_this (fun a => foldl (reorderRow orderinds) a (seqZ 0 (_n a))).

(** One row of [reorderColumns] and its first [k] rows, on the cell
    array; [m] is the column count. *)
Definition reorderRowData (orderinds : list Z) (m i : Z) (d : list T) : list T :=
  insert_all (fun j => Z.to_nat (u32 (j + u32 (m * i))))
             (fun j => nth (Z.to_nat (orderind orderinds j))
                           (map (fun j' => nth (Z.to_nat (u32 (j' + u32 (m * i)))) d zeroT)
                                (seqZ 0 m)) zeroT)
             (seqZ 0 m) d.
Definition reorderRowsData (orderinds : list Z) (m : Z) (d : list T) (k : nat) : list T :=
  foldl (fun d i => reorderRowData orderinds m i d) d (seqZ 0 (Z.of_nat k)).

(** Two objects of the same dimensions, capacity and mode. *)
Definition same_shape (a a' : Matrix) : Prop :=
  _n a' = _n a /\ _m a' = _m a /\ _n_actual a' = _n_actual a /\ _isShared a' = _isShared a.

(** The capacity left by a method call. *)
Definition capacity_after {A} (res : outcome A * Env) : Z := _n_actual (this (snd res)).

(** [f] applied to the first [k] cells of an array. *)
Definition map_prefix (f : T -> T) (k : nat) (d : list T) : list T :=
  map f (take k d) ++ drop k d.

(** Every cell of the stored array is a well-formed element. *)
Definition cells_valid (valid : T -> Prop) (a : Matrix) : Prop :=
  match data a with Some d => Forall valid d | None => True end.

Context {swapper : SwapEndian T}.

(** [swapEndian]: [for(sval i=0;i<len;i++) data[i]=SwapEndian<T>::swap(data[i]);] *)
Definition swapEndian : M Env unit :=
  on_this (fun a =>
    let len := u32 (_n a * _m a) in
    foldl (fun a i => store i (swap (cell a i)) a) a (seqZ 0 len)).
End Matrix.
Arguments Matrix T : clear implicits.
Arguments matrix_ref T : clear implicits.
Arguments Env T : clear implicits.
End Mat.
Export Mat.

(** ** The objects of the examples *)

Module Examples.
Local Open Scope Z_scope.

(** A host with no shared segment; a local 2x2 matrix of reals holding 4 at
    (0,0) and 9 at (1,1); the same matrix placed in shared memory; local
    one-column matrices of 1000 rows and of no row. *)
Definition host0 : World := mkWorld 42 7 ∅.
Definition local_2x2 : Env real_bits :=
  snd (setAt 9 1 1
        (snd (setAt 4 0 0
               (snd (Matrix_new (elem := Element_real) "m" "" 2 2 false host0))))).
Definition shared_2x2 : Env real_bits := snd (setShared (elem := Element_real) true local_2x2).
Definition rows_1000 : Env real_bits :=
  snd (Matrix_new (elem := Element_real) "m" "" 1000 1 false host0).
Definition rows_0 : Env real_bits :=
  snd (Matrix_new (elem := Element_real) "m" "" 0 1 false host0).
End Examples.
Export Examples.

(** ** Matrix: the representation invariant and [indexOf] *)

Module MatInv.
Local Open Scope Z_scope.
Section Matrix.
Context {T : Type} {elem : Element T}.

(** The storage of a matrix as its members describe it: [data] points to
    [_n_actual*_m] cells, or is NULL with no capacity. *)
Definition stored (a : Matrix T) : Prop :=
  match data a with
  | Some d => Z.of_nat (length d) = _n_actual a * _m a
  | None => _n_actual a = 0
  end.

(** The representation invariant read off the member comments
    ([_n_actual]: actual length of allocated data, [>=_n]), for sizes
    within 32 bits. *)
Definition well_formed (a : Matrix T) : Prop :=
  0 <= _n a <= _n_actual a /\ _n_actual a < 2 ^ 32 /\ 0 <= _m a < 2 ^ 32
  /\ _n_actual a * _m a < 2 ^ 32 /\ stored a.
End Matrix.
End MatInv.
Export MatInv.

Module MatSearch.
Local Open Scope Z_scope.
Section Matrix.
Context {T : Type} {elem : Element T}.


End Matrix.
End MatSearch.
Export MatSearch.

(** ** class MetaType *)

Module Meta.

(** [std::map<std::string,std::string> _meta]. *)
Abbreviation metamap := (gmap string string).

(** The pairs of the map in key order, as a [std::map] iterates them. *)
Definition key_le (p q : string * string) : Prop := String.leb p.1 q.1 = true.
#[export] Instance key_le_dec : RelDecision key_le :=
  fun p q => decide (String.leb p.1 q.1 = true).
Definition pairs (m : metamap) : list (string * string) := merge_sort key_le (map_to_list m).

(** [s.erase(std::remove(s.begin(),s.end(),'|'),s.end())]. *)
Fixpoint strip_bar (s : string) : string :=
  match s with
  | EmptyString => EmptyString
  | String c r => if Ascii.eqb c "|"%char then strip_bar r else String c (strip_bar r)
  end.

(** [hasMetaKey(key)]: the key looked up is the C string [key]. *)
Definition hasMetaKey (key : string) (m : metamap) : bool :=
  bool_decide (is_Some (m !! c_str key)).

(** [getMetaKeys()]. *)
Definition getMetaKeys (m : metamap) : list string := (pairs m).*1.

(** [meta(key)]: the value as a C string, or the empty string. *)
Definition meta (key : string) (m : metamap) : string :=
  match m !! c_str key with
  | Some v => c_str v
  | None => EmptyString
  end.

(** [meta(key,val)]; [None] is a NULL pointer. *)
Definition meta_set (key val : option string) (m : metamap) : metamap :=
  match key, val with
  | Some k, Some v => <[strip_bar (c_str k) := strip_bar (c_str v)]> m
  | _, _ => m
  end.

(** [meta(const MetaType* m)]: every pair of [src], in key order. *)
Definition meta_copy (src m : metamap) : metamap :=
  foldl (fun m p => meta_set (Some p.1) (Some p.2) m) m (pairs src).

(** [serializeMeta()]. *)
Definition serializeMeta (m : metamap) : string :=
  foldr (fun p out => p.1 +:+ "||" +:+ p.2 +:+ "||" +:+ out) EmptyString (pairs m).

(** The string [serializeMeta] writes for a list of pairs. *)
Definition serialize_pairs (l : list (string * string)) : string :=
  foldr (fun p out => p.1 +:+ "||" +:+ p.2 +:+ "||" +:+ out) EmptyString l.

(** The fields of a string between delimiters [d], empty ones included. *)
Fixpoint fields (d : ascii) (s : string) : list string :=
  match s with
  | EmptyString => [EmptyString]
  | String c r =>
      if Ascii.eqb c d then EmptyString :: fields d r
      else match fields d r with
           | t :: ts => String c t :: ts
           | [] => [String c EmptyString]
           end
  end.

(** What [strtok(buf,d)] and the following [strtok(NULL,d)] return, call
    after call, before the final NULL: the runs of characters of [buf]
    between delimiters that are not empty. *)
Definition strtok_all (d : ascii) (buf : string) : list string :=
  List.filter (fun t => negb (String.eqb t EmptyString)) (fields d buf).

(** The loop of [deserializeMeta] over the tokens still to come.  With a
    key as the last token, [std::string val=p] is built from a NULL
    pointer, which is undefined: [None]. *)
Fixpoint store_tokens (toks : list string) (m : metamap) : option metamap :=
  match toks with
  | [] => Some m
  | key :: rest =>
      match rest with
      | [] => None
      | val :: rest' => store_tokens rest' (<[key := val]> m)
      end
  end.

(** [deserializeMeta(s)]: [strcpy] copies the C string of [s]. *)
Definition deserializeMeta (s : string) (m : metamap) : option metamap :=
  store_tokens (strtok_all "|"%char (c_str s)) m.

(** A string as [meta(key,val)] stores it and [serializeMeta] can carry
    it: no ['|'], no NUL. *)
Definition plain (s : string) : Prop :=
  ("|"%char ∉ String.list_ascii_of_string s) /\ ("000"%char ∉ String.list_ascii_of_string s).

(** Every key and value of the map is plain. *)
Definition plain_map (m : metamap) : Prop :=
  forall k v, m !! k = Some v -> plain k /\ plain v.
End Meta.
Export Meta.

(** ** class mat4 *)

Module Linear.
Section Mat4.
Context {real : Type} {ops : RealOps real}.
Local Open Scope real_scope.
Local Abbreviation vec3 := (vec3 real).

Record mat4 : Type := Mat4 {
  m00 : real; m01 : real; m02 : real; m03 : real;
  m10 : real; m11 : real; m12 : real; m13 : real;
  m20 : real; m21 : real; m22 : real; m23 : real;
  m30 : real; m31 : real; m32 : real; m33 : real
}.

(** [ident()]. *)
Definition ident : mat4 :=
  Mat4 rone rzero rzero rzero  rzero rone rzero rzero
       rzero rzero rone rzero  rzero rzero rzero rone.

(** [vec3 operator / (real v)]. *)
Definition vdiv (a : vec3) (v : real) : vec3 := Vec3 (_x a / v) (_y a / v) (_z a / v).

(** [vec3 operator * (const vec3& v)] of [mat4]. *)
Definition mat4_apply (a : mat4) (v : vec3) : vec3 :=
  let vv := Vec3 (m00 a * _x v + m01 a * _y v + m02 a * _z v + m03 a)
                 (m10 a * _x v + m11 a * _y v + m12 a * _z v + m13 a)
                 (m20 a * _x v + m21 a * _y v + m22 a * _z v + m23 a) in
  let d := m30 a * _x v + m31 a * _y v + m32 a * _z v + m33 a in
  if d =? rzero then vec3_of rzero else vdiv vv d.

(** [mat4 operator * (const mat4& m)]; [a] is the object. *)
Definition mat4_mul (a m : mat4) : mat4 :=
  Mat4
    (m00 m * m00 a + m10 m * m01 a + m20 m * m02 a + m30 m * m03 a)
    (m01 m * m00 a + m11 m * m01 a + m21 m * m02 a + m31 m * m03 a)
    (m02 m * m00 a + m12 m * m01 a + m22 m * m02 a + m32 m * m03 a)
    (m03 m * m00 a + m13 m * m01 a + m23 m * m02 a + m33 m * m03 a)
    (m00 m * m10 a + m10 m * m11 a + m20 m * m12 a + m30 m * m13 a)
    (m01 m * m10 a + m11 m * m11 a + m21 m * m12 a + m31 m * m13 a)
    (m02 m * m10 a + m12 m * m11 a + m22 m * m12 a + m32 m * m13 a)
    (m03 m * m10 a + m13 m * m11 a + m23 m * m12 a + m33 m * m13 a)
    (m00 m * m20 a + m10 m * m21 a + m20 m * m22 a + m30 m * m23 a)
    (m01 m * m20 a + m11 m * m21 a + m21 m * m22 a + m31 m * m23 a)
    (m02 m * m20 a + m12 m * m21 a + m22 m * m22 a + m32 m * m23 a)
    (m03 m * m20 a + m13 m * m21 a + m23 m * m22 a + m33 m * m23 a)
    (m00 m * m30 a + m10 m * m31 a + m20 m * m32 a + m30 m * m33 a)
    (m01 m * m30 a + m11 m * m31 a + m21 m * m32 a + m31 m * m33 a)
    (m02 m * m30 a + m12 m * m31 a + m22 m * m32 a + m32 m * m33 a)
    (m03 m * m30 a + m13 m * m31 a + m23 m * m32 a + m33 m * m33 a).

(** [determinant()]. *)
Definition determinant (a : mat4) : real :=
  let x0 := m00 a * m11 a in let x1 := m22 a * m33 a in let x2 := m00 a * m12 a in
  let x3 := m23 a * m31 a in let x4 := m00 a * m13 a in let x5 := m21 a * m32 a in
  let x6 := m01 a * m10 a in let x7 := m23 a * m32 a in let x8 := m01 a * m12 a in
  let x9 := m20 a * m33 a in let x10 := m01 a * m13 a in let x11 := m22 a * m30 a in
  let x12 := m02 a * m10 a in let x13 := m21 a * m33 a in let x14 := m02 a * m11 a in
  let x15 := m23 a * m30 a in let x16 := m02 a * m13 a in let x17 := m20 a * m31 a in
  let x18 := m03 a * m10 a in let x19 := m22 a * m31 a in let x20 := m03 a * m11 a in
  let x21 := m20 a * m32 a in let x22 := m03 a * m12 a in let x23 := m21 a * m30 a in
  x0 * x1 - x0 * x7 - x1 * x6 + x10 * x11 - x10 * x21 - x11 * x20 + x12 * x13 - x12 * x3
  - x13 * x2 + x14 * x15 - x14 * x9 - x15 * x8 + x16 * x17 - x16 * x23 - x17 * x22
  + x18 * x19 - x18 * x5 - x19 * x4 + x2 * x3 + x20 * x21 + x22 * x23 + x4 * x5 + x6 * x7
  + x8 * x9.

(** The determinant as [inverse()] computes it before inverting. *)
Definition inverse_det (a : mat4) : real :=
  let s0 := m00 a * m11 a - m01 a * m10 a in
  let s1 := m00 a * m12 a - m02 a * m10 a in
  let s2 := m00 a * m13 a - m03 a * m10 a in
  let s3 := m01 a * m12 a - m02 a * m11 a in
  let s4 := m01 a * m13 a - m03 a * m11 a in
  let s5 := m02 a * m13 a - m03 a * m12 a in
  let c5 := m22 a * m33 a - m23 a * m32 a in
  let c4 := m21 a * m33 a - m23 a * m31 a in
  let c3 := m21 a * m32 a - m22 a * m31 a in
  let c2 := m20 a * m33 a - m23 a * m30 a in
  let c1 := m20 a * m32 a - m22 a * m30 a in
  let c0 := m20 a * m31 a - m21 a * m30 a in
  s0 * c5 - s1 * c4 + s2 * c3 + s3 * c2 - s4 * c1 + s5 * c0.

(** [inverse()]. *)
Definition inverse (a : mat4) : mat4 :=
  let s0 := m00 a * m11 a - m01 a * m10 a in
  let s1 := m00 a * m12 a - m02 a * m10 a in
  let s2 := m00 a * m13 a - m03 a * m10 a in
  let s3 := m01 a * m12 a - m02 a * m11 a in
  let s4 := m01 a * m13 a - m03 a * m11 a in
  let s5 := m02 a * m13 a - m03 a * m12 a in
  let c5 := m22 a * m33 a - m23 a * m32 a in
  let c4 := m21 a * m33 a - m23 a * m31 a in
  let c3 := m21 a * m32 a - m22 a * m31 a in
  let c2 := m20 a * m33 a - m23 a * m30 a in
  let c1 := m20 a * m32 a - m22 a * m30 a in
  let c0 := m20 a * m31 a - m21 a * m30 a in
  let invdet := rone / (s0 * c5 - s1 * c4 + s2 * c3 + s3 * c2 - s4 * c1 + s5 * c0) in
  let b00 := (c3 * m13 a - c4 * m12 a + c5 * m11 a) * invdet in
  let b01 := (- c3 * m03 a + c4 * m02 a - c5 * m01 a) * invdet in
  let b02 := (m31 a * s5 - m32 a * s4 + m33 a * s3) * invdet in
  let b03 := (- m21 a * s5 + m22 a * s4 - m23 a * s3) * invdet in
  let b10 := (- c1 * m13 a + c2 * m12 a - c5 * m10 a) * invdet in
  let b11 := (c1 * m03 a - c2 * m02 a + c5 * m00 a) * invdet in
  let b12 := (- m30 a * s5 + m32 a * s2 - m33 a * s1) * invdet in
  let b13 := (m20 a * s5 - m22 a * s2 + m23 a * s1) * invdet in
  let b20 := (c0 * m13 a - c2 * m11 a + c4 * m10 a) * invdet in
  let b21 := (- c0 * m03 a + c2 * m01 a - c4 * m00 a) * invdet in
  let b22 := (m30 a * s4 - m31 a * s2 + m33 a * s0) * invdet in
  let b23 := (- m20 a * s4 + m21 a * s2 - m23 a * s0) * invdet in
  let b30 := (- c0 * m12 a + c1 * m11 a - c3 * m10 a) * invdet in
  let b31 := (c0 * m02 a - c1 * m01 a + c3 * m00 a) * invdet in
  let b32 := (- m30 a * s3 + m31 a * s1 - m32 a * s0) * invdet in
  let b33 := (m20 a * s3 - m21 a * s1 + m22 a * s0) * invdet in
  Mat4 b00 b01 b02 b03 b10 b11 b12 b13 b20 b21 b22 b23 b30 b31 b32 b33.

(** [mat4Det] of RenderTypes.cpp. *)
Definition mat4Det (a b c d e f g h i j k l m n o p : real) : real :=
  let ob := o * b in let le := l * e in let kb := k * b in let pe := p * e in
  let nc := n * c in let jc := j * c in let kn := k * n in let de := d * e in
  let jo := j * o in let al := a * l in let of_ := o * f in let cf := c * f in
  let lm := l * m in let ap := a * p in let kf := k * f in let md := m * d in
  let ng := n * g in let jg := j * g in let bg := b * g in let ah := a * h in
  let mh := m * h in let pi := p * i in let di := d * i in let hi := h * i in
  le * ob - kb * pe - le * nc + jc * pe + kn * de - jo * de - al * of_ + ap * kf + lm * cf
  - kf * md + al * ng - ap * jg - lm * bg + jg * md - ah * kn + ah * jo + kb * mh - jc * mh
  - pi * cf + of_ * di + pi * bg - ng * di - ob * hi + nc * hi.
End Mat4.
Arguments mat4 real : clear implicits.

(** Equality of matrices in exact arithmetic. *)
Definition mat4_eq (a b : mat4 Q) : Prop :=
  (m00 a == m00 b /\ m01 a == m01 b /\ m02 a == m02 b /\ m03 a == m03 b /\
   m10 a == m10 b /\ m11 a == m11 b /\ m12 a == m12 b /\ m13 a == m13 b /\
   m20 a == m20 b /\ m21 a == m21 b /\ m22 a == m22 b /\ m23 a == m23 b /\
   m30 a == m30 b /\ m31 a == m31 b /\ m32 a == m32 b /\ m33 a == m33 b)%Q.
End Linear.
Export Linear.

Module LinearDiv.
Local Open Scope Q_scope.
(** The homogeneous divisor [d] of [mat4::operator*(vec3)]. *)
Definition mat4_divisor (a : mat4 Q) (v : vec3 Q) : Q :=
  m30 a * _x v + m31 a * _y v + m32 a * _z v + m33 a.
End LinearDiv.
Export LinearDiv.

(** ** class rotator *)

Module Rot.
Section Rotator.
Context {real : Type} {ops : RealOps real}.
Local Open Scope real_scope.
Local Abbreviation vec3 := (vec3 real).

(** The members are named as in the source; outside this module they are
    [Rot._w], [Rot._x], [Rot._y] and [Rot._z]. *)
Record rotator : Type := Rotator { _w : real; _x : real; _y : real; _z : real }.

(** [rotator()]: the default no-op. *)
Definition rotator_id : rotator := Rotator rone rzero rzero rzero.

(** [set(rx,ry,rz,rw)], as a constructor. *)
Definition set (rx ry rz rw : real) : rotator := Rotator rw rx ry rz.

(** [vec3 operator * (const vec3 &v)]: rotate [v].  [2.0] is [1+1]. *)
Definition rotate (r : rotator) (v : vec3) : vec3 :=
  let two := rone + rone in
  let axis := Vec3 (_x r) (_y r) (_z r) in
  let vc := cross axis v in
  let vcc := cross axis vc in
  vadd (vadd (vscale vc (two * _w r)) (vscale vcc two)) v.

(** [rotator operator * (const rotator & r)]: [r] followed by this. *)
Definition rmul (a r : rotator) : rotator :=
  set (_w a * _x r + _x a * _w r + _y a * _z r - _z a * _y r)
      (_w a * _y r + _y a * _w r + _z a * _x r - _x a * _z r)
      (_w a * _z r + _z a * _w r + _x a * _y r - _y a * _x r)
      (_w a * _w r - _x a * _x r - _y a * _y r - _z a * _z r).

Definition conjugate (a : rotator) : rotator := set (- _x a) (- _y a) (- _z a) (_w a).

Definition rdot (a r : rotator) : real :=
  _x a * _x r + _y a * _y r + _z a * _z r + _w a * _w r.

(** The squared length, the radicand of [len()]. *)
Definition rlenSq (a : rotator) : real :=
  _x a * _x a + _y a * _y a + _z a * _z a + _w a * _w a.
End Rotator.
Arguments rotator real : clear implicits.

(** Equality of rotators in exact arithmetic. *)
Definition rot_eq (a b : rotator Q) : Prop :=
  (_w a == _w b /\ _x a == _x b /\ _y a == _y b /\ _z a == _z b)%Q.
End Rot.

(** ** Further templates, [vec3] methods, [Ray] methods and routines *)

Module Interp.
Section Templates.
Context {real : Type} {ops : RealOps real}.
Local Open Scope real_scope.
Local Abbreviation vec3 := (vec3 real).

(** The literals [2], [0.5], [1.5] and [2.5] of the source; each is exact
    in binary floating point, as are the sums and the quotient here. *)
Definition two : real := rone + rone.
Definition half : real := rone / two.

(** [template<typename T> T clamp(val,minval,maxval)]. *)
Definition clamp (val minval maxval : real) : real :=
  if val >? maxval then maxval else if val <? minval then minval else val.

(** [lerpXi]: [minv==maxv ? val : (val-minv)/(maxv-minv)]. *)
Definition lerpXi (val minv maxv : real) : real :=
  if minv =? maxv then val else (val - minv) / (maxv - minv).

(** [lerp]: [v1+(v2-v1)*val]. *)
Definition lerp (val v1 v2 : real) : real := v1 + (v2 - v1) * val.

(** [vec3 operator - ()]. *)
Definition vneg (a : vec3) : vec3 := Vec3 (- _x a) (- _y a) (- _z a).

(** [operator ==]: the components are within [dEPSILON] of one another. *)
Definition veq (a v : vec3) : bool :=
  equalsEpsilon (_x a) (_x v) && equalsEpsilon (_y a) (_y v) && equalsEpsilon (_z a) (_z v).

(** [vec3::cmp]: Z is used to sort first and X last. *)
Definition vcmp (a v : vec3) : Z :=
  if _z a <? _z v then (-1)%Z else
  if _z a >? _z v then 1%Z else
  if _y a <? _y v then (-1)%Z else
  if _y a >? _y v then 1%Z else
  if _x a <? _x v then (-1)%Z else
  if _x a >? _x v then 1%Z else 0%Z.

(** [planeDist], [planeProject], [onPlane]. *)
Definition planeDist (a planept planenorm : vec3) : real := dot planenorm (vsub a planept).
Definition planeProject (a planept planenorm : vec3) : vec3 :=
  vsub a (vscale planenorm (planeDist a planept planenorm)).
Definition onPlane (a planept planenorm : vec3) : bool :=
  equalsEpsilon (planeDist a planept planenorm) rzero.

(** [Ray::distTo], [Ray::intersectsPlane]. *)
Definition distTo (r : Ray real) (v : vec3) : real := dot (dir r) (vsub v (pos r)).
Definition intersectsPlane (r : Ray real) (planepos planenorm : vec3) : real :=
  dot planenorm (vsub planepos (pos r)) / dot planenorm (dir r).

(** [Ray::intersectsAABB]; [realpair] is a pair. *)
Definition intersectsAABB (r : Ray real) (minv maxv : vec3) : real * real :=
  let tmin := (_x (if signx r then maxv else minv) - _x (pos r)) * _x (invdir r) in
  let tmax := (_x (if signx r then minv else maxv) - _x (pos r)) * _x (invdir r) in
  let tymin := (_y (if signy r then maxv else minv) - _y (pos r)) * _y (invdir r) in
  let tymax := (_y (if signy r then minv else maxv) - _y (pos r)) * _y (invdir r) in
  if (tmin >? tymax) || (tymin >? tmax) then (- rone, - rone) else
  let tmin := if tymin >? tmin then tymin else tmin in
  let tmax := if tymax <? tmax then tymax else tmax in
  let tzmin := (_z (if signz r then maxv else minv) - _z (pos r)) * _z (invdir r) in
  let tzmax := (_z (if signz r then minv else maxv) - _z (pos r)) * _z (invdir r) in
  if (tmin >? tzmax) || (tzmin >? tmax) then (- rone, - rone) else
  let tmin := if tzmin >? tmin then tzmin else tmin in
  let tmax := if tzmax <? tmax then tzmax else tmax in
  (tmin, tmax).

(** What [setDirection] leaves in a ray: the stored inverse and signs
    are those of the direction. *)
Definition ray_invariant (r : Ray real) : Prop :=
  invdir r = inv (dir r)
  /\ signx r = (_x (invdir r) <? rzero)
  /\ signy r = (_y (invdir r) <? rzero)
  /\ signz r = (_z (invdir r) <? rzero).

(** [calculateTetEdgeIntersect] and [calculateTetValueIntersects], which
    writes six results. *)
Definition calculateTetEdgeIntersect (val a b : real) : real :=
  if (a <=? val) && (val <=? b) then lerpXi val a b
  else if (b <=? val) && (val <=? a) then rone - lerpXi val b a
  else - rone.
Definition calculateTetValueIntersects (val a b c d : real) : list real :=
  [ calculateTetEdgeIntersect val a b; calculateTetEdgeIntersect val a c;
    calculateTetEdgeIntersect val a d; calculateTetEdgeIntersect val b c;
    calculateTetEdgeIntersect val b d; calculateTetEdgeIntersect val c d ].

(** [calculateLinePlaneSlice]. *)
Definition calculateLinePlaneSlice (planept planenorm a b : vec3) : real :=
  if veq a b then rzero else
  let adist := planeDist a planept planenorm in
  let bdist := planeDist b planept planenorm in
  if (adist =? bdist) || ((adist >=? rzero) && (bdist >=? rzero))
     || ((adist <=? rzero) && (bdist <=? rzero))
  then rzero else
  let distsum := fabs adist + fabs bdist in
  if distsum >? rzero then adist / distsum else rzero.

(** [catmullRomSpline] writes four coefficients. *)
Definition catmullRomSpline (t : real) : list real :=
  let t2 := t * t in
  let t3 := t2 * t in
  let t3_05 := t3 * half in
  let t3_15 := t3 * (rone + half) in
  let t_05 := t * half in
  [ t3_15 - (two + half) * t2 + rone;
    two * t2 + t_05 - t3_15;
    t2 - t_05 - t3_05;
    t3_05 - half * t2 ].

(** The point of the linear tetrahedron [(n1,n2,n3,n4)] at [xi]: the
    nodes weighted by the coefficients of [basis_Tet1NL]. *)
Definition tetPoint (n1 n2 n3 n4 xi : vec3) : vec3 :=
  let coeffs := basis_Tet1NL (_x xi) (_y xi) (_z xi) in
  vadd (vadd (vadd (vscale n1 (at_r coeffs 0)) (vscale n2 (at_r coeffs 1)))
             (vscale n3 (at_r coeffs 2)))
       (vscale n4 (at_r coeffs 3)).

(** The determinant [pointSearchLinTet] inverts. *)
Definition tetDet (n1 n2 n3 n4 : vec3) : real :=
  let dx2 := _x n2 - _x n1 in let dy2 := _y n2 - _y n1 in let dz2 := _z n2 - _z n1 in
  let dx3 := _x n3 - _x n1 in let dy3 := _y n3 - _y n1 in let dz3 := _z n3 - _z n1 in
  let dx4 := _x n4 - _x n1 in let dy4 := _y n4 - _y n1 in let dz4 := _z n4 - _z n1 in
  dx2 * (dz4 * dy3 - dz3 * dy4) - dy2 * (dz4 * dx3 - dz3 * dx4) + dz2 * (dy4 * dx3 - dy3 * dx4).
End Templates.
End Interp.
Export Interp.

Module Boxes.
Local Open Scope Q_scope.
(** The point lies in the closed box between the two corners. *)
Definition in_box (p minv maxv : vec3 Q) : Prop :=
  _x minv <= _x p <= _x maxv /\ _y minv <= _y p <= _y maxv /\ _z minv <= _z p <= _z maxv.
End Boxes.
Export Boxes.

Module Lex.
Local Open Scope Q_scope.
(** The order [vec3::cmp] sorts by: Z first, then Y, then X. *)
Definition lex_lt (a v : vec3 Q) : Prop :=
  _z a < _z v \/ (_z a == _z v /\ (_y a < _y v \/ (_y a == _y v /\ _x a < _x v))).
End Lex.
Export Lex.

(** ** The value of a double *)

Module FloatValue.
Local Open Scope Q_scope.

(** [2^e] for an integer exponent. *)
Definition pow2 (e : Z) : Q := 2 ^ e.

(** The rational number a binary64 datum stands for, read off the sign,
    mantissa and exponent [Prim2SF] decodes: [(-1)^s * m * 2^e], and 0 for
    the two zeros.  The infinities and NaN stand for no number; [SFfinite]
    tells them apart. *)
Definition SF2Q (x : spec_float) : Q :=
  match x with
  | S754_finite s m e => inject_Z (cond_Zopp s (Zpos m)) * pow2 e
  | _ => 0
  end.

Definition SFfinite (x : spec_float) : bool :=
  match x with
  | S754_zero _ | S754_finite _ _ _ => true
  | _ => false
  end.

Definition F2Q (x : float) : Q := SF2Q (Prim2SF x).
Definition finite (x : float) : bool := SFfinite (Prim2SF x).

Definition sgn (s : bool) : Q := if s then -1 else 1.

(** The magnitude [m * 2^e]. *)
Definition mag (m : positive) (e : Z) : Q := inject_Z (Zpos m) * pow2 e.

(** The bound on the error of one rounding to nearest of the exact result
    [X]: half a unit in the last place of a normal number, or half the
    spacing [2^-1074] of the subnormal numbers. *)
Definition rnd_err (X : Q) : Q := pow2 (-53) * Qabs X + pow2 (-1075).

(** Numerals for the unit roundoff [2^-53], for a bound on [2^-1075], and
    for a magnitude, [2^100], below which no operation overflows. *)
Definition u64 : Q := 1 # 9007199254740992.
Definition tiny : Q := 1 # 1000000000000000000000000000000.
Definition big : Q := 1267650600228229401496703205376.

(** [mrs] is [M] shifted right by the [shr] of the rounding of [SpecFloat]:
    [M = shr_m * P + t], the round and sticky bits telling where the part
    [t] shifted out lies in [0, P). *)
Definition shifted (M P : Z) (mrs : shr_record) : Prop :=
  (exists t, M = shr_m mrs * P + t /\ 0 <= t < P /\ 0 <= shr_m mrs /\
    match shr_r mrs, shr_s mrs with
    | false, false => t = 0
    | false, true => 0 < 2 * t < P
    | true, false => 2 * t = P
    | true, true => P < 2 * t
    end)%Z.
End FloatValue.
Export FloatValue.

(** ** [pointSearchLinHex]: the parts of its result *)

Module HexSearch.
(** One coordinate of the value [pointSearchLinHex] returns from inside its
    loop, for a row of [divtets] whose four corners have the values
    [b0..b3] (each 0 or 1) in that coordinate: the corner values weighted by
    the Tet1NL coefficients of [(x,y,z)], summed first to last. *)
Definition blend1 (b0 b1 b2 b3 : bool) (x y z : float) : float :=
  (corner b0 * (1 - x - y - z) + corner b1 * x + corner b2 * y + corner b3 * z)%float.

(** The corner values of the coordinates of the rows of [divtets]: where
    the first is 1, at most one of the others is 0. *)
Definition blend_bits (b0 b1 b2 b3 : bool) : bool :=
  negb b0 || (b1 && b2) || (b1 && b3) || (b2 && b3).

(** The node of the hexahedron at the corner [(b0,b1,b2)] of the reference
    cell, in the order of the coefficients of [basis_Hex1NL]. *)
Definition hexNode {A : Type} (n1 n2 n3 n4 n5 n6 n7 n8 : A) (b0 b1 b2 : bool) : A :=
  match b2, b1, b0 with
  | false, false, false => n1
  | false, false, true => n2
  | false, true, false => n3
  | false, true, true => n4
  | true, false, false => n5
  | true, false, true => n6
  | true, true, false => n7
  | true, true, true => n8
  end.

(** A corner value in exact arithmetic. *)
Definition cornerQ (b : bool) : Q := if b then 1%Q else 0%Q.

(** A node of the unit cube. *)
Definition cube_node (b0 b1 b2 : bool) : vec3 float := Vec3 (corner b0) (corner b1) (corner b2).

(** Some component of the vector is below [-1e-15]. *)
Definition below_tolerance (v : vec3 float) : Prop :=
  (_x v <? -1e-15)%float = true \/ (_y v <? -1e-15)%float = true
  \/ (_z v <? -1e-15)%float = true.
End HexSearch.
Export HexSearch.

(** * Part II: lemmas and theorems *)

(** * Geometry *)

Lemma Q_rleb_le (a b : Q) : (a <=? b)%re = true <-> (a <= b)%Q.
Proof. apply Qle_bool_iff. Qed.
Lemma Q_rleb_false (a b : Q) : (a <=? b)%re = false <-> (b < a)%Q.
Proof.
  simpl. split.
  - intros Hf. apply Qnot_le_lt. intros Hle. apply Qle_bool_iff in Hle. congruence.
  - intros Hlt. destruct (Qle_bool a b) eqn:E; [|reflexivity].
    apply Qle_bool_iff in E. exfalso. exact (Qlt_not_le _ _ Hlt E).
Qed.
Lemma Q_rltb_lt (a b : Q) : (a <? b)%re = true <-> (a < b)%Q.
Proof. simpl. rewrite negb_true_iff. apply (Q_rleb_false b a). Qed.
Lemma Q_rltb_false (a b : Q) : (a <? b)%re = false <-> (b <= a)%Q.
Proof. simpl. rewrite negb_false_iff. apply Qle_bool_iff. Qed.


Section SearchFacts.
Context {real : Type} {ops : RealOps real}.
Variables (pt n1 n2 n3 n4 n5 n6 n7 n8 : vec3 real).
Local Abbreviation xiOf := (tetXi pt n1 n2 n3 n4 n5 n6 n7 n8).
Local Abbreviation search := (searchTets pt n1 n2 n3 n4 n5 n6 n7 n8).

Lemma searchTets_find (rows : list (list (vec3 real))) :
  search rows =
  match List.find (fun row => inSimplex (xiOf row)) rows with
  | Some row => tetBlend row (xiOf row)
  | None => vec3_of (- rone)%re
  end.
Proof.
  induction rows as [|row rest IH]; simpl; [reflexivity|].
  destruct (inSimplex (xiOf row)); [reflexivity|exact IH].
Qed.

Lemma searchTets_first (pre post : list (list (vec3 real))) (row : list (vec3 real)) :
  (forall r, r ∈ pre -> inSimplex (xiOf r) = false) ->
  inSimplex (xiOf row) = true ->
  search (pre ++ row :: post) = tetBlend row (xiOf row).
Proof.
  intros Hpre Hrow. induction pre as [|r pre IH]; simpl.
  - rewrite Hrow. reflexivity.
  - rewrite (Hpre r) by (left). apply IH. intros r' Hr'. apply Hpre. by right.
Qed.

Lemma searchTets_none (rows : list (list (vec3 real))) :
  (forall r, r ∈ rows -> inSimplex (xiOf r) = false) ->
  search rows = vec3_of (- rone)%re.
Proof.
  intros Hall. induction rows as [|r rows IH]; simpl; [reflexivity|].
  rewrite (Hall r) by left. apply IH. intros r' Hr'. apply Hall. by right.
Qed.

Lemma pointSearchLinHex_unfold :
  pointSearchLinHex pt n1 n2 n3 n4 n5 n6 n7 n8 =
  if inAABB pt (fst (hexBounds n1 n2 n3 n4 n5 n6 n7 n8)) (snd (hexBounds n1 n2 n3 n4 n5 n6 n7 n8))
  then search divtets else vec3_of (- rone)%re.
Proof.
  unfold pointSearchLinHex. destruct (hexBounds _ _ _ _ _ _ _ _) as [minv maxv]. simpl.
  destruct (inAABB pt minv maxv); reflexivity.
Qed.
End SearchFacts.

Lemma Q_isInUnitCube (xi : vec3 Q) :
  isInUnitCube xi 0%Q = true ->
  (0 <= _x xi <= 1 /\ 0 <= _y xi <= 1 /\ 0 <= _z xi <= 1)%Q.
Proof.
  unfold isInUnitCube. rewrite !andb_true_iff, !Q_rleb_le. simpl. lra.
Qed.

Lemma tetBlend_nonneg_exact (row : list (vec3 Q)) (xi : vec3 Q) :
  row ∈ divtets ->
  isInUnitCube xi 0%Q = true ->
  (0 <= _x (tetBlend row xi) /\ 0 <= _y (tetBlend row xi) /\ 0 <= _z (tetBlend row xi))%Q.
Proof.
  intros Hrow Hxi. apply Q_isInUnitCube in Hxi.
  unfold divtets in Hrow.
  repeat (apply elem_of_cons in Hrow as [-> | Hrow]); [ .. | by apply elem_of_nil in Hrow ];
    cbn; lra.
Qed.

Lemma pointSearchLinHex_negative_exact (pt n1 n2 n3 n4 n5 n6 n7 n8 : vec3 Q) :
  let r := pointSearchLinHex pt n1 n2 n3 n4 n5 n6 n7 n8 in
  (_x r < 0 \/ _y r < 0 \/ _z r < 0)%Q -> r = vec3_of (- 1)%Q.
Proof.
  intros r Hneg. subst r. revert Hneg.
  rewrite pointSearchLinHex_unfold.
  destruct (inAABB pt _ _); [|reflexivity].
  rewrite searchTets_find.
  destruct (List.find _ divtets) as [row|] eqn:Hfind; [|reflexivity].
  apply List.find_some in Hfind as [Hin Hok].
  apply list_elem_of_In in Hin.
  unfold inSimplex in Hok. apply andb_true_iff in Hok as [Hcube _].
  pose proof (tetBlend_nonneg_exact row _ Hin Hcube) as (Hx & Hy & Hz).
  intros [H | [H | H]]; exfalso; lra.
Qed.


Section HexFacts.
Context {real : Type} {ops : RealOps real}.


Lemma hexEdgeLoop_take (val : real) (vals absvals : list real) (edges : list (nat * nat)) :
  forall (count : nat) (results : list (intersect real)),
    (count <= 6)%nat ->
    hexEdgeLoop val vals absvals edges count results =
    ((count + length (take (6 - count) (crossedEdges val vals edges)))%nat,
     results ++ map (fun e => edgeIntersect absvals (fst e) (snd e))
                    (take (6 - count) (crossedEdges val vals edges))).
Proof.
  induction edges as [|[i1 i2] rest IH]; intros count results Hc.
  - cbn. rewrite take_nil. cbn. rewrite app_nil_r, Nat.add_0_r. reflexivity.
  - cbn [hexEdgeLoop crossedEdges List.filter fst snd].
    destruct (count <? 6)%nat eqn:Hlt.
    + apply Nat.ltb_lt in Hlt.
      destruct (edgeCrossed val (at_r vals i1) (at_r vals i2)) eqn:Hcross.
      * rewrite IH by lia. fold (crossedEdges val vals rest).
        replace (6 - count)%nat with (S (6 - S count)) by lia.
        cbn [take map length fst snd]. rewrite <- app_assoc. cbn [app].
        f_equal. lia.
      * rewrite IH by lia. reflexivity.
    + apply Nat.ltb_ge in Hlt. replace (6 - count)%nat with 0%nat by lia.
      cbn. rewrite app_nil_r, Nat.add_0_r. reflexivity.
Qed.

Lemma edgeIntersect_entry (val : real) (vals : list real) (e : nat * nat) :
  e ∈ indices ->
  edgeIntersect (map (fun i => fabs (val - at_r vals i)%re) (seq 0 8)) (fst e) (snd e)
  = edgeEntry val vals e.
Proof.
  unfold indices. intros He.
  repeat (apply elem_of_cons in He as [-> | He]); [ .. | by apply elem_of_nil in He ];
    reflexivity.
Qed.

Lemma crossedEdges_sub (val : real) (vals : list real) (edges : list (nat * nat)) (e : nat * nat) :
  e ∈ crossedEdges val vals edges -> e ∈ edges.
Proof.
  unfold crossedEdges. rewrite !list_elem_of_In, List.filter_In. tauto.
Qed.

Lemma calculateHexValueIntersects_take (val : real) (vals : list real) :
  calculateHexValueIntersects val vals =
  (length (take 6 (crossedEdges val vals indices)),
   map (edgeEntry val vals) (take 6 (crossedEdges val vals indices))).
Proof.
  unfold calculateHexValueIntersects. rewrite hexEdgeLoop_take by lia.
  cbn [Nat.sub Nat.add app]. f_equal.
  apply map_ext_in. intros e He. apply edgeIntersect_entry.
  apply list_elem_of_In in He. apply (crossedEdges_sub val vals).
  eapply subseteq_take; eauto.
Qed.
End HexFacts.

(** C5, counterexample in doubles: with corner heights 1,0,0,1,0,1,1,0 and
    threshold 0.5 all twelve edges are crossed, yet six entries are
    recorded, the first six edges of the table; edge (7,6) is crossed and
    has no entry. *)
Lemma hex_intersects_more_than_six_edges :
  let vals := [1; 0; 0; 1; 0; 1; 1; 0]%float in
  let '(count, results) := calculateHexValueIntersects 0.5%float vals in
  crossedEdges 0.5%float vals indices = indices
  /\ count = 6%nat
  /\ map (fun e => (first e, second e)) results = take 6 indices
  /\ edgeCrossed 0.5%float (at_r vals 7) (at_r vals 6) = true
  /\ (7, 6)%nat ∉ map (fun e => (first e, second e)) results.
Proof.
  vm_compute. repeat split; try reflexivity.
  intros Hin. repeat (apply elem_of_cons in Hin as [Hin | Hin]; [discriminate|]).
  by apply elem_of_nil in Hin.
Qed.

(** C5, amended: in doubles, for every threshold and corner heights,
    [calculateHexValueIntersects] records, in the order of the table of 12
    edges, one (vertex_a, vertex_b, fraction) entry for each crossed edge
    until six are recorded: the entries are those of the first
    min(6, crossed) crossed edges, the count is their number and never more
    than 6, and they are exactly the crossed edges whenever at most six
    edges are crossed.  For the unit cube cut at 0.5 (heights 0,0,0,0,1,1,1,1)
    that is the four vertical edges, each with fraction 0.5. *)
Theorem calculateHexValueIntersects_first_six :
  (forall (val : float) (vals : list float),
     let crossed := crossedEdges val vals indices in
     let count := fst (calculateHexValueIntersects val vals) in
     let results := snd (calculateHexValueIntersects val vals) in
     results = map (edgeEntry val vals) (take 6 crossed)
     /\ count = length results
     /\ (count <= 6)%nat
     /\ count = Nat.min 6 (length crossed)
     /\ ((length crossed <= 6)%nat -> results = map (edgeEntry val vals) crossed))
  /\ length indices = 12%nat
  /\ calculateHexValueIntersects 0.5%float [0; 0; 0; 0; 1; 1; 1; 1]%float
     = (4%nat, [Triple 0%nat 4%nat 0.5%float; Triple 1%nat 5%nat 0.5%float;
                Triple 2%nat 6%nat 0.5%float; Triple 3%nat 7%nat 0.5%float]).
Proof.
  split; [|split; [reflexivity | vm_compute; reflexivity]].
  intros val vals crossed count results. subst count results.
  rewrite calculateHexValueIntersects_take. fold crossed. cbn [fst snd].
  split; [reflexivity|]. split; [by rewrite length_map|].
  split; [rewrite length_take; lia|]. split; [rewrite length_take; lia|].
  intros Hle. by rewrite take_ge.
Qed.

(** C6, failing input in doubles: the ray from (2^-22, 2^-22, 1) toward
    (0,0,-1) passes through the triangle (0,0,0), (2^-20,0,0), (0,2^-20,0)
    at distance 1, at the point with coordinates u = v = 0.25, and
    [intersectsTri] returns the sentinel (-1,-1,-1), whose [t] is negative:
    the determinant 2^-40 is within [dEPSILON] of 0, so the test
    [equalsEpsilon(det,0.0)] takes the ray for parallel to the triangle.
    The comment of the method reads a negative [t] as "the ray does not
    pass through the triangle". *)
Lemma intersectsTri_small_triangle_missed :
  let r := mkRay (Vec3 0x1p-22 0x1p-22 1)%float (Vec3 0 0 (-1))%float (Vec3 0 0 (-1))%float
                 false false true in
  let v0 := (Vec3 0 0 0)%float in
  let v1 := (Vec3 0x1p-20 0 0)%float in
  let v2 := (Vec3 0 0x1p-20 0)%float in
  Ray_new (Vec3 0x1p-22 0x1p-22 1)%float (Vec3 0 0 (-1))%float = Some r
  /\ passesThrough r v0 v1 v2 1%float 0.25%float 0.25%float = true
  /\ intersectsTri r v0 v1 v2 = Triple (-1)%float (-1)%float (-1)%float.
Proof. vm_compute. repeat split; reflexivity. Qed.

Lemma Qabs_gt_nonzero (d e : Q) : (0 < e)%Q -> (e < Qabs d)%Q -> ~ (d == 0)%Q.
Proof.
  intros He Hd Hz. rewrite Hz in Hd. change (Qabs 0) with 0%Q in Hd. lra.
Qed.


Section TriFacts.
Context {real : Type} {ops : RealOps real}.
Variables (r : Ray real) (v0 v1 v2 : vec3 real).


Lemma intersectsTri_cases :
  intersectsTri r v0 v1 v2 =
  if triAccepts r v0 v1 v2
  then Triple (triLen r v0 v1 v2) (triU r v0 v1 v2) (triV r v0 v1 v2)
  else Triple (- rone)%re (- rone)%re (- rone)%re.
Proof.
  unfold intersectsTri, triAccepts. cbv zeta.
  fold (triDet r v0 v1 v2). fold (triU r v0 v1 v2). fold (triV r v0 v1 v2).
  fold (triLen r v0 v1 v2).
  destruct (equalsEpsilon (triDet r v0 v1 v2) rzero); [reflexivity|].
  destruct ((triU r v0 v1 v2 <? rzero)%re || (triU r v0 v1 v2 >? rone)%re); [reflexivity|].
  destruct ((triV r v0 v1 v2 <? rzero)%re
            || (triU r v0 v1 v2 + triV r v0 v1 v2 >? rone)%re); [reflexivity|].
  destruct (triLen r v0 v1 v2 >? dEPSILON)%re; reflexivity.
Qed.
End TriFacts.

(** X28: In exact arithmetic, for every ray and triangle
    [intersectsTri] returns either the sentinel (-1,-1,-1) or a
    triple (t,u,v) with t > 1e-10, 0 <= u <= 1, v >= 0 and u + v <= 1 that
    is a true intersection, pos + t*dir = (1-u-v)*v0 + u*v1 + v*v2, of a
    triangle whose determinant e1.(dir x e2) exceeds 1e-10 in magnitude; and
    it returns (t,u,v) for every ray that passes through the triangle at
    (u,v) at a distance t > 1e-10, provided that determinant exceeds 1e-10
    in magnitude.  Every other case gets the sentinel, a ray through a
    triangle of smaller determinant or nearer than 1e-10 included.  In
    doubles, the ray from (0.2,0.2,1) toward (0,0,-1) against the triangle
    (0,0,0),(1,0,0),(0,1,0) returns (1, 0.2, 0.2). *)
Theorem intersectsTri_hit_or_sentinel :
  (forall (r : Ray Q) (v0 v1 v2 : vec3 Q),
     let res := intersectsTri r v0 v1 v2 in
     let det := triDet r v0 v1 v2 in
     let sentinel : realtriple Q := Triple (-1)%Q (-1)%Q (-1)%Q in
     (res = sentinel \/
      ((1 # 10000000000) < first res /\ 0 <= second res /\ second res <= 1 /\ 0 <= third res
       /\ second res + third res <= 1 /\ (1 # 10000000000) < Qabs det
       /\ vec_eq (getPosition r (first res)) (triPoint v0 v1 v2 (second res) (third res))))%Q
     /\ (forall t u v : Q,
           ((1 # 10000000000) < t -> 0 <= u -> 0 <= v -> u + v <= 1 ->
            (1 # 10000000000) < Qabs det ->
            vec_eq (getPosition r t) (triPoint v0 v1 v2 u v) ->
            first res == t /\ second res == u /\ third res == v)%Q))
  /\ match Ray_new (Vec3 0.2 0.2 1)%float (Vec3 0 0 (-1))%float with
     | Some r0 =>
         intersectsTri r0 (Vec3 0 0 0)%float (Vec3 1 0 0)%float (Vec3 0 1 0)%float
         = Triple 1%float 0.2%float 0.2%float
     | None => False
     end.
Proof.
  split; [|vm_compute; reflexivity].
  intros r v0 v1 v2.
  cbv zeta. rewrite intersectsTri_cases.
  assert (Hacc : triAccepts r v0 v1 v2 = true ->
     ((1 # 10000000000) < Qabs (triDet r v0 v1 v2) /\ 0 <= triU r v0 v1 v2 <= 1
      /\ 0 <= triV r v0 v1 v2 /\ triU r v0 v1 v2 + triV r v0 v1 v2 <= 1
      /\ (1 # 10000000000) < triLen r v0 v1 v2)%Q).
  { unfold triAccepts, equalsEpsilon.
    rewrite !andb_true_iff, !negb_true_iff, !orb_false_iff.
    intros [[[Hd [Hu0 Hu1]] [Hv0 Hv1]] Hl].
    apply Q_rleb_false in Hd. apply Q_rltb_false in Hu0, Hu1, Hv0, Hv1. apply Q_rltb_lt in Hl.
    cbn [rzero rone dEPSILON radd rsub fabs Q_ops] in *.
    assert (E : (triDet r v0 v1 v2 - 0 == triDet r v0 v1 v2)%Q) by ring.
    rewrite E in Hd. repeat split; assumption. }
  assert (Hpos : forall d : Q, ((1 # 10000000000) < Qabs d)%Q -> ~ (d == 0)%Q).
  { intros d Hd. apply (Qabs_gt_nonzero d (1 # 10000000000)); [reflexivity|exact Hd]. }
  destruct r as [[px py pz] [dx dy dz] invdir sx sy sz].
  destruct v0 as [ax ay az], v1 as [bx by_ bz], v2 as [cx cy cz].
  split.
  - destruct (triAccepts _ _ _ _) eqn:Ha; [right|left; reflexivity].
    destruct (Hacc eq_refl) as (Hd & [Hu0 Hu1] & Hv0 & Huv & Hl).
    cbn [first second third]. repeat split; try assumption.
    all: apply Hpos in Hd; revert Hd;
      cbv [getPosition triPoint triLen triU triV triDet pos dir vsub vadd vscale cross dot
           _x _y _z rzero rone radd rsub rmul rdiv ropp Q_ops];
      intros Hd; field; exact Hd.
  - intros t u v Ht Hu Hv Huv Hd [Hx [Hy Hz]].
    pose proof (Hpos _ Hd) as Hnz.
    revert Hx Hy Hz Hacc Hd Hnz.
    set (R := mkRay (Vec3 px py pz) (Vec3 dx dy dz) invdir sx sy sz).
    set (A := Vec3 ax ay az). set (B := Vec3 bx by_ bz). set (C := Vec3 cx cy cz).
    intros Hx Hy Hz Hacc Hd Hnz.
    assert (Epx : (px == ax * (1 - u - v) + bx * u + cx * v - dx * t)%Q).
    { revert Hx. cbv [R A B C getPosition triPoint pos dir vadd vscale _x rone radd rsub rmul Q_ops]. lra. }
    assert (Epy : (py == ay * (1 - u - v) + by_ * u + cy * v - dy * t)%Q).
    { revert Hy. cbv [R A B C getPosition triPoint pos dir vadd vscale _y rone radd rsub rmul Q_ops]. lra. }
    assert (Epz : (pz == az * (1 - u - v) + bz * u + cz * v - dz * t)%Q).
    { revert Hz. cbv [R A B C getPosition triPoint pos dir vadd vscale _z rone radd rsub rmul Q_ops]. lra. }
    assert (EU : (triU R A B C == u)%Q).
    { revert Hnz.
      cbv [R A B C triU triDet pos dir vsub cross dot _x _y _z rone radd rsub rmul rdiv Q_ops].
      intros Hnz. rewrite Epx, Epy, Epz. field. exact Hnz. }
    assert (EV : (triV R A B C == v)%Q).
    { revert Hnz.
      cbv [R A B C triV triDet pos dir vsub cross dot _x _y _z rone radd rsub rmul rdiv Q_ops].
      intros Hnz. rewrite Epx, Epy, Epz. field. exact Hnz. }
    assert (EL : (triLen R A B C == t)%Q).
    { revert Hnz.
      cbv [R A B C triLen triDet pos dir vsub cross dot _x _y _z rone radd rsub rmul rdiv Q_ops].
      intros Hnz. rewrite Epx, Epy, Epz. field. exact Hnz. }
    assert (Ha : triAccepts R A B C = true).
    { unfold triAccepts, equalsEpsilon.
      rewrite !andb_true_iff, !negb_true_iff, !orb_false_iff.
      repeat split.
      - apply Q_rleb_false. cbn [rzero rsub fabs dEPSILON Q_ops].
        assert (E : (triDet R A B C - 0 == triDet R A B C)%Q) by ring.
        rewrite E. exact Hd.
      - apply Q_rltb_false. cbn [rzero Q_ops]. rewrite EU. exact Hu.
      - apply Q_rltb_false. cbn [rone Q_ops]. rewrite EU. lra.
      - apply Q_rltb_false. cbn [rzero Q_ops]. rewrite EV. exact Hv.
      - apply Q_rltb_false. cbn [rone radd Q_ops]. rewrite EU, EV. exact Huv.
      - apply Q_rltb_lt. cbn [dEPSILON Q_ops]. rewrite EL. exact Ht. }
    rewrite Ha. cbn [first second third]. auto.
Qed.

Local Open Scope Z_scope.

(** * Endian swaps *)


Lemma to_bytes_length (size : nat) (v : Z) : length (to_bytes size v) = size.
Proof. revert v. induction size as [|k IH]; intros v; cbn; [reflexivity|]. by rewrite IH. Qed.

Lemma to_bytes_is_byte (size : nat) (v : Z) : Forall is_byte (to_bytes size v).
Proof.
  revert v. induction size as [|k IH]; intros v; cbn; constructor.
  - unfold is_byte. apply Z.mod_pos_bound. lia.
  - apply IH.
Qed.

Lemma from_to_bytes (size : nat) (v : Z) : fits size v -> from_bytes (to_bytes size v) = v.
Proof.
  revert v. induction size as [|k IH]; intros v Hv; unfold fits in *; cbn [to_bytes from_bytes].
  - cbn in Hv. lia.
  - rewrite IH.
    + pose proof (Z.div_mod v 256 ltac:(lia)). lia.
    + rewrite Nat2Z.inj_succ, Z.pow_succ_r in Hv by lia.
      split; [apply Z.div_pos; lia|]. apply Z.div_lt_upper_bound; lia.
Qed.

Lemma to_from_bytes (b : list Z) : Forall is_byte b -> to_bytes (length b) (from_bytes b) = b.
Proof.
  induction 1 as [|x r Hx Hr IH]; cbn [length to_bytes from_bytes]; [reflexivity|].
  unfold is_byte in Hx.
  assert (Hmod : (x + 256 * from_bytes r) mod 256 = x).
  { replace (x + 256 * from_bytes r) with (x + from_bytes r * 256) by lia.
    rewrite Z.mod_add by lia. by apply Z.mod_small. }
  assert (Hdiv : (x + 256 * from_bytes r) / 256 = from_bytes r).
  { replace (x + 256 * from_bytes r) with (x + from_bytes r * 256) by lia.
    rewrite Z.div_add by lia. rewrite (Z.div_small x) by lia. lia. }
  rewrite Hmod, Hdiv, IH. reflexivity.
Qed.

Lemma from_bytes_fits (b : list Z) : Forall is_byte b -> fits (length b) (from_bytes b).
Proof.
  induction 1 as [|x r Hx Hr IH]; unfold fits in *; cbn [length from_bytes].
  - cbn. lia.
  - rewrite Nat2Z.inj_succ, Z.pow_succ_r by lia. unfold is_byte in Hx. lia.
Qed.

(** The index loop of [swapEndianN] reverses the byte array. *)
Lemma swap_loop_rev (src : list Z) :
  map (fun x => byte_at src (length src - x - 1)) (seq 0 (length src)) = rev src.
Proof.
  apply (nth_ext _ _ 0 0).
  - by rewrite length_map, length_seq, length_rev.
  - intros i Hi. rewrite length_map, length_seq in Hi.
    rewrite (nth_indep _ 0 (byte_at src (length src - 0 - 1)))
      by (by rewrite length_map, length_seq).
    rewrite (map_nth (fun x => byte_at src (length src - x - 1))).
    rewrite seq_nth by exact Hi. rewrite rev_nth by exact Hi.
    unfold byte_at. f_equal. lia.
Qed.

Lemma swapEndianN_rev (size : nat) (t : Z) :
  swapEndianN size t = from_bytes (rev (to_bytes size t)).
Proof.
  unfold swapEndianN. f_equal.
  pose proof (swap_loop_rev (to_bytes size t)) as Hrev.
  rewrite to_bytes_length in Hrev. exact Hrev.
Qed.

Lemma swapEndianN_involutive (size : nat) (t : Z) :
  fits size t -> swapEndianN size (swapEndianN size t) = t.
Proof.
  intros Ht. rewrite !swapEndianN_rev.
  assert (Hb : Forall is_byte (rev (to_bytes size t))).
  { apply Forall_forall. intros x Hx. apply list_elem_of_In, in_rev in Hx.
    pose proof (to_bytes_is_byte size t) as Hall. rewrite Forall_forall in Hall.
    apply Hall. by apply list_elem_of_In. }
  assert (Hlen : length (rev (to_bytes size t)) = size)
    by (by rewrite length_rev, to_bytes_length).
  pose proof (to_from_bytes _ Hb) as Hround. rewrite Hlen in Hround.
  rewrite Hround, rev_involutive. by apply from_to_bytes.
Qed.

Lemma swapEndianN_fits (size : nat) (t : Z) : fits size (swapEndianN size t).
Proof.
  rewrite swapEndianN_rev.
  assert (Hlen : length (rev (to_bytes size t)) = size)
    by (by rewrite length_rev, to_bytes_length).
  rewrite <- Hlen at 1.
  apply from_bytes_fits. apply Forall_forall. intros x Hx.
  apply list_elem_of_In, in_rev in Hx.
  pose proof (to_bytes_is_byte size t) as Hall. rewrite Forall_forall in Hall.
  apply Hall. by apply list_elem_of_In.
Qed.

Lemma swapEndian32_N (t : Z) : swapEndian32 t = swapEndianN 4 t.
Proof. reflexivity. Qed.

Lemma swapEndian64_N (t : Z) : swapEndian64 t = swapEndianN 8 t.
Proof. reflexivity. Qed.

Lemma swapEndian32_involutive (t : Z) : fits 4 t -> swapEndian32 (swapEndian32 t) = t.
Proof. rewrite !swapEndian32_N. apply swapEndianN_involutive. Qed.

Lemma swapEndian64_involutive (t : Z) : fits 8 t -> swapEndian64 (swapEndian64 t) = t.
Proof. rewrite !swapEndian64_N. apply swapEndianN_involutive. Qed.

Section SwapMatrix.
Context {T : Type} {elem : Element T} {swapper : SwapEndian T}.
Implicit Types (a : Matrix T) (d : list T).


Lemma map_prefix_length f k d : length (map_prefix f k d) = length d.
Proof.
  unfold map_prefix. rewrite length_app, length_map, length_take, length_drop. lia.
Qed.

Lemma map_prefix_S f k d :
  <[k := f (nth k d zeroT)]> (map_prefix f k d) = map_prefix f (S k) d.
Proof.
  unfold map_prefix. destruct (decide (k < length d)%nat) as [Hlt|Hge].
  - destruct (lookup_lt_is_Some_2 d k Hlt) as [x Hx].
    rewrite (take_S_r d k x Hx), map_app, <- app_assoc. cbn [map app].
    rewrite (drop_S d x k Hx).
    rewrite insert_app_r_alt by (rewrite length_map, length_take; lia).
    rewrite length_map, length_take. replace (k - k `min` length d)%nat with 0%nat by lia.
    cbn. f_equal. f_equal. f_equal.
    apply nth_lookup_Some with (d := zeroT) in Hx. exact Hx.
  - rewrite list_insert_ge by (rewrite length_app, length_map, length_take, length_drop; lia).
    rewrite !take_ge, !drop_ge by lia. reflexivity.
Qed.

Lemma swap_loop_prefix (k : nat) a :
  foldl (fun a i => store i (swap (cell a i)) a) a (seqZ 0 (Z.of_nat k))
  = set_data (option_map (map_prefix swap k) (data a)) a.
Proof.
  induction k as [|k IH].
  - cbn. destruct a as [? ? ? [d|] ? ? ? ?]; cbn; [|reflexivity].
    unfold map_prefix. by rewrite take_0, drop_0.
  - rewrite seqZ_S, foldl_app, IH. cbn [foldl].
    destruct a as [nm ty sh [d|] na n m s]; cbn; [|reflexivity].
    unfold store, cell, set_data. cbn. f_equal. f_equal.
    rewrite Z.add_0_l, Nat2Z.id.
    destruct (decide (k < length d)%nat) as [Hlt|Hge].
    + assert (Hk : nth k (map_prefix swap k d) zeroT = nth k d zeroT).
      { unfold map_prefix. rewrite app_nth2 by (rewrite length_map, length_take; lia).
        rewrite length_map, length_take. replace (k - k `min` length d)%nat with 0%nat by lia.
        destruct (lookup_lt_is_Some_2 d k Hlt) as [x Hx].
        rewrite (drop_S d x k Hx). cbn. symmetry. by apply nth_lookup_Some. }
      rewrite Hk. apply map_prefix_S.
    + rewrite list_insert_ge by (rewrite map_prefix_length; lia).
      unfold map_prefix. rewrite !take_ge, !drop_ge by lia. reflexivity.
Qed.

Lemma u32_nonneg (z : Z) : 0 <= u32 z.
Proof. unfold u32. apply Z.mod_pos_bound. lia. Qed.

Lemma swapEndian_eval (e : Env T) :
  swapEndian e =
  (Returns tt,
   mkEnv (set_data (option_map (map_prefix swap (Z.to_nat (u32 (_n (this e) * _m (this e)))))
                               (data (this e))) (this e)) (os e)).
Proof.
  unfold swapEndian, on_this, modify. f_equal. f_equal.
  rewrite <- swap_loop_prefix. rewrite Z2Nat.id by apply u32_nonneg. reflexivity.
Qed.

Variable valid : T -> Prop.
Hypothesis swap_involutive : forall x, valid x -> swap (swap x) = x.


Lemma map_prefix_twice (k : nat) d :
  Forall valid d -> map_prefix swap k (map_prefix swap k d) = d.
Proof.
  intros Hd. unfold map_prefix.
  destruct (decide (k <= length d)%nat) as [Hle|Hgt].
  - rewrite take_app_length' by (rewrite length_map, length_take; lia).
    rewrite drop_app_length' by (rewrite length_map, length_take; lia).
    rewrite map_map. rewrite <- (take_drop k d) at 3. f_equal.
    rewrite <- (map_id (take k d)) at 2. apply map_ext_in.
    intros x Hx. apply swap_involutive.
    rewrite Forall_forall in Hd. apply Hd. apply list_elem_of_In in Hx.
    by apply (subseteq_take k d).
  - rewrite (take_ge d k), (drop_ge d k) by lia. rewrite app_nil_r.
    rewrite take_ge, drop_ge by (rewrite length_map; lia). rewrite app_nil_r.
    rewrite map_map. rewrite <- (map_id d) at 2. apply map_ext_in.
    intros x Hx. apply swap_involutive.
    rewrite Forall_forall in Hd. apply Hd. by apply list_elem_of_In.
Qed.

Lemma swapEndian_twice (e : Env T) :
  cells_valid valid (this e) -> (swapEndian >> swapEndian) e = (Returns tt, e).
Proof.
  intros Hv. unfold bind. rewrite swapEndian_eval. rewrite swapEndian_eval.
  destruct e as [[nm ty sh [d|] na n m s] w]; cbn; [|reflexivity].
  cbn in Hv. by rewrite map_prefix_twice.
Qed.
End SwapMatrix.

(** C7: on the object representation of each element type, the byte swap
    is an involution: swapping twice gives back every [real] (8 bytes),
    [indexval] (4 bytes), [vec3] (three 8-byte components) and [color] (four
    4-byte components); hence [Matrix::swapEndian] run twice returns
    normally and leaves a matrix of any of the four types, and its host, as
    they were. *)
Theorem swapEndian_round_trip :
  (forall x : real_bits, fits_real x -> swap (SwapEndian := SwapEndian_real) (swap (SwapEndian := SwapEndian_real) x) = x)
  /\ (forall x : indexval, fits_indexval x -> swap (SwapEndian := SwapEndian_indexval) (swap (SwapEndian := SwapEndian_indexval) x) = x)
  /\ (forall x : vec3_bits, fits_vec3 x -> swap (SwapEndian := SwapEndian_vec3) (swap (SwapEndian := SwapEndian_vec3) x) = x)
  /\ (forall x : color, fits_color x -> swap (SwapEndian := SwapEndian_color) (swap (SwapEndian := SwapEndian_color) x) = x)
  /\ (forall e : Env real_bits, cells_valid fits_real (this e) ->
        (swapEndian (elem := Element_real) (swapper := SwapEndian_real)
         >> swapEndian (elem := Element_real) (swapper := SwapEndian_real)) e = (Returns tt, e))
  /\ (forall e : Env indexval, cells_valid fits_indexval (this e) ->
        (swapEndian (elem := Element_indexval) (swapper := SwapEndian_indexval)
         >> swapEndian (elem := Element_indexval) (swapper := SwapEndian_indexval)) e
        = (Returns tt, e))
  /\ (forall e : Env vec3_bits, cells_valid fits_vec3 (this e) ->
        (swapEndian (elem := Element_vec3) (swapper := SwapEndian_vec3)
         >> swapEndian (elem := Element_vec3) (swapper := SwapEndian_vec3)) e = (Returns tt, e))
  /\ (forall e : Env color, cells_valid fits_color (this e) ->
        (swapEndian (elem := Element_color) (swapper := SwapEndian_color)
         >> swapEndian (elem := Element_color) (swapper := SwapEndian_color)) e
        = (Returns tt, e)).
Proof.
  assert (Hr : forall x : real_bits, fits_real x -> swap (SwapEndian := SwapEndian_real) (swap (SwapEndian := SwapEndian_real) x) = x).
  { intros x Hx. by apply swapEndian64_involutive. }
  assert (Hi : forall x : indexval, fits_indexval x ->
            swap (SwapEndian := SwapEndian_indexval) (swap (SwapEndian := SwapEndian_indexval) x) = x).
  { intros x Hx. by apply swapEndian32_involutive. }
  assert (Hv : forall x : vec3_bits, fits_vec3 x ->
            swap (SwapEndian := SwapEndian_vec3) (swap (SwapEndian := SwapEndian_vec3) x) = x).
  { intros [x y z] (Hx & Hy & Hz). unfold swap, SwapEndian_vec3. cbn [_x _y _z] in *.
    by rewrite !swapEndian64_involutive. }
  assert (Hc : forall x : color, fits_color x ->
            swap (SwapEndian := SwapEndian_color) (swap (SwapEndian := SwapEndian_color) x) = x).
  { intros [r g b a] (Hr' & Hg & Hb & Ha). unfold swap, SwapEndian_color. cbn [_r _g _b _a] in *.
    by rewrite !swapEndian32_involutive. }
  split; [exact Hr|]. split; [exact Hi|]. split; [exact Hv|]. split; [exact Hc|].
  split; [intros e He; by apply (swapEndian_twice fits_real)|].
  split; [intros e He; by apply (swapEndian_twice fits_indexval)|].
  split; [intros e He; by apply (swapEndian_twice fits_vec3)|].
  intros e He. by apply (swapEndian_twice fits_color).
Qed.

(** * Matrix *)


Section MatrixFacts.
Context {T : Type} {elem : Element T}.
Implicit Types (e : Env T) (a : Matrix T).

Lemma env_eta e : mkEnv (this e) (os e) = e.
Proof. by destruct e. Qed.

(** C4: on a matrix in shared mode, [append] of a value throws the
    [MemException] of [checkNotShared] and [append] of a matrix (another
    one or the matrix itself) throws a [MemException]; the object (row
    count, column count, every stored cell, capacity, names) and the host
    are left as they were: no reallocation takes place. *)
Theorem append_shared_throws e (t : T) (col : Z) (other : matrix_ref T) :
  _isShared (this e) = true ->
  append t col e
    = (Throws (MemException "Operation may only be performed on non-shared matrices"), e)
  /\ exists msg, append_matrix other e = (Throws (MemException msg), e).
Proof.
  intros Hs. split.
  - unfold append, addRows, setN, checkNotShared, bind, self. cbn. rewrite Hs. reflexivity.
  - unfold append_matrix, addRows, setN, checkNotShared, bind, self. cbn.
    destruct (negb (_m (deref other (this e)) =? _m (this e))); [eexists; reflexivity|].
    cbn. rewrite Hs. eexists; reflexivity.
Qed.

Lemma setShared_same_mode e (val : bool) :
  is_allocated (this e) = true -> _isShared (this e) = val ->
  setShared val e = (Returns tt, e).
Proof.
  intros Ha Hs. unfold setShared, bind, self. cbn. rewrite Ha, Hs.
  destruct val; reflexivity.
Qed.

Lemma bind_returns {S A B} (c : M S A) (k : A -> M S B) (s s' : S) (b : B) :
  (c >>= k) s = (Returns b, s') ->
  exists (x : A) (s1 : S), c s = (Returns x, s1) /\ k x s1 = (Returns b, s').
Proof.
  unfold bind. destruct (c s) as [[x|ex] s1]; [eauto | discriminate].
Qed.

Lemma setShared_true_post e e' :
  setShared true e = (Returns tt, e') ->
  is_allocated (this e') = true /\ _isShared (this e') = true.
Proof.
  unfold setShared. intros Hrun.
  apply bind_returns in Hrun as (a & e0 & Hself & Hrun).
  injection Hself as <- <-.
  destruct (is_allocated (this e) && Bool.eqb true (_isShared (this e))) eqn:Hearly.
  - injection Hrun as <-. apply andb_true_iff in Hearly as [Ha Hs].
    split; [exact Ha|]. by destruct (_isShared (this e)).
  - apply bind_returns in Hrun as ([] & e1 & Hbody & Hrun).
    injection Hrun as <-. cbn. split; [|reflexivity].
    destruct (memSize (this e) =? 0); [discriminate|].
    apply bind_returns in Hbody as (shared & e2 & _ & Hbody).
    injection Hbody as <-. reflexivity.
Qed.

(** C8: on a matrix whose storage is allocated, [setShared] with the mode
    it already holds returns at once and leaves the object and the host
    as they were; in particular, after a [setShared(true)] that returned
    normally, a second [setShared(true)] allocates nothing, copies
    nothing and keeps the segment name. *)
Theorem setShared_idempotent :
  (forall e (val : bool),
     is_allocated (this e) = true -> _isShared (this e) = val ->
     setShared val e = (Returns tt, e))
  /\ (forall e e',
        setShared true e = (Returns tt, e') ->
        setShared true e' = (Returns tt, e')).
Proof.
  split; [exact setShared_same_mode|].
  intros e e' Hrun. apply setShared_true_post in Hrun as [Ha Hs].
  by apply setShared_same_mode.
Qed.

(** *** createShared and resize leave the dimensions alone *)


Lemma same_shape_refl a : same_shape a a.
Proof. by repeat split. Qed.

Lemma same_shape_trans a1 a2 a3 : same_shape a1 a2 -> same_shape a2 a3 -> same_shape a1 a3.
Proof. unfold same_shape. intros (?&?&?&?) (?&?&?&?). repeat split; congruence. Qed.

Lemma retryNames_shape (fuel : nat) :
  forall (c : Z) (isCreator : bool) (fd : option errno) e,
    same_shape (this e) (this (snd (retryNames fuel c isCreator fd e))).
Proof.
  induction fuel as [|f IH]; intros c isCreator fd e; cbn [retryNames].
  - apply same_shape_refl.
  - destruct fd as [[]|]; try apply same_shape_refl.
    destruct ((c <? 100000) && isCreator); [|apply same_shape_refl].
    unfold bind at 1. unfold bind at 1. unfold chooseSharedName at 1, modify at 1.
    match goal with |- context [shm_open ?n ?x ?w] => destruct (shm_open n x w) as [fd' w'] end.
    eapply same_shape_trans; [|apply IH]. cbn. by repeat split.
Qed.

Lemma createShared_shape e :
  same_shape (this e) (this (snd (createShared e))).
Proof.
  unfold createShared. unfold bind at 1, self at 1.
  set (size := memSize (this e)). set (isCreator := String.eqb (_sharedname (this e)) "").
  set (e1 := snd ((if isCreator then chooseSharedName 0 else ret tt) e)).
  assert (H1 : same_shape (this e) (this e1)).
  { subst e1. destruct isCreator; cbn; by repeat split. }
  unfold bind at 1. unfold bind at 1. unfold bind at 1.
  assert (Hfst : (if isCreator then chooseSharedName 0 else ret tt) e = (Returns tt, e1)).
  { subst e1. by destruct isCreator. }
  rewrite Hfst.
  destruct (shm_open (c_str (_sharedname (this e1))) isCreator (os e1)) as [fd w] eqn:Hopen.
  pose proof (retryNames_shape (Z.to_nat 99999) 1 isCreator fd (mkEnv (this e1) w)) as H2.
  assert (H12 : forall e2, same_shape (this e1) (this e2) -> same_shape (this e) (this e2)).
  { intros e2. apply same_shape_trans, H1. }
  destruct (retryNames (Z.to_nat 99999) 1 isCreator fd (mkEnv (this e1) w)) as [[fd'|ex] e2];
    cbn [snd this] in H2; [|cbn; by apply H12].
  unfold bind at 1, self at 1.
  destruct fd' as [err|].
  - cbn. by apply H12.
  - destruct isCreator, (size =? 0); cbn; by apply H12.
Qed.

(** C10: [setShared(true)] on a matrix with [memSize() == 0], as when it
    has zero rows or zero columns, unless it is already an allocated
    shared one, throws the [MemException]
    "Cannot make empty matrix shared" and leaves the object and the host
    (no segment is created) as they were; a matrix may be created local
    with zero rows, its creation as a shared one throws; and a matrix that
    [setShared(true)] did place in shared mode is never empty. *)
Theorem setShared_empty_throws :
  (forall e,
     memSize (this e) = 0 -> is_allocated (this e) && _isShared (this e) = false ->
     setShared true e = (Throws (MemException "Cannot make empty matrix shared"), e))
  /\ (forall a, _n a = 0 \/ _m a = 0 -> memSize a = 0)
  /\ (forall (name type : string) (m : Z) (w : World),
        Matrix_new name type 0 m false w
          = (Returns tt, mkEnv (mkMatrix name type "" None 0 0 m false) w)
        /\ Matrix_new name type 0 m true w
          = (Throws (MemException "Cannot make empty matrix shared"),
             mkEnv (mkMatrix name type "" None 0 0 m false) w))
  /\ (forall e e',
        _isShared (this e) = false ->
        setShared true e = (Returns tt, e') ->
        _isShared (this e') = true /\ memSize (this e') <> 0).
Proof.
  assert (Hmem0 : forall a, _n a = 0 \/ _m a = 0 -> memSize a = 0).
  { intros a [Hz | Hz]; unfold memSize, u32; rewrite Hz.
    - by rewrite Z.mul_0_r, Z.mul_0_l.
    - by rewrite Z.mul_0_r. }
  assert (Hthrow : forall e, memSize (this e) = 0 ->
     is_allocated (this e) && _isShared (this e) = false ->
     setShared true e = (Throws (MemException "Cannot make empty matrix shared"), e)).
  { intros e Hsz Hs. unfold setShared. unfold bind at 1, self at 1.
    destruct (is_allocated (this e)), (_isShared (this e)); try discriminate Hs;
      cbn [andb Bool.eqb]; cbv zeta; rewrite Hsz; reflexivity. }
  split; [exact Hthrow|]. split; [exact Hmem0|]. split.
  - intros name type m w. split.
    + reflexivity.
    + unfold Matrix_new. apply Hthrow; [|reflexivity]. apply Hmem0. by left.
  - intros e e' Hs Hrun. split; [exact (proj2 (setShared_true_post _ _ Hrun))|].
    unfold setShared in Hrun.
    apply bind_returns in Hrun as (a & e0 & Hself & Hrun).
    injection Hself as <- <-. rewrite Hs, andb_false_r in Hrun.
    apply bind_returns in Hrun as ([] & e1 & Hbody & Hrun).
    injection Hrun as <-.
    destruct (memSize (this e) =? 0) eqn:Hsz; [discriminate|].
    apply Z.eqb_neq in Hsz.
    apply bind_returns in Hbody as (shared & e2 & Hcs & Hbody).
    injection Hbody as <-.
    apply bind_returns in Hcs as ([] & e3 & Hset & Hcs).
    injection Hset as <-.
    pose proof (createShared_shape (mkEnv (set_n_actual (_n (this e)) (this e)) (os e))) as Hsh.
    rewrite Hcs in Hsh. cbn in Hsh. destruct Hsh as (Hn & Hm & _).
    unfold memSize in *. cbn. rewrite Hn, Hm. exact Hsz.
Qed.

(** *** resize *)


Lemma u32_small (z : Z) : 0 <= z < 2 ^ 32 -> u32 z = z.
Proof. intros Hz. unfold u32. by apply Z.mod_small. Qed.

Lemma _max_sval_max (x y : Z) : _max_sval x y = Z.max x y.
Proof. unfold _max_sval. destruct (x >? y) eqn:E; lia. Qed.

Lemma resize_capacity_mono e (r : Z) :
  _isShared (this e) = false ->
  _n_actual (this e) <= capacity_after (resize r e).
Proof.
  intros Hs. unfold capacity_after, resize, bind, self. cbn. rewrite Hs. cbn.
  rewrite !andb_true_r.
  destruct (u32 (_n (this e) + r) <=? _n_actual (this e)); cbn; [lia|].
  match goal with |- context [?x <? _n_actual (this e)] =>
    destruct (x <? _n_actual (this e)) eqn:Hlt end; cbn; lia.
Qed.

Lemma resize_grows e (r : Z) :
  _isShared (this e) = false ->
  0 <= _n (this e) -> 0 <= r ->
  no_wrap (is_allocated (this e)) (_n (this e)) r ->
  _n_actual (this e) < _n (this e) + r ->
  (is_allocated (this e) = true \/ r = 0) ->
  fst (resize r e) = Returns tt
  /\ capacity_after (resize r e) = grown_capacity (is_allocated (this e)) (_n (this e)) r
  /\ _n (this (snd (resize r e))) = _n (this e)
  /\ _m (this (snd (resize r e))) = _m (this e)
  /\ _isShared (this (snd (resize r e))) = false
  /\ is_allocated (this (snd (resize r e))) = true.
Proof.
  intros Hs Hn Hr [Hsum Hfit] Hgrow Hcase.
  unfold capacity_after, resize, bind, self. cbn. rewrite Hs. cbn. rewrite !andb_true_r.
  rewrite (u32_small (_n (this e) + r)) by lia.
  destruct (_n (this e) + r <=? _n_actual (this e)) eqn:Hle; [lia|].
  unfold is_allocated, grown_capacity in *. destruct (data (this e)) as [old|] eqn:Hd.
  - destruct (Hfit eq_refl) as [Hfit3 Hfitr].
    rewrite (u32_small (_n (this e) * 3)) by lia.
    assert (Hdiv : 0 <= _n (this e) * 3 / 2 /\ 2 * (_n (this e) * 3 / 2) <= _n (this e) * 3
                   /\ _n (this e) * 3 < 2 * (_n (this e) * 3 / 2) + 2).
    { pose proof (Z.div_mod (_n (this e) * 3) 2 ltac:(lia)).
      pose proof (Z.mod_pos_bound (_n (this e) * 3) 2 ltac:(lia)). lia. }
    rewrite u32_small by lia. rewrite _max_sval_max.
    destruct (Z.max 1000 (_n (this e) * 3 / 2 + r) <? _n_actual (this e)) eqn:Hlt; [lia|].
    cbn. rewrite Hs. repeat split; reflexivity.
  - destruct Hcase as [Hc | ->]; [discriminate|].
    destruct (_n (this e) <? _n_actual (this e)) eqn:Hlt; [lia|].
    cbn. rewrite Hs. repeat split; reflexivity.
Qed.

Lemma setN_unshared e (k : Z) :
  _isShared (this e) = false ->
  setN k e = resize 0 (mkEnv (set_n k (this e)) (os e)).
Proof.
  intros Hs. unfold setN, checkNotShared. unfold bind at 1 2 3, self at 1.
  rewrite Hs. reflexivity.
Qed.

Lemma reserveRows_unshared e (num : Z) :
  _isShared (this e) = false -> reserveRows num e = resize num e.
Proof.
  intros Hs. unfold reserveRows, checkNotShared. unfold bind at 1 2, self at 1.
  rewrite Hs. reflexivity.
Qed.

Lemma addRows_setN e (num : Z) : addRows num e = setN (u32 (_n (this e) + num)) e.
Proof. reflexivity. Qed.

Lemma append_capacity e (t : T) (col : Z) :
  capacity_after (append t col e) = capacity_after (addRows 1 e).
Proof.
  unfold capacity_after, append. unfold bind at 1.
  destruct (addRows 1 e) as [[[]|ex] e1]; reflexivity.
Qed.

Lemma append_matrix_capacity e (other : matrix_ref T) :
  _m (deref other (this e)) = _m (this e) ->
  capacity_after (append_matrix other e)
  = capacity_after (addRows (_n (deref other (this e))) e).
Proof.
  intros Hm. unfold capacity_after, append_matrix. unfold bind at 1, self at 1.
  rewrite Hm, Z.eqb_refl. cbn [negb]. unfold bind at 1.
  destruct (addRows (_n (deref other (this e))) e) as [[[]|ex] e1]; reflexivity.
Qed.

Lemma setN_capacity_mono e (k : Z) :
  _isShared (this e) = false -> _n_actual (this e) <= capacity_after (setN k e).
Proof.
  intros Hs. rewrite setN_unshared by exact Hs.
  apply (resize_capacity_mono (mkEnv (set_n k (this e)) (os e))). exact Hs.
Qed.

Lemma removeRow_capacity_mono e (k : Z) :
  _isShared (this e) = false -> _n_actual (this e) <= capacity_after (removeRow k e).
Proof.
  intros Hs. cbv [removeRow bind self checkNotShared checkIndex ret throw].
  rewrite Hs. cbv beta iota.
  destruct (k >=? _n (this e)); [unfold capacity_after; cbn; lia|].
  destruct (k <? u32 (_n (this e) - 1)).
  - cbv [on_this modify]. cbv beta iota.
    match goal with |- context [setN ?k' ?e'] =>
      apply (setN_capacity_mono e' k') end.
    exact Hs.
  - cbv beta iota. by apply setN_capacity_mono.
Qed.

Lemma setShared_true_capacity e e' :
  _isShared (this e) = false ->
  setShared true e = (Returns tt, e') ->
  _n_actual (this e') = _n (this e).
Proof.
  intros Hs Hrun. unfold setShared in Hrun.
  apply bind_returns in Hrun as (a & e0 & Hself & Hrun).
  injection Hself as <- <-. rewrite Hs, andb_false_r in Hrun.
  apply bind_returns in Hrun as ([] & e1 & Hbody & Hrun).
  injection Hrun as <-.
  destruct (memSize (this e) =? 0); [discriminate|].
  apply bind_returns in Hbody as (shared & e2 & Hcs & Hbody).
  injection Hbody as <-.
  apply bind_returns in Hcs as ([] & e3 & Hset & Hcs).
  injection Hset as <-.
  pose proof (createShared_shape (mkEnv (set_n_actual (_n (this e)) (this e)) (os e))) as Hsh.
  rewrite Hcs in Hsh. cbn in Hsh. destruct Hsh as (_ & _ & Hcap & _).
  cbn. exact Hcap.
Qed.

Lemma clear_capacity e : capacity_after (clear e) = 0.
Proof.
  unfold capacity_after, clear. cbv [bind self].
  destruct (data (this e)) as [d|]; [destruct (_isShared (this e))|]; reflexivity.
Qed.

(** C3, amended: for a non-shared matrix, whenever the row count set by
    [setN], [addRows] or [append] (with nothing requested), or the row
    count plus the rows requested of [reserveRows], exceeds the capacity
    [_n_actual], the new capacity is
    [max(1000, floor(rows * 3 / 2) + requested)] when storage is already
    allocated, provided [rows * 3] and [floor(rows * 3 / 2) + requested]
    stay below [2^32] ([resize] computes them in 32 bits), and exactly the
    row count on the first allocation by [setN], [addRows] or [append];
    none of [setN], [addRows], [reserveRows], [append], [removeRow] and
    [setM] ever reduces [_n_actual], and [setM] leaves the storage
    untouched as well; [setShared(true)], which moves the cells into a
    segment of exactly the row count, and [clear], which releases the
    storage, set it to the row count and to 0. *)
Theorem capacity_growth_policy e :
  _isShared (this e) = false ->
  0 <= _n (this e) ->
  let allocated := is_allocated (this e) in
  let grown := grown_capacity allocated in
  (forall k : Z,
     0 <= k -> no_wrap allocated k 0 -> _n_actual (this e) < k ->
     capacity_after (setN k e) = grown k 0)
  /\ (forall num : Z,
        0 <= num -> no_wrap allocated (_n (this e) + num) 0 ->
        _n_actual (this e) < _n (this e) + num ->
        capacity_after (addRows num e) = grown (_n (this e) + num) 0)
  /\ (forall (t : T) (col : Z),
        no_wrap allocated (_n (this e) + 1) 0 ->
        _n_actual (this e) < _n (this e) + 1 ->
        capacity_after (append t col e) = grown (_n (this e) + 1) 0)
  /\ (forall other : matrix_ref T,
        let rows := _n (this e) + _n (deref other (this e)) in
        _m (deref other (this e)) = _m (this e) ->
        0 <= _n (deref other (this e)) -> no_wrap allocated rows 0 ->
        _n_actual (this e) < rows ->
        capacity_after (append_matrix other e) = grown rows 0)
  /\ (forall num : Z,
        allocated = true ->
        0 <= num -> no_wrap allocated (_n (this e)) num ->
        _n_actual (this e) < _n (this e) + num ->
        capacity_after (reserveRows num e) = Z.max 1000 (_n (this e) * 3 / 2 + num))
  /\ (forall (k num : Z) (t : T) (col : Z) (other : matrix_ref T),
        _n_actual (this e) <= capacity_after (setN k e)
        /\ _n_actual (this e) <= capacity_after (addRows num e)
        /\ _n_actual (this e) <= capacity_after (reserveRows num e)
        /\ _n_actual (this e) <= capacity_after (append t col e)
        /\ _n_actual (this e) <= capacity_after (append_matrix other e)
        /\ _n_actual (this e) <= capacity_after (removeRow k e)
        /\ _n_actual (this e) <= capacity_after (setM k e)
        /\ data (this (snd (setM k e))) = data (this e))
  /\ (forall e' : Env T,
        setShared true e = (Returns tt, e') -> _n_actual (this e') = _n (this e))
  /\ capacity_after (clear e) = 0.
Proof.
  intros Hs Hn allocated grown.
  assert (HsetN : forall k, 0 <= k -> no_wrap allocated k 0 -> _n_actual (this e) < k ->
            capacity_after (setN k e) = grown k 0).
  { intros k Hk Hfit Hgrow. rewrite setN_unshared by exact Hs.
    pose proof (resize_grows (mkEnv (set_n k (this e)) (os e)) 0) as Hg.
    cbn in Hg. destruct Hg as (_ & Hcap & _); auto; lia. }
  assert (HaddRows : forall num, 0 <= num -> no_wrap allocated (_n (this e) + num) 0 ->
            _n_actual (this e) < _n (this e) + num ->
            capacity_after (addRows num e) = grown (_n (this e) + num) 0).
  { intros num Hnum Hfit Hgrow. pose proof Hfit as [Hsum _].
    rewrite addRows_setN, u32_small by lia. apply HsetN; [lia | exact Hfit | lia]. }
  assert (HmonoN : forall k, _n_actual (this e) <= capacity_after (setN k e)).
  { intros k. rewrite setN_unshared by exact Hs.
    apply (resize_capacity_mono (mkEnv (set_n k (this e)) (os e))). exact Hs. }
  split; [exact HsetN|]. split; [exact HaddRows|]. split.
  { intros t col Hfit Hgrow. rewrite append_capacity. apply HaddRows; [lia | exact Hfit | lia]. }
  split.
  { intros other rows Hm Ho Hfit Hgrow. rewrite append_matrix_capacity by exact Hm.
    apply HaddRows; [exact Ho | exact Hfit | exact Hgrow]. }
  split.
  { intros num Ha Hnum Hfit Hgrow. rewrite reserveRows_unshared by exact Hs.
    destruct (resize_grows e num) as (_ & Hcap & _); auto.
    rewrite Hcap. fold allocated. rewrite Ha. reflexivity. }
  split; [|split; [intros e' Hrun; by apply setShared_true_capacity | apply clear_capacity]].
  intros k num t col other. split; [apply HmonoN|]. split; [rewrite addRows_setN; apply HmonoN|].
  split; [rewrite reserveRows_unshared by exact Hs; by apply resize_capacity_mono|].
  split; [rewrite append_capacity, addRows_setN; apply HmonoN|].
  split.
  { unfold capacity_after, append_matrix. unfold bind at 1, self at 1.
    destruct (negb (_m (deref other (this e)) =? _m (this e))); [cbn; lia|].
    unfold bind at 1. pose proof (HmonoN (u32 (_n (this e) + _n (deref other (this e))))) as Hm.
    rewrite <- addRows_setN in Hm. unfold capacity_after in Hm.
    destruct (addRows (_n (deref other (this e))) e) as [[[]|ex] e1]; exact Hm. }
  split; [by apply removeRow_capacity_mono|].
  unfold capacity_after, setM, checkNotShared, bind, self. cbn. rewrite Hs. cbn.
  destruct (_max_sval 1 k >? u32 (_m (this e) * _n (this e))); cbn; (split; [lia | reflexivity]).
Qed.
End MatrixFacts.


Section ForEach.
Context {S A : Type}.

Lemma for_each_ok (l : list A) (body : A -> M S unit) (s : S) :
  (forall x, x ∈ l -> body x s = (Returns tt, s)) ->
  for_each l body s = (Returns tt, s).
Proof.
  induction l as [|x r IH]; intros Hall; cbn; [reflexivity|].
  unfold bind. rewrite (Hall x) by left. apply IH. intros y Hy. apply Hall. by right.
Qed.

Lemma for_each_first_throw (pre post : list A) (x : A) (body : A -> M S unit) (s : S)
    (ex : exn) :
  (forall y, y ∈ pre -> body y s = (Returns tt, s)) ->
  body x s = (Throws ex, s) ->
  for_each (pre ++ x :: post) body s = (Throws ex, s).
Proof.
  intros Hpre Hx. induction pre as [|y pre IH]; cbn.
  - unfold bind. by rewrite Hx.
  - unfold bind. rewrite (Hpre y) by left. apply IH. intros z Hz. apply Hpre. by right.
Qed.
End ForEach.

Section InsertFold.
Context {T J : Type}.
Variables (f : J -> nat) (g : J -> T) (z : T).


Lemma insert_all_length (js : list J) : forall d, length (insert_all f g js d) = length d.
Proof.
  induction js as [|j js IH]; intros d; cbn; [reflexivity|].
  unfold insert_all in IH |- *. by rewrite IH, length_insert.
Qed.

Lemma insert_all_other (js : list J) (x : nat) :
  (forall j, j ∈ js -> f j <> x) ->
  forall d, nth x (insert_all f g js d) z = nth x d z.
Proof.
  induction js as [|j js IH]; intros Hne d; cbn; [reflexivity|].
  unfold insert_all in IH |- *. rewrite IH by (intros j' Hj'; apply Hne; by right).
  rewrite !nth_lookup, list_lookup_insert_ne; [reflexivity|]. apply Hne. by left.
Qed.

Lemma insert_all_hit (js : list J) (j0 : J) :
  NoDup (map f js) -> j0 ∈ js ->
  forall d, (f j0 < length d)%nat -> nth (f j0) (insert_all f g js d) z = g j0.
Proof.
  induction js as [|j js IH]; intros Hnd Hin d Hlen; [by apply elem_of_nil in Hin|].
  cbn in Hnd. apply NoDup_cons in Hnd as [Hnotin Hnd]. cbn.
  apply elem_of_cons in Hin as [-> | Hin].
  - fold (insert_all f g js (<[f j := g j]> d)). rewrite insert_all_other.
    + rewrite nth_lookup, list_lookup_insert_eq by exact Hlen. reflexivity.
    + intros j' Hj' Heq. apply Hnotin. rewrite <- Heq. apply list_elem_of_fmap. eauto.
  - apply IH; [exact Hnd|exact Hin|]. by rewrite length_insert.
Qed.
End InsertFold.

Section Reorder.
Context {T : Type} {elem : Element T}.
Implicit Types (a : Matrix T) (d : list T).

Lemma ats_fold (i : Z) (g : Z -> T) (js : list Z) :
  forall a,
    foldl (fun a j => ats i j (g j) a) a js
    = set_data (option_map (insert_all (fun j => Z.to_nat (index a i j)) g js) (data a)) a.
Proof.
  induction js as [|j js IH]; intros a; cbn [foldl].
  - destruct a as [? ? ? [d|] ? ? ? ?]; reflexivity.
  - rewrite IH. destruct a as [nm ty sh [d|] na n m s]; reflexivity.
Qed.

Variable orderinds : list Z.
Local Abbreviation o := (orderind orderinds).


Lemma reorderRow_data a (i : Z) :
  reorderRow orderinds a i = set_data (option_map (reorderRowData orderinds (_m a) i) (data a)) a.
Proof.
  unfold reorderRow. rewrite ats_fold.
  destruct a as [nm ty sh [d|] na n m s]; reflexivity.
Qed.

Lemma reorderRows_data (rows : list Z) :
  forall a,
    foldl (reorderRow orderinds) a rows
    = set_data (option_map (fun d => foldl (fun d i => reorderRowData orderinds (_m a) i d) d rows)
                           (data a)) a.
Proof.
  induction rows as [|i rows IH]; intros a; cbn [foldl].
  - destruct a as [? ? ? [d|] ? ? ? ?]; reflexivity.
  - rewrite IH, reorderRow_data. destruct a as [nm ty sh [d|] na n m s]; reflexivity.
Qed.

Lemma cell_index (m i j : Z) :
  0 <= m -> 0 <= i -> m * (i + 1) < 2 ^ 32 -> 0 <= j < m ->
  u32 (j + u32 (m * i)) = m * i + j.
Proof.
  intros Hm Hi Hfit Hj. unfold u32. rewrite (Z.mod_small (m * i)) by nia.
  rewrite Z.mod_small by nia. lia.
Qed.

Section Row.
Variables (m i : Z) (d : list T).
Hypothesis Hm : 0 <= m.
Hypothesis Hi : 0 <= i.
Hypothesis Hfit : m * (i + 1) < 2 ^ 32.
Hypothesis Hlen : m * (i + 1) <= Z.of_nat (length d).
Hypothesis Ho : forall j, 0 <= j < m -> 0 <= o j < m.

Lemma row_index (j : Z) : 0 <= j < m -> u32 (j + u32 (m * i)) = m * i + j.
Proof. intros Hj. by apply cell_index. Qed.

Lemma reorderRowData_length : length (reorderRowData orderinds m i d) = length d.
Proof. apply insert_all_length. Qed.

Lemma reorderRowData_other (x : nat) :
  (Z.of_nat x < m * i \/ m * (i + 1) <= Z.of_nat x) ->
  nth x (reorderRowData orderinds m i d) zeroT = nth x d zeroT.
Proof.
  intros Hx. apply insert_all_other. intros j Hj.
  apply elem_of_seqZ in Hj. rewrite row_index by lia. nia.
Qed.

Lemma reorderRowData_hit (j : Z) :
  0 <= j < m ->
  nth (Z.to_nat (m * i + j)) (reorderRowData orderinds m i d) zeroT
  = nth (Z.to_nat (m * i + o j)) d zeroT.
Proof.
  intros Hj. unfold reorderRowData.
  rewrite <- (row_index j) by exact Hj.
  rewrite (insert_all_hit (fun j => Z.to_nat (u32 (j + u32 (m * i))))).
  - pose proof (Ho j Hj) as Hoj.
    rewrite (nth_lookup (map _ _)), list_lookup_fmap, lookup_seqZ_lt by lia. cbn.
    rewrite Z.add_0_l, Z2Nat.id, row_index by lia. reflexivity.
  - apply NoDup_fmap_2_strong; [|apply NoDup_seqZ].
    intros x y Hx Hy Heq. apply elem_of_seqZ in Hx, Hy.
    rewrite !row_index in Heq by lia. nia.
  - apply elem_of_seqZ. lia.
  - rewrite row_index by exact Hj. nia.
Qed.
End Row.

Section Rows.
Variables (n m : Z) (d : list T).
Hypothesis Hm : 0 <= m.
Hypothesis Hfit : n * m < 2 ^ 32.
Hypothesis Hlen : n * m <= Z.of_nat (length d).
Hypothesis Ho : forall j, 0 <= j < m -> 0 <= o j < m.


Lemma reorderRowsData_cells (k : nat) :
  Z.of_nat k <= n ->
  length (reorderRowsData orderinds m d k) = length d
  /\ (forall i j : Z, 0 <= i < Z.of_nat k -> 0 <= j < m ->
        nth (Z.to_nat (m * i + j)) (reorderRowsData orderinds m d k) zeroT
        = nth (Z.to_nat (m * i + o j)) d zeroT)
  /\ (forall x : nat, m * Z.of_nat k <= Z.of_nat x ->
        nth x (reorderRowsData orderinds m d k) zeroT = nth x d zeroT).
Proof.
  induction k as [|k IH]; intros Hk.
  - cbn. repeat split; intros; try lia; reflexivity.
  - destruct IH as (IHlen & IHrow & IHrest); [lia|].
    unfold reorderRowsData. rewrite seqZ_S, foldl_app. cbn [foldl].
    fold (reorderRowsData orderinds m d k). rewrite Z.add_0_l.
    assert (Hfit' : m * (Z.of_nat k + 1) < 2 ^ 32) by nia.
    assert (Hlen' : m * (Z.of_nat k + 1) <= Z.of_nat (length (reorderRowsData orderinds m d k)))
      by (rewrite IHlen; nia).
    split; [by rewrite reorderRowData_length|]. split.
    + intros i j Hi Hj. destruct (decide (i = Z.of_nat k)) as [-> | Hne].
      * rewrite reorderRowData_hit by (try assumption; lia).
        apply IHrest. pose proof (Ho j Hj). rewrite Z2Nat.id by nia. nia.
      * rewrite reorderRowData_other by (try assumption; try lia; rewrite Z2Nat.id by nia; nia).
        apply IHrow; lia.
    + intros x Hx. rewrite reorderRowData_other by (try assumption; lia).
      apply IHrest. nia.
Qed.
End Rows.

(** C9, amended: [reorderColumns] checks each of the first [cols] indices
    against [cols] and nothing else.  At the first index [>= cols] it
    throws the [IndexException] of that index, before any cell is
    written.  When all are below [cols], repeated or omitted or not, it
    returns normally, keeps the dimensions, and cell (i,j) of each row
    holds what cell (i, orderinds[j]) held before. *)
Theorem reorderColumns_checks_range_only (e : Env T) :
  0 <= _n (this e) -> 0 <= _m (this e) ->
  let a := this e in
  (forall d : list T,
     data a = Some d ->
     _n a * _m a < 2 ^ 32 -> _n a * _m a <= Z.of_nat (length d) ->
     (forall j, 0 <= j < _m a -> 0 <= o j < _m a) ->
     exists a' : Matrix T,
       reorderColumns orderinds e = (Returns tt, mkEnv a' (os e))
       /\ _n a' = _n a /\ _m a' = _m a
       /\ forall i j : Z, 0 <= i < _n a -> 0 <= j < _m a ->
            at_ a' i j = at_ a i (o j))
  /\ (forall j0 : Z,
        0 <= j0 < _m a -> _m a <= o j0 ->
        (forall j, 0 <= j < j0 -> o j < _m a) ->
        reorderColumns orderinds e
          = (Throws (IndexException "sortinds" (o j0) (_m a)), e)).
Proof.
  intros Hn Hm a. subst a. split.
  - intros d Hd Hfit Hlen Ho.
    exists (foldl (reorderRow orderinds) (this e) (seqZ 0 (_n (this e)))).
    split; [|split; [|split]].
    + unfold reorderColumns. unfold bind at 1. unfold bind at 1. unfold self at 1.
      rewrite for_each_ok; [reflexivity|].
      intros j Hj. apply elem_of_seqZ in Hj. unfold checkIndex.
      pose proof (Ho j ltac:(lia)) as Hoj.
      destruct (o j >=? _m (this e)) eqn:Hge; [|reflexivity].
      rewrite Z.geb_leb in Hge. apply Z.leb_le in Hge. lia.
    + rewrite reorderRows_data. destruct (this e) as [? ? ? [?|] ? ? ? ?]; reflexivity.
    + rewrite reorderRows_data. destruct (this e) as [? ? ? [?|] ? ? ? ?]; reflexivity.
    + intros i j Hi Hj. rewrite reorderRows_data.
      pose proof (reorderRowsData_cells (_n (this e)) (_m (this e)) d Hm Hfit Hlen Ho (Z.to_nat (_n (this e)))
                    ltac:(lia)) as (_ & Hrow & _).
      unfold reorderRowsData in Hrow. rewrite Z2Nat.id in Hrow by lia.
      pose proof (Ho j Hj) as Hoj.
      unfold at_, cell, index. rewrite Hd. cbn [data set_data option_map _m].
      rewrite !cell_index by (try lia; nia).
      apply Hrow; lia.
  - intros j0 Hj0 Hbad Hpre.
    unfold reorderColumns. unfold bind at 1. unfold bind at 1. unfold self at 1.
    assert (Hsplit : seqZ 0 (_m (this e)) = seqZ 0 j0 ++ j0 :: seqZ (j0 + 1) (_m (this e) - j0 - 1)).
    { replace (_m (this e)) with (j0 + (1 + (_m (this e) - j0 - 1))) at 1 by lia.
      rewrite seqZ_app by lia. f_equal. rewrite seqZ_app by lia.
      rewrite Z.add_0_l. reflexivity. }
    rewrite Hsplit.
    rewrite (for_each_first_throw _ _ _ _ _ (IndexException "sortinds" (o j0) (_m (this e))));
      [reflexivity| |].
    + intros j Hj. apply elem_of_seqZ in Hj. unfold checkIndex.
      pose proof (Hpre j ltac:(lia)).
      destruct (o j >=? _m (this e)) eqn:Hge; [|reflexivity].
      rewrite Z.geb_leb in Hge. apply Z.leb_le in Hge. lia.
    + unfold checkIndex. destruct (o j0 >=? _m (this e)) eqn:Hge; [reflexivity|].
      rewrite Z.geb_leb in Hge. apply Z.leb_gt in Hge. lia.
Qed.
End Reorder.

(** * Counterexamples and instances on concrete objects *)

(** C3, counterexample: a matrix of 1000 allocated rows grows to capacity
    1501 on [append], where [max(1000, ceil(rows * 1.5) + requested)] is
    1502; a matrix created with no rows gets capacity 1 on its first
    [append], where the formula gives 1000. *)
Lemma capacity_growth_not_ceil :
  is_allocated (this rows_1000) = true
  /\ _n_actual (this rows_1000) = 1000
  /\ _n (this (snd (append (elem := Element_real) 5 0 rows_1000))) = 1001
  /\ capacity_after (append (elem := Element_real) 5 0 rows_1000) = 1501
  /\ spec_capacity 1001 0 = 1502
  /\ _n_actual (this rows_0) = 0
  /\ _n (this (snd (append (elem := Element_real) 5 0 rows_0))) = 1
  /\ capacity_after (append (elem := Element_real) 5 0 rows_0) = 1
  /\ spec_capacity 1 0 = 1000.
Proof. vm_compute. repeat split; reflexivity. Qed.

(** C3 on [rows_1000] and [rows_0], and for a request of [2^31] rows on
    [rows_1000]. *)
Lemma capacity_growth_policy_witness :
  capacity_after (append (elem := Element_real) 5 0 rows_1000) = Z.max 1000 (1001 * 3 / 2 + 0)
  /\ capacity_after (append (elem := Element_real) 5 0 rows_0) = 1
  /\ capacity_after (reserveRows (elem := Element_real) (2 ^ 31) rows_1000)
     = Z.max 1000 (1000 * 3 / 2 + 2 ^ 31).
Proof.
  assert (Hfits : forall b rows req,
            rows + req < 2 ^ 32 -> 3 * rows < 2 ^ 32 -> rows * 3 / 2 + req < 2 ^ 32 ->
            no_wrap b rows req) by (intros; split; [assumption | intros _; split; assumption]).
  split; [|split].
  - destruct (capacity_growth_policy (elem := Element_real) rows_1000) as (_ & _ & Happ & _);
      [vm_compute; reflexivity | vm_compute; discriminate |].
    rewrite (Happ 5 0);
      [vm_compute; reflexivity | apply Hfits; vm_compute; reflexivity | vm_compute; reflexivity].
  - destruct (capacity_growth_policy (elem := Element_real) rows_0) as (_ & _ & Happ & _);
      [vm_compute; reflexivity | vm_compute; discriminate |].
    rewrite (Happ 5 0);
      [vm_compute; reflexivity | apply Hfits; vm_compute; reflexivity | vm_compute; reflexivity].
  - destruct (capacity_growth_policy (elem := Element_real) rows_1000)
      as (_ & _ & _ & _ & Hres & _);
      [vm_compute; reflexivity | vm_compute; discriminate |].
    apply (Hres (2 ^ 31));
      [vm_compute; reflexivity | vm_compute; discriminate
      | apply Hfits; vm_compute; reflexivity | vm_compute; reflexivity].
Defined.

(** C4 on [shared_2x2]. *)
Lemma append_shared_throws_witness :
  _isShared (this shared_2x2) = true
  /\ append (elem := Element_real) 3 0 shared_2x2
     = (Throws (MemException "Operation may only be performed on non-shared matrices"), shared_2x2)
  /\ exists msg, append_matrix (elem := Element_real) (other_matrix (this local_2x2)) shared_2x2
                 = (Throws (MemException msg), shared_2x2).
Proof.
  split; [vm_compute; reflexivity|].
  apply (append_shared_throws (elem := Element_real) shared_2x2 3 0
           (other_matrix (this local_2x2))).
  vm_compute. reflexivity.
Defined.

(** C8 on [local_2x2] and the shared matrix [setShared(true)] makes of it. *)
Lemma setShared_idempotent_witness :
  setShared (elem := Element_real) true local_2x2 = (Returns tt, shared_2x2)
  /\ setShared (elem := Element_real) true shared_2x2 = (Returns tt, shared_2x2)
  /\ setShared (elem := Element_real) false local_2x2 = (Returns tt, local_2x2).
Proof.
  assert (Hrun : setShared (elem := Element_real) true local_2x2 = (Returns tt, shared_2x2))
    by (vm_compute; reflexivity).
  split; [exact Hrun|]. split.
  - exact (proj2 (setShared_idempotent (elem := Element_real)) local_2x2 shared_2x2 Hrun).
  - apply (proj1 (setShared_idempotent (elem := Element_real))); vm_compute; reflexivity.
Defined.

(** C10 on [rows_0]. *)
Lemma setShared_empty_throws_witness :
  memSize (elem := Element_real) (this rows_0) = 0
  /\ setShared (elem := Element_real) true rows_0
     = (Throws (MemException "Cannot make empty matrix shared"), rows_0).
Proof.
  assert (Hz : memSize (elem := Element_real) (this rows_0) = 0) by (vm_compute; reflexivity).
  split; [exact Hz|].
  apply (proj1 (setShared_empty_throws (elem := Element_real))); [exact Hz|].
  vm_compute. reflexivity.
Defined.

(** C9, counterexample: [reorderColumns] accepts the order [0, 0], which
    is no permutation of the two columns, and overwrites column 1 with
    column 0. *)
Lemma reorderColumns_accepts_repeats :
  let e := local_2x2 in
  let res := reorderColumns (elem := Element_real) [0; 0] e in
  data (this e) = Some [4; 0; 0; 9]
  /\ fst res = Returns tt
  /\ data (this (snd res)) = Some [4; 4; 0; 0].
Proof. vm_compute. repeat split; reflexivity. Qed.

(** C9 on [local_2x2]: the order [1, 0] swaps its columns, the order
    [0, 2] is refused. *)
Lemma reorderColumns_checks_range_only_witness :
  (exists a' : Matrix real_bits,
     reorderColumns (elem := Element_real) [1; 0] local_2x2 = (Returns tt, mkEnv a' (os local_2x2))
     /\ at_ (elem := Element_real) a' 0 0 = 0 /\ at_ (elem := Element_real) a' 0 1 = 4
     /\ at_ (elem := Element_real) a' 1 0 = 9 /\ at_ (elem := Element_real) a' 1 1 = 0)
  /\ reorderColumns (elem := Element_real) [0; 2] local_2x2
     = (Throws (IndexException "sortinds" 2 2), local_2x2).
Proof.
  destruct (reorderColumns_checks_range_only (elem := Element_real) [1; 0] local_2x2)
    as [Hok _]; [vm_compute; discriminate | vm_compute; discriminate |].
  destruct (reorderColumns_checks_range_only (elem := Element_real) [0; 2] local_2x2)
    as [_ Hthrow]; [vm_compute; discriminate | vm_compute; discriminate |].
  split.
  - destruct (Hok [4; 0; 0; 9]) as (a' & Hrun & _ & _ & Hcells).
    + vm_compute. reflexivity.
    + vm_compute. reflexivity.
    + vm_compute. discriminate.
    + intros j Hj. change (_m (this local_2x2)) with 2 in *.
      assert (Hcase : j = 0 \/ j = 1) by lia.
      destruct Hcase as [-> | ->]; vm_compute; (split; [discriminate | reflexivity]).
    + exists a'. split; [exact Hrun|].
      change (_n (this local_2x2)) with 2 in Hcells.
      change (_m (this local_2x2)) with 2 in Hcells.
      rewrite (Hcells 0 0), (Hcells 0 1), (Hcells 1 0), (Hcells 1 1) by lia.
      vm_compute. repeat split; reflexivity.
  - apply (Hthrow 1).
    + vm_compute. split; [discriminate | reflexivity].
    + vm_compute. discriminate.
    + intros j Hj. assert (j = 0) as -> by lia. vm_compute. reflexivity.
Defined.

(** C7 on the cell 4 and on [local_2x2]. *)
Lemma swapEndian_round_trip_witness :
  fits_real 4
  /\ swap (SwapEndian := SwapEndian_real) (swap (SwapEndian := SwapEndian_real) 4) = 4
  /\ (swapEndian (elem := Element_real) (swapper := SwapEndian_real)
      >> swapEndian (elem := Element_real) (swapper := SwapEndian_real)) local_2x2
     = (Returns tt, local_2x2).
Proof.
  assert (Hfit : fits_real 4) by (vm_compute; split; [discriminate | reflexivity]).
  split; [exact Hfit|]. split.
  - exact (proj1 swapEndian_round_trip 4 Hfit).
  - apply (proj2 (proj2 (proj2 (proj2 swapEndian_round_trip)))).
    assert (Hd : data (this local_2x2) = Some [4; 0; 0; 9]) by (vm_compute; reflexivity).
    unfold cells_valid. rewrite Hd.
    repeat (constructor; [vm_compute; split; [discriminate | reflexivity] |]). constructor.
Defined.

(** * Part III: further properties of the code *)

(** ** Matrix: cells, rows and shared segments *)

Section MatrixCells.
Context {T : Type} {elem : Element T}.
Implicit Types (e : Env T) (a : Matrix T) (d : list T).

Lemma memcpy_length (dst src : list T) (count : Z) : length (memcpy dst src count) = length dst.
Proof.
  unfold memcpy. rewrite length_app, length_drop, !length_take. lia.
Qed.

Lemma memcpy_lookup (dst src : list T) (count : Z) (i : nat) :
  memcpy dst src count !! i =
  if decide (i < length dst /\ i < Z.to_nat count /\ i < length src)%nat
  then src !! i else dst !! i.
Proof.
  unfold memcpy.
  set (copied := take (length dst) (take (Z.to_nat count) src)).
  assert (Hlen : length copied = (length dst `min` (Z.to_nat count `min` length src))%nat).
  { unfold copied. rewrite !length_take. lia. }
  destruct (decide _) as [Hin | Hout].
  - rewrite lookup_app_l by lia. unfold copied.
    rewrite !lookup_take_lt by lia. reflexivity.
  - rewrite lookup_app_r by lia. rewrite lookup_drop. f_equal. lia.
Qed.

Lemma cell_lookup a d (x : Z) :
  data a = Some d -> cell a x = default zeroT (d !! Z.to_nat x).
Proof. intros Hd. unfold cell. rewrite Hd. apply nth_lookup. Qed.

Lemma cell_store_eq a (x : Z) (t : T) d :
  data a = Some d -> (Z.to_nat x < length d)%nat -> cell (store x t a) x = t.
Proof.
  intros Hd Hx. unfold cell, store. cbn. rewrite Hd. cbn.
  rewrite nth_lookup, list_lookup_insert_eq by done. reflexivity.
Qed.

Lemma cell_store_ne a (x y : Z) (t : T) :
  Z.to_nat x <> Z.to_nat y -> cell (store x t a) y = cell a y.
Proof.
  intros Hne. unfold cell, store. cbn. destruct (data a) as [d|]; cbn; [|done].
  rewrite !nth_lookup, list_lookup_insert_ne by done. reflexivity.
Qed.

(** The index of an addressed cell, without wrap-around. *)
Lemma index_plain a (i j : Z) :
  0 <= _m a -> 0 <= i -> 0 <= j < _m a -> _m a * (i + 1) < 2 ^ 32 ->
  index a i j = _m a * i + j.
Proof. intros. unfold index. by apply cell_index. Qed.

(** Bounds of products of sizes, and of the index of a cell in a block of
    [N] rows of [m] cells. *)
Lemma mul_bounds (n N m : Z) : 0 <= n <= N -> 0 <= m -> 0 <= n * m <= N * m.
Proof.
  intros Hn Hm. split; [apply Z.mul_nonneg_nonneg | apply Z.mul_le_mono_nonneg_r]; lia.
Qed.

Lemma cell_bounds (m i N j : Z) :
  0 <= i < N -> 0 <= j < m -> 0 <= m * i + j < N * m /\ m * (i + 1) <= N * m.
Proof.
  intros Hi Hj.
  assert (m * (i + 1) <= m * N) by (apply Z.mul_le_mono_nonneg_l; lia).
  assert (0 <= m * i) by (apply Z.mul_nonneg_nonneg; lia).
  lia.
Qed.

Lemma index_wf a (i j : Z) :
  well_formed a -> 0 <= i < _n_actual a -> 0 <= j < _m a ->
  index a i j = _m a * i + j /\ 0 <= _m a * i + j < _n_actual a * _m a.
Proof.
  intros (Hn & Hna & Hm & Hfit & Hst) Hi Hj.
  pose proof (cell_bounds (_m a) i (_n_actual a) j Hi Hj).
  split; [apply index_plain; lia | lia].
Qed.
End MatrixCells.

Section MatrixAccess.
Context {T : Type} {elem : Element T}.
Implicit Types (e : Env T) (a : Matrix T) (d : list T).

Lemma getIndex_ok e (n m : Z) :
  n < _n (this e) -> m < _m (this e) ->
  getIndex n m e = (Returns (index (this e) n m), e).
Proof.
  intros Hn Hm. unfold getIndex, checkIndex, bind, self. cbn.
  destruct (n >=? _n (this e)) eqn:E1; [rewrite Z.geb_leb in E1; apply Z.leb_le in E1; lia|].
  cbn. destruct (m >=? _m (this e)) eqn:E2; [rewrite Z.geb_leb in E2; apply Z.leb_le in E2; lia|].
  reflexivity.
Qed.

Lemma getIndex_bad_n e (n m : Z) :
  _n (this e) <= n ->
  getIndex n m e = (Throws (IndexException "n" n (_n (this e))), e).
Proof.
  intros Hn. unfold getIndex, checkIndex, bind, self. cbn.
  destruct (n >=? _n (this e)) eqn:E1; [reflexivity|].
  rewrite Z.geb_leb in E1. apply Z.leb_gt in E1. lia.
Qed.

Lemma getIndex_bad_m e (n m : Z) :
  n < _n (this e) -> _m (this e) <= m ->
  getIndex n m e = (Throws (IndexException "m" m (_m (this e))), e).
Proof.
  intros Hn Hm. unfold getIndex, checkIndex, bind, self. cbn.
  destruct (n >=? _n (this e)) eqn:E1; [rewrite Z.geb_leb in E1; apply Z.leb_le in E1; lia|].
  cbn. destruct (m >=? _m (this e)) eqn:E2; [reflexivity|].
  rewrite Z.geb_leb in E2. apply Z.leb_gt in E2. lia.
Qed.

Lemma getAt_ok e (n m : Z) :
  n < _n (this e) -> m < _m (this e) ->
  getAt n m e = (Returns (at_ (this e) n m), e).
Proof.
  intros Hn Hm. unfold getAt. unfold bind at 1. rewrite getIndex_ok by done. reflexivity.
Qed.

Lemma setAt_ok e (t : T) (n m : Z) :
  n < _n (this e) -> m < _m (this e) ->
  setAt t n m e = (Returns tt, mkEnv (ats n m t (this e)) (os e)).
Proof.
  intros Hn Hm. unfold setAt. unfold bind at 1. rewrite getIndex_ok by done. reflexivity.
Qed.

Lemma store_well_formed a (x : Z) (t : T) : well_formed a -> well_formed (store x t a).
Proof.
  intros (Hn & Hna & Hm & Hfit & Hst). unfold well_formed. cbn.
  split; [done|]. split; [done|]. split; [done|]. split; [done|].
  unfold stored, store in *. cbn. destruct (data a) as [d|]; cbn; [|done].
  by rewrite length_insert.
Qed.

Lemma index_inj a (i j i' j' : Z) :
  0 <= j < _m a -> 0 <= j' < _m a -> 0 <= i -> 0 <= i' ->
  _m a * i + j = _m a * i' + j' -> (i, j) = (i', j').
Proof.
  intros Hj Hj' Hi Hi' Heq.
  assert (i = i').
  { destruct (Z.lt_trichotomy i i') as [Hlt | [Heq' | Hgt]]; [exfalso | exact Heq' | exfalso].
    - pose proof (cell_bounds (_m a) i i' j ltac:(lia) Hj). lia.
    - pose proof (cell_bounds (_m a) i' i j' ltac:(lia) Hj'). lia. }
  subst. f_equal. lia.
Qed.

(** X1: [getAt(n,m)] and [setAt(t,n,m)] throw [IndexException] for [n]
    when [n >= _n], and for [m] when [n < _n] and [m >= _m], and leave the
    matrix as it was.  On a well-formed matrix with both indices in range
    [setAt] succeeds, [getAt(n,m)] then returns [t], every other cell in range
    reads as before, and the shape, the invariant and the host are kept. *)
Theorem getAt_setAt_round_trip e (t : T) (n m : Z) :
  (_n (this e) <= n ->
     getAt n m e = (Throws (IndexException "n" n (_n (this e))), e)
     /\ setAt t n m e = (Throws (IndexException "n" n (_n (this e))), e))
  /\ (n < _n (this e) -> _m (this e) <= m ->
     getAt n m e = (Throws (IndexException "m" m (_m (this e))), e)
     /\ setAt t n m e = (Throws (IndexException "m" m (_m (this e))), e))
  /\ (well_formed (this e) -> 0 <= n < _n (this e) -> 0 <= m < _m (this e) ->
      exists e',
        setAt t n m e = (Returns tt, e')
        /\ getAt n m e' = (Returns t, e')
        /\ (forall n' m', 0 <= n' < _n (this e) -> 0 <= m' < _m (this e) -> (n', m') <> (n, m) ->
              getAt n' m' e' = (Returns (at_ (this e) n' m'), e'))
        /\ well_formed (this e') /\ same_shape (this e) (this e') /\ os e' = os e).
Proof.
  split; [|split].
  - intros Hn. unfold getAt, setAt. unfold bind at 1 3. by rewrite getIndex_bad_n.
  - intros Hn Hm. unfold getAt, setAt. unfold bind at 1 3. by rewrite getIndex_bad_m.
  - intros Hwf Hn Hm.
    exists (mkEnv (ats n m t (this e)) (os e)).
    pose proof Hwf as (Hnn & Hna & Hmm & Hfit & Hst).
    split; [apply setAt_ok; lia|].
    assert (Hshape : forall x, _n (store x t (this e)) = _n (this e)
                               /\ _m (store x t (this e)) = _m (this e)) by done.
    destruct (index_wf (this e) n m Hwf ltac:(lia) Hm) as [Hix Hrange].
    assert (Hd : exists d, data (this e) = Some d).
    { unfold stored in Hst. destruct (data (this e)) as [d|]; [by eexists | lia]. }
    destruct Hd as [d Hd].
    assert (Hlen : Z.of_nat (length d) = _n_actual (this e) * _m (this e)).
    { unfold stored in Hst. by rewrite Hd in Hst. }
    split; [|split; [|split; [|split]]].
    + rewrite getAt_ok by (cbn; lia). do 2 f_equal. unfold at_, ats, index. cbn [this].
      change (_m (store _ t (this e))) with (_m (this e)).
      fold (index (this e) n m). eapply cell_store_eq; [exact Hd|]. rewrite Hix. lia.
    + intros n' m' Hn' Hm' Hne. rewrite getAt_ok by (cbn; lia). do 2 f_equal.
      unfold at_, ats, index. cbn [this]. change (_m (store _ t (this e))) with (_m (this e)).
      fold (index (this e) n m) (index (this e) n' m').
      destruct (index_wf (this e) n' m' Hwf ltac:(lia) Hm') as [Hix' Hrange'].
      apply cell_store_ne. rewrite Hix, Hix'. intros Heq.
      apply Hne. symmetry. apply (index_inj (this e)); lia.
    + apply store_well_formed, Hwf.
    + by repeat split.
    + reflexivity.
Qed.
End MatrixAccess.

Section MatrixFill.
Context {T : Type} {elem : Element T}.
Implicit Types (e : Env T) (a : Matrix T) (d : list T).

Lemma store_fold (t : T) (js : list Z) :
  forall a,
    foldl (fun a i => store i t a) a js
    = set_data (option_map (insert_all Z.to_nat (fun _ => t) js) (data a)) a.
Proof.
  induction js as [|j js IH]; intros a; cbn [foldl].
  - destruct a as [? ? ? [d|] ? ? ? ?]; reflexivity.
  - rewrite IH. destruct a as [nm ty sh [d|] na n m s]; reflexivity.
Qed.

Lemma NoDup_to_nat_seqZ (k : Z) : NoDup (map Z.to_nat (seqZ 0 k)).
Proof.
  apply NoDup_fmap_2_strong; [|apply NoDup_seqZ].
  intros x y Hx Hy Heq. apply elem_of_seqZ in Hx, Hy. lia.
Qed.

(** X2: On a well-formed matrix [fill(t)] succeeds and keeps the shape and
    the host; afterwards every cell [(n,m)] with [n < _n] and [m < _m] reads
    [t], and the storage past [_n*_m] (the reserved rows) is as it was. *)
Theorem fill_sets_every_cell e (t : T) :
  well_formed (this e) ->
  exists e',
    fill t e = (Returns tt, e')
    /\ same_shape (this e) (this e') /\ well_formed (this e') /\ os e' = os e
    /\ (forall n m, 0 <= n < _n (this e) -> 0 <= m < _m (this e) ->
          getAt n m e' = (Returns t, e'))
    /\ (forall x, _n (this e) * _m (this e) <= x -> cell (this e') x = cell (this e) x).
Proof.
  intros Hwf. pose proof Hwf as (Hn & Hna & Hm & Hfit & Hst).
  unfold fill, on_this, modify. eexists. split; [reflexivity|].
  rewrite store_fold. cbn [this os].
  assert (Hcells : 0 <= _n (this e) * _m (this e) <= _n_actual (this e) * _m (this e))
    by (apply mul_bounds; lia).
  rewrite u32_small by lia.
  split; [by repeat split|]. split; [|split; [reflexivity|split]].
  - unfold well_formed. cbn. repeat (split; [lia|]).
    unfold stored in *. cbn. destruct (data (this e)) as [d|]; cbn; [|done].
    by rewrite insert_all_length.
  - intros n m Hnn Hmm. rewrite getAt_ok by (cbn; lia). do 2 f_equal.
    unfold at_, index. cbn.
    fold (index (this e) n m).
    destruct (index_wf (this e) n m Hwf ltac:(lia) Hmm) as [Hix Hrange]. rewrite Hix.
    unfold stored in Hst. unfold cell. cbn.
    destruct (data (this e)) as [d|]; cbn; [|lia].
    apply (insert_all_hit Z.to_nat (fun _ => t) zeroT _ (_m (this e) * n + m)).
    + apply NoDup_to_nat_seqZ.
    + apply elem_of_seqZ. pose proof (cell_bounds (_m (this e)) n (_n (this e)) m Hnn Hmm). lia.
    + lia.
  - intros x Hx. unfold cell. cbn. destruct (data (this e)) as [d|]; cbn; [|done].
    apply insert_all_other. intros j Hj. apply elem_of_seqZ in Hj. lia.
Qed.
End MatrixFill.

Section MatrixResize.
Context {T : Type} {elem : Element T}.
Implicit Types (e : Env T) (a : Matrix T) (d : list T).

Lemma zeros_length (k : Z) : length (zeros (T:=T) k) = Z.to_nat k.
Proof. unfold zeros. apply length_replicate. Qed.

Lemma resize_cells e (r : Z) :
  _isShared (this e) = false ->
  0 <= _n (this e) -> 0 <= r -> 0 <= _m (this e) -> 0 <= _n_actual (this e) ->
  _n_actual (this e) * _m (this e) < 2 ^ 32 -> stored (this e) ->
  3 * _n (this e) < 2 ^ 32 -> _n (this e) * 3 / 2 + r < 2 ^ 32 ->
  Z.max 1000 (_n (this e) * 3 / 2 + r) * _m (this e) < 2 ^ 32 ->
  exists a',
    resize r e = (Returns tt, mkEnv a' (os e))
    /\ _n a' = _n (this e) /\ _m a' = _m (this e) /\ _isShared a' = false
    /\ _sharedname a' = _sharedname (this e)
    /\ _n_actual (this e) <= _n_actual a' /\ _n (this e) <= _n_actual a'
    /\ _n_actual a' <= Z.max (_n_actual (this e)) (Z.max 1000 (_n (this e) * 3 / 2 + r))
    /\ _n_actual a' * _m a' < 2 ^ 32 /\ stored a'
    /\ (forall x, 0 <= x < _n_actual (this e) * _m (this e) -> cell a' x = cell (this e) x)
    /\ (_n_actual (this e) < _n_actual a' ->
          forall x, _n_actual (this e) * _m (this e) <= x -> cell a' x = zeroT).
Proof.
  intros Hs Hn Hr Hm Hna Hfit Hst H3 Hcap Hcapm.
  assert (Hdiv : _n (this e) <= _n (this e) * 3 / 2).
  { apply Z.div_le_lower_bound; lia. }
  unfold resize. unfold bind at 1, self at 1. cbn beta iota.
  rewrite Hs. cbn [negb]. rewrite !andb_true_r.
  rewrite (u32_small (_n (this e) + r)) by lia.
  destruct (_n (this e) + r <=? _n_actual (this e)) eqn:E1.
  { apply Z.leb_le in E1. exists (this e). rewrite env_eta.
    repeat (split; [first [reflexivity | lia | done]|]). intros; lia. }
  apply Z.leb_gt in E1.
  rewrite (u32_small (_n (this e) * 3)) by lia.
  rewrite (u32_small (_n (this e) * 3 / 2 + r)) by lia.
  rewrite _max_sval_max.
  set (newn := match data (this e) with
               | Some _ => Z.max 1000 (_n (this e) * 3 / 2 + r)
               | None => _n (this e)
               end).
  assert (Hnew : _n_actual (this e) <= newn /\ _n (this e) <= newn /\ 0 <= newn
                 /\ newn * _m (this e) < 2 ^ 32
                 /\ newn <= Z.max 1000 (_n (this e) * 3 / 2 + r)).
  { pose proof (mul_bounds (_n (this e)) (Z.max 1000 (_n (this e) * 3 / 2 + r)) (_m (this e))
                  ltac:(lia) ltac:(lia)).
    unfold newn, stored in *. destruct (data (this e)); lia. }
  destruct Hnew as (Hnew1 & Hnew2 & Hnew3 & Hnew4 & Hnew5).
  destruct (newn <? _n_actual (this e)) eqn:E2; [apply Z.ltb_lt in E2; lia|].
  cbn [on_this modify].
  rewrite (u32_small (newn * _m (this e))) by lia.
  rewrite (u32_small (_n_actual (this e) * _m (this e))) by lia.
  eexists. split; [reflexivity|]. cbn.
  repeat (split; [first [reflexivity | lia | exact Hs]|]).
  split; [|split].
  - unfold stored. cbn. destruct (data (this e)) as [d|].
    + rewrite memcpy_length, zeros_length. lia.
    + rewrite zeros_length. lia.
  - intros x Hx. unfold cell. cbn. unfold stored in Hst.
    destruct (data (this e)) as [d|]; [|lia].
    rewrite !nth_lookup, memcpy_lookup, zeros_length.
    rewrite decide_True; [reflexivity|].
    pose proof (mul_bounds (_n_actual (this e)) newn (_m (this e)) ltac:(lia) ltac:(lia)). lia.
  - intros _ x Hx. unfold cell. cbn. unfold stored in Hst.
    assert (Hz : forall i : nat, default zeroT (zeros (T:=T) (newn * _m (this e)) !! i) = zeroT).
    { intros i. unfold zeros. destruct (replicate _ _ !! i) as [y|] eqn:Ey; [|reflexivity].
      apply lookup_replicate in Ey as [-> _]. reflexivity. }
    destruct (data (this e)) as [d|]; rewrite nth_lookup; [|apply Hz].
    rewrite memcpy_lookup, decide_False by lia. apply Hz.
Qed.

Lemma resize_noop e (r : Z) :
  _isShared (this e) = false -> 0 <= _n (this e) + r < 2 ^ 32 ->
  _n (this e) + r <= _n_actual (this e) ->
  resize r e = (Returns tt, e).
Proof.
  intros Hs Hfit Hle. unfold resize. unfold bind at 1, self at 1. cbn beta iota.
  rewrite Hs, u32_small by lia. cbn [negb]. rewrite andb_true_r.
  destruct (_ <=? _) eqn:E; [reflexivity | apply Z.leb_gt in E; lia].
Qed.

Lemma setN_cells e (k : Z) :
  _isShared (this e) = false -> well_formed (this e) ->
  0 <= k -> 3 * k < 2 ^ 32 -> Z.max 1000 (k * 3 / 2) * _m (this e) < 2 ^ 32 ->
  exists a',
    setN k e = (Returns tt, mkEnv a' (os e))
    /\ _n a' = k /\ _m a' = _m (this e) /\ _isShared a' = false
    /\ _sharedname a' = _sharedname (this e)
    /\ _n_actual (this e) <= _n_actual a'
    /\ well_formed a'
    /\ (forall x, 0 <= x < _n_actual (this e) * _m (this e) -> cell a' x = cell (this e) x)
    /\ (_n_actual (this e) < _n_actual a' ->
          forall x, _n_actual (this e) * _m (this e) <= x -> cell a' x = zeroT)
    /\ (k <= _n_actual (this e) -> a' = set_n k (this e)).
Proof.
  intros Hs (Hn & Hna & Hm & Hfit & Hst) Hk H3 Hcap.
  rewrite setN_unshared by exact Hs.
  destruct (resize_cells (mkEnv (set_n k (this e)) (os e)) 0)
    as (a' & Hrun & Hn' & Hm' & Hs' & Hnm' & Hmono & Hle & Hub & Hfit' & Hst' & Hcells & Hzero);
    cbn; try first [done | lia].
  { rewrite Z.add_0_r. assert (k * 3 / 2 <= k * 3) by (apply Z.div_le_upper_bound; lia). lia. }
  cbn [this os _n _m _n_actual _isShared _sharedname set_n] in *. exists a'. split; [exact Hrun|].
  repeat (split; [first [done | lia]|]).
  split; [|split; [exact Hcells|split; [exact Hzero|]]].
  - assert (k * 3 / 2 <= k * 3) by (apply Z.div_le_upper_bound; lia).
    rewrite Z.add_0_r in Hub.
    unfold well_formed. rewrite Hn', Hm'. repeat split; first [done | lia].
  - intros Hle'. rewrite resize_noop in Hrun by (cbn; first [done | lia]).
    by injection Hrun as <-.
Qed.
End MatrixResize.

Section MatrixRows.
Context {T : Type} {elem : Element T}.
Implicit Types (e : Env T) (a : Matrix T) (d : list T).

Lemma at_cells a a' (i j : Z) :
  well_formed a -> _m a' = _m a ->
  (forall x, 0 <= x < _n_actual a * _m a -> cell a' x = cell a x) ->
  0 <= i < _n_actual a -> 0 <= j < _m a ->
  at_ a' i j = at_ a i j.
Proof.
  intros Hwf Hm Hcells Hi Hj. unfold at_.
  destruct (index_wf a i j Hwf Hi Hj) as [Hix Hrange].
  assert (Hix' : index a' i j = index a i j) by (unfold index; by rewrite Hm).
  rewrite Hix', Hix. by apply Hcells.
Qed.

(** X3: On an unshared well-formed matrix, for [0 <= k] with
    [3*k < 2^32] and [max(1000, floor(k*3/2)) * _m < 2^32] (the row
    computation and the cell count of [resize] do not wrap), [setN(k)]
    succeeds and is [addRows(k-_n)]: afterwards [_n = k], [_m] and the
    host are unchanged, the invariant holds, every cell of the previous
    capacity keeps its value, and when [k] was within the capacity, [setN]
    back to the old [_n] restores the matrix exactly. *)
Theorem setN_keeps_rows e (k : Z) :
  _isShared (this e) = false -> well_formed (this e) ->
  0 <= k -> 3 * k < 2 ^ 32 -> Z.max 1000 (k * 3 / 2) * _m (this e) < 2 ^ 32 ->
  exists e',
    setN k e = (Returns tt, e')
    /\ addRows (k - _n (this e)) e = (Returns tt, e')
    /\ _n (this e') = k /\ _m (this e') = _m (this e)
    /\ well_formed (this e') /\ os e' = os e
    /\ (forall i j, 0 <= i < _n_actual (this e) -> 0 <= j < _m (this e) ->
          at_ (this e') i j = at_ (this e) i j)
    /\ (k <= _n_actual (this e) -> setN (_n (this e)) e' = (Returns tt, e)).
Proof.
  intros Hs Hwf Hk H3 Hcap.
  destruct (setN_cells e k Hs Hwf Hk H3 Hcap)
    as (a' & Hrun & Hn' & Hm' & Hs' & Hnm' & Hmono & Hwf' & Hcells & Hzero & Hnoop).
  exists (mkEnv a' (os e)). split; [exact Hrun|]. split.
  { rewrite addRows_setN. replace (_n (this e) + (k - _n (this e))) with k by lia.
    rewrite u32_small by lia. exact Hrun. }
  repeat (split; [done|]). split.
  - intros i j Hi Hj. by apply at_cells.
  - intros Hle. rewrite (Hnoop Hle).
    destruct Hwf as (Hn & Hna & Hm & Hfit & Hst).
    rewrite setN_unshared by done. cbn [this os].
    rewrite resize_noop by (cbn; first [done | lia]).
    destruct e as [[] ?]; reflexivity.
Qed.

(** X4: On an unshared well-formed matrix with [3*(_n+1) < 2^32] and
    [max(1000, floor((_n+1)*3/2)) * _m < 2^32] (the row computation and the
    cell count of [resize] do not wrap), [append(t,col)] with
    [0 <= col < _m] succeeds: [_n] grows by one, [t] is at [(old _n, col)]
    and the previous rows are kept.  The other columns of the new row are
    not cleared when the capacity sufficed: they hold what the reserved
    storage held; they are zero when the storage was reallocated. *)
Theorem append_adds_row e (t : T) (col : Z) :
  _isShared (this e) = false -> well_formed (this e) ->
  0 <= col < _m (this e) ->
  3 * (_n (this e) + 1) < 2 ^ 32 ->
  Z.max 1000 ((_n (this e) + 1) * 3 / 2) * _m (this e) < 2 ^ 32 ->
  exists e',
    append t col e = (Returns tt, e')
    /\ _n (this e') = _n (this e) + 1 /\ _m (this e') = _m (this e)
    /\ well_formed (this e') /\ os e' = os e
    /\ getAt (_n (this e)) col e' = (Returns t, e')
    /\ (forall i j, 0 <= i < _n (this e) -> 0 <= j < _m (this e) ->
          getAt i j e' = (Returns (at_ (this e) i j), e'))
    /\ (forall j, 0 <= j < _m (this e) -> j <> col ->
          at_ (this e') (_n (this e)) j
          = if _n (this e) <? _n_actual (this e) then at_ (this e) (_n (this e)) j else zeroT).
Proof.
  intros Hs Hwf Hcol H3 Hcap. pose proof Hwf as (Hn & Hna & Hm & Hfit & Hst).
  destruct (setN_cells e (_n (this e) + 1) Hs Hwf ltac:(lia) H3 Hcap)
    as (a' & Hrun & Hn' & Hm' & Hs' & Hnm' & Hmono & Hwf' & Hcells & Hzero & Hnoop).
  unfold append. unfold bind at 1. rewrite addRows_setN, u32_small by lia. rewrite Hrun.
  cbn [on_this modify this os]. eexists. split; [reflexivity|]. cbn [this os].
  rewrite Hn'. replace (_n (this e) + 1 - 1) with (_n (this e)) by lia.
  rewrite u32_small by lia.
  pose proof Hwf' as (Hna' & _ & _ & Hfit' & Hst').
  rewrite Hn' in Hna'. rewrite Hm' in Hfit'.
  destruct (index_wf a' (_n (this e)) col Hwf' ltac:(lia) ltac:(lia)) as [Hix Hrange].
  rewrite Hm' in Hix, Hrange.
  assert (Hd' : exists d', data a' = Some d' /\ Z.of_nat (length d') = _n_actual a' * _m (this e)).
  { unfold stored in Hst'. destruct (data a') as [d'|]; [|lia]. rewrite Hm' in Hst'. eauto. }
  destruct Hd' as (d' & Hd' & Hlen').
  split; [done|]. split; [done|]. split; [|split; [reflexivity|split; [|split]]].
  - unfold ats. apply store_well_formed, Hwf'.
  - rewrite getAt_ok by (cbn; lia). do 2 f_equal.
    unfold at_, ats, index. cbn [this].
    change (_m (store _ t a')) with (_m a'). fold (index a' (_n (this e)) col).
    eapply cell_store_eq; [exact Hd'|]. rewrite Hix. lia.
  - intros i j Hi Hj. rewrite getAt_ok by (cbn; lia). do 2 f_equal.
    unfold at_ at 1. unfold ats, index. cbn [this].
    change (_m (store _ t a')) with (_m a'). fold (index a' (_n (this e)) col) (index a' i j).
    destruct (index_wf a' i j Hwf' ltac:(lia) ltac:(lia)) as [Hix2 Hrange2].
    assert (Hrow : _m (this e) * (i + 1) <= _m (this e) * _n (this e))
      by (apply Z.mul_le_mono_nonneg_l; lia).
    rewrite cell_store_ne by (rewrite Hix, Hix2, Hm'; lia).
    fold (at_ a' i j). apply at_cells; [done|done|done|lia|done].
  - intros j Hj Hne.
    unfold at_ at 1. unfold ats, index. cbn [this].
    change (_m (store _ t a')) with (_m a'). fold (index a' (_n (this e)) col) (index a' (_n (this e)) j).
    destruct (index_wf a' (_n (this e)) j Hwf' ltac:(lia) ltac:(lia)) as [Hix2 Hrange2].
    rewrite Hm' in Hrange2.
    rewrite cell_store_ne by (rewrite Hix, Hix2, Hm'; lia).
    fold (at_ a' (_n (this e)) j).
    destruct (_n (this e) <? _n_actual (this e)) eqn:E.
    + apply Z.ltb_lt in E. apply at_cells; [done|done|done|lia|done].
    + apply Z.ltb_ge in E. unfold at_. rewrite Hix2. apply Hzero; [lia|]. rewrite Hm'.
      assert (Hfull : _n_actual (this e) = _n (this e)) by lia. rewrite Hfull.
      rewrite (Z.mul_comm (_n (this e))). lia.
Qed.
End MatrixRows.

Section MatrixRemove.
Context {T : Type} {elem : Element T}.
Implicit Types (e : Env T) (a : Matrix T) (d : list T).

(** [memmove] of [count] cells from offset [src] down to offset [dst]. *)
Lemma move_down_lookup d (dst src count x : nat) :
  (dst <= src)%nat -> (src + count <= length d)%nat ->
  (take dst d ++ memcpy (drop dst d) (drop src d) (Z.of_nat count)) !! x
  = if decide (dst <= x < dst + count)%nat then d !! (x + (src - dst))%nat else d !! x.
Proof.
  intros Hds Hlen.
  destruct (decide (x < dst)%nat) as [Hlt | Hge].
  - rewrite lookup_app_l by (rewrite length_take; lia).
    rewrite lookup_take_lt by lia. rewrite decide_False by lia. reflexivity.
  - rewrite lookup_app_r by (rewrite length_take; lia).
    rewrite length_take, Nat.min_l by lia.
    rewrite memcpy_lookup, !length_drop, Nat2Z.id.
    destruct (decide (dst <= x < dst + count)%nat) as [Hin | Hout].
    + rewrite decide_True by lia. rewrite lookup_drop. f_equal. lia.
    + rewrite decide_False by lia. rewrite lookup_drop. f_equal. lia.
Qed.

Lemma move_down_length d (dst src : nat) (count : Z) :
  (dst <= length d)%nat ->
  length (take dst d ++ memcpy (drop dst d) (drop src d) count) = length d.
Proof.
  intros Hle. rewrite length_app, length_take, memcpy_length, length_drop. lia.
Qed.

(** X5: [removeRow(k)] throws [MemException] on a shared matrix and, on
    an unshared one, [IndexException] for [n] when [k >= _n].  On an
    unshared well-formed matrix with [0 <= k < _n] it succeeds: [_n] drops by
    one while [_m] and the capacity stay, the invariant and the host are
    kept, the rows before [k] stay, the rows after it move up by one, and the
    former last row is still in the storage just past the new end. *)
Theorem removeRow_shifts_rows e (k : Z) :
  (_isShared (this e) = true ->
     removeRow k e
     = (Throws (MemException "Operation may only be performed on non-shared matrices"), e))
  /\ (_isShared (this e) = false -> _n (this e) <= k ->
        removeRow k e = (Throws (IndexException "n" k (_n (this e))), e))
  /\ (_isShared (this e) = false -> well_formed (this e) -> 0 <= k < _n (this e) ->
        exists e',
          removeRow k e = (Returns tt, e')
          /\ _n (this e') = _n (this e) - 1 /\ _m (this e') = _m (this e)
          /\ _n_actual (this e') = _n_actual (this e)
          /\ well_formed (this e') /\ os e' = os e
          /\ (forall i j, 0 <= i < _n (this e) - 1 -> 0 <= j < _m (this e) ->
                at_ (this e') i j = at_ (this e) (if i <? k then i else i + 1) j)
          /\ (forall j, 0 <= j < _m (this e) ->
                at_ (this e') (_n (this e) - 1) j = at_ (this e) (_n (this e) - 1) j)).
Proof.
  split; [|split].
  - intros Hs. cbv [removeRow bind self checkNotShared checkIndex ret throw]. by rewrite Hs.
  - intros Hs Hk. cbv [removeRow bind self checkNotShared checkIndex ret throw]. rewrite Hs.
    destruct (k >=? _n (this e)) eqn:E; [reflexivity|].
    rewrite Z.geb_leb in E. apply Z.leb_gt in E. lia.
  - intros Hs Hwf Hk. pose proof Hwf as (Hn & Hna & Hm & Hfit & Hst).
    assert (Hd : exists d, data (this e) = Some d
                           /\ Z.of_nat (length d) = _n_actual (this e) * _m (this e)).
    { unfold stored in Hst. destruct (data (this e)) as [d|]; [eauto | lia]. }
    destruct Hd as (d & Hd & Hlen).
    set (n := _n (this e)) in *. set (m := _m (this e)) in *.
    assert (Pk : 0 <= k * m) by (apply Z.mul_nonneg_nonneg; lia).
    assert (Pk1 : (k + 1) * m <= n * m) by (apply Z.mul_le_mono_nonneg_r; lia).
    assert (Pn : n * m <= _n_actual (this e) * m) by (apply Z.mul_le_mono_nonneg_r; lia).
    set (moved := if k <? n - 1
                  then take (Z.to_nat (k * m)) d
                       ++ memcpy (drop (Z.to_nat (k * m)) d) (drop (Z.to_nat ((k + 1) * m)) d)
                                 (Z.of_nat (Z.to_nat ((n - k - 1) * m)))
                  else d).
    assert (Hrun : removeRow k e
                   = (Returns tt, mkEnv (set_n (n - 1) (set_data (Some moved) (this e))) (os e))).
    { cbv [removeRow bind self checkNotShared checkIndex ret throw]. rewrite Hs. fold n m.
      destruct (k >=? n) eqn:E; [rewrite Z.geb_leb in E; apply Z.leb_le in E; lia|].
      rewrite (u32_small (n - 1)) by lia.
      unfold moved. destruct (k <? n - 1) eqn:E2.
      - apply Z.ltb_lt in E2. cbn [on_this modify this os]. fold n m.
        rewrite (u32_small (k * m)), (u32_small (k + 1)), (u32_small (n - k)),
                (u32_small (n - k - 1)) by lia.
        rewrite (u32_small ((k + 1) * m)), (u32_small ((n - k - 1) * m)) by lia.
        rewrite setN_unshared by (cbn; exact Hs). cbn [this os].
        rewrite resize_noop by (cbn; fold n; first [exact Hs | lia]).
        rewrite Hd. cbn [option_map]. rewrite Z2Nat.id by lia.
        destruct e as [[] ?]; reflexivity.
      - cbn beta iota. rewrite setN_unshared by exact Hs.
        rewrite resize_noop by (cbn; fold n; first [exact Hs | lia]).
        cbn in Hd. destruct e as [[] ?]; cbn in *. subst. reflexivity. }
    eexists. split; [exact Hrun|]. cbn [this os _n _m _n_actual set_n set_data].
    assert (Hmlen : length moved = length d).
    { unfold moved. destruct (k <? n - 1); [|reflexivity]. apply move_down_length. lia. }
    assert (Hlook : forall x : nat,
              moved !! x = if decide (Z.to_nat (k * m) <= x < Z.to_nat ((n - 1) * m))%nat
                           then d !! (x + Z.to_nat m)%nat else d !! x).
    { intros x. unfold moved. destruct (k <? n - 1) eqn:E2.
      - apply Z.ltb_lt in E2.
        rewrite move_down_lookup by lia.
        replace (Z.to_nat (k * m) + Z.to_nat ((n - k - 1) * m))%nat
          with (Z.to_nat ((n - 1) * m)) by lia.
        replace (Z.to_nat ((k + 1) * m) - Z.to_nat (k * m))%nat with (Z.to_nat m) by lia.
        reflexivity.
      - apply Z.ltb_ge in E2.
        assert (Ek : k * m = (n - 1) * m) by (f_equal; lia).
        rewrite decide_False by lia. reflexivity. }
    repeat (split; [first [reflexivity | lia]|]).
    split; [|split; [reflexivity|split]].
    + unfold well_formed, stored. cbn. fold n m. rewrite Hmlen.
      repeat split; first [done | lia].
    + intros i j Hi Hj. unfold at_, index, cell. cbn. fold m. rewrite Hd.
      assert (Pi : 0 <= m * i) by (apply Z.mul_nonneg_nonneg; lia).
      assert (Pi2 : m * (i + 2) <= m * n) by (apply Z.mul_le_mono_nonneg_l; lia).
      destruct (i <? k) eqn:E.
      * apply Z.ltb_lt in E.
        assert (Pik : m * (i + 1) <= m * k) by (apply Z.mul_le_mono_nonneg_l; lia). rewrite !cell_index by lia. rewrite !nth_lookup, Hlook.
        rewrite decide_False by lia. reflexivity.
      * apply Z.ltb_ge in E.
        assert (Pik : m * k <= m * i) by (apply Z.mul_le_mono_nonneg_l; lia). rewrite !cell_index by lia. rewrite !nth_lookup, Hlook.
        rewrite decide_True by lia. do 2 f_equal. lia.
    + intros j Hj. unfold at_, index, cell. cbn. fold m. rewrite Hd.
      assert (Pi : 0 <= m * (n - 1)) by (apply Z.mul_nonneg_nonneg; lia).
      rewrite !cell_index by lia. rewrite !nth_lookup, Hlook.
      rewrite decide_False by lia. reflexivity.
Qed.
End MatrixRemove.

Lemma bind_run {S A B} (c : M S A) (k : A -> M S B) (s s1 : S) (x : A) :
  c s = (Returns x, s1) -> (c >>= k) s = k x s1.
Proof. intros H. unfold bind. by rewrite H. Qed.

Lemma bind_throw {S A B} (c : M S A) (k : A -> M S B) (s s1 : S) (ex : exn) :
  c s = (Throws ex, s1) -> (c >>= k) s = (Throws ex, s1).
Proof. intros H. unfold bind. by rewrite H. Qed.

Section MatrixShared.
Context {T : Type} {elem : Element T}.
Implicit Types (e : Env T) (a : Matrix T) (d : list T).

Lemma retryNames_opened (fuel : nat) (c : Z) (isCreator : bool) e :
  retryNames fuel c isCreator None e = (Returns None, e).
Proof. by destruct fuel. Qed.

Lemma createShared_fresh e :
  _sharedname (this e) = "" -> memSize (this e) <> 0 ->
  let named := snd (chooseSharedName 0 e) in
  let s := c_str (_sharedname (this named)) in
  segments (os e) !! s = None ->
  createShared e
  = (Returns (zeros (memSize (this e) / sizeofT)),
     mkEnv (this named)
           (mkWorld (pid (os e)) (ppid (os e)) (<[s := memSize (this e)]> (segments (os e))))).
Proof.
  intros Hname Hsize named s Hfree.
  unfold createShared. rewrite (bind_run self _ e e (this e)) by reflexivity.
  rewrite Hname. cbn [String.eqb].
  set (opened := mkEnv (this named)
                   (mkWorld (pid (os e)) (ppid (os e)) (<[s := 0]> (segments (os e))))).
  erewrite (bind_run _ _ e opened None); cycle 1.
  { erewrite (bind_run _ _ e named tt); [|reflexivity].
    replace (os named) with (os e) by reflexivity. fold s.
    unfold shm_open. rewrite Hfree. reflexivity. }
  erewrite (bind_run _ _ opened opened None) by apply retryNames_opened.
  rewrite (bind_run self _ opened opened (this opened)) by reflexivity.
  cbn [this opened].
  replace (memSize (this named)) with (memSize (this e)) by reflexivity.
  destruct (memSize (this e) =? 0) eqn:E; [apply Z.eqb_eq in E; done|].
  fold s. unfold bind, on_os, modify, ftruncate, ret. cbn [this os segments pid ppid].
  unfold opened. cbn [this os segments pid ppid]. rewrite insert_insert_eq. reflexivity.
Qed.
End MatrixShared.

Section MatrixShared2.
Context {T : Type} {elem : Element T}.
Implicit Types (e : Env T) (a : Matrix T) (d : list T).

(** X6: For an unshared well-formed matrix with no shared name, with
    [0 < sizeof(T)], [0 < _n*_m] and [sizeof(T)*_n*_m < 2^32] (so that
    [memSize()] does not wrap), whose chosen segment name is free on the
    host, [setShared(true)] succeeds: the matrix is shared under that name,
    a segment of [memSize()] bytes is registered under it, the capacity
    becomes [_n], the invariant holds, shape and process ids are unchanged,
    and every cell keeps its value. *)
Theorem setShared_true_moves_cells e :
  _isShared (this e) = false -> _sharedname (this e) = "" -> well_formed (this e) ->
  0 < sizeofT -> 0 < _n (this e) * _m (this e) ->
  sizeofT * _n (this e) * _m (this e) < 2 ^ 32 ->
  let name := _sharedname (this (snd (chooseSharedName 0 e))) in
  segments (os e) !! c_str name = None ->
  exists e',
    setShared true e = (Returns tt, e')
    /\ _isShared (this e') = true /\ _sharedname (this e') = name
    /\ _n (this e') = _n (this e) /\ _m (this e') = _m (this e)
    /\ _n_actual (this e') = _n (this e) /\ well_formed (this e')
    /\ segments (os e') = <[c_str name := memSize (this e)]> (segments (os e))
    /\ pid (os e') = pid (os e) /\ ppid (os e') = ppid (os e)
    /\ (forall i j, 0 <= i < _n (this e) -> 0 <= j < _m (this e) ->
          at_ (this e') i j = at_ (this e) i j).
Proof.
  intros Hs Hname Hwf Hsz Hpos Hfit name Hfree.
  pose proof Hwf as (Hn & Hna & Hm & Hfitm & Hst).
  assert (Hd : exists d, data (this e) = Some d
                         /\ Z.of_nat (length d) = _n_actual (this e) * _m (this e)).
  { unfold stored in Hst. destruct (data (this e)) as [d|]; [eauto | lia]. }
  destruct Hd as (d & Hd & Hlen).
  assert (Hmem : memSize (this e) = sizeofT * _n (this e) * _m (this e)).
  { unfold memSize. apply u32_small. lia. }
  assert (Hcount : memSize (this e) / sizeofT = _n (this e) * _m (this e)).
  { rewrite Hmem. replace (sizeofT * _n (this e) * _m (this e))
      with (_n (this e) * _m (this e) * sizeofT) by lia. apply Z.div_mul. lia. }
  set (e1 := mkEnv (set_n_actual (_n (this e)) (this e)) (os e)).
  assert (Hcs := createShared_fresh e1).
  cbn zeta in Hcs.
  replace (_sharedname (this (snd (chooseSharedName 0 e1)))) with name in Hcs by reflexivity.
  replace (memSize (this e1)) with (memSize (this e)) in Hcs by reflexivity.
  specialize (Hcs Hname ltac:(lia) Hfree).
  unfold setShared. rewrite (bind_run self _ e e (this e)) by reflexivity.
  rewrite Hs, andb_false_r.
  destruct (memSize (this e) =? 0) eqn:E; [apply Z.eqb_eq in E; lia|].
  erewrite (bind_run _ _ e _ tt); cycle 1.
  { erewrite (bind_run _ _ e _ _); cycle 1.
    { erewrite (bind_run _ _ e e1 tt) by reflexivity. exact Hcs. }
    reflexivity. }
  eexists. split; [reflexivity|]. cbn [this os set_isShared set_data _isShared _sharedname
    _n _m _n_actual segments pid ppid].
  rewrite Hd, Hcount.
  repeat (split; [reflexivity|]). split; [|split; [reflexivity|split; [reflexivity|split; [reflexivity|]]]].
  - unfold well_formed, stored. cbn. rewrite memcpy_length, zeros_length.
    repeat split; first [done | lia | lia].
  - intros i j Hi Hj. unfold at_, index, cell. cbn. rewrite Hd.
    pose proof (cell_bounds (_m (this e)) i (_n (this e)) j Hi Hj) as [Hb1 Hb2].
    pose proof (mul_bounds (_n (this e)) (_n_actual (this e)) (_m (this e)) Hn ltac:(lia)).
    rewrite !cell_index by lia. rewrite !nth_lookup, memcpy_lookup, zeros_length.
    rewrite decide_True by lia. reflexivity.
Qed.
End MatrixShared2.

(** Names of segments *)

Lemma c_str_length (s : string) : (String.length (c_str s) <= String.length s)%nat.
Proof.
  induction s as [|c s IH]; cbn; [lia|]. destruct (Ascii.eqb c "000"); cbn; lia.
Qed.

Lemma c_str_chars (s : string) (c : ascii) :
  c ∈ String.list_ascii_of_string (c_str s) -> c ∈ String.list_ascii_of_string s.
Proof.
  induction s as [|c' s IH]; cbn; [done|].
  destruct (Ascii.eqb c' "000"); cbn.
  - intros H. by apply elem_of_nil in H.
  - intros H. apply elem_of_cons in H as [-> | H]; [by left | right; auto].
Qed.

(** A C string ends at the first NUL: with a NUL at index [k] it has at
    most [k] characters. *)
Lemma c_str_cut (l : list ascii) (k : nat) :
  l !! k = Some "000"%char ->
  (String.length (c_str (String.string_of_list_ascii l)) <= k)%nat.
Proof.
  revert k. induction l as [|c l IH]; intros k Hk; [done|].
  cbn. destruct (Ascii.eqb c "000") eqn:E; cbn; [lia|].
  destruct k as [|k]; cbn in Hk.
  - injection Hk as ->. discriminate.
  - specialize (IH k Hk). lia.
Qed.

Lemma string_list_length (s : string) :
  length (String.list_ascii_of_string s) = String.length s.
Proof. induction s; cbn; congruence. Qed.

Lemma truncate_name_c_str (s : string) :
  (String.length (c_str (truncate_name s)) <= MAXSHMNAMLEN - 1)%nat.
Proof.
  unfold truncate_name. destruct (MAXSHMNAMLEN <=? String.length s)%nat eqn:E.
  - apply Nat.leb_le in E. apply c_str_cut.
    apply list_lookup_insert_eq. rewrite string_list_length. unfold MAXSHMNAMLEN in *. lia.
  - apply Nat.leb_gt in E. pose proof (c_str_length s). lia.
Qed.

Lemma truncate_name_chars (s : string) (c : ascii) :
  c ∈ String.list_ascii_of_string (truncate_name s) ->
  c = "000"%char \/ c ∈ String.list_ascii_of_string s.
Proof.
  unfold truncate_name. destruct (MAXSHMNAMLEN <=? String.length s)%nat; [|by right].
  rewrite String.list_ascii_of_string_of_list_ascii.
  intros H. apply list_elem_of_lookup in H as [i Hi].
  apply list_lookup_insert_Some in Hi as [(_ & <- & _) | [_ Hi]]; [by left|].
  right. by eapply list_elem_of_lookup_2.
Qed.

Lemma replace_slash_chars (s : string) :
  "/"%char ∉ String.list_ascii_of_string (replace_slash s).
Proof.
  unfold replace_slash. rewrite String.list_ascii_of_string_of_list_ascii.
  intros H. apply list_elem_of_fmap in H as (c & Hc & _).
  destruct (Ascii.eqb c "/") eqn:E; [discriminate|].
  apply Ascii.eqb_neq in E. by subst.
Qed.

Lemma shared_name_head (rest : string) :
  exists r, c_str (truncate_name (replace_slash ("__viz__" +:+ rest))) = String "_" r.
Proof.
  unfold truncate_name.
  assert (Hhead : exists r, replace_slash ("__viz__" +:+ rest) = String "_" r).
  { unfold replace_slash. cbn. eauto. }
  destruct Hhead as [r ->].
  destruct (MAXSHMNAMLEN <=? String.length (String "_" r))%nat.
  - cbn. eauto.
  - cbn. eauto.
Qed.

Section SharedNames.
Context {T : Type} {elem : Element T}.
Implicit Types (e : Env T) (a : Matrix T) (d : list T).

(** X7: [chooseSharedName(counter)] never throws, and the name it stores,
    read as a C string, has at most 254 characters, contains no ['/'] and
    starts with ['_']; the data, the shape, [_name] and the host are
    unchanged. *)
Theorem chooseSharedName_fits e (counter : Z) :
  let e' := snd (chooseSharedName counter e) in
  let s := c_str (_sharedname (this e')) in
  fst (chooseSharedName counter e) = Returns tt
  /\ (String.length s <= 254)%nat
  /\ ("/"%char ∉ String.list_ascii_of_string s)
  /\ (exists r, s = String "_" r)
  /\ os e' = os e /\ same_shape (this e) (this e') /\ data (this e') = data (this e)
  /\ _name (this e') = _name (this e).
Proof.
  cbn zeta. split; [reflexivity|].
  unfold chooseSharedName, modify. cbn [snd this os _sharedname set_sharedname].
  split; [apply truncate_name_c_str|]. split; [|split; [apply shared_name_head|]].
  - intros H. apply c_str_chars, truncate_name_chars in H as [H | H]; [discriminate|].
    by apply replace_slash_chars in H.
  - by repeat split.
Qed.

Lemma chooseSharedName_nonempty e (counter : Z) :
  c_str (_sharedname (this (snd (chooseSharedName counter e)))) <> "".
Proof.
  unfold chooseSharedName, modify. cbn [snd this os _sharedname set_sharedname].
  destruct (shared_name_head
              (pretty (ppid (os e)) +:+ "_" +:+ pretty (pid (os e))
               +:+ (if counter >? 0 then "_" +:+ hex counter else "")
               +:+ "_" +:+ _name (this e))) as [r Hr].
  rewrite Hr. discriminate.
Qed.

Lemma shm_open_opened (s : string) (excl : bool) (w w' : World) :
  shm_open s excl w = (None, w') -> is_Some (segments w' !! s).
Proof.
  unfold shm_open. destruct (segments w !! s) as [z|] eqn:E.
  - destruct excl; [discriminate|]. intros [= <-]. by rewrite E.
  - intros [= <-]. cbn. rewrite lookup_insert_eq. eauto.
Qed.

(** After the retry loop: an open descriptor is one of the segment the
    object now names, and a name chosen by [chooseSharedName] is never
    empty as a C string. *)
Lemma retryNames_segment (fuel : nat) :
  forall (c : Z) (isCreator : bool) (fd : option errno) e e',
    retryNames fuel c isCreator fd e = (Returns None, e') ->
    (fd = None -> is_Some (segments (os e) !! c_str (_sharedname (this e)))) ->
    c_str (_sharedname (this e)) <> "" ->
    is_Some (segments (os e') !! c_str (_sharedname (this e')))
    /\ c_str (_sharedname (this e')) <> "".
Proof.
  induction fuel as [|fuel IH]; intros c isCreator fd e e' Hrun Hopen Hne.
  - cbn in Hrun. injection Hrun as -> <-. auto.
  - cbn [retryNames] in Hrun.
    destruct fd as [[|]|]; [|by injection Hrun | injection Hrun as <-; auto].
    destruct ((c <? 100000) && isCreator); [|by injection Hrun].
    apply bind_returns in Hrun as (fd1 & e1 & Hstep & Hrun).
    apply bind_returns in Hstep as ([] & e0 & Hchoose & Hstep).
    assert (He0 : e0 = snd (chooseSharedName c e)) by (by rewrite Hchoose).
    destruct (shm_open (c_str (_sharedname (this e0))) true (os e0)) as [fd0 w] eqn:Eo.
    injection Hstep as <- <-.
    apply (IH _ _ _ _ _ Hrun).
    + intros ->. cbn. by eapply shm_open_opened.
    + cbn. rewrite He0. apply chooseSharedName_nonempty.
Qed.

Lemma createShared_segment e (p : list T) e' :
  _sharedname (this e) = "" ->
  createShared e = (Returns p, e') ->
  is_Some (segments (os e') !! c_str (_sharedname (this e')))
  /\ c_str (_sharedname (this e')) <> "".
Proof.
  intros Hname Hrun. unfold createShared in Hrun.
  apply bind_returns in Hrun as (a & e0 & Hself & Hrun). injection Hself as <- <-.
  rewrite Hname in Hrun. cbn [String.eqb] in Hrun.
  apply bind_returns in Hrun as (fd0 & e1 & Hopen & Hrun).
  apply bind_returns in Hopen as ([] & en & Hchoose & Hopen).
  assert (Hen : en = snd (chooseSharedName 0 e)) by (by rewrite Hchoose).
  destruct (shm_open (c_str (_sharedname (this en))) true (os en)) as [fd w] eqn:Eo.
  injection Hopen as <- <-.
  apply bind_returns in Hrun as (fd1 & e2 & Hretry & Hrun).
  apply bind_returns in Hrun as (a2 & e3 & Hself & Hrun). injection Hself as <- <-.
  destruct fd1 as [err|]; [discriminate|].
  apply retryNames_segment in Hretry as [Hseg Hne]; cycle 1.
  { intros ->. cbn. by eapply shm_open_opened. }
  { cbn. rewrite Hen. apply chooseSharedName_nonempty. }
  apply bind_returns in Hrun as ([] & e4 & Htrunc & Hrun).
  injection Htrunc as <-.
  destruct (memSize (this e) =? 0); [by apply bind_returns in Hrun as (? & ? & _ & ?)|].
  injection Hrun as _ <-. cbn. split; [|exact Hne].
  rewrite lookup_insert_eq. eauto.
Qed.
End SharedNames.

Section SharedLeak.
Context {T : Type} {elem : Element T}.
Implicit Types (e : Env T) (a : Matrix T) (d : list T).

Lemma resize_returns e (r : Z) :
  exists a', resize r e = (Returns tt, mkEnv a' (os e))
             /\ _sharedname a' = _sharedname (this e)
             /\ (is_allocated (this e) = true -> is_allocated a' = true).
Proof.
  unfold resize. unfold bind at 1, self at 1. cbn beta iota.
  destruct (_ && _); [exists (this e); by rewrite env_eta|].
  destruct (_ && _); [exists (this e); by rewrite env_eta|].
  eexists. split; [reflexivity|]. by split.
Qed.

(** X8: After [setShared(true)] succeeded on an unshared matrix with no
    shared name, the shared name is non-empty and its segment exists on the
    host.  [setShared(false)] then brings the matrix back to local storage and
    [clear()] releases it, and both blank the shared name and leave the
    segment on the host: [closeShared] empties [_sharedname] before
    [unlinkShared] uses it. *)
Theorem shared_segment_outlives_matrix e e' :
  _isShared (this e) = false -> _sharedname (this e) = "" ->
  setShared true e = (Returns tt, e') ->
  let s := c_str (_sharedname (this e')) in
  s <> "" /\ is_Some (segments (os e') !! s)
  /\ (let back := snd (setShared false e') in
      fst (setShared false e') = Returns tt
      /\ _isShared (this back) = false /\ is_allocated (this back) = true
      /\ _sharedname (this back) = "" /\ os back = os e')
  /\ (let gone := snd (clear e') in
      fst (clear e') = Returns tt
      /\ data (this gone) = None /\ _isShared (this gone) = false
      /\ _sharedname (this gone) = ""
      /\ segments (os gone) !! s = segments (os e') !! s).
Proof.
  intros Hs Hname Hrun s.
  destruct (setShared_true_post _ _ Hrun) as [Halloc Hshared].
  assert (Hseg : is_Some (segments (os e') !! s) /\ s <> "").
  { unfold setShared in Hrun.
    apply bind_returns in Hrun as (a & e0 & Hself & Hrun). injection Hself as <- <-.
    rewrite Hs, andb_false_r in Hrun.
    apply bind_returns in Hrun as ([] & e1 & Hbody & Hrun). injection Hrun as <-.
    destruct (memSize (this e) =? 0); [discriminate|].
    apply bind_returns in Hbody as (shared & e2 & Hcs & Hbody). injection Hbody as <-.
    apply bind_returns in Hcs as ([] & e3 & Hset & Hcs). injection Hset as <-.
    apply createShared_segment in Hcs; [|exact Hname]. exact Hcs. }
  destruct Hseg as [Hseg Hne]. split; [exact Hne|]. split; [exact Hseg|]. split.
  - cbn zeta. unfold setShared. rewrite (bind_run self _ e' e' (this e')) by reflexivity.
    rewrite Hshared, andb_false_r.
    destruct (resize_returns e' 0) as (a1 & Hres & Hnm & Hal).
    erewrite (bind_run _ _ e' _ tt); cycle 1.
    { erewrite (bind_run _ _ e' _ tt) by exact Hres.
      unfold is_allocated in Halloc. destruct (data (this e')); [reflexivity | discriminate]. }
    cbn. repeat split. by apply Hal.
  - cbn zeta. unfold clear. rewrite (bind_run self _ e' e' (this e')) by reflexivity.
    unfold is_allocated in Halloc. destruct (data (this e')) as [d|] eqn:Ed; [|discriminate].
    rewrite Hshared. cbn. repeat split.
    by rewrite lookup_delete_ne.
Qed.
End SharedLeak.

Section MatrixSetM.
Context {T : Type} {elem : Element T}.
Implicit Types (e : Env T) (a : Matrix T) (d : list T).

(** X9: On an unshared well-formed matrix [setM(newm)] works with [m' =
    max(1,newm)]: it throws [MemException] when [m'] exceeds [_n*_m];
    otherwise [_m = m'] and [_n = (_n*_m)/m'], the data and the capacity
    [_n_actual] are untouched, cell [(i,j)] of the reshaped matrix is storage
    cell [i*m'+j], and fewer than [m'] trailing cells fall out of range. *)
Theorem setM_reshapes e (newm : Z) :
  _isShared (this e) = false -> well_formed (this e) -> 0 <= newm < 2 ^ 32 ->
  let cells := _n (this e) * _m (this e) in
  let m' := Z.max 1 newm in
  (cells < m' ->
     setM newm e = (Throws (MemException "New m value larger than matrix size"), e))
  /\ (m' <= cells ->
      exists e',
        setM newm e = (Returns tt, e')
        /\ _m (this e') = m' /\ _n (this e') = cells / m'
        /\ _n (this e') * _m (this e') <= cells
        /\ cells < (_n (this e') + 1) * _m (this e')
        /\ data (this e') = data (this e) /\ _n_actual (this e') = _n_actual (this e)
        /\ os e' = os e
        /\ (forall i j, 0 <= i < _n (this e') -> 0 <= j < m' ->
              at_ (this e') i j = cell (this e) (i * m' + j))).
Proof.
  intros Hs Hwf Hnewm cells m'. pose proof Hwf as (Hn & Hna & Hm & Hfit & Hst).
  assert (Hcells : 0 <= cells < 2 ^ 32).
  { pose proof (mul_bounds (_n (this e)) (_n_actual (this e)) (_m (this e)) Hn ltac:(lia)).
    unfold cells. lia. }
  assert (Hrun : setM newm e
                 = if m' >? cells
                   then (Throws (MemException "New m value larger than matrix size"), e)
                   else (Returns tt, mkEnv (set_m m' (set_n (cells / m') (this e))) (os e))).
  { cbv [setM bind self checkNotShared ret throw on_this modify]. rewrite Hs.
    rewrite _max_sval_max. fold m'.
    rewrite (Z.mul_comm (_m (this e))). fold cells.
    rewrite (u32_small cells) by lia.
    destruct (m' >? cells); [reflexivity|].
    cbn [this]. fold cells. by rewrite (u32_small cells) by lia. }
  split.
  - intros Hlt. rewrite Hrun. destruct (m' >? cells) eqn:E; [reflexivity|].
    rewrite Z.gtb_ltb in E. apply Z.ltb_ge in E. lia.
  - intros Hle. rewrite Hrun. destruct (m' >? cells) eqn:E.
    { rewrite Z.gtb_ltb in E. apply Z.ltb_lt in E. lia. }
    eexists. split; [reflexivity|]. cbn.
    assert (Hm' : 0 < m') by (unfold m'; lia).
    pose proof (Z.mul_div_le cells m' Hm').
    pose proof (Z.mul_succ_div_gt cells m' Hm').
    repeat (split; [first [reflexivity | lia]|]).
    intros i j Hi Hj. unfold at_, index, cell. cbn.
    pose proof (cell_bounds m' i (cells / m') j Hi Hj) as [Hb1 Hb2].
    rewrite cell_index by lia. by rewrite (Z.mul_comm m' i).
Qed.


End MatrixSetM.

Section MatrixNew.
Context {T : Type} {elem : Element T}.
Implicit Types (e : Env T) (a : Matrix T) (d : list T).

Lemma zeros_cell (count : Z) (i : nat) : default zeroT (zeros (T:=T) count !! i) = zeroT.
Proof.
  unfold zeros. destruct (replicate _ _ !! i) as [y|] eqn:Ey; [|reflexivity].
  apply lookup_replicate in Ey as [-> _]. reflexivity.
Qed.

(** X11: For [0 <= n < 2^32], [0 <= m < 2^32] and [n*m < 2^32] the
    constructor with [shared=false] gives a well-formed local [n] by [m]
    matrix of capacity [n] with an empty shared name on an unchanged host,
    every cell zero.  With [shared=true], and moreover [0 < sizeof(T)],
    [0 < n*m], [sizeof(T)*n*m < 2^32] and the chosen segment name free on
    the host, it gives a well-formed shared [n] by [m] matrix of capacity
    [n], every cell zero, and registers a segment of [sizeof(T)*n*m] bytes
    under the chosen name. *)
Theorem Matrix_new_zero_filled (name type : string) (n m : Z) (w : World) :
  0 <= n < 2 ^ 32 -> 0 <= m < 2 ^ 32 -> n * m < 2 ^ 32 ->
  (exists e,
     Matrix_new name type n m false w = (Returns tt, e)
     /\ well_formed (this e) /\ _n (this e) = n /\ _m (this e) = m
     /\ _n_actual (this e) = n /\ _isShared (this e) = false
     /\ _name (this e) = name /\ _sharedname (this e) = "" /\ os e = w
     /\ (forall i j, 0 <= i < n -> 0 <= j < m -> getAt i j e = (Returns zeroT, e)))
  /\ (0 < sizeofT -> 0 < n * m -> sizeofT * n * m < 2 ^ 32 ->
      let fresh : Env T := mkEnv (mkMatrix name type "" None 0 n m false) w in
      let s := _sharedname (this (snd (chooseSharedName 0 fresh))) in
      segments w !! c_str s = None ->
      exists e,
        Matrix_new name type n m true w = (Returns tt, e)
        /\ well_formed (this e) /\ _n (this e) = n /\ _m (this e) = m
        /\ _n_actual (this e) = n /\ _isShared (this e) = true
        /\ _name (this e) = name /\ _sharedname (this e) = s
        /\ segments (os e) = <[c_str s := sizeofT * n * m]> (segments w)
        /\ (forall i j, 0 <= i < n -> 0 <= j < m -> getAt i j e = (Returns zeroT, e))).
Proof.
  intros Hn Hm Hfit. split.
  - unfold Matrix_new, setShared.
    set (fresh := mkEnv (mkMatrix (T:=T) name type "" None 0 n m false) w).
    rewrite (bind_run self _ fresh fresh (this fresh)) by reflexivity.
    cbn [is_allocated this fresh data andb].
    destruct (decide (n = 0)) as [-> | Hpos].
    + exists fresh. split; [reflexivity|]. unfold well_formed, stored. cbn.
      repeat (split; [first [reflexivity | lia]|]). intros i j Hi; lia.
    + eexists. split.
      { erewrite (bind_run _ _ fresh _ tt); cycle 1.
        { erewrite (bind_run _ _ fresh _ tt); cycle 1.
          { unfold resize. rewrite (bind_run self _ fresh fresh (this fresh)) by reflexivity.
            cbn [this fresh _n _n_actual _isShared data negb _m].
            rewrite Z.add_0_r, u32_small, !andb_true_r by lia.
            destruct (n <=? 0) eqn:E1; [apply Z.leb_le in E1; lia|].
            destruct (n <? 0) eqn:E2; [apply Z.ltb_lt in E2; lia|].
            rewrite u32_small by lia. reflexivity. }
          reflexivity. }
        reflexivity. }
      cbn [this os fresh set_isShared set_data set_n_actual _n _m _n_actual _isShared
           _name _sharedname data].
      split.
      { unfold well_formed, stored. cbn. rewrite zeros_length.
        repeat split; first [done | lia]. }
      repeat (split; [reflexivity|]).
      intros i j Hi Hj. rewrite getAt_ok by (cbn; lia). do 2 f_equal.
      unfold at_, index, cell. cbn. rewrite nth_lookup. apply zeros_cell.
  - intros Hsz Hpos Hfits fresh s Hfree.
    assert (Hmem : memSize (this fresh) = sizeofT * n * m).
    { unfold memSize. cbn. apply u32_small. lia. }
    assert (Hcount : sizeofT * n * m / sizeofT = n * m).
    { replace (sizeofT * n * m) with (n * m * sizeofT) by lia. apply Z.div_mul. lia. }
    set (e1 := mkEnv (set_n_actual n (this fresh)) w).
    assert (Hcs := createShared_fresh e1). cbn zeta in Hcs.
    replace (_sharedname (this (snd (chooseSharedName 0 e1)))) with s in Hcs by reflexivity.
    replace (memSize (this e1)) with (sizeofT * n * m) in Hcs by (symmetry; exact Hmem).
    specialize (Hcs eq_refl ltac:(lia) Hfree).
    unfold Matrix_new, setShared. fold fresh.
    rewrite (bind_run self _ fresh fresh (this fresh)) by reflexivity.
    change (is_allocated (this fresh) && Bool.eqb true (_isShared (this fresh))) with false.
    cbv iota. rewrite Hmem.
    destruct (sizeofT * n * m =? 0) eqn:E; [apply Z.eqb_eq in E; lia|].
    erewrite (bind_run _ _ fresh _ tt); cycle 1.
    { erewrite (bind_run _ _ fresh _ _); cycle 1.
      { erewrite (bind_run _ _ fresh e1 tt) by reflexivity. exact Hcs. }
      reflexivity. }
    eexists. split; [reflexivity|].
    cbn [this os set_isShared set_data _isShared _sharedname _n _m _n_actual segments
         _name data e1 fresh set_n_actual chooseSharedName modify snd set_sharedname].
    rewrite Hcount.
    split.
    { unfold well_formed, stored. cbn. rewrite zeros_length.
      repeat split; first [done | lia]. }
    repeat (split; [reflexivity|]).
    intros i j Hi Hj. rewrite getAt_ok by (cbn; lia). do 2 f_equal.
    unfold at_, index, cell. cbn. rewrite nth_lookup. apply zeros_cell.
Qed.
End MatrixNew.

(** ** MetaType *)

Section MetaFacts.
Local Close Scope Z_scope.
Local Abbreviation chars := String.list_ascii_of_string.

Lemma string_app_cons (c : ascii) (a b : string) : String c a +:+ b = String c (a +:+ b).
Proof. reflexivity. Qed.

Lemma chars_app (a b : string) : chars (a +:+ b) = chars a ++ chars b.
Proof.
  induction a as [|c a IH]; [reflexivity|]. rewrite string_app_cons. cbn. by rewrite IH.
Qed.

Lemma c_str_plain (s : string) : "000"%char ∉ chars s -> c_str s = s.
Proof.
  induction s as [|c s IH]; cbn; [reflexivity|]. intros Hn.
  destruct (Ascii.eqb c "000") eqn:E.
  - apply Ascii.eqb_eq in E. subst. exfalso. apply Hn. by left.
  - rewrite IH; [reflexivity|]. intros H. apply Hn. by right.
Qed.

Lemma c_str_no_nul (s : string) : "000"%char ∉ chars (c_str s).
Proof.
  induction s as [|c s IH]; cbn; [by intros ?%elem_of_nil|].
  destruct (Ascii.eqb c "000") eqn:E; cbn; [by intros ?%elem_of_nil|].
  apply Ascii.eqb_neq in E. intros [? | ?]%elem_of_cons; [by subst | done].
Qed.

Lemma strip_bar_chars (s : string) (c : ascii) :
  c ∈ chars (strip_bar s) <-> c <> "|"%char /\ c ∈ chars s.
Proof.
  induction s as [|c' s IH]; cbn.
  - split; [by intros ?%elem_of_nil | by intros [_ ?%elem_of_nil]].
  - destruct (Ascii.eqb c' "|") eqn:E.
    + apply Ascii.eqb_eq in E. subst. rewrite IH, elem_of_cons. split.
      * intros [Hne Hin]. auto.
      * intros [Hne [-> | Hin]]; [done | auto].
    + apply Ascii.eqb_neq in E. cbn. rewrite !elem_of_cons, IH. split.
      * intros [-> | [Hne Hin]]; auto.
      * intros [Hne [-> | Hin]]; auto.
Qed.

Lemma strip_bar_plain (s : string) : "000"%char ∉ chars s -> plain (strip_bar s).
Proof.
  intros Hn. split; intros [Hne Hin]%strip_bar_chars; [by apply Hne | by apply Hn].
Qed.

Lemma strip_bar_id (s : string) : "|"%char ∉ chars s -> strip_bar s = s.
Proof.
  induction s as [|c s IH]; cbn; [reflexivity|]. intros Hn.
  destruct (Ascii.eqb c "|") eqn:E.
  - apply Ascii.eqb_eq in E. subst. exfalso. apply Hn. by left.
  - rewrite IH; [reflexivity|]. intros H. apply Hn. by right.
Qed.

Lemma plain_stored (s : string) : plain (strip_bar (c_str s)).
Proof. apply strip_bar_plain, c_str_no_nul. Qed.

(** X12: [meta(key,val)] stores [val] without its ['|'] under [key]
    without its ['|'] (both as C strings): afterwards [meta(k')] is the
    stripped value when [k'] is the stripped key and is unchanged for every
    other key, and likewise [hasMetaKey].  So a key containing ['|'] is not
    read back under its own name, keys and values without ['|'] and NUL are
    read back exactly, a NULL key or value changes nothing, and a key that is
    not stored reads as the empty string. *)
Theorem meta_set_then_get (m : metamap) (key val k' : string) :
  meta k' (meta_set (Some key) (Some val) m)
    = (if decide (c_str k' = strip_bar (c_str key)) then strip_bar (c_str val) else meta k' m)
  /\ hasMetaKey k' (meta_set (Some key) (Some val) m)
     = (if decide (c_str k' = strip_bar (c_str key)) then true else hasMetaKey k' m)
  /\ ("|"%char ∈ chars (c_str key) ->
        meta key (meta_set (Some key) (Some val) m) = meta key m)
  /\ (plain key -> plain val ->
        meta key (meta_set (Some key) (Some val) m) = val)
  /\ meta_set None (Some val) m = m /\ meta_set (Some key) None m = m
  /\ (m !! c_str k' = None -> meta k' m = "" /\ hasMetaKey k' m = false)
  /\ (plain_map m -> plain_map (meta_set (Some key) (Some val) m)).
Proof.
  assert (Hget' : forall k'', meta k'' (meta_set (Some key) (Some val) m)
    = (if decide (c_str k'' = strip_bar (c_str key)) then strip_bar (c_str val) else meta k'' m)).
  { intros k''. unfold meta, meta_set.
    destruct (decide (c_str k'' = strip_bar (c_str key))) as [Heq | Hne].
    - rewrite Heq, lookup_insert_eq. apply c_str_plain, plain_stored.
    - by rewrite lookup_insert_ne. }
  split; [exact (Hget' k')|]. split; [|split; [|split; [|split; [reflexivity|split; [reflexivity|split]]]]].
  - unfold hasMetaKey, meta_set. destruct (decide _) as [Heq | Hne].
    + rewrite Heq, lookup_insert_eq. by apply bool_decide_eq_true.
    + by rewrite lookup_insert_ne.
  - intros Hbar. rewrite Hget'. rewrite decide_False; [reflexivity|].
    intros Heq. rewrite Heq in Hbar. apply strip_bar_chars in Hbar as [Hne _]. done.
  - intros [Hk1 Hk2] [Hv1 Hv2]. rewrite Hget'.
    rewrite !c_str_plain, !strip_bar_id by done. by rewrite decide_True.
  - intros Hnone. unfold meta, hasMetaKey. rewrite Hnone. split; [reflexivity|].
    apply bool_decide_eq_false. by intros [? ?].
  - intros Hpm k v. unfold meta_set. intros [[<- <-] | [_ Hl]]%lookup_insert_Some.
    + split; apply plain_stored.
    + by apply Hpm in Hl.
Qed.

Lemma fields_app (d : ascii) (w r : string) :
  d ∉ chars w -> fields d (w +:+ String d r) = w :: fields d r.
Proof.
  induction w as [|c w IH]; intros Hd.
  - change ("" +:+ String d r) with (String d r). cbn [fields]. by rewrite Ascii.eqb_refl.
  - rewrite string_app_cons. cbn [fields].
    destruct (Ascii.eqb c d) eqn:E.
    + apply Ascii.eqb_eq in E. subst. exfalso. apply Hd. cbn. by left.
    + rewrite IH; [reflexivity|]. intros H. apply Hd. cbn. by right.
Qed.

Lemma strtok_all_pair (k v out : string) :
  k <> "" -> v <> "" -> "|"%char ∉ chars k -> "|"%char ∉ chars v ->
  strtok_all "|" (k +:+ "||" +:+ v +:+ "||" +:+ out) = k :: v :: strtok_all "|" out.
Proof.
  intros Hk Hv Hkb Hvb. unfold strtok_all.
  change ("||" +:+ v +:+ "||" +:+ out) with (String "|" (String "|" (v +:+ "||" +:+ out))).
  rewrite fields_app by done.
  change (fields "|" (String "|" (v +:+ "||" +:+ out)))
    with ("" :: fields "|" (v +:+ String "|" (String "|" out))).
  rewrite fields_app by done.
  change (fields "|" (String "|" out)) with ("" :: fields "|" out).
  cbn [List.filter].
  destruct k; [done|]. destruct v; [done|]. reflexivity.
Qed.



Lemma strtok_all_serialize (l : list (string * string)) :
  (forall p, p ∈ l -> p.1 <> "" /\ p.2 <> "" /\ plain p.1 /\ plain p.2) ->
  strtok_all "|" (serialize_pairs l) = flat_map (fun p => [p.1; p.2]) l.
Proof.
  induction l as [|p l IH]; intros Hl; [reflexivity|].
  destruct (Hl p ltac:(by left)) as (Hk & Hv & [Hkb _] & [Hvb _]).
  cbn [serialize_pairs foldr flat_map app]. fold (serialize_pairs l).
  rewrite strtok_all_pair by done. rewrite IH; [reflexivity|].
  intros q Hq. apply Hl. by right.
Qed.

Lemma serialize_no_nul (l : list (string * string)) :
  (forall p, p ∈ l -> plain p.1 /\ plain p.2) ->
  "000"%char ∉ chars (serialize_pairs l).
Proof.
  induction l as [|p l IH]; intros Hl; [by intros ?%elem_of_nil|].
  destruct (Hl p ltac:(by left)) as ([_ Hk] & [_ Hv]).
  cbn [serialize_pairs foldr]. fold (serialize_pairs l).
  rewrite !chars_app. rewrite !elem_of_app.
  intros [H | [H | [H | [H | H]]]]; try done.
  - cbn in H. apply elem_of_cons in H as [? | H]; [done|].
    apply elem_of_cons in H as [? | H]; [done|]. by apply elem_of_nil in H.
  - cbn in H. apply elem_of_cons in H as [? | H]; [done|].
    apply elem_of_cons in H as [? | H]; [done|]. by apply elem_of_nil in H.
  - revert H. apply IH. intros q Hq. apply Hl. by right.
Qed.

Lemma store_tokens_pairs (l : list (string * string)) :
  forall m0 : metamap,
    store_tokens (flat_map (fun p => [p.1; p.2]) l) m0
    = Some (foldl (fun m p => <[p.1 := p.2]> m) m0 l).
Proof.
  induction l as [|p l IH]; intros m0; [reflexivity|].
  cbn [flat_map app store_tokens foldl]. apply IH.
Qed.

Lemma foldl_insert_union (l : list (string * string)) :
  forall m0 : metamap,
    foldl (fun m p => <[p.1 := p.2]> m) m0 l = list_to_map (rev l) ∪ m0.
Proof.
  induction l as [|[k v] l IH]; intros m0; cbn [foldl rev fst snd].
  - by rewrite list_to_map_nil, (left_id_L ∅ (∪)).
  - rewrite IH, list_to_map_app, list_to_map_cons, list_to_map_nil.
    rewrite <- (assoc_L (∪)). f_equal.
    rewrite insert_empty. by rewrite <- insert_union_singleton_l.
Qed.

(** X13: For a map whose keys and values are non-empty and hold no ['|']
    and no NUL, [deserializeMeta] of [serializeMeta()] into a map [m0] gives
    the serialized pairs over [m0], and into an empty map gives the map back.
    A pair with an empty value does not survive: its key is the last token and
    the value is built from the NULL that [strtok] returns. *)
Theorem serializeMeta_round_trip (m m0 : metamap) :
  plain_map m ->
  (forall k v, m !! k = Some v -> k <> "" /\ v <> "") ->
  deserializeMeta (serializeMeta m) m0 = Some (m ∪ m0)
  /\ deserializeMeta (serializeMeta m) ∅ = Some m
  /\ (forall k : string, k <> "" -> plain k ->
        deserializeMeta (serializeMeta {[k := ""]}) m0 = None).
Proof.
  intros Hplain Hne.
  assert (Hperm : pairs m ≡ₚ map_to_list m) by apply merge_sort_Permutation.
  assert (Hin : forall p, p ∈ pairs m -> p.1 <> "" /\ p.2 <> "" /\ plain p.1 /\ plain p.2).
  { intros [k v] Hp. rewrite Hperm in Hp. apply elem_of_map_to_list in Hp. cbn.
    destruct (Hplain _ _ Hp), (Hne _ _ Hp). auto. }
  assert (Hrun : forall m1 : metamap, deserializeMeta (serializeMeta m) m1 = Some (m ∪ m1)).
  { intros m1. unfold deserializeMeta, serializeMeta. fold (serialize_pairs (pairs m)).
    rewrite c_str_plain by (apply serialize_no_nul; intros p Hp; destruct (Hin p Hp); tauto).
    rewrite strtok_all_serialize by exact Hin.
    rewrite store_tokens_pairs, foldl_insert_union. do 2 f_equal.
    symmetry. apply list_to_map_flip.
    etransitivity; [symmetry; exact Hperm | apply Permutation_rev]. }
  split; [apply Hrun|]. split; [rewrite Hrun; by rewrite (right_id_L ∅ (∪))|].
  intros k Hk [Hkb Hkn]. unfold deserializeMeta, serializeMeta, pairs.
  rewrite map_to_list_singleton.
  change (merge_sort key_le [(k, "")]) with [(k, "")].
  cbn [foldr fst snd].
  change (k +:+ "||" +:+ "" +:+ "||" +:+ "") with (k +:+ String "|" "|||").
  rewrite c_str_plain.
  - unfold strtok_all. rewrite fields_app by done. cbn. by destruct k.
  - rewrite chars_app, elem_of_app. intros [H | H]; [done|].
    cbn in H. repeat (apply elem_of_cons in H as [? | H]; [done|]). by apply elem_of_nil in H.
Qed.
End MetaFacts.

(** ** Exact arithmetic: mat4, rotator, rays, planes and interpolation *)

Section ExactFacts.
Local Close Scope Z_scope.
Local Open Scope Q_scope.

Lemma Q_reqb_eq (a b : Q) : (a =? b)%re = true <-> a == b.
Proof. apply Qeq_bool_iff. Qed.
Lemma Q_reqb_neq (a b : Q) : (a =? b)%re = false <-> ~ a == b.
Proof.
  split.
  - intros Hf Heq. apply Qeq_bool_iff in Heq. cbn in Hf. congruence.
  - intros Hne. destruct (a =? b)%re eqn:E; [|reflexivity].
    apply Qeq_bool_iff in E. contradiction.
Qed.

Ltac q_ops := cbv [radd rsub rmul rdiv ropp rone rzero fabs dEPSILON Q_ops] in *.

(** Decide one comparison of the exact instance, leaving the order fact
    in the context. *)
Ltac q_case b :=
  let E := fresh "E" in
  destruct b eqn:E;
  [ first [ apply Q_rleb_le in E | apply Q_rltb_lt in E | apply Q_reqb_eq in E ]
  | first [ apply Q_rleb_false in E | apply Q_rltb_false in E | apply Q_reqb_neq in E ] ].

Ltac q_unfold :=
  cbv [mat4_mul inverse determinant inverse_det ident mat4Det mat4_eq
       m00 m01 m02 m03 m10 m11 m12 m13 m20 m21 m22 m23 m30 m31 m32 m33
       radd rsub rmul rdiv ropp rone rzero Q_ops].

Lemma det_agree (a : mat4 Q) : (inverse_det a == determinant a)%Q.
Proof. destruct a. q_unfold. ring. Qed.

Lemma mat4Det_agree (a b c d e f g h i j k l m n o p : Q) :
  (mat4Det a b c d e f g h i j k l m n o p
   == determinant (Mat4 a b c d e f g h i j k l m n o p))%Q.
Proof. q_unfold. ring. Qed.

Lemma inverse_right (a : mat4 Q) :
  ~ (determinant a == 0)%Q -> mat4_eq (mat4_mul a (inverse a)) ident.
Proof.
  intros Hdet. rewrite <- det_agree in Hdet. destruct a. revert Hdet. q_unfold. intros Hdet.
  repeat split; field; exact Hdet.
Qed.

Lemma inverse_left (a : mat4 Q) :
  ~ (determinant a == 0)%Q -> mat4_eq (mat4_mul (inverse a) a) ident.
Proof.
  intros Hdet. rewrite <- det_agree in Hdet. destruct a. revert Hdet. q_unfold. intros Hdet.
  repeat split; field; exact Hdet.
Qed.

Lemma det_mul (a b : mat4 Q) :
  (determinant (mat4_mul a b) == determinant a * determinant b)%Q.
Proof. destruct a, b. q_unfold. ring. Qed.

Ltac rot_unfold :=
  cbv [Rot.rotate Rot.rmul Rot.conjugate Rot.rdot Rot.rlenSq Rot.set Rot.rotator_id Rot.rot_eq
       Rot._w Rot._x Rot._y Rot._z vec_eq lenSq dot cross vadd vsub vscale
       Vec._x Vec._y Vec._z radd rsub rmul rdiv ropp rone rzero Q_ops].


(** The rotation formula of [operator *] departs from the quaternion
    sandwich by [(1 - |q|^2) v]; the next three identities hold for all
    rotators and reduce the statements about unit rotators to [ring]. *)
Lemma rotate_compose_gen (a b : Rot.rotator Q) (v : vec3 Q) :
  let na := Rot.rlenSq a in
  let nb := Rot.rlenSq b in
  let rab := Rot.rotate (Rot.rmul a b) v in
  let ra := Rot.rotate a v in
  let rb := Rot.rotate b v in
  let rarb := Rot.rotate a (Rot.rotate b v) in
  _x rarb == _x rab + ((1 - nb) * (_x ra - (1 - na) * _x v) + (1 - na) * _x rb
                       - (1 - na * nb) * _x v)
  /\ _y rarb == _y rab + ((1 - nb) * (_y ra - (1 - na) * _y v) + (1 - na) * _y rb
                          - (1 - na * nb) * _y v)
  /\ _z rarb == _z rab + ((1 - nb) * (_z ra - (1 - na) * _z v) + (1 - na) * _z rb
                          - (1 - na * nb) * _z v).
Proof.
  destruct a as [aw ax ay az], b as [bw bx b_y bz], v as [x y z]. rot_unfold.
  repeat split; ring.
Qed.

Lemma rotate_lenSq_gen (r : Rot.rotator Q) (v : vec3 Q) :
  lenSq (Rot.rotate r v)
  == lenSq v + (Rot.rlenSq r - 1) * ((1 + 1) * (lenSq v - dot (Rot.rotate r v) v)).
Proof. destruct r as [w x y z], v as [vx vy vz]. rot_unfold. ring. Qed.

Lemma rotate_compose (a b : Rot.rotator Q) (v : vec3 Q) :
  Rot.rlenSq a == 1 -> Rot.rlenSq b == 1 ->
  vec_eq (Rot.rotate (Rot.rmul a b) v) (Rot.rotate a (Rot.rotate b v)).
Proof.
  intros Ha Hb. destruct (rotate_compose_gen a b v) as (Hx & Hy & Hz). cbn zeta in *.
  rewrite Ha, Hb in Hx, Hy, Hz. unfold vec_eq.
  rewrite Hx, Hy, Hz. repeat split; ring.
Qed.

Lemma rotate_isometry (r : Rot.rotator Q) (v : vec3 Q) :
  Rot.rlenSq r == 1 -> lenSq (Rot.rotate r v) == lenSq v.
Proof. intros Hr. rewrite rotate_lenSq_gen, Hr. ring. Qed.

Lemma rlenSq_conjugate (r : Rot.rotator Q) : Rot.rlenSq (Rot.conjugate r) == Rot.rlenSq r.
Proof. destruct r. rot_unfold. ring. Qed.

Lemma rotate_conjugate_product (r : Rot.rotator Q) (v : vec3 Q) :
  vec_eq (Rot.rotate (Rot.rmul (Rot.conjugate r) r) v) v.
Proof. destruct r as [w x y z], v as [vx vy vz]. rot_unfold. repeat split; ring. Qed.

(** X14: In exact arithmetic the product of rotators is associative with
    [rotator()] as its unit, the squared length of a product is the product of
    the squared lengths, and for rotators of unit length rotating by [a*b] is
    rotating by [b] and then by [a]. *)
Theorem rotator_product_composes :
  (forall a b c : Rot.rotator Q,
     Rot.rot_eq (Rot.rmul (Rot.rmul a b) c) (Rot.rmul a (Rot.rmul b c)))
  /\ (forall a : Rot.rotator Q,
        Rot.rot_eq (Rot.rmul Rot.rotator_id a) a /\ Rot.rot_eq (Rot.rmul a Rot.rotator_id) a)
  /\ (forall a b : Rot.rotator Q,
        Rot.rlenSq (Rot.rmul a b) == Rot.rlenSq a * Rot.rlenSq b)
  /\ (forall (a b : Rot.rotator Q) (v : vec3 Q),
        Rot.rlenSq a == 1 -> Rot.rlenSq b == 1 ->
        vec_eq (Rot.rotate (Rot.rmul a b) v) (Rot.rotate a (Rot.rotate b v))).
Proof.
  split; [|split; [|split]].
  - intros [aw ax ay az] [bw bx b_y bz] [cw cx cy cz]. rot_unfold. repeat split; ring.
  - intros [aw ax ay az]. rot_unfold. repeat split; ring.
  - intros [aw ax ay az] [bw bx b_y bz]. rot_unfold. ring.
  - apply rotate_compose.
Qed.

(** X15: In exact arithmetic a rotator of unit length preserves lengths
    and dot products of the vectors it rotates, its conjugate undoes the
    rotation on either side, and the default rotator leaves every vector
    unchanged. *)
Theorem rotator_rotation_is_isometry (r : Rot.rotator Q) (v u : vec3 Q) :
  Rot.rlenSq r == 1 ->
  lenSq (Rot.rotate r v) == lenSq v
  /\ dot (Rot.rotate r v) (Rot.rotate r u) == dot v u
  /\ vec_eq (Rot.rotate (Rot.conjugate r) (Rot.rotate r v)) v
  /\ vec_eq (Rot.rotate r (Rot.rotate (Rot.conjugate r) v)) v
  /\ vec_eq (Rot.rotate Rot.rotator_id v) v.
Proof.
  intros Hr. split; [by apply rotate_isometry|]. split; [|split; [|split]].
  - (* polarisation *)
    assert (Hsum : lenSq (Rot.rotate r (vadd v u)) == lenSq (vadd v u))
      by (by apply rotate_isometry).
    assert (Hv : lenSq (Rot.rotate r v) == lenSq v) by (by apply rotate_isometry).
    assert (Hu : lenSq (Rot.rotate r u) == lenSq u) by (by apply rotate_isometry).
    assert (Hlin : lenSq (Rot.rotate r (vadd v u))
                   == lenSq (Rot.rotate r v) + lenSq (Rot.rotate r u)
                      + (1 + 1) * dot (Rot.rotate r v) (Rot.rotate r u)).
    { destruct r as [w x y z], v as [vx vy vz], u as [ux uy uz]. rot_unfold. ring. }
    assert (Hpol : lenSq (vadd v u) == lenSq v + lenSq u + (1 + 1) * dot v u).
    { destruct v as [vx vy vz], u as [ux uy uz]. rot_unfold. ring. }
    rewrite Hlin, Hv, Hu, Hpol in Hsum. lra.
  - pose proof (rotate_compose (Rot.conjugate r) r v) as Hc.
    rewrite rlenSq_conjugate in Hc. specialize (Hc Hr Hr).
    pose proof (rotate_conjugate_product r v) as Hp.
    unfold vec_eq in *. destruct Hc as (H1 & H2 & H3), Hp as (P1 & P2 & P3).
    rewrite <- H1, <- H2, <- H3. auto.
  - pose proof (rotate_compose r (Rot.conjugate r) v) as Hc.
    rewrite rlenSq_conjugate in Hc. specialize (Hc Hr Hr).
    assert (Hp : vec_eq (Rot.rotate (Rot.rmul r (Rot.conjugate r)) v) v).
    { destruct r as [w x y z], v as [vx vy vz]. rot_unfold. repeat split; ring. }
    unfold vec_eq in *. destruct Hc as (H1 & H2 & H3), Hp as (P1 & P2 & P3).
    rewrite <- H1, <- H2, <- H3. auto.
  - destruct v as [vx vy vz]. rot_unfold. repeat split; ring.
Qed.

(** X22: In exact arithmetic, for a matrix with non-zero [determinant()],
    [inverse()] is a right and a left inverse under [operator*]. *)
Theorem mat4_inverse_exact (a : mat4 Q) :
  ~ determinant a == 0 ->
  mat4_eq (mat4_mul a (inverse a)) ident /\ mat4_eq (mat4_mul (inverse a) a) ident.
Proof. intros Hdet. split; [by apply inverse_right | by apply inverse_left]. Qed.

(** X23: In exact arithmetic [determinant()] of a product is the product
    of the determinants, the identity has determinant 1, and [mat4Det] of
    sixteen values is [determinant()] of the matrix with these entries. *)
Theorem mat4_determinant_multiplicative :
  (forall a b : mat4 Q, determinant (mat4_mul a b) == determinant a * determinant b)
  /\ determinant (ident (real:=Q)) == 1
  /\ (forall a b c d e f g h i j k l m n o p : Q,
        mat4Det a b c d e f g h i j k l m n o p
        == determinant (Mat4 a b c d e f g h i j k l m n o p)).
Proof.
  split; [apply det_mul|]. split; [q_unfold; ring|]. apply mat4Det_agree.
Qed.

Ltac apply_unfold :=
  cbv [mat4_divisor mat4_mul vdiv vec3_of vec_eq
       m00 m01 m02 m03 m10 m11 m12 m13 m20 m21 m22 m23 m30 m31 m32 m33
       Vec._x Vec._y Vec._z radd rsub rmul rdiv ropp rone rzero Q_ops].

Lemma mat4_apply_nz (a : mat4 Q) (v : vec3 Q) :
  ~ mat4_divisor a v == 0 ->
  mat4_apply a v
  = Vec3 ((m00 a * _x v + m01 a * _y v + m02 a * _z v + m03 a) / mat4_divisor a v)
         ((m10 a * _x v + m11 a * _y v + m12 a * _z v + m13 a) / mat4_divisor a v)
         ((m20 a * _x v + m21 a * _y v + m22 a * _z v + m23 a) / mat4_divisor a v).
Proof.
  intros Hd. unfold mat4_apply. cbn zeta.
  match goal with |- context [@reqb Q ?o ?d ?z] => destruct (@reqb Q o d z) eqn:E end.
  - apply Q_reqb_eq in E. contradiction.
  - reflexivity.
Qed.

(** X24: In exact arithmetic, transforming a vector by the product [a*m]
    is transforming it by [m] and then by [a], provided the homogeneous
    divisor of [m] and that of [a*m] at the vector are not zero. *)
Theorem mat4_apply_composes (a m : mat4 Q) (v : vec3 Q) :
  ~ mat4_divisor m v == 0 ->
  ~ mat4_divisor (mat4_mul a m) v == 0 ->
  vec_eq (mat4_apply (mat4_mul a m) v) (mat4_apply a (mat4_apply m v)).
Proof.
  intros Hm Ham.
  assert (Ha : ~ mat4_divisor a (mat4_apply m v) == 0).
  { rewrite (mat4_apply_nz m v Hm). intros E. apply Ham.
    transitivity (mat4_divisor a
      (Vec3 ((m00 m * _x v + m01 m * _y v + m02 m * _z v + m03 m) / mat4_divisor m v)
            ((m10 m * _x v + m11 m * _y v + m12 m * _z v + m13 m) / mat4_divisor m v)
            ((m20 m * _x v + m21 m * _y v + m22 m * _z v + m23 m) / mat4_divisor m v))
      * mat4_divisor m v); [|rewrite E; ring].
    destruct a, m, v as [x y z]. revert Hm. apply_unfold. intros Hm. field. exact Hm. }
  rewrite (mat4_apply_nz _ _ Ham), (mat4_apply_nz a _ Ha).
  revert Ha. rewrite (mat4_apply_nz m v Hm). revert Hm Ham.
  destruct a, m, v as [x y z]. apply_unfold. intros Hm Ham Ha.
  repeat split; field; (split; [exact Hm | intros E; apply Ham; rewrite <- E; ring]).
Qed.

Lemma lerpXi_lerp (val a b : Q) :
  ~ a == b -> lerp (lerpXi val a b) a b == val.
Proof.
  intros Hne. unfold lerp, lerpXi. q_case (a =? b)%re; [contradiction|].
  q_ops. field. intros H. apply Hne. lra.
Qed.

Lemma lerp_lerpXi (t a b : Q) :
  ~ a == b -> lerpXi (lerp t a b) a b == t.
Proof.
  intros Hne. unfold lerp, lerpXi. q_case (a =? b)%re; [contradiction|].
  q_ops. field. intros H. apply Hne. lra.
Qed.

Lemma lerpXi_range (val a b : Q) :
  a < b -> a <= val <= b -> 0 <= lerpXi val a b <= 1.
Proof.
  intros Hlt Hv. unfold lerpXi. q_case (a =? b)%re; [lra|]. q_ops.
  assert (Hpos : 0 < b - a) by lra.
  split.
  - apply Qle_shift_div_l; [exact Hpos | lra].
  - apply Qle_shift_div_r; [exact Hpos | lra].
Qed.

(** X16: In exact arithmetic [calculateTetEdgeIntersect(val,a,b)] returns
    a [xi] in [0,1] with [lerp(xi,a,b) = val] when [val] lies between distinct
    [a] and [b] in either order, [-1] when [val] is strictly outside, and
    [val] itself when [a = b = val]; [calculateTetValueIntersects] lists the
    edges ab, ac, ad, bc, bd, cd; [lerp] and [lerpXi] invert one another when
    [a] and [b] differ. *)
Theorem calculateTetEdgeIntersect_exact (val a b : Q) :
  let r := calculateTetEdgeIntersect val a b in
  (a < b -> a <= val <= b -> 0 <= r <= 1 /\ lerp r a b == val)
  /\ (b < a -> b <= val <= a -> 0 <= r <= 1 /\ lerp r a b == val)
  /\ (val < a /\ val < b \/ a < val /\ b < val -> r = - (1))
  /\ (a == b -> val == a -> r = val)
  /\ (forall c d : Q,
        calculateTetValueIntersects val a b c d
        = [ calculateTetEdgeIntersect val a b; calculateTetEdgeIntersect val a c;
            calculateTetEdgeIntersect val a d; calculateTetEdgeIntersect val b c;
            calculateTetEdgeIntersect val b d; calculateTetEdgeIntersect val c d ])
  /\ (~ a == b -> lerp (lerpXi val a b) a b == val /\ lerpXi (lerp val a b) a b == val).
Proof.
  cbn zeta. unfold calculateTetEdgeIntersect.
  split; [|split; [|split; [|split; [|split]]]].
  - intros Hlt Hv.
    q_case (a <=? val)%re; [|lra]. q_case (val <=? b)%re; [|lra]. cbn [andb].
    split; [by apply lerpXi_range|]. apply lerpXi_lerp. lra.
  - intros Hlt Hv.
    q_case (a <=? val)%re; q_case (val <=? b)%re; cbn [andb]; try lra.
    all: q_case (b <=? val)%re; [|lra]; q_case (val <=? a)%re; [|lra]; cbn [andb].
    all: pose proof (lerpXi_range val b a Hlt Hv) as Hr;
         pose proof (lerpXi_lerp val b a ltac:(lra)) as Hl;
         unfold lerp in *; q_ops; split; [lra|];
         (etransitivity; [|exact Hl]); ring.
  - intros Hcases.
    q_case (a <=? val)%re; q_case (val <=? b)%re; cbn [andb]; try lra.
    all: q_case (b <=? val)%re; q_case (val <=? a)%re; cbn [andb]; try lra; reflexivity.
  - intros Hab Hv.
    q_case (a <=? val)%re; [|lra]. q_case (val <=? b)%re; [|lra]. cbn [andb].
    unfold lerpXi. q_case (a =? b)%re; [reflexivity | contradiction].
  - reflexivity.
  - intros Hne. split; [by apply lerpXi_lerp | by apply lerp_lerpXi].
Qed.

(** X17: In exact arithmetic the four coefficients of
    [catmullRomSpline(t)] sum to 1 for every [t]; they are (1,0,0,0) at [t=0]
    and (0,1,0,0) at [t=1]. *)
Theorem catmullRomSpline_partition (t : Q) :
  rsum (catmullRomSpline t) == 1
  /\ length (catmullRomSpline t) = 4%nat
  /\ Forall2 Qeq (catmullRomSpline 0) [1; 0; 0; 0]
  /\ Forall2 Qeq (catmullRomSpline 1) [0; 1; 0; 0].
Proof.
  split; [|split; [reflexivity|split]].
  - cbv [rsum catmullRomSpline foldl two half]. q_ops. field.
  - repeat constructor; vm_compute; reflexivity.
  - repeat constructor; vm_compute; reflexivity.
Qed.

Lemma Q_min_le (a b : Q) : _min a b <= a /\ _min a b <= b.
Proof. unfold _min. q_case (a <? b)%re; lra. Qed.
Lemma Q_max_ge (a b : Q) : a <= _max a b /\ b <= _max a b.
Proof. unfold _max. q_case (a >? b)%re; lra. Qed.

Lemma Q_min4_le (a b c d : Q) :
  let m := _min (_min (_min a b) c) d in m <= a /\ m <= b /\ m <= c /\ m <= d.
Proof.
  cbn zeta. pose proof (Q_min_le a b). pose proof (Q_min_le (_min a b) c).
  pose proof (Q_min_le (_min (_min a b) c) d). lra.
Qed.
Lemma Q_max4_ge (a b c d : Q) :
  let m := _max (_max (_max a b) c) d in a <= m /\ b <= m /\ c <= m /\ d <= m.
Proof.
  cbn zeta. pose proof (Q_max_ge a b). pose proof (Q_max_ge (_max a b) c).
  pose proof (Q_max_ge (_max (_max a b) c) d). lra.
Qed.

(** A convex combination of four numbers lies between bounds of them. *)
Lemma convex4_bounds (lo hi x1 x2 x3 x4 c2 c3 c4 : Q) :
  0 <= c2 -> 0 <= c3 -> 0 <= c4 -> c2 + c3 + c4 <= 1 ->
  lo <= x1 <= hi -> lo <= x2 <= hi -> lo <= x3 <= hi -> lo <= x4 <= hi ->
  lo <= x1 * (1 - c2 - c3 - c4) + x2 * c2 + x3 * c3 + x4 * c4 <= hi.
Proof.
  intros H2 H3 H4 Hs Hx1 Hx2 Hx3 Hx4.
  assert (A1 : 0 <= (x1 - lo) * (1 - c2 - c3 - c4)) by (apply Qmult_le_0_compat; lra).
  assert (A2 : 0 <= (x2 - lo) * c2) by (apply Qmult_le_0_compat; lra).
  assert (A3 : 0 <= (x3 - lo) * c3) by (apply Qmult_le_0_compat; lra).
  assert (A4 : 0 <= (x4 - lo) * c4) by (apply Qmult_le_0_compat; lra).
  assert (B1 : 0 <= (hi - x1) * (1 - c2 - c3 - c4)) by (apply Qmult_le_0_compat; lra).
  assert (B2 : 0 <= (hi - x2) * c2) by (apply Qmult_le_0_compat; lra).
  assert (B3 : 0 <= (hi - x3) * c3) by (apply Qmult_le_0_compat; lra).
  assert (B4 : 0 <= (hi - x4) * c4) by (apply Qmult_le_0_compat; lra).
  split; lra.
Qed.

Lemma tetPoint_inAABB (n1 n2 n3 n4 xi : vec3 Q) :
  0 <= _x xi -> 0 <= _y xi -> 0 <= _z xi -> _x xi + _y xi + _z xi <= 1 ->
  inAABB (tetPoint n1 n2 n3 n4 xi)
         (setMinVals (setMinVals (setMinVals n1 n2) n3) n4)
         (setMaxVals (setMaxVals (setMaxVals n1 n2) n3) n4) = true.
Proof.
  intros Hx Hy Hz Hs.
  destruct n1 as [x1 y1 z1], n2 as [x2 y2 z2], n3 as [x3 y3 z3], n4 as [x4 y4 z4],
           xi as [a b c].
  cbn [_x _y _z] in *.
  pose proof (Q_min4_le x1 x2 x3 x4) as Hmx. pose proof (Q_max4_ge x1 x2 x3 x4) as HMx.
  pose proof (Q_min4_le y1 y2 y3 y4) as Hmy. pose proof (Q_max4_ge y1 y2 y3 y4) as HMy.
  pose proof (Q_min4_le z1 z2 z3 z4) as Hmz. pose proof (Q_max4_ge z1 z2 z3 z4) as HMz.
  cbn zeta in *.
  unfold inAABB, vgt, vlt, tetPoint, setMinVals, setMaxVals, basis_Tet1NL, at_r.
  cbn [_x _y _z vadd vscale nth].
  set (mx := _min (_min (_min x1 x2) x3) x4) in *.
  set (Mx := _max (_max (_max x1 x2) x3) x4) in *.
  set (my := _min (_min (_min y1 y2) y3) y4) in *.
  set (My := _max (_max (_max y1 y2) y3) y4) in *.
  set (mz := _min (_min (_min z1 z2) z3) z4) in *.
  set (Mz := _max (_max (_max z1 z2) z3) z4) in *.
  pose proof (convex4_bounds mx Mx x1 x2 x3 x4 a b c Hx Hy Hz Hs) as Cx.
  pose proof (convex4_bounds my My y1 y2 y3 y4 a b c Hx Hy Hz Hs) as Cy.
  pose proof (convex4_bounds mz Mz z1 z2 z3 z4 a b c Hx Hy Hz Hs) as Cz.
  specialize (Cx ltac:(lra) ltac:(lra) ltac:(lra) ltac:(lra)).
  specialize (Cy ltac:(lra) ltac:(lra) ltac:(lra) ltac:(lra)).
  specialize (Cz ltac:(lra) ltac:(lra) ltac:(lra) ltac:(lra)).
  assert (Heps : 0 < dEPSILON (real:=Q)) by reflexivity.
  repeat (apply andb_true_intro; split); apply Q_rltb_lt; q_ops; lra.
Qed.

Ltac tet_unfold :=
  cbv [pointSearchLinTet tetPoint tetDet basis_Tet1NL at_r nth vec_eq vadd vscale vsub
       _x _y _z] in *.

(** X18: In exact arithmetic, for a tetrahedron that is not degenerate,
    [pointSearchLinTet] returns the [xi] of every point built from a [xi] of
    the reference tetrahedron, and [pointInTet] accepts that point; for every
    point in the bounding box of the nodes the [xi] returned maps back to the
    point; outside that box the result is (-1,-1,-1) and [pointInTet] is
    false. *)
Theorem pointSearchLinTet_inverts_tetPoint (n1 n2 n3 n4 : vec3 Q) :
  ~ tetDet n1 n2 n3 n4 == 0 ->
  (forall xi : vec3 Q,
     0 <= _x xi -> 0 <= _y xi -> 0 <= _z xi -> _x xi + _y xi + _z xi <= 1 ->
     vec_eq (pointSearchLinTet (tetPoint n1 n2 n3 n4 xi) n1 n2 n3 n4) xi
     /\ pointInTet (tetPoint n1 n2 n3 n4 xi) n1 n2 n3 n4 = true)
  /\ (forall pt : vec3 Q,
        inAABB pt (setMinVals (setMinVals (setMinVals n1 n2) n3) n4)
                  (setMaxVals (setMaxVals (setMaxVals n1 n2) n3) n4) = true ->
        vec_eq (tetPoint n1 n2 n3 n4 (pointSearchLinTet pt n1 n2 n3 n4)) pt)
  /\ (forall pt : vec3 Q,
        inAABB pt (setMinVals (setMinVals (setMinVals n1 n2) n3) n4)
                  (setMaxVals (setMaxVals (setMaxVals n1 n2) n3) n4) = false ->
        pointSearchLinTet pt n1 n2 n3 n4 = vec3_of (- (1))
        /\ pointInTet pt n1 n2 n3 n4 = false).
Proof.
  intros Hdet.
  assert (Hinv : forall xi : vec3 Q,
     0 <= _x xi -> 0 <= _y xi -> 0 <= _z xi -> _x xi + _y xi + _z xi <= 1 ->
     vec_eq (pointSearchLinTet (tetPoint n1 n2 n3 n4 xi) n1 n2 n3 n4) xi).
  { intros xi Hx Hy Hz Hs.
    pose proof (tetPoint_inAABB n1 n2 n3 n4 xi Hx Hy Hz Hs) as Hbox.
    unfold pointSearchLinTet. rewrite Hbox. cbn [negb].
    destruct n1 as [x1 y1 z1], n2 as [x2 y2 z2], n3 as [x3 y3 z3], n4 as [x4 y4 z4],
             xi as [a b c].
    clear Hbox. tet_unfold. q_ops. repeat split; field; exact Hdet. }
  split; [|split].
  - intros xi Hx Hy Hz Hs. split; [by apply Hinv|].
    destruct (Hinv xi Hx Hy Hz Hs) as (Ex & Ey & Ez).
    unfold pointInTet.
    set (r := pointSearchLinTet (tetPoint n1 n2 n3 n4 xi) n1 n2 n3 n4) in *.
    unfold isInUnitCube.
    repeat (apply andb_true_intro; split); apply Q_rleb_le; q_ops; lra.
  - intros pt Hbox. unfold pointSearchLinTet at 1. rewrite Hbox. cbn [negb].
    destruct n1 as [x1 y1 z1], n2 as [x2 y2 z2], n3 as [x3 y3 z3], n4 as [x4 y4 z4],
             pt as [x y z].
    clear Hbox. tet_unfold. q_ops. repeat split; field; exact Hdet.
  - intros pt Hbox. unfold pointInTet, pointSearchLinTet. rewrite Hbox. cbn [negb].
    split; reflexivity.
Qed.

Ltac vec_unfold :=
  cbv [planeDist planeProject onPlane distTo intersectsPlane getPosition equalsEpsilon
       vec_eq lenSq dot cross vadd vsub vscale vneg _x _y _z pos dir] in *.

(** X19: In exact arithmetic, when the ray is not parallel to the plane,
    the point of the ray at [intersectsPlane] lies on the plane, no other
    parameter does, and the plane distance along the ray is affine in the
    parameter. *)
Theorem intersectsPlane_hits_plane (r : Ray Q) (planepos planenorm : vec3 Q) :
  ~ dot planenorm (dir r) == 0 ->
  let t := intersectsPlane r planepos planenorm in
  planeDist (getPosition r t) planepos planenorm == 0
  /\ onPlane (getPosition r t) planepos planenorm = true
  /\ (forall s : Q, planeDist (getPosition r s) planepos planenorm == 0 -> s == t)
  /\ (forall s : Q,
        planeDist (getPosition r s) planepos planenorm
        == planeDist (pos r) planepos planenorm + s * dot planenorm (dir r)).
Proof.
  intros Hnd. cbn zeta.
  assert (Hzero : planeDist (getPosition r (intersectsPlane r planepos planenorm))
                            planepos planenorm == 0).
  { destruct r as [[px py pz] [dx dy dz] ? ? ? ?], planepos as [qx qy qz],
             planenorm as [nx ny nz]. vec_unfold. q_ops. field. exact Hnd. }
  assert (Hlin : forall s : Q,
        planeDist (getPosition r s) planepos planenorm
        == planeDist (pos r) planepos planenorm + s * dot planenorm (dir r)).
  { intros s. destruct r as [[px py pz] [dx dy dz] ? ? ? ?], planepos as [qx qy qz],
             planenorm as [nx ny nz]. vec_unfold. q_ops. ring. }
  split; [exact Hzero|]. split; [|split; [|exact Hlin]].
  - unfold onPlane, equalsEpsilon. apply Q_rleb_le. q_ops. rewrite Hzero.
    vm_compute. discriminate.
  - intros s Hs. rewrite Hlin in Hs, Hzero.
    set (t := intersectsPlane r planepos planenorm) in *.
    set (d := dot planenorm (dir r)) in *.
    set (p0 := planeDist (pos r) planepos planenorm) in *.
    assert (Hd : (s - t) * d == 0) by lra.
    apply Qmult_integral in Hd as [Hd | Hd]; [lra | contradiction].
Qed.

(** X20: In exact arithmetic, for a ray with a direction of unit length,
    [getPosition(distTo(v))] is the foot of the perpendicular from [v]: the
    offset from it to [v] is orthogonal to the direction,
    [distTo(getPosition(t)) = t], and the squared distance from [v] to the
    point at [t] is that to the foot plus [(t - distTo(v))^2]. *)
Theorem distTo_projects (r : Ray Q) (v : vec3 Q) :
  lenSq (dir r) == 1 ->
  let foot := getPosition r (distTo r v) in
  dot (dir r) (vsub v foot) == 0
  /\ distTo r foot == distTo r v
  /\ (forall t : Q, distTo r (getPosition r t) == t)
  /\ (forall t : Q,
        lenSq (vsub v (getPosition r t))
        == lenSq (vsub v foot) + (t - distTo r v) * (t - distTo r v)).
Proof.
  intros Hunit. cbn zeta.
  destruct r as [[px py pz] [dx dy dz] ? ? ? ?], v as [x y z]. vec_unfold. q_ops.
  assert (H1 : forall a : Q, a * (dx * dx + dy * dy + dz * dz) == a) by (intros a; rewrite Hunit; ring).
  split; [|split; [|split]].
  - transitivity ((dx * (x - px) + dy * (y - py) + dz * (z - pz))
                  - (dx * (x - px) + dy * (y - py) + dz * (z - pz))
                    * (dx * dx + dy * dy + dz * dz)).
    + ring.
    + rewrite H1. ring.
  - transitivity ((dx * (x - px) + dy * (y - py) + dz * (z - pz)) * (dx * dx + dy * dy + dz * dz)).
    + ring.
    + apply H1.
  - intros t. transitivity (t * (dx * dx + dy * dy + dz * dz)); [ring | apply H1].
  - intros t.
    set (k := dx * (x - px) + dy * (y - py) + dz * (z - pz)).
    transitivity ((x - px) * (x - px) + (y - py) * (y - py) + (z - pz) * (z - pz)
                  - (1 + 1) * t * k + t * t * (dx * dx + dy * dy + dz * dz)).
    { unfold k. ring. }
    transitivity ((x - px) * (x - px) + (y - py) * (y - py) + (z - pz) * (z - pz)
                  - (1 + 1) * k * k + k * k * (dx * dx + dy * dy + dz * dz)
                  + (t - k) * (t - k)).
    { rewrite !H1. ring. }
    unfold k. ring.
Qed.

Lemma Qinv_pos_mul (d a s : Q) : 0 < d -> (a * (1 / d) <= s <-> a <= d * s).
Proof.
  intros Hd. assert (Hne : ~ d == 0) by lra.
  assert (E : a * (1 / d) * d == a) by (field; exact Hne).
  split; intros H.
  - assert (a * (1 / d) * d <= s * d) by (apply Qmult_le_compat_r; lra). lra.
  - apply (Qmult_le_r _ _ d Hd). lra.
Qed.

Lemma Qinv_pos_mul' (d a s : Q) : 0 < d -> (s <= a * (1 / d) <-> d * s <= a).
Proof.
  intros Hd. assert (Hne : ~ d == 0) by lra.
  assert (E : a * (1 / d) * d == a) by (field; exact Hne).
  split; intros H.
  - assert (s * d <= a * (1 / d) * d) by (apply Qmult_le_compat_r; lra). lra.
  - apply (Qmult_le_r _ _ d Hd). lra.
Qed.

Lemma Qinv_neg_mul (d a s : Q) : d < 0 -> (a * (1 / d) <= s <-> d * s <= a).
Proof.
  intros Hd. assert (Hne : ~ d == 0) by lra.
  assert (E : a * (1 / d) * (- d) == - a) by (field; exact Hne).
  split; intros H.
  - assert (a * (1 / d) * (- d) <= s * (- d)) by (apply Qmult_le_compat_r; lra). lra.
  - apply (Qmult_le_r _ _ (- d)); [lra|]. lra.
Qed.

Lemma Qinv_neg_mul' (d a s : Q) : d < 0 -> (s <= a * (1 / d) <-> a <= d * s).
Proof.
  intros Hd. assert (Hne : ~ d == 0) by lra.
  assert (E : a * (1 / d) * (- d) == - a) by (field; exact Hne).
  split; intros H.
  - assert (s * (- d) <= a * (1 / d) * (- d)) by (apply Qmult_le_compat_r; lra). lra.
  - apply (Qmult_le_r _ _ (- d)); [lra|]. lra.
Qed.

Lemma Qinv_sign (d : Q) : ~ d == 0 -> (1 / d < 0 <-> d < 0).
Proof.
  intros Hne. assert (E : 1 / d * d == 1) by (field; exact Hne).
  split; intros H.
  - destruct (Qlt_le_dec d 0) as [Hlt | Hge]; [exact Hlt|].
    assert (0 < d) by (destruct (Qle_lt_or_eq _ _ Hge) as [? | Heq]; [done | by symmetry in Heq]).
    assert (1 / d * d <= 0 * d) by (apply Qmult_le_compat_r; lra). lra.
  - destruct (Qlt_le_dec (1 / d) 0) as [Hlt | Hge]; [exact Hlt|].
    assert ((1 / d) * (- d) >= 0) by (apply Qmult_le_0_compat; lra). lra.
Qed.

(** One axis of the slab test: with the stored inverse and sign of a
    non-zero direction component, the two products bound exactly the
    parameters at which the coordinate lies between the faces. *)
Lemma slab_axis (f : vec3 Q -> Q) (d p i : Q) (sgn : bool) (minv maxv : vec3 Q) (s : Q) :
  ~ d == 0 ->
  i = (if d =? rzero then rzero else rone / d)%re ->
  sgn = (i <? rzero)%re ->
  ((f (if sgn then maxv else minv) - p) * i)%re <= s
    /\ s <= ((f (if sgn then minv else maxv) - p) * i)%re
  <-> f minv <= p + d * s <= f maxv.
Proof.
  intros Hne Hi Hs.
  rewrite (proj2 (Q_reqb_neq d (@rzero Q Q_ops)) Hne) in Hi. subst i sgn.
  q_case (@rltb Q Q_ops (rone / d)%re rzero); q_ops.
  - apply (proj1 (Qinv_sign d Hne)) in E.
    pose proof (Qinv_neg_mul d (f maxv - p) s E). pose proof (Qinv_neg_mul' d (f minv - p) s E).
    split; intros [? ?]; split.
    + apply H0 in H2. lra.
    + apply H in H1. lra.
    + apply H. lra.
    + apply H0. lra.
  - assert (Hpos : 0 < d).
    { destruct (Qlt_le_dec 0 d) as [? | Hle]; [done|].
      assert (d < 0) by (destruct (Qle_lt_or_eq _ _ Hle) as [? | Heq]; [done | contradiction]).
      apply (proj2 (Qinv_sign d Hne)) in H. lra. }
    pose proof (Qinv_pos_mul d (f minv - p) s Hpos). pose proof (Qinv_pos_mul' d (f maxv - p) s Hpos).
    split; intros [? ?]; split.
    + apply H in H1. lra.
    + apply H0 in H2. lra.
    + apply H. lra.
    + apply H0. lra.
Qed.

(** Decide the comparisons between named bounds, innermost first. *)
Ltac slab_cases :=
  repeat match goal with
  | |- context [@rltb Q Q_ops ?a ?b] =>
      is_var a; is_var b;
      let E := fresh "C" in
      destruct (@rltb Q Q_ops a b) eqn:E;
      [apply Q_rltb_lt in E | apply Q_rltb_false in E];
      cbn [orb fst snd]
  end.

(** X21: In exact arithmetic, for a ray holding the inverse direction and
    signs that [setDirection] stores and with no zero direction component,
    [intersectsAABB] returns (-1,-1) or a pair [(tmin,tmax)] such that every
    point of the ray with parameter in [[tmin,tmax]] is in the box; and when
    some point of the ray is in the box, the pair returned is such an interval
    and holds that point's parameter, so a ray starting inside the box gets an
    interval around 0. *)
Theorem intersectsAABB_slab (r : Ray Q) (minv maxv : vec3 Q) :
  ray_invariant r ->
  ~ _x (dir r) == 0 -> ~ _y (dir r) == 0 -> ~ _z (dir r) == 0 ->
  let res := intersectsAABB r minv maxv in
  (res = (- 1, - 1)
   \/ forall s, fst res <= s <= snd res -> in_box (getPosition r s) minv maxv)
  /\ (forall t, in_box (getPosition r t) minv maxv ->
      fst res <= t <= snd res
      /\ forall s, fst res <= s <= snd res -> in_box (getPosition r s) minv maxv).
Proof.
  intros (Hinv & Hsx & Hsy & Hsz) Hx Hy Hz.
  destruct r as [[px py pz] [dx dy dz] [ix iy iz] sx sy sz].
  cbn [pos dir invdir signx signy signz _x _y _z] in *.
  unfold inv in Hinv. cbn [_x _y _z] in Hinv.
  injection Hinv as Hix Hiy Hiz.
  pose proof (fun s => slab_axis _x dx px ix sx minv maxv s Hx Hix Hsx) as Ax.
  pose proof (fun s => slab_axis _y dy py iy sy minv maxv s Hy Hiy Hsy) as Ay.
  pose proof (fun s => slab_axis _z dz pz iz sz minv maxv s Hz Hiz Hsz) as Az.
  unfold intersectsAABB, in_box, getPosition.
  cbn [pos dir invdir signx signy signz vadd vscale _x _y _z].
  set (txmin := ((_x (if sx then maxv else minv) - px) * ix)%re) in *.
  set (txmax := ((_x (if sx then minv else maxv) - px) * ix)%re) in *.
  set (tymin := ((_y (if sy then maxv else minv) - py) * iy)%re) in *.
  set (tymax := ((_y (if sy then minv else maxv) - py) * iy)%re) in *.
  set (tzmin := ((_z (if sz then maxv else minv) - pz) * iz)%re) in *.
  set (tzmax := ((_z (if sz then minv else maxv) - pz) * iz)%re) in *.
  clearbody txmin txmax tymin tymax tzmin tzmax.
  clear Hix Hiy Hiz Hsx Hsy Hsz.
  assert (Hin : forall lo hi : Q,
    txmin <= lo -> tymin <= lo -> tzmin <= lo -> hi <= txmax -> hi <= tymax -> hi <= tzmax ->
    forall s, lo <= s <= hi ->
      (_x minv <= (px + dx * s)%re <= _x maxv)
      /\ (_y minv <= (py + dy * s)%re <= _y maxv)
      /\ (_z minv <= (pz + dz * s)%re <= _z maxv)).
  { intros lo hi ? ? ? ? ? ? s Hs. q_ops.
    split; [apply Ax; lra | split; [apply Ay; lra | apply Az; lra]]. }
  assert (Hout : forall t,
      (_x minv <= (px + dx * t)%re <= _x maxv)
      /\ (_y minv <= (py + dy * t)%re <= _y maxv)
      /\ (_z minv <= (pz + dz * t)%re <= _z maxv) ->
      (txmin <= t <= txmax) /\ (tymin <= t <= tymax) /\ (tzmin <= t <= tzmax)).
  { intros t (Hbx & Hby & Hbz). q_ops.
    apply Ax in Hbx. apply Ay in Hby. apply Az in Hbz. tauto. }
  clear Ax Ay Az.
  slab_cases.
  all: split;
    [ first [ left; reflexivity
            | right; intros s Hs; cbn [fst snd] in Hs;
              refine (Hin _ _ _ _ _ _ _ _ s Hs); lra ]
    | intros t Ht; apply Hout in Ht; destruct Ht as (Htx & Hty & Htz); cbn [fst snd];
      first [ exfalso; lra
            | split; [lra | intros s Hs; refine (Hin _ _ _ _ _ _ _ _ s Hs); lra] ] ].
Qed.

Lemma Qsign_cases (A B : Q) : A * B < 0 -> (0 < A /\ B < 0) \/ (A < 0 /\ 0 < B).
Proof.
  intros H.
  destruct (Qlt_le_dec 0 A) as [HA | HA]; destruct (Qlt_le_dec 0 B) as [HB | HB].
  - assert (0 <= A * B) by (apply Qmult_le_0_compat; lra). lra.
  - destruct (Qle_lt_or_eq _ _ HB) as [? | E]; [left; split; done|].
    rewrite E in H. exfalso. revert H. rewrite Qmult_0_r. lra.
  - destruct (Qle_lt_or_eq _ _ HA) as [? | E]; [right; split; done|].
    rewrite E in H. exfalso. revert H. rewrite Qmult_0_l. lra.
  - assert (0 <= (- A) * (- B)) by (apply Qmult_le_0_compat; lra).
    assert ((- A) * (- B) == A * B) by ring. lra.
Qed.

Lemma slice_scalar (A B : Q) :
  A * B < 0 ->
  let xi := A / (Qabs A + Qabs B) in
  - (1) < xi < 1 /\ ~ xi == 0 /\ A + (B - A) * Qabs xi == 0 /\ (0 < xi <-> 0 < A).
Proof.
  intros H. cbn zeta. destruct (Qsign_cases A B H) as [[HA HB] | [HA HB]].
  - assert (EA : Qabs A == A) by (apply Qabs_pos; lra).
    assert (EB : Qabs B == - B) by (apply Qabs_neg; lra).
    rewrite EA, EB.
    assert (Hpos : 0 < A + - B) by lra.
    assert (Hxi : 0 < A / (A + - B)) by (apply Qlt_shift_div_l; lra).
    assert (Hxi1 : A / (A + - B) < 1) by (apply Qlt_shift_div_r; lra).
    assert (Exi : Qabs (A / (A + - B)) == A / (A + - B)) by (apply Qabs_pos; lra).
    rewrite Exi. split; [lra|]. split; [lra|]. split; [field; lra | tauto].
  - assert (EA : Qabs A == - A) by (apply Qabs_neg; lra).
    assert (EB : Qabs B == B) by (apply Qabs_pos; lra).
    rewrite EA, EB.
    assert (Hpos : 0 < - A + B) by lra.
    assert (Hxi : 0 < (- A) / (- A + B)) by (apply Qlt_shift_div_l; lra).
    assert (Hxi1 : (- A) / (- A + B) < 1) by (apply Qlt_shift_div_r; lra).
    assert (E : A / (- A + B) == - ((- A) / (- A + B))) by (field; lra).
    assert (Exi : Qabs (A / (- A + B)) == (- A) / (- A + B)).
    { rewrite E, Qabs_opp. apply Qabs_pos. lra. }
    rewrite Exi. split; [lra|]. split; [lra|]. split; [field; lra | lra].
Qed.

Lemma planeDist_affine (planept planenorm a b : vec3 Q) (t : Q) :
  planeDist (vadd a (vscale (vsub b a) t)) planept planenorm
  == planeDist a planept planenorm
     + (planeDist b planept planenorm - planeDist a planept planenorm) * t.
Proof.
  destruct planept, planenorm, a, b.
  cbv [planeDist dot vadd vscale vsub _x _y _z radd rsub rmul Q_ops]. ring.
Qed.

(** X25: In exact arithmetic [calculateLinePlaneSlice] returns a value
    strictly between -1 and 1; it is 0 when [a == b] or when the plane
    distances of [a] and [b] do not have opposite signs; when they have, it is
    [adist/(|adist|+|bdist|)], not zero and with the sign of [adist], and the
    point of the segment from [a] to [b] at its absolute value lies on the
    plane. *)
Theorem calculateLinePlaneSlice_crossing (planept planenorm a b : vec3 Q) :
  let adist := planeDist a planept planenorm in
  let bdist := planeDist b planept planenorm in
  let xi := calculateLinePlaneSlice planept planenorm a b in
  - (1) < xi < 1
  /\ (veq a b = true -> xi = 0)
  /\ (0 <= adist * bdist -> xi = 0)
  /\ (veq a b = false -> adist * bdist < 0 ->
      xi = adist / (Qabs adist + Qabs bdist)
      /\ ~ xi == 0
      /\ (0 < xi <-> 0 < adist)
      /\ planeDist (vadd a (vscale (vsub b a) (Qabs xi))) planept planenorm == 0).
Proof.
  cbn zeta. unfold calculateLinePlaneSlice.
  set (A := planeDist a planept planenorm). set (B := planeDist b planept planenorm).
  assert (Hx : forall t, planeDist (vadd a (vscale (vsub b a) t)) planept planenorm
                          == A + (B - A) * t) by (intros t; apply planeDist_affine).
  clearbody A B.
  assert (Hcross : A * B < 0 ->
    ((A =? B)%re || (A >=? rzero)%re && (B >=? rzero)%re
       || (A <=? rzero)%re && (B <=? rzero)%re) = false
    /\ (fabs A + fabs B >? rzero)%re = true).
  { intros H. destruct (slice_scalar A B H) as (_ & Hne & _ & _).
    destruct (Qsign_cases A B H) as [[HA HB] | [HA HB]].
    - q_case (A =? B)%re; [q_ops; lra|].
      q_case (A >=? rzero)%re; q_case (B >=? rzero)%re;
      q_case (A <=? rzero)%re; q_case (B <=? rzero)%re; q_ops; cbn [orb andb]; try lra.
      all: split; [reflexivity|]; apply Q_rltb_lt; q_ops;
        pose proof (Qabs_pos A ltac:(lra)); pose proof (Qabs_neg B ltac:(lra)); lra.
    - q_case (A =? B)%re; [q_ops; lra|].
      q_case (A >=? rzero)%re; q_case (B >=? rzero)%re;
      q_case (A <=? rzero)%re; q_case (B <=? rzero)%re; q_ops; cbn [orb andb]; try lra.
      all: split; [reflexivity|]; apply Q_rltb_lt; q_ops;
        pose proof (Qabs_neg A ltac:(lra)); pose proof (Qabs_pos B ltac:(lra)); lra. }
  assert (Hsame : 0 <= A * B ->
    ((A =? B)%re || (A >=? rzero)%re && (B >=? rzero)%re
       || (A <=? rzero)%re && (B <=? rzero)%re) = true).
  { intros H.
    q_case (A =? B)%re; [reflexivity|].
    q_case (A >=? rzero)%re; q_case (B >=? rzero)%re;
    q_case (A <=? rzero)%re; q_case (B <=? rzero)%re; q_ops; cbn [orb andb];
      try reflexivity; exfalso.
    all: first [ assert (0 < A * (- B)) by (apply Qmult_lt_0_compat; lra);
                 assert (A * (- B) == - (A * B)) by ring; lra
               | assert (0 < (- A) * B) by (apply Qmult_lt_0_compat; lra);
                 assert ((- A) * B == - (A * B)) by ring; lra
               | lra ]. }
  split; [|split; [|split]].
  - destruct (veq a b); [q_ops; lra|].
    destruct (Qlt_le_dec (A * B) 0) as [H | H].
    + destruct (Hcross H) as [-> ->]. q_ops. apply (slice_scalar A B H).
    + rewrite (Hsame H). q_ops. lra.
  - intros ->. reflexivity.
  - intros H. destruct (veq a b); [reflexivity|]. rewrite (Hsame H). reflexivity.
  - intros -> H. destruct (Hcross H) as [-> ->].
    destruct (slice_scalar A B H) as (_ & Hne & Hz & Hs). q_ops.
    split; [reflexivity|]. split; [exact Hne|]. split; [exact Hs|].
    rewrite Hx. exact Hz.
Qed.

Lemma vcmp_cases (a v : vec3 Q) :
  (vcmp a v = (-1)%Z /\ lex_lt a v)
  \/ (vcmp a v = 1%Z /\ lex_lt v a)
  \/ (vcmp a v = 0%Z /\ vec_eq a v).
Proof.
  destruct a as [ax ay az], v as [vx vy vz]. unfold vcmp, lex_lt, vec_eq. cbn [_x _y _z].
  q_case (az <? vz)%re; [left; split; [reflexivity | lra]|].
  q_case (az >? vz)%re; [right; left; split; [reflexivity | lra]|].
  q_case (ay <? vy)%re; [left; split; [reflexivity | right; split; lra]|].
  q_case (ay >? vy)%re; [right; left; split; [reflexivity | right; split; lra]|].
  q_case (ax <? vx)%re; [left; split; [reflexivity | right; split; [lra | right; split; lra]]|].
  q_case (ax >? vx)%re; [right; left; split; [reflexivity | right; split; [lra | right; split; lra]]|].
  right; right. split; [reflexivity|]. repeat split; lra.
Qed.

Lemma lex_lt_irrefl (a v : vec3 Q) : lex_lt a v -> lex_lt v a -> False.
Proof. unfold lex_lt. intros H1 H2. lra. Qed.

Lemma lex_lt_not_eq (a v : vec3 Q) : lex_lt a v -> vec_eq a v -> False.
Proof. unfold lex_lt, vec_eq. intros H1 H2. lra. Qed.

Lemma lex_lt_trans (a b c : vec3 Q) : lex_lt a b -> lex_lt b c -> lex_lt a c.
Proof. unfold lex_lt. intros H1 H2. lra. Qed.

(** X26: In exact arithmetic [vec3::cmp] returns -1, 0 or 1; it is -1
    exactly when the first vector comes before the second in the order by Z,
    then Y, then X, and 0 exactly when the components are equal; swapping the
    arguments negates the result, and the order is transitive. *)
Theorem vcmp_total_order (a b c : vec3 Q) :
  (vcmp a b = (-1)%Z \/ vcmp a b = 0%Z \/ vcmp a b = 1%Z)
  /\ (vcmp a b = (-1)%Z <-> lex_lt a b)
  /\ (vcmp a b = 0%Z <-> vec_eq a b)
  /\ vcmp b a = (- vcmp a b)%Z
  /\ (vcmp a b = (-1)%Z -> vcmp b c = (-1)%Z -> vcmp a c = (-1)%Z).
Proof.
  assert (Hlt : forall a b, vcmp a b = (-1)%Z <-> lex_lt a b).
  { intros u v. destruct (vcmp_cases u v) as [[E H] | [[E H] | [E H]]]; rewrite E; split;
      try done; intros H'; exfalso.
    - exact (lex_lt_irrefl _ _ H' H).
    - apply (lex_lt_not_eq _ _ H' H). }
  split; [|split; [|split; [|split]]].
  - destruct (vcmp_cases a b) as [[E _] | [[E _] | [E _]]]; rewrite E; tauto.
  - apply Hlt.
  - destruct (vcmp_cases a b) as [[E H] | [[E H] | [E H]]]; rewrite E; split;
      try done; intros H'; exfalso.
    + exact (lex_lt_not_eq _ _ H H').
    + apply (lex_lt_not_eq _ _ H). unfold vec_eq in *. lra.
  - destruct (vcmp_cases a b) as [[E H] | [[E H] | [E H]]];
      destruct (vcmp_cases b a) as [[E' H'] | [[E' H'] | [E' H']]]; rewrite E, E';
      try reflexivity; exfalso.
    all: unfold lex_lt, vec_eq in *; lra.
  - intros H1 H2. apply Hlt. apply Hlt in H1. apply Hlt in H2.
    exact (lex_lt_trans _ _ _ H1 H2).
Qed.

(** X27: In exact arithmetic the plane distance of [planeProject] is that
    of the vector times [1 - |planenorm|^2]; with a normal of unit length the
    projection lies on the plane, projecting again changes nothing and the
    squared distance moved is the squared plane distance; a vector on the
    plane is its own projection. *)
Theorem planeProject_on_plane (a planept planenorm : vec3 Q) :
  planeDist (planeProject a planept planenorm) planept planenorm
  == planeDist a planept planenorm * (1 - lenSq planenorm)
  /\ (lenSq planenorm == 1 ->
      planeDist (planeProject a planept planenorm) planept planenorm == 0
      /\ vec_eq (planeProject (planeProject a planept planenorm) planept planenorm)
                (planeProject a planept planenorm)
      /\ lenSq (vsub a (planeProject a planept planenorm))
         == planeDist a planept planenorm * planeDist a planept planenorm)
  /\ (planeDist a planept planenorm == 0 -> vec_eq (planeProject a planept planenorm) a).
Proof.
  assert (Hgen : forall a,
    planeDist (planeProject a planept planenorm) planept planenorm
    == planeDist a planept planenorm * (1 - lenSq planenorm)).
  { intros [ax ay az]. destruct planept, planenorm.
    cbv [planeProject planeDist dot lenSq vadd vscale vsub _x _y _z radd rsub rmul Q_ops]. ring. }
  assert (Hstep : forall a, vec_eq (planeProject a planept planenorm)
             (vsub a (vscale planenorm (planeDist a planept planenorm)))).
  { intros u. unfold planeProject, vec_eq. repeat split; reflexivity. }
  split; [apply Hgen|]. split.
  - intros Hn.
    assert (Hz : planeDist (planeProject a planept planenorm) planept planenorm == 0)
      by (rewrite Hgen, Hn; ring).
    split; [exact Hz|]. split.
    + unfold planeProject at 1. unfold vec_eq, vsub, vscale. cbn [_x _y _z]. q_ops.
      rewrite Hz. repeat split; ring.
    + unfold planeProject. set (k := planeDist a planept planenorm).
      transitivity (k * k * lenSq planenorm); [|rewrite Hn; ring].
      destruct a, planenorm. cbv [lenSq vsub vscale _x _y _z radd rsub rmul Q_ops]. ring.
  - intros Hz. unfold planeProject, vec_eq, vsub, vscale. cbn [_x _y _z]. q_ops.
    rewrite Hz. repeat split; ring.
Qed.
(** *** pointSearchLinHex in exact arithmetic *)

Lemma Q_min_lt_iff (a b c : Q) : _min a b < c <-> a < c \/ b < c.
Proof. unfold _min. q_case (a <? b)%re; split; intros; try tauto; destruct H; lra. Qed.
Lemma Q_max_gt_iff (a b c : Q) : c < _max a b <-> c < a \/ c < b.
Proof. unfold _max. q_case (a >? b)%re; split; intros; try tauto; destruct H; lra. Qed.

Lemma hexInterp_corner_exact (n1 n2 n3 n4 n5 n6 n7 n8 : vec3 Q) (b0 b1 b2 : bool) :
  vec_eq (hexInterp n1 n2 n3 n4 n5 n6 n7 n8 (Vec3 (cornerQ b0) (cornerQ b1) (cornerQ b2)))
         (hexNode n1 n2 n3 n4 n5 n6 n7 n8 b0 b1 b2).
Proof.
  destruct n1, n2, n3, n4, n5, n6, n7, n8.
  destruct b0, b1, b2;
    cbv [hexInterp hexNode cornerQ basis_Hex1NL at_r nth vec_eq vadd vscale _x _y _z];
    q_ops; repeat split; ring.
Qed.

Lemma Q_min8_lt (c : vec3 Q -> Q) (n1 n2 n3 n4 n5 n6 n7 n8 : vec3 Q) (v : Q) :
  (_min (_min (_min (_min (_min (_min (_min (c n1) (c n2)) (c n3)) (c n4)) (c n5)) (c n6))
              (c n7)) (c n8) <? v)%re = true
  <-> Exists (fun n => c n < v) [n1; n2; n3; n4; n5; n6; n7; n8].
Proof.
  rewrite Q_rltb_lt, !Q_min_lt_iff, !Exists_cons, Exists_nil. tauto.
Qed.
Lemma Q_max8_gt (c : vec3 Q -> Q) (n1 n2 n3 n4 n5 n6 n7 n8 : vec3 Q) (v : Q) :
  (v <? _max (_max (_max (_max (_max (_max (_max (c n1) (c n2)) (c n3)) (c n4)) (c n5)) (c n6))
              (c n7)) (c n8))%re = true
  <-> Exists (fun n => v < c n) [n1; n2; n3; n4; n5; n6; n7; n8].
Proof.
  rewrite Q_rltb_lt, !Q_max_gt_iff, !Exists_cons, Exists_nil. tauto.
Qed.

(** The bounding-box test of [pointSearchLinHex]: on every axis some node
    lies below the point and some node lies above it, each within
    [dEPSILON]. *)
Lemma hexBounds_inAABB_exact (pt n1 n2 n3 n4 n5 n6 n7 n8 : vec3 Q) :
  let bounds := hexBounds n1 n2 n3 n4 n5 n6 n7 n8 in
  let nodes := [n1; n2; n3; n4; n5; n6; n7; n8] in
  inAABB pt (fst bounds) (snd bounds) = true <->
  Forall (fun c : vec3 Q -> Q =>
            Exists (fun n => c n < c pt + dEPSILON) nodes
            /\ Exists (fun n => c pt - dEPSILON < c n) nodes) [_x; _y; _z].
Proof.
  cbv zeta. unfold hexBounds, inAABB, vgt, vlt, setMinVals, setMaxVals. cbn [fst snd _x _y _z].
  rewrite !andb_true_iff, !Forall_cons, Forall_nil.
  rewrite (Q_min8_lt _x), (Q_min8_lt _y), (Q_min8_lt _z).
  rewrite (Q_max8_gt _x), (Q_max8_gt _y), (Q_max8_gt _z).
  q_ops. tauto.
Qed.

Lemma pointSearchLinTet_maps_back (pt n1 n2 n3 n4 : vec3 Q) :
  ~ tetDet n1 n2 n3 n4 == 0 ->
  inAABB pt (setMinVals (setMinVals (setMinVals n1 n2) n3) n4)
            (setMaxVals (setMaxVals (setMaxVals n1 n2) n3) n4) = true ->
  vec_eq (tetPoint n1 n2 n3 n4 (pointSearchLinTet pt n1 n2 n3 n4)) pt.
Proof.
  intros Hdet Hbox. unfold pointSearchLinTet at 1. rewrite Hbox. cbn [negb].
  destruct n1 as [x1 y1 z1], n2 as [x2 y2 z2], n3 as [x3 y3 z3], n4 as [x4 y4 z4],
           pt as [x y z].
  clear Hbox. tet_unfold. q_ops. repeat split; field; exact Hdet.
Qed.

Lemma pointSearchLinTet_outside (pt n1 n2 n3 n4 : vec3 Q) :
  inAABB pt (setMinVals (setMinVals (setMinVals n1 n2) n3) n4)
            (setMaxVals (setMaxVals (setMaxVals n1 n2) n3) n4) = false ->
  isInUnitCube (pointSearchLinTet pt n1 n2 n3 n4) rzero = false.
Proof. intros Hbox. unfold pointSearchLinTet. rewrite Hbox. reflexivity. Qed.

(** A row of [divtets] that passes [inSimplex]: its [xi] are the
    barycentric coordinates of the point in the tetrahedron of the hex
    nodes at the row's four corners, unless that tetrahedron is
    degenerate. *)
Lemma tetXi_barycentric_exact (pt n1 n2 n3 n4 n5 n6 n7 n8 : vec3 Q) (row : list (vec3 Q)) :
  let tet := map (hexInterp n1 n2 n3 n4 n5 n6 n7 n8) row in
  let xi := tetXi pt n1 n2 n3 n4 n5 n6 n7 n8 row in
  inSimplex xi = true ->
  ~ tetDet (at_v tet 0) (at_v tet 1) (at_v tet 2) (at_v tet 3) == 0 ->
  vec_eq (tetPoint (at_v tet 0) (at_v tet 1) (at_v tet 2) (at_v tet 3) xi) pt.
Proof.
  intros tet xi Hin Hdet. subst xi. unfold tetXi in *. fold tet in Hin |- *.
  apply pointSearchLinTet_maps_back; [exact Hdet|].
  destruct (inAABB pt _ _) eqn:Hbox; [reflexivity|].
  apply pointSearchLinTet_outside in Hbox.
  unfold inSimplex in Hin. apply andb_true_iff in Hin as [Hcube _]. congruence.
Qed.
End ExactFacts.

(** * Part IV: double precision *)

(** The statements of this part are about the program's own arithmetic:
    [float] is IEEE 754 binary64 as [PrimFloat] has it, its operations
    specified by [SpecFloat] through the equations of [FloatAxioms].  A
    finite double [x] stands for the rational [F2Q x]; one operation returns
    the exact result rounded to nearest, within [rnd_err] of it. *)

(** ** Shifting and rounding a mantissa *)

Section ShiftRound.
Local Open Scope Z_scope.

Lemma digits2_pos_bounds (m : positive) :
  2 ^ (Zpos (digits2_pos m) - 1) <= Zpos m < 2 ^ Zpos (digits2_pos m).
Proof.
  induction m as [p IH | p IH |]; cbn [digits2_pos].
  - rewrite Pos2Z.inj_succ.
    replace (Z.succ (Zpos (digits2_pos p)) - 1) with (Z.succ (Zpos (digits2_pos p) - 1)) by lia.
    rewrite !Z.pow_succ_r by lia. lia.
  - rewrite Pos2Z.inj_succ.
    replace (Z.succ (Zpos (digits2_pos p)) - 1) with (Z.succ (Zpos (digits2_pos p) - 1)) by lia.
    rewrite !Z.pow_succ_r by lia. lia.
  - cbn. lia.
Qed.

Lemma shifted_start (M : Z) : 0 <= M -> shifted M 1 (Build_shr_record M false false).
Proof. intros HM. exists 0. cbn. lia. Qed.

Lemma shifted_shr_1 (M P : Z) (mrs : shr_record) :
  0 < P -> shifted M P mrs -> shifted M (2 * P) (shr_1 mrs).
Proof.
  intros HP (t & HM & Ht & Hm & Hloc). destruct mrs as [m r s]. cbn [shr_m shr_r shr_s] in *.
  destruct m as [|[p|p|]|p]; cbn [shr_1 shr_m shr_r shr_s]; try lia.
  - exists t. destruct r, s; cbn; lia.
  - exists (P + t). destruct r, s; cbn; lia.
  - exists t. destruct r, s; cbn; lia.
  - exists (P + t). destruct r, s; cbn; lia.
Qed.

Lemma shifted_iter_pos (p : positive) (M P : Z) (mrs : shr_record) :
  0 < P -> shifted M P mrs -> shifted M (P * 2 ^ Zpos p) (SpecFloat.iter_pos shr_1 p mrs).
Proof.
  revert P mrs. induction p as [p IH | p IH |]; intros P mrs HP H; cbn [SpecFloat.iter_pos].
  - apply shifted_shr_1 in H; [|exact HP].
    apply IH in H; [|lia]. apply IH in H; [|apply Z.mul_pos_pos; [lia | apply Z.pow_pos_nonneg; lia]].
    replace (P * 2 ^ Z.pos p~1) with (2 * P * 2 ^ Z.pos p * 2 ^ Z.pos p); [exact H|].
    replace (Z.pos p~1) with (Z.pos p + Z.pos p + 1) by lia.
    rewrite !Z.pow_add_r, Z.pow_1_r by lia. ring.
  - apply IH in H; [|lia]. apply IH in H; [|apply Z.mul_pos_pos; [lia | apply Z.pow_pos_nonneg; lia]].
    replace (P * 2 ^ Z.pos p~0) with (P * 2 ^ Z.pos p * 2 ^ Z.pos p); [exact H|].
    replace (Z.pos p~0) with (Z.pos p + Z.pos p) by lia.
    rewrite Z.pow_add_r by lia. ring.
  - apply shifted_shr_1 in H; [|exact HP]. rewrite Z.pow_1_r.
    replace (P * 2) with (2 * P) by ring. exact H.
Qed.

Lemma shifted_round (M P : Z) (mrs : shr_record) :
  0 < P -> shifted M P mrs ->
  let m' := round_nearest_even (shr_m mrs) (loc_of_shr_record mrs) in
  shr_m mrs <= m' <= shr_m mrs + 1 /\ 2 * Z.abs (m' * P - M) <= P.
Proof.
  intros HP (t & HM & Ht & Hm & Hloc). destruct mrs as [m r s]. cbn [shr_m shr_r shr_s] in *.
  destruct r, s; cbn [loc_of_shr_record round_nearest_even];
    try destruct (Z.even m); split; lia.
Qed.
End ShiftRound.

Section RoundAux.
Local Open Scope Z_scope.

Lemma fexp64 (e : Z) : fexp prec emax e = Z.max (e - 53) (-1074).
Proof. reflexivity. Qed.

Lemma Zpow2_lt_inv (a b : Z) : 0 <= b -> 2 ^ a < 2 ^ b -> a < b.
Proof. intros Hb H. apply (Z.pow_lt_mono_r_iff 2 a b); [lia | exact Hb | exact H]. Qed.

Lemma Zpow2_pos (a : Z) : 0 <= a -> 0 < 2 ^ a.
Proof. intros. apply Z.pow_pos_nonneg; lia. Qed.

Lemma shr_shifted (M : Z) (e n : Z) :
  0 <= M -> 0 <= n ->
  shifted M (2 ^ n) (fst (shr (Build_shr_record M false false) e n))
  /\ snd (shr (Build_shr_record M false false) e n) = e + n.
Proof.
  intros HM Hn. destruct n as [|p|p]; cbn [shr fst snd]; [| |lia].
  - split; [apply shifted_start; exact HM | lia].
  - split; [|reflexivity].
    replace (2 ^ Z.pos p) with (1 * 2 ^ Z.pos p) by ring.
    apply shifted_iter_pos; [lia | apply shifted_start; exact HM].
Qed.

Lemma shr_nonpos (mrs : shr_record) (e n : Z) : n <= 0 -> shr mrs e n = (mrs, e).
Proof. intros Hn. destruct n as [|p|p]; [reflexivity | lia | reflexivity]. Qed.
End RoundAux.

(** ** The value of a rounded result *)

Section RoundValue.
Local Open Scope Q_scope.

Lemma pow2_pos (e : Z) : 0 < pow2 e.
Proof. apply Qpower_0_lt. reflexivity. Qed.

Lemma pow2_add (a b : Z) : pow2 (a + b) == pow2 a * pow2 b.
Proof. apply Qpower_plus. discriminate. Qed.

Lemma pow2_Z (n : Z) : (0 <= n)%Z -> pow2 n == inject_Z (2 ^ n).
Proof. intros Hn. unfold pow2. rewrite Zpower_Qpower by exact Hn. reflexivity. Qed.

Lemma pow2_le (a b : Z) : (a <= b)%Z -> pow2 a <= pow2 b.
Proof. intros H. apply Qpower_le_compat_l; [exact H | discriminate]. Qed.

Lemma pow2_lt_inv (a b : Z) : pow2 a < pow2 b -> (a < b)%Z.
Proof. intros H. apply (Qpower_lt_compat_l_inv 2); [exact H | reflexivity]. Qed.

Lemma SF2Q_zero_mantissa (sx : bool) (e : Z) : 0 == inject_Z (cond_Zopp sx 0) * pow2 e.
Proof. destruct sx; change (0 == 0 * pow2 e); ring. Qed.

Lemma binary_round_aux_exact (sx : bool) (m : positive) (ex : Z) :
  let e' := fexp prec emax (Zpos (digits2_pos m) + ex) in
  (ex <= e')%Z ->
  exists m' : Z,
    (0 <= m')%Z /\ (2 * Z.abs (m' * 2 ^ (e' - ex) - Zpos m) <= 2 ^ (e' - ex))%Z /\
    ((e' + 1 <= emax - prec)%Z ->
       let r := binary_round_aux prec emax sx (Zpos m) ex loc_Exact in
       SFfinite r = true /\ SF2Q r == inject_Z (cond_Zopp sx m') * pow2 e').
Proof.
  intros e' Hn. pose proof (digits2_pos_bounds m) as Hd.
  assert (He' : e' = Z.max (Zpos (digits2_pos m) + ex - 53) (-1074)) by reflexivity.
  destruct (shr_shifted (Zpos m) ex (e' - ex) ltac:(lia) ltac:(lia)) as [Hsh He1].
  replace (ex + (e' - ex))%Z with e' in He1 by lia.
  pose proof (Zpow2_pos (e' - ex) ltac:(lia)) as HP.
  pose proof (shifted_round _ _ _ HP Hsh) as [Hm1 Herr]. cbv zeta in Hm1, Herr.
  destruct (shr (Build_shr_record (Zpos m) false false) ex (e' - ex)) as [mrs e1] eqn:Eshr.
  cbn [fst snd] in *. subst e1.
  set (m1 := round_nearest_even (shr_m mrs) (loc_of_shr_record mrs)) in *.
  assert (Hmrs : (0 <= shr_m mrs < 2 ^ 53)%Z).
  { destruct Hsh as (t & HM & Ht & Hm & _). split; [exact Hm|].
    assert (Hlt : (shr_m mrs * 2 ^ (e' - ex) < 2 ^ 53 * 2 ^ (e' - ex))%Z).
    { rewrite <- Z.pow_add_r by lia.
      assert (2 ^ Zpos (digits2_pos m) <= 2 ^ (53 + (e' - ex)))%Z
        by (apply Z.pow_le_mono_r; lia).
      lia. }
    apply Z.mul_lt_mono_pos_r in Hlt; [exact Hlt | exact HP]. }
  exists m1. split; [lia|]. split; [exact Herr|]. intros Hfin. cbv zeta.
  unfold binary_round_aux, shr_fexp. cbn [Zdigits2 shr_record_of_loc]. fold e'.
  rewrite Eshr. fold m1. clearbody m1.
  destruct m1 as [|q|q]; [| |lia].
  - cbn [Zdigits2]. rewrite shr_nonpos by (rewrite fexp64; lia). cbn [shr_m].
    split; [reflexivity | apply SF2Q_zero_mantissa].
  - cbn [Zdigits2]. pose proof (digits2_pos_bounds q) as Hq.
    destruct (Z.eq_dec (Zpos q) (2 ^ 53)%Z) as [Htop | Hlow].
    + assert (Hdq : Zpos (digits2_pos q) = 54%Z).
      { rewrite Htop in Hq. destruct Hq as [Hq1 Hq2].
        assert (Zpos (digits2_pos q) - 1 < 54)%Z.
        { apply Zpow2_lt_inv; [lia|]. change (2 ^ 54)%Z with (2 * 2 ^ 53)%Z. lia. }
        apply Zpow2_lt_inv in Hq2; lia. }
      rewrite Hdq, fexp64.
      replace (Z.max (54 + e' - 53) (-1074) - e')%Z with 1%Z by lia.
      destruct q as [q'|q'|]; [exfalso; lia | | exfalso; lia].
      cbn [shr SpecFloat.iter_pos shr_1 fst snd shr_m].
      replace (e' + 1 <=? emax - prec)%Z with true by (symmetry; apply Z.leb_le; lia).
      split; [reflexivity|]. cbn [SF2Q].
      rewrite pow2_add. change (pow2 1) with 2.
      destruct sx; cbn [cond_Zopp]; rewrite ?Pos2Z.opp_pos.
      * change (Z.neg q'~0) with (2 * Z.neg q')%Z. rewrite inject_Z_mult. ring.
      * change (Z.pos q'~0) with (2 * Z.pos q')%Z. rewrite inject_Z_mult. ring.
    + assert (Hdq : (Zpos (digits2_pos q) <= 53)%Z).
      { destruct Hq as [Hq1 _].
        assert (Zpos (digits2_pos q) - 1 < 53)%Z by (apply Zpow2_lt_inv; lia). lia. }
      rewrite shr_nonpos by (rewrite fexp64; lia). cbn [shr_m].
      replace (e' <=? emax - prec)%Z with true by (symmetry; apply Z.leb_le; lia).
      split; reflexivity.
Qed.
End RoundValue.

Section RoundError.
Local Open Scope Q_scope.

Lemma inject_cond_Zopp (s : bool) (z : Z) : inject_Z (cond_Zopp s z) == sgn s * inject_Z z.
Proof.
  destruct s; unfold cond_Zopp, sgn.
  - change (IntDef.Z.opp z) with (Z.opp z). rewrite inject_Z_opp. ring.
  - ring.
Qed.

Lemma binary_round_aux_error (sx : bool) (m : positive) (ex : Z) :
  (ex <= fexp prec emax (Zpos (digits2_pos m) + ex))%Z ->
  let X := inject_Z (Zpos m) * pow2 ex in
  X < pow2 1023 ->
  let r := binary_round_aux prec emax sx (Zpos m) ex loc_Exact in
  SFfinite r = true /\
  Qabs (SF2Q r - sgn sx * X) <= pow2 (-53) * X + pow2 (-1075).
Proof.
  intros Hn X HX r.
  destruct (binary_round_aux_exact sx m ex Hn) as (m' & Hm' & Herr & Hres).
  set (e' := fexp prec emax (Zpos (digits2_pos m) + ex)) in *.
  assert (He' : e' = Z.max (Zpos (digits2_pos m) + ex - 53) (-1074)) by reflexivity.
  pose proof (digits2_pos_bounds m) as [Hd1 Hd2].
  pose proof (pow2_pos ex) as Hp.
  assert (Hlow : pow2 (Zpos (digits2_pos m) - 1 + ex) <= X).
  { rewrite pow2_add, pow2_Z by lia. unfold X.
    apply Qmult_le_compat_r; [|lra]. rewrite <- Zle_Qle. exact Hd1. }
  assert (Hde : (Zpos (digits2_pos m) + ex <= 1023)%Z).
  { assert (Zpos (digits2_pos m) - 1 + ex < 1023)%Z by (apply pow2_lt_inv; lra). lia. }
  destruct Hres as [Hfin Hval]; [change (emax - prec)%Z with 971%Z; lia|].
  fold r in Hfin, Hval. split; [exact Hfin|].
  assert (HP : pow2 e' == pow2 ex * inject_Z (2 ^ (e' - ex))).
  { rewrite <- pow2_Z, <- pow2_add by lia. replace (ex + (e' - ex))%Z with e' by lia. reflexivity. }
  assert (Hhalf : Qabs (SF2Q r - sgn sx * X) <= (1 # 2) * pow2 e').
  { rewrite Hval, inject_cond_Zopp, HP. unfold X.
    set (P := (2 ^ (e' - ex))%Z) in *.
    assert (HD : - inject_Z P <= 2 * (inject_Z m' * inject_Z P - inject_Z (Zpos m)) <= inject_Z P).
    { assert (HZ : inject_Z (- P) <= inject_Z (2 * (m' * P + - Zpos m)) <= inject_Z P)
        by (rewrite <- !Zle_Qle; lia).
      rewrite !inject_Z_mult, inject_Z_plus, !inject_Z_opp, inject_Z_mult in HZ.
      change (inject_Z 2) with 2 in HZ. lra. }
    set (A := inject_Z m') in *. set (Pq := inject_Z P) in *. set (Mq := inject_Z (Zpos m)) in *.
    assert (Heq : sgn sx * A * (pow2 ex * Pq) - sgn sx * (Mq * pow2 ex)
                  == (sgn sx * pow2 ex) * (A * Pq - Mq)) by ring.
    rewrite Heq, Qabs_Qmult.
    assert (Hs : Qabs (sgn sx * pow2 ex) == pow2 ex).
    { rewrite Qabs_Qmult, (Qabs_pos (pow2 ex)) by lra.
      destruct sx; unfold sgn; [change (Qabs (-1)) with 1 | change (Qabs 1) with 1]; ring. }
    rewrite Hs.
    assert (HDabs : Qabs (A * Pq - Mq) <= (1 # 2) * Pq) by (apply Qabs_Qle_condition; lra).
    apply Qle_trans with (pow2 ex * ((1 # 2) * Pq)).
    - apply Qmult_le_l; [exact Hp | exact HDabs].
    - assert (Hc : pow2 ex * ((1 # 2) * Pq) == (1 # 2) * (pow2 ex * Pq)) by ring.
      rewrite Hc. apply Qle_refl. }
  eapply Qle_trans; [exact Hhalf|].
  assert (HX0 : 0 <= X) by (unfold X; apply Qmult_le_0_compat; [rewrite <- (Zle_Qle 0); lia | lra]).
  pose proof (pow2_pos (-53)) as H53. pose proof (pow2_pos (-1075)) as H1075.
  destruct (Z.max_spec (Zpos (digits2_pos m) + ex - 53) (-1074)) as [[_ Hmax] | [_ Hmax]];
    rewrite <- He' in Hmax.
  - rewrite Hmax. change (-1074)%Z with (1 + -1075)%Z. rewrite pow2_add. change (pow2 1) with 2.
    assert (0 <= pow2 (-53) * X) by (apply Qmult_le_0_compat; lra). lra.
  - replace e' with (1 + (-53 + (Zpos (digits2_pos m) - 1 + ex)))%Z by lia.
    rewrite !(pow2_add 1), (pow2_add (-53)). change (pow2 1) with 2.
    assert (pow2 (-53) * pow2 (Z.pos (digits2_pos m) - 1 + ex) <= pow2 (-53) * X)
      by (apply Qmult_le_l; lra).
    lra.
Qed.

(** A mantissa that the shift divides is rounded to itself. *)
Lemma binary_round_aux_representable (sx : bool) (m : positive) (ex : Z) (k : Z) :
  let e' := fexp prec emax (Zpos (digits2_pos m) + ex) in
  (ex <= e')%Z -> Zpos m = (k * 2 ^ (e' - ex))%Z ->
  let X := inject_Z (Zpos m) * pow2 ex in
  X < pow2 1023 ->
  let r := binary_round_aux prec emax sx (Zpos m) ex loc_Exact in
  SFfinite r = true /\ SF2Q r == sgn sx * X.
Proof.
  intros e' Hn Hk X HX r.
  destruct (binary_round_aux_exact sx m ex Hn) as (m' & Hm' & Herr & Hres).
  fold e' in Herr, Hres.
  assert (He' : e' = Z.max (Zpos (digits2_pos m) + ex - 53) (-1074)) by reflexivity.
  pose proof (digits2_pos_bounds m) as [Hd1 Hd2].
  pose proof (pow2_pos ex) as Hp.
  assert (Hlow : pow2 (Zpos (digits2_pos m) - 1 + ex) <= X).
  { rewrite pow2_add, pow2_Z by lia. unfold X.
    apply Qmult_le_compat_r; [|lra]. rewrite <- Zle_Qle. exact Hd1. }
  assert (Hde : (Zpos (digits2_pos m) + ex <= 1023)%Z).
  { assert (Zpos (digits2_pos m) - 1 + ex < 1023)%Z by (apply pow2_lt_inv; lra). lia. }
  destruct Hres as [Hfin Hval]; [change (emax - prec)%Z with 971%Z; lia|].
  fold r in Hfin, Hval. split; [exact Hfin|].
  pose proof (Zpow2_pos (e' - ex) ltac:(lia)) as HP.
  set (P := (2 ^ (e' - ex))%Z) in *.
  assert (Hmk : m' = k).
  { destruct (Z.eq_dec m' k) as [E | E]; [exact E | exfalso].
    rewrite Hk in Herr. replace (m' * P - k * P)%Z with ((m' - k) * P)%Z in Herr by ring.
    rewrite Z.abs_mul, (Z.abs_eq P) in Herr by lia.
    assert (1 * P <= Z.abs (m' - k) * P)%Z by (apply Z.mul_le_mono_nonneg_r; lia).
    lia. }
  rewrite Hval, inject_cond_Zopp. unfold X. rewrite Hk, <- Hmk, inject_Z_mult.
  assert (HPq : pow2 e' == pow2 ex * inject_Z P).
  { unfold P. rewrite <- pow2_Z, <- pow2_add by lia.
    replace (ex + (e' - ex))%Z with e' by lia. reflexivity. }
  rewrite HPq. ring.
Qed.
End RoundError.

(** ** Addition, subtraction and multiplication *)

Ltac qrep a b :=
  let H := fresh in assert (H : (a == b)%Q) by ring; rewrite H; clear H.
Ltac qrep_in a b Hyp :=
  let H := fresh in assert (H : (a == b)%Q) by ring; rewrite H in Hyp; clear H.

Section Operations.
Local Open Scope Q_scope.

#[export] Instance rnd_err_comp : Proper (Qeq ==> Qeq) rnd_err.
Proof. intros a b Hab. unfold rnd_err. rewrite Hab. reflexivity. Qed.

Lemma iter_xO_value (m d : positive) : Zpos (Pos.iter xO m d) = (Zpos m * 2 ^ Zpos d)%Z.
Proof.
  induction d as [|d IH] using Pos.peano_ind.
  - cbn [Pos.iter]. rewrite Z.pow_1_r. lia.
  - rewrite Pos.iter_succ, Pos2Z.inj_succ, Z.pow_succ_r by lia. lia.
Qed.

Lemma iter_xO_digits (m d : positive) :
  Zpos (digits2_pos (Pos.iter xO m d)) = (Zpos (digits2_pos m) + Zpos d)%Z.
Proof.
  induction d as [|d IH] using Pos.peano_ind.
  - cbn [Pos.iter digits2_pos]. lia.
  - rewrite Pos.iter_succ. cbn [digits2_pos]. lia.
Qed.

Lemma shl_align_spec (mx : positive) (ex ex' : Z) :
  let me := shl_align mx ex ex' in
  inject_Z (Zpos (fst me)) * pow2 (snd me) == inject_Z (Zpos mx) * pow2 ex
  /\ (Zpos (digits2_pos (fst me)) + snd me = Zpos (digits2_pos mx) + ex)%Z
  /\ snd me = Z.min ex ex'.
Proof.
  unfold shl_align. destruct (ex' - ex)%Z as [|d|d] eqn:E; cbn [fst snd].
  - split; [reflexivity|]. split; lia.
  - split; [reflexivity|]. split; lia.
  - rewrite iter_xO_value, iter_xO_digits.
    split; [|split; lia].
    rewrite inject_Z_mult, <- pow2_Z by lia.
    assert (Hex : pow2 ex == pow2 (Zpos d) * pow2 ex')
      by (rewrite <- pow2_add; replace (Zpos d + ex')%Z with ex by lia; reflexivity).
    rewrite Hex. ring.
Qed.

Lemma rnd_err_sgn (s : bool) (X : Q) : rnd_err (sgn s * X) == rnd_err X.
Proof.
  unfold rnd_err. rewrite Qabs_Qmult.
  replace (Qabs (sgn s)) with 1 by (destruct s; reflexivity). ring.
Qed.

Lemma binary_round_error (sx : bool) (m : positive) (ex : Z) :
  let X := inject_Z (Zpos m) * pow2 ex in
  X < pow2 1023 ->
  let r := binary_round prec emax sx m ex in
  SFfinite r = true /\ Qabs (SF2Q r - sgn sx * X) <= pow2 (-53) * X + pow2 (-1075).
Proof.
  intros X HX r. subst r. unfold binary_round.
  pose proof (shl_align_spec m ex (fexp prec emax (Zpos (digits2_pos m) + ex))) as (Hv & Hd & He).
  destruct (shl_align m ex _) as [mz ez]. cbn [fst snd] in *.
  assert (Hn : (ez <= fexp prec emax (Zpos (digits2_pos mz) + ez))%Z) by (rewrite Hd; lia).
  pose proof (binary_round_aux_error sx mz ez Hn) as H. cbv zeta in H.
  rewrite Hv in H. apply H. exact HX.
Qed.

Lemma binary_normalize_error (M e : Z) (szero : bool) :
  let X := inject_Z M * pow2 e in
  Qabs X < pow2 1023 ->
  let r := binary_normalize prec emax M e szero in
  SFfinite r = true /\ Qabs (SF2Q r - X) <= rnd_err X.
Proof.
  intros X HX r. subst r. pose proof (pow2_pos e) as Hp.
  pose proof (pow2_pos (-53)) as H53. pose proof (pow2_pos (-1075)) as H1075.
  destruct M as [|m|m]; cbn [binary_normalize].
  - split; [reflexivity|]. unfold X, rnd_err. cbn [SF2Q].
    change (inject_Z 0) with 0. qrep (0 - 0 * pow2 e) 0. qrep (0 * pow2 e) 0. change (Qabs 0) with 0. lra.
  - assert (HX0 : 0 <= X) by (apply Qmult_le_0_compat; [rewrite <- (Zle_Qle 0); lia | lra]).
    rewrite (Qabs_pos X) in HX by exact HX0.
    destruct (binary_round_error false m e HX) as [Hf Hv]. split; [exact Hf|].
    unfold rnd_err. rewrite (Qabs_pos X) by exact HX0. fold X in Hv. unfold sgn in Hv.
    qrep_in (1 * X) X Hv. exact Hv.
  - set (Y := inject_Z (Zpos m) * pow2 e).
    assert (HXY : X == - Y).
    { unfold X, Y. change (Z.neg m) with (- Zpos m)%Z. rewrite inject_Z_opp. ring. }
    assert (HY0 : 0 <= Y) by (apply Qmult_le_0_compat; [rewrite <- (Zle_Qle 0); lia | lra]).
    assert (HabsX : Qabs X == Y) by (rewrite HXY, Qabs_opp; apply Qabs_pos; exact HY0).
    rewrite HabsX in HX.
    destruct (binary_round_error true m e HX) as [Hf Hv]. split; [exact Hf|].
    unfold rnd_err. rewrite HabsX. fold Y in Hv. unfold sgn in Hv.
    rewrite HXY. qrep (SF2Q (binary_round prec emax true m e) - - Y)
      (SF2Q (binary_round prec emax true m e) - -1 * Y). exact Hv.
Qed.

Lemma SF2Q_finite (s : bool) (m : positive) (e : Z) :
  SF2Q (S754_finite s m e) == sgn s * (inject_Z (Zpos m) * pow2 e).
Proof. cbn [SF2Q]. rewrite inject_cond_Zopp. ring. Qed.

Lemma rnd_err_nonneg (X : Q) : 0 <= rnd_err X.
Proof.
  unfold rnd_err. pose proof (pow2_pos (-53)). pose proof (pow2_pos (-1075)).
  pose proof (Qabs_nonneg X).
  assert (0 <= pow2 (-53) * Qabs X) by (apply Qmult_le_0_compat; lra). lra.
Qed.

Lemma exact_error (v X : Q) : v == X -> Qabs (v - X) <= rnd_err X.
Proof.
  intros ->. qrep (X - X) 0. change (Qabs 0) with 0. apply rnd_err_nonneg.
Qed.

(** The aligned sum the addition and the subtraction round. *)
Lemma aligned_value (s : bool) (m : positive) (e e' : Z) :
  (e' <= e)%Z ->
  inject_Z (cond_Zopp s (Zpos (fst (shl_align m e e')))) * pow2 e'
  == SF2Q (S754_finite s m e).
Proof.
  intros Hle. pose proof (shl_align_spec m e e') as (Hv & _ & He). cbv zeta in *.
  rewrite SF2Q_finite, inject_cond_Zopp, <- Hv.
  replace (snd (shl_align m e e')) with e' by lia. ring.
Qed.

Lemma SFadd_error (x y : spec_float) :
  SFfinite x = true -> SFfinite y = true ->
  Qabs (SF2Q x + SF2Q y) < pow2 1023 ->
  SFfinite (SFadd prec emax x y) = true
  /\ Qabs (SF2Q (SFadd prec emax x y) - (SF2Q x + SF2Q y)) <= rnd_err (SF2Q x + SF2Q y).
Proof.
  intros Hx Hy HS.
  destruct x as [sx|sx| |sx mx ex]; try discriminate;
    destruct y as [sy|sy| |sy my ey]; try discriminate.
  - split; [destruct sx, sy; reflexivity|].
    apply exact_error. destruct sx, sy; cbn [SFadd SF2Q]; ring.
  - split; [reflexivity|]. apply exact_error. cbn [SFadd]. cbn [SF2Q]. ring.
  - split; [reflexivity|]. apply exact_error. cbn [SFadd]. cbn [SF2Q]. ring.
  - cbn [SFadd].
    set (ez := Z.min ex ey).
    set (M := (cond_Zopp sx (Zpos (fst (shl_align mx ex ez)))
               + cond_Zopp sy (Zpos (fst (shl_align my ey ez))))%Z).
    assert (HM : inject_Z M * pow2 ez == SF2Q (S754_finite sx mx ex) + SF2Q (S754_finite sy my ey)).
    { unfold M. rewrite inject_Z_plus, Qmult_plus_distr_l.
      rewrite !aligned_value by (unfold ez; lia). reflexivity. }
    pose proof (binary_normalize_error M ez false) as H. cbv zeta in H.
    rewrite HM in H. apply H. exact HS.
Qed.

Lemma SFsub_error (x y : spec_float) :
  SFfinite x = true -> SFfinite y = true ->
  Qabs (SF2Q x - SF2Q y) < pow2 1023 ->
  SFfinite (SFsub prec emax x y) = true
  /\ Qabs (SF2Q (SFsub prec emax x y) - (SF2Q x - SF2Q y)) <= rnd_err (SF2Q x - SF2Q y).
Proof.
  intros Hx Hy HS.
  destruct x as [sx|sx| |sx mx ex]; try discriminate;
    destruct y as [sy|sy| |sy my ey]; try discriminate.
  - split; [destruct sx, sy; reflexivity|].
    apply exact_error. destruct sx, sy; cbn [SFsub SF2Q]; ring.
  - split; [reflexivity|]. apply exact_error. cbn [SFsub].
    rewrite !SF2Q_finite. cbn [SF2Q]. destruct sy; unfold sgn; cbn [negb]; ring.
  - split; [reflexivity|]. apply exact_error. cbn [SFsub]. cbn [SF2Q]. ring.
  - cbn [SFsub].
    set (ez := Z.min ex ey).
    set (M := (cond_Zopp sx (Zpos (fst (shl_align mx ex ez)))
               - cond_Zopp sy (Zpos (fst (shl_align my ey ez))))%Z).
    assert (HM : inject_Z M * pow2 ez == SF2Q (S754_finite sx mx ex) - SF2Q (S754_finite sy my ey)).
    { unfold M, Z.sub. rewrite inject_Z_plus, inject_Z_opp, Qmult_plus_distr_l.
      qrep (- inject_Z (cond_Zopp sy (Z.pos (fst (shl_align my ey ez)))) * pow2 ez)
        (- (inject_Z (cond_Zopp sy (Z.pos (fst (shl_align my ey ez)))) * pow2 ez)).
      rewrite !aligned_value by (unfold ez; lia). reflexivity. }
    pose proof (binary_normalize_error M ez false) as H. cbv zeta in H.
    rewrite HM in H. apply H. exact HS.
Qed.

Lemma digits2_pos_mul (a b : positive) :
  (Zpos (digits2_pos a) + Zpos (digits2_pos b) - 1 <= Zpos (digits2_pos (a * b)))%Z.
Proof.
  pose proof (digits2_pos_bounds a) as [Ha _]. pose proof (digits2_pos_bounds b) as [Hb _].
  pose proof (digits2_pos_bounds (a * b)) as [_ Hab].
  assert (H : (2 ^ (Zpos (digits2_pos a) - 1 + (Zpos (digits2_pos b) - 1))
               < 2 ^ Zpos (digits2_pos (a * b)))%Z).
  { rewrite Z.pow_add_r by lia. rewrite Pos2Z.inj_mul in Hab.
    pose proof (Zpow2_pos (Zpos (digits2_pos a) - 1) ltac:(lia)).
    pose proof (Zpow2_pos (Zpos (digits2_pos b) - 1) ltac:(lia)).
    assert (2 ^ (Zpos (digits2_pos a) - 1) * 2 ^ (Zpos (digits2_pos b) - 1)
            <= Zpos a * Zpos b)%Z by (apply Z.mul_le_mono_nonneg; lia).
    lia. }
  apply Zpow2_lt_inv in H; lia.
Qed.

Lemma valid_canonical (s : bool) (m : positive) (e : Z) :
  valid_binary (S754_finite s m e) = true ->
  e = Z.max (Zpos (digits2_pos m) + e - 53) (-1074) /\ (e <= 971)%Z.
Proof.
  cbn [SpecFloat.valid_binary]. unfold bounded, canonical_mantissa.
  rewrite andb_true_iff, Z.eqb_eq, Z.leb_le, fexp64. change (emax - prec)%Z with 971%Z. lia.
Qed.

Lemma SFmul_error (x y : spec_float) :
  valid_binary x = true -> valid_binary y = true ->
  SFfinite x = true -> SFfinite y = true ->
  Qabs (SF2Q x * SF2Q y) < pow2 1023 ->
  SFfinite (SFmul prec emax x y) = true
  /\ Qabs (SF2Q (SFmul prec emax x y) - SF2Q x * SF2Q y) <= rnd_err (SF2Q x * SF2Q y).
Proof.
  intros Hvx Hvy Hx Hy HS.
  destruct x as [sx|sx| |sx mx ex]; try discriminate;
    destruct y as [sy|sy| |sy my ey]; try discriminate.
  - split; [reflexivity|]. apply exact_error. cbn [SFmul SF2Q]. ring.
  - split; [reflexivity|]. apply exact_error. cbn [SFmul]. cbn [SF2Q]. ring.
  - split; [reflexivity|]. apply exact_error. cbn [SFmul]. cbn [SF2Q]. ring.
  - cbn [SFmul].
    apply valid_canonical in Hvx as [Hcx _]. apply valid_canonical in Hvy as [Hcy _].
    pose proof (digits2_pos_mul mx my) as Hd.
    assert (Hn : (ex + ey <= fexp prec emax (Zpos (digits2_pos (mx * my)) + (ex + ey)))%Z)
      by (rewrite fexp64; lia).
    set (X := inject_Z (Zpos (mx * my)) * pow2 (ex + ey)).
    assert (HXY : SF2Q (S754_finite sx mx ex) * SF2Q (S754_finite sy my ey)
                  == sgn (xorb sx sy) * X).
    { rewrite !SF2Q_finite. unfold X. rewrite Pos2Z.inj_mul, inject_Z_mult, pow2_add.
      destruct sx, sy; unfold sgn; cbn [xorb]; ring. }
    assert (HX0 : 0 <= X).
    { apply Qmult_le_0_compat; [rewrite <- (Zle_Qle 0); lia | pose proof (pow2_pos (ex + ey)); lra]. }
    assert (HabsX : Qabs (sgn (xorb sx sy) * X) == X).
    { rewrite Qabs_Qmult, (Qabs_pos X) by exact HX0. destruct (xorb sx sy); unfold sgn; [change (Qabs (-1)) with 1 | change (Qabs 1) with 1]; ring. }
    rewrite HXY in *. rewrite HabsX in HS.
    pose proof (binary_round_aux_error (xorb sx sy) (mx * my) (ex + ey) Hn HS) as [Hf Hv].
    split; [exact Hf|]. unfold rnd_err. rewrite HabsX. exact Hv.
Qed.
End Operations.

(** ** Comparisons *)

Section Comparison.
Local Open Scope Q_scope.

Lemma Qcompare_Lt (a b : Q) : a < b -> (a ?= b) = Lt.
Proof. intros H. apply Qlt_alt. exact H. Qed.
Lemma Qcompare_Gt (a b : Q) : b < a -> (a ?= b) = Gt.
Proof. intros H. apply Qgt_alt. exact H. Qed.
Lemma Qcompare_Eq (a b : Q) : a == b -> (a ?= b) = Eq.
Proof. intros H. apply Qeq_alt. exact H. Qed.

Lemma mag_pos (m : positive) (e : Z) : 0 < mag m e.
Proof.
  unfold mag. apply Qmult_lt_0_compat; [|apply pow2_pos].
  rewrite <- (Zlt_Qlt 0). lia.
Qed.

Lemma mag_lt_exponent (m1 m2 : positive) (e1 e2 : Z) :
  e1 = Z.max (Zpos (digits2_pos m1) + e1 - 53) (-1074) ->
  e2 = Z.max (Zpos (digits2_pos m2) + e2 - 53) (-1074) ->
  (e1 < e2)%Z -> mag m1 e1 < mag m2 e2.
Proof.
  intros H1 H2 Hlt.
  pose proof (digits2_pos_bounds m1) as [_ Hm1]. pose proof (digits2_pos_bounds m2) as [Hm2 _].
  assert (Hd2 : Zpos (digits2_pos m2) = 53%Z) by lia.
  assert (Hd1 : (Zpos (digits2_pos m1) <= 53)%Z) by lia.
  rewrite Hd2 in Hm2. change (53 - 1)%Z with 52%Z in Hm2.
  assert (Hm1' : (Zpos m1 < 2 ^ 53)%Z).
  { eapply Z.lt_le_trans; [exact Hm1|]. apply Z.pow_le_mono_r; lia. }
  unfold mag. pose proof (pow2_pos e1) as Hp1. pose proof (pow2_pos e2) as Hp2.
  apply Qlt_le_trans with (inject_Z (2 ^ 53) * pow2 e1).
  { apply Qmult_lt_compat_r; [exact Hp1|]. rewrite <- Zlt_Qlt. exact Hm1'. }
  apply Qle_trans with (inject_Z (2 ^ 52) * pow2 e2).
  { rewrite <- !pow2_Z, <- !pow2_add by lia. apply pow2_le. lia. }
  apply Qmult_le_compat_r; [|lra]. rewrite <- Zle_Qle. exact Hm2.
Qed.

Lemma mag_compare_mantissa (m1 m2 : positive) (e : Z) :
  (mag m1 e ?= mag m2 e) = (m1 ?= m2)%positive.
Proof.
  pose proof (pow2_pos e) as Hp. unfold mag.
  destruct (Pos.compare_spec m1 m2) as [Heq | Hlt | Hgt].
  - subst. apply Qcompare_Eq. reflexivity.
  - apply Qcompare_Lt. apply Qmult_lt_compat_r; [exact Hp|]. rewrite <- Zlt_Qlt. lia.
  - apply Qcompare_Gt. apply Qmult_lt_compat_r; [exact Hp|]. rewrite <- Zlt_Qlt. lia.
Qed.

Lemma mag_compare (m1 m2 : positive) (e1 e2 : Z) :
  e1 = Z.max (Zpos (digits2_pos m1) + e1 - 53) (-1074) ->
  e2 = Z.max (Zpos (digits2_pos m2) + e2 - 53) (-1074) ->
  (mag m1 e1 ?= mag m2 e2)
  = match (e1 ?= e2)%Z with
    | Lt => Lt
    | Gt => Gt
    | Eq => Pos.compare_cont Eq m1 m2
    end.
Proof.
  intros H1 H2. destruct (Z.compare_spec e1 e2) as [Heq | Hlt | Hgt].
  - subst e2. apply mag_compare_mantissa.
  - apply Qcompare_Lt, mag_lt_exponent; assumption.
  - apply Qcompare_Gt, mag_lt_exponent; assumption.
Qed.

Lemma Qcompare_opp (a b : Q) : (- a ?= - b) = CompOpp (a ?= b).
Proof.
  destruct (Qcompare_spec a b) as [H | H | H]; cbn [CompOpp].
  - apply Qcompare_Eq. rewrite H. reflexivity.
  - apply Qcompare_Gt. lra.
  - apply Qcompare_Lt. lra.
Qed.

Lemma SF2Q_mag (s : bool) (m : positive) (e : Z) :
  SF2Q (S754_finite s m e) == (if s then - mag m e else mag m e).
Proof. rewrite SF2Q_finite. unfold mag, sgn. destruct s; ring. Qed.

Lemma SFcompare_spec (x y : spec_float) :
  valid_binary x = true -> valid_binary y = true ->
  SFfinite x = true -> SFfinite y = true ->
  SFcompare x y = Some (SF2Q x ?= SF2Q y).
Proof.
  intros Hvx Hvy Hx Hy.
  destruct x as [sx|sx| |sx mx ex]; try discriminate;
    destruct y as [sy|sy| |sy my ey]; try discriminate.
  - reflexivity.
  - cbn [SFcompare]. f_equal. symmetry. rewrite (SF2Q_mag sy my ey).
    pose proof (mag_pos my ey). cbn [SF2Q].
    destruct sy; [apply Qcompare_Gt | apply Qcompare_Lt]; lra.
  - cbn [SFcompare]. f_equal. symmetry. rewrite (SF2Q_mag sx mx ex).
    pose proof (mag_pos mx ex). cbn [SF2Q].
    destruct sx; [apply Qcompare_Lt | apply Qcompare_Gt]; lra.
  - apply valid_canonical in Hvx as [Hcx _]. apply valid_canonical in Hvy as [Hcy _].
    cbn [SFcompare]. f_equal. symmetry. rewrite (SF2Q_mag sx mx ex), (SF2Q_mag sy my ey).
    pose proof (mag_pos mx ex). pose proof (mag_pos my ey).
    destruct sx, sy.
    + rewrite Qcompare_opp, (mag_compare _ _ _ _ Hcx Hcy).
      destruct (ex ?= ey)%Z; reflexivity.
    + apply Qcompare_Lt. lra.
    + apply Qcompare_Gt. lra.
    + apply mag_compare; assumption.
Qed.

Lemma SFleb_spec (x y : spec_float) :
  valid_binary x = true -> valid_binary y = true ->
  SFfinite x = true -> SFfinite y = true ->
  SFleb x y = true <-> SF2Q x <= SF2Q y.
Proof.
  intros Hvx Hvy Hx Hy. unfold SFleb. rewrite SFcompare_spec by assumption.
  rewrite Qle_alt. destruct (SF2Q x ?= SF2Q y); split; congruence.
Qed.

Lemma SFltb_spec (x y : spec_float) :
  valid_binary x = true -> valid_binary y = true ->
  SFfinite x = true -> SFfinite y = true ->
  SFltb x y = true <-> SF2Q x < SF2Q y.
Proof.
  intros Hvx Hvy Hx Hy. unfold SFltb. rewrite SFcompare_spec by assumption.
  rewrite Qlt_alt. destruct (SF2Q x ?= SF2Q y); split; congruence.
Qed.

Lemma SFleb_between (a x b : spec_float) :
  SFfinite a = true -> SFfinite b = true ->
  SFleb a x = true -> SFleb x b = true -> SFfinite x = true.
Proof.
  intros Ha Hb. unfold SFleb.
  destruct x as [sx|[|]| |sx mx ex]; try reflexivity;
    destruct a as [sa|sa| |sa ma ea]; try discriminate;
    destruct b as [sb|sb| |sb mb eb]; try discriminate; cbn [SFcompare];
    try destruct sa; try destruct sb; discriminate.
Qed.

Lemma SFabs_finite (x : spec_float) : SFfinite (SFabs x) = SFfinite x.
Proof. destruct x; reflexivity. Qed.

Lemma SFabs_value (x : spec_float) : SF2Q (SFabs x) == Qabs (SF2Q x).
Proof.
  destruct x as [sx|sx| |sx mx ex]; try reflexivity.
  cbn [SFabs]. rewrite !SF2Q_mag. pose proof (mag_pos mx ex).
  destruct sx; [rewrite Qabs_opp|]; symmetry; apply Qabs_pos; lra.
Qed.

Lemma SFabs_leb_finite (x c : spec_float) :
  SFfinite c = true -> SFleb (SFabs x) c = true -> SFfinite x = true.
Proof.
  intros Hc. unfold SFleb.
  destruct x as [sx|sx| |sx mx ex]; try reflexivity;
    destruct c as [sc|sc| |sc mc ec]; try discriminate; cbn [SFabs SFcompare]; discriminate.
Qed.

Lemma SFopp_value (x : spec_float) : SF2Q (SFopp x) == - SF2Q x.
Proof.
  destruct x as [sx|sx| |sx mx ex]; try reflexivity.
  cbn [SFopp]. rewrite !SF2Q_mag. destruct sx; cbn [negb]; ring.
Qed.

(** The product with the double 1. *)
Lemma SFmul_one_l (y : spec_float) :
  valid_binary y = true -> SFfinite y = true ->
  Qabs (SF2Q y) < pow2 1023 ->
  let r := SFmul prec emax (S754_finite false 4503599627370496 (-52)) y in
  SFfinite r = true /\ SF2Q r == SF2Q y.
Proof.
  intros Hv Hf HB r. subst r.
  destruct y as [sy|sy| |sy my ey]; try discriminate.
  - split; reflexivity.
  - cbn [SFmul xorb].
    apply valid_canonical in Hv as [Hc _].
    set (m := (4503599627370496 * my)%positive).
    assert (Hm : Zpos m = (Zpos my * 2 ^ 52)%Z)
      by (unfold m; rewrite Pos2Z.inj_mul; change (2 ^ 52)%Z with 4503599627370496%Z; lia).
    assert (Hd : Zpos (digits2_pos m) = (Zpos (digits2_pos my) + 52)%Z).
    { pose proof (digits2_pos_bounds my) as [Hy1 Hy2].
      pose proof (digits2_pos_bounds m) as [Hm1 Hm2]. rewrite Hm in Hm1, Hm2.
      pose proof (Zpow2_pos 52 ltac:(lia)) as H52.
      assert (H1 : (2 ^ (Zpos (digits2_pos m) - 1) < 2 ^ (Zpos (digits2_pos my) + 52))%Z).
      { rewrite (Z.pow_add_r 2 (Zpos (digits2_pos my))) by lia.
        eapply Z.le_lt_trans; [exact Hm1|]. apply Z.mul_lt_mono_pos_r; assumption. }
      assert (H2 : (2 ^ (Zpos (digits2_pos my) - 1 + 52) < 2 ^ Zpos (digits2_pos m))%Z).
      { rewrite (Z.pow_add_r 2 (Zpos (digits2_pos my) - 1)) by lia.
        eapply Z.le_lt_trans; [|exact Hm2]. apply Z.mul_le_mono_nonneg_r; lia. }
      apply Zpow2_lt_inv in H1; [|lia]. apply Zpow2_lt_inv in H2; lia. }
    assert (He : fexp prec emax (Zpos (digits2_pos m) + (-52 + ey)) = ey).
    { rewrite fexp64, Hd. lia. }
    assert (HX : inject_Z (Zpos m) * pow2 (-52 + ey) == mag my ey).
    { unfold mag. rewrite Hm, inject_Z_mult, pow2_add, <- (pow2_Z 52) by lia.
      assert (E : pow2 52 * pow2 (-52) == 1) by (vm_compute; reflexivity).
      rewrite <- (Qmult_1_l (inject_Z (Zpos my) * pow2 ey)), <- E. ring. }
    assert (HB' : mag my ey < pow2 1023).
    { rewrite SF2Q_mag in HB. pose proof (mag_pos my ey).
      destruct sy; [rewrite Qabs_opp in HB|]; rewrite Qabs_pos in HB; lra. }
    destruct (binary_round_aux_representable sy m (-52 + ey) (Zpos my)) as [Hfin Hval].
    + rewrite He. lia.
    + rewrite He, Hm. f_equal. f_equal. lia.
    + rewrite HX. exact HB'.
    + split; [exact Hfin|]. rewrite Hval, HX, SF2Q_mag. unfold sgn. destruct sy; ring.
Qed.
End Comparison.

(** ** The operations on [float] *)
Section Floats.
Local Open Scope Q_scope.

Lemma finite_valid (x : float) : valid_binary (Prim2SF x) = true.
Proof. apply Prim2SF_valid. Qed.

Lemma add_error (x y : float) :
  finite x = true -> finite y = true ->
  Qabs (F2Q x + F2Q y) < pow2 1023 ->
  finite (x + y) = true
  /\ Qabs (F2Q (x + y) - (F2Q x + F2Q y)) <= rnd_err (F2Q x + F2Q y).
Proof. unfold finite, F2Q. rewrite add_spec. apply SFadd_error. Qed.

Lemma sub_error (x y : float) :
  finite x = true -> finite y = true ->
  Qabs (F2Q x - F2Q y) < pow2 1023 ->
  finite (x - y) = true
  /\ Qabs (F2Q (x - y) - (F2Q x - F2Q y)) <= rnd_err (F2Q x - F2Q y).
Proof. unfold finite, F2Q. rewrite sub_spec. apply SFsub_error. Qed.

Lemma mul_error (x y : float) :
  finite x = true -> finite y = true ->
  Qabs (F2Q x * F2Q y) < pow2 1023 ->
  finite (x * y) = true
  /\ Qabs (F2Q (x * y) - F2Q x * F2Q y) <= rnd_err (F2Q x * F2Q y).
Proof. unfold finite, F2Q. rewrite mul_spec. apply SFmul_error; apply Prim2SF_valid. Qed.

Lemma leb_value (x y : float) :
  finite x = true -> finite y = true ->
  (x <=? y)%float = true <-> F2Q x <= F2Q y.
Proof. unfold finite, F2Q. rewrite leb_spec. apply SFleb_spec; apply Prim2SF_valid. Qed.

Lemma ltb_value (x y : float) :
  finite x = true -> finite y = true ->
  (x <? y)%float = true <-> F2Q x < F2Q y.
Proof. unfold finite, F2Q. rewrite ltb_spec. apply SFltb_spec; apply Prim2SF_valid. Qed.

Lemma leb_between (a x b : float) :
  finite a = true -> finite b = true ->
  (a <=? x)%float = true -> (x <=? b)%float = true ->
  finite x = true /\ F2Q a <= F2Q x <= F2Q b.
Proof.
  intros Ha Hb Hax Hxb.
  assert (Hx : finite x = true).
  { unfold finite in *. rewrite leb_spec in Hax, Hxb. exact (SFleb_between _ _ _ Ha Hb Hax Hxb). }
  split; [exact Hx|]. split; apply leb_value; assumption.
Qed.

Lemma abs_leb (x c : float) :
  finite c = true -> (abs x <=? c)%float = true ->
  finite x = true /\ Qabs (F2Q x) <= F2Q c.
Proof.
  intros Hc Hle.
  assert (Hx : finite x = true).
  { unfold finite in *. rewrite leb_spec, abs_spec in Hle. exact (SFabs_leb_finite _ _ Hc Hle). }
  split; [exact Hx|].
  assert (Ha : finite (abs x) = true) by (unfold finite; rewrite abs_spec, SFabs_finite; exact Hx).
  apply leb_value in Hle; [|exact Ha|exact Hc].
  unfold F2Q in *. rewrite abs_spec, SFabs_value in Hle. exact Hle.
Qed.

Lemma mul_one_l (y : float) :
  finite y = true -> Qabs (F2Q y) < pow2 1023 ->
  finite (1 * y) = true /\ F2Q (1 * y) == F2Q y.
Proof.
  unfold finite, F2Q. rewrite mul_spec. intros Hf HB.
  exact (SFmul_one_l (Prim2SF y) (Prim2SF_valid y) Hf HB).
Qed.

Lemma mul_zero_l (y : float) :
  finite y = true -> finite (0 * y) = true /\ F2Q (0 * y) == 0.
Proof.
  unfold finite, F2Q. rewrite mul_spec. change (Prim2SF 0) with (S754_zero false).
  destruct (Prim2SF y); try discriminate; intros _; split; reflexivity.
Qed.
End Floats.

(** ** One operation within numeric bounds *)

Section Steps.
Local Open Scope Q_scope.

Lemma pow2_53 : pow2 (-53) == u64.
Proof. vm_compute. reflexivity. Qed.

Lemma pow2_1075 : pow2 (-1075) <= tiny.
Proof.
  apply Qle_trans with (pow2 (-100)); [apply pow2_le; lia|].
  apply Qle_bool_iff. vm_compute. reflexivity.
Qed.

Lemma big_lt : big < pow2 1023.
Proof.
  apply Qle_lt_trans with (pow2 100).
  - apply Qle_bool_iff. vm_compute. reflexivity.
  - apply Qpower_lt_compat_l; [lia | reflexivity].
Qed.

Lemma rnd_err_le (X M : Q) : - M <= X <= M -> rnd_err X <= u64 * M + tiny.
Proof.
  intros HX. unfold rnd_err. rewrite pow2_53. pose proof pow2_1075.
  assert (Qabs X <= M) by (apply Qabs_Qle_condition; exact HX).
  assert (u64 * Qabs X <= u64 * M) by (apply Qmult_le_l; [reflexivity | assumption]).
  lra.
Qed.

Lemma within (v X E : Q) : Qabs (v - X) <= E -> - E <= v - X <= E.
Proof. intros H. apply Qabs_Qle_condition in H. exact H. Qed.

Lemma add_step (x y : float) (M : Q) :
  finite x = true -> finite y = true ->
  - M <= F2Q x + F2Q y <= M -> M <= big ->
  finite (x + y) = true
  /\ - (u64 * M + tiny) <= F2Q (x + y) - (F2Q x + F2Q y) <= u64 * M + tiny.
Proof.
  intros Hx Hy HM Hbig. pose proof big_lt.
  destruct (add_error x y Hx Hy) as [Hf He].
  { apply Qle_lt_trans with M; [apply Qabs_Qle_condition; exact HM | lra]. }
  split; [exact Hf|]. apply within. eapply Qle_trans; [exact He|]. apply rnd_err_le, HM.
Qed.

Lemma sub_step (x y : float) (M : Q) :
  finite x = true -> finite y = true ->
  - M <= F2Q x - F2Q y <= M -> M <= big ->
  finite (x - y) = true
  /\ - (u64 * M + tiny) <= F2Q (x - y) - (F2Q x - F2Q y) <= u64 * M + tiny.
Proof.
  intros Hx Hy HM Hbig. pose proof big_lt.
  destruct (sub_error x y Hx Hy) as [Hf He].
  { apply Qle_lt_trans with M; [apply Qabs_Qle_condition; exact HM | lra]. }
  split; [exact Hf|]. apply within. eapply Qle_trans; [exact He|]. apply rnd_err_le, HM.
Qed.

Lemma mul_step (x y : float) (A B : Q) :
  finite x = true -> finite y = true ->
  - A <= F2Q x <= A -> - B <= F2Q y <= B -> A * B <= big ->
  finite (x * y) = true
  /\ - (u64 * (A * B) + tiny) <= F2Q (x * y) - F2Q x * F2Q y <= u64 * (A * B) + tiny
  /\ - (A * B) <= F2Q x * F2Q y <= A * B.
Proof.
  intros Hx Hy HA HB Hbig. pose proof big_lt.
  assert (HM : - (A * B) <= F2Q x * F2Q y <= A * B).
  { apply Qabs_Qle_condition. rewrite Qabs_Qmult.
    assert (Qabs (F2Q x) <= A) by (apply Qabs_Qle_condition; exact HA).
    assert (Qabs (F2Q y) <= B) by (apply Qabs_Qle_condition; exact HB).
    pose proof (Qabs_nonneg (F2Q x)). pose proof (Qabs_nonneg (F2Q y)).
    apply Qle_trans with (A * Qabs (F2Q y)).
    - apply Qmult_le_compat_r; assumption.
    - rewrite (Qmult_comm A (Qabs (F2Q y))), (Qmult_comm A B).
      apply Qmult_le_compat_r; [assumption | lra]. }
  destruct (mul_error x y Hx Hy) as [Hf He].
  { apply Qle_lt_trans with (A * B); [apply Qabs_Qle_condition; exact HM | lra]. }
  split; [exact Hf|]. split; [|exact HM].
  apply within. eapply Qle_trans; [exact He|]. apply rnd_err_le, HM.
Qed.
Lemma F2Q_literal (f : float) (q : Q) : Qeq_bool (F2Q f) q = true -> F2Q f == q.
Proof. apply Qeq_bool_iff. Qed.

Lemma abs_leb_bound (x c : float) (C : Q) :
  finite c = true -> F2Q c == C -> (abs x <=? c)%float = true ->
  finite x = true /\ - C <= F2Q x <= C.
Proof.
  intros Hc HC Hle. destruct (abs_leb x c Hc Hle) as [Hx Hb].
  split; [exact Hx|]. apply Qabs_Qle_condition. rewrite <- HC. exact Hb.
Qed.

Lemma leb_abs_intro (d tol : float) (E : Q) :
  finite d = true -> finite tol = true ->
  - E <= F2Q d <= E -> E <= F2Q tol -> (abs d <=? tol)%float = true.
Proof.
  intros Hd Ht HE Htol.
  assert (Ha : finite (abs d) = true) by (unfold finite; rewrite abs_spec, SFabs_finite; exact Hd).
  apply leb_value; [exact Ha | exact Ht |].
  unfold F2Q. rewrite abs_spec, SFabs_value. fold (F2Q d).
  apply Qle_trans with E; [|exact Htol]. apply Qabs_Qle_condition. exact HE.
Qed.

(** Multiplication by a corner value, 0 or 1, is exact. *)
Lemma mul_corner_l (b : bool) (y : float) (B : Q) :
  finite y = true -> - B <= F2Q y <= B -> B <= big ->
  finite (corner b * y) = true /\ F2Q (corner b * y) == (if b then F2Q y else 0).
Proof.
  intros Hy HB Hbig. destruct b; cbn [corner].
  - apply mul_one_l; [exact Hy|]. pose proof big_lt.
    apply Qle_lt_trans with B; [apply Qabs_Qle_condition; exact HB | lra].
  - apply mul_zero_l. exact Hy.
Qed.
End Steps.

Ltac literal := apply F2Q_literal; vm_compute; reflexivity.
Ltac small := unfold big; lra.
Ltac pick k := first [k true | k false].

(** ** The sums of the basis coefficients *)

Section BasisDoubles.
Local Open Scope Q_scope.

Lemma Tet1NL_sum_doubles (xi0 xi1 xi2 : float) :
  (fabs xi0 <=? 700000%float)%re = true ->
  (fabs xi1 <=? 700000%float)%re = true ->
  (fabs xi2 <=? 700000%float)%re = true ->
  sums_to_one_within 1e-9%float (basis_Tet1NL xi0 xi1 xi2) = true.
Proof.
  intros H0 H1 H2.
  assert (Hc : finite 700000 = true) by reflexivity.
  assert (HC : F2Q 700000 == 700000) by literal.
  destruct (abs_leb_bound _ _ _ Hc HC H0) as [Hx Bx].
  destruct (abs_leb_bound _ _ _ Hc HC H1) as [Hy By].
  destruct (abs_leb_bound _ _ _ Hc HC H2) as [Hz Bz].
  clear H0 H1 H2 Hc HC.
  assert (Hone : finite 1 = true) by reflexivity.
  assert (Vone : F2Q 1 == 1) by literal.
  assert (Hzero : finite 0 = true) by reflexivity.
  assert (Vzero : F2Q 0 == 0) by literal.
  unfold sums_to_one_within, basis_Tet1NL, rsum.
  cbn [foldl radd rsub rmul rzero rone fabs rleb float_ops].
  destruct (sub_step 1 xi0 700020 Hone Hx ltac:(lra) ltac:(small)) as [Hf_c0_1 He_c0_1].
  unfold u64, tiny in He_c0_1. set (c0_1 := (1 - xi0)%float) in *.
  destruct (sub_step c0_1 xi1 1400200 Hf_c0_1 Hy ltac:(lra) ltac:(small)) as [Hf_c0_2 He_c0_2].
  unfold u64, tiny in He_c0_2. set (c0_2 := (c0_1 - xi1)%float) in *.
  destruct (sub_step c0_2 xi2 2100200 Hf_c0_2 Hz ltac:(lra) ltac:(small)) as [Hf_c0 He_c0].
  unfold u64, tiny in He_c0. set (c0 := (c0_2 - xi2)%float) in *.
  destruct (add_step 0 c0 2100200 Hzero Hf_c0 ltac:(lra) ltac:(small)) as [Hf_s1 He_s1].
  unfold u64, tiny in He_s1. set (s1 := (0 + c0)%float) in *.
  destruct (add_step s1 xi0 1400200 Hf_s1 Hx ltac:(lra) ltac:(small)) as [Hf_s2 He_s2].
  unfold u64, tiny in He_s2. set (s2 := (s1 + xi0)%float) in *.
  destruct (add_step s2 xi1 700020 Hf_s2 Hy ltac:(lra) ltac:(small)) as [Hf_s3 He_s3].
  unfold u64, tiny in He_s3. set (s3 := (s2 + xi1)%float) in *.
  destruct (add_step s3 xi2 (5001 # 5000) Hf_s3 Hz ltac:(lra) ltac:(small)) as [Hf_s4 He_s4].
  unfold u64, tiny in He_s4. set (s4 := (s3 + xi2)%float) in *.
  destruct (sub_step s4 1 (9327 # 10000000000000) Hf_s4 Hone ltac:(lra) ltac:(small)) as [Hf_d He_d].
  unfold u64, tiny in He_d. set (d := (s4 - 1)%float) in *.
  apply (leb_abs_intro d _ (187 # 200000000000)); [exact Hf_d | reflexivity | |].
  - lra.
  - apply Qle_bool_iff. vm_compute. reflexivity.
Qed.


Lemma Hex1NL_sum_doubles (xi0 xi1 xi2 : float) :
  (fabs xi0 <=? 90%float)%re = true ->
  (fabs xi1 <=? 90%float)%re = true ->
  (fabs xi2 <=? 90%float)%re = true ->
  sums_to_one_within 1e-9%float (basis_Hex1NL xi0 xi1 xi2) = true.
Proof.
  intros H0 H1 H2.
  assert (Hc : finite 90 = true) by reflexivity.
  assert (HC : F2Q 90 == 90) by literal.
  destruct (abs_leb_bound _ _ _ Hc HC H0) as [Hx Bx].
  destruct (abs_leb_bound _ _ _ Hc HC H1) as [Hy By].
  destruct (abs_leb_bound _ _ _ Hc HC H2) as [Hz Bz].
  clear H0 H1 H2 Hc HC.
  assert (Hone : finite 1 = true) by reflexivity.
  assert (Vone : F2Q 1 == 1) by literal.
  assert (Hzero : finite 0 = true) by reflexivity.
  assert (Vzero : F2Q 0 == 0) by literal.
  unfold sums_to_one_within, basis_Hex1NL, rsum.
  cbn [foldl radd rsub rmul rzero rone fabs rleb float_ops].
  unfold u64, tiny in *.
  destruct (mul_step xi0 xi1 90 90 Hx Hy Bx By ltac:(small)) as (Hf01 & He01 & Hm01).
  assert (B01 : - (405001 # 50) <= F2Q (xi0 * xi1) <= (405001 # 50)) by (unfold u64, tiny in *; lra).
  clear He01 Hm01. set (p01 := (xi0 * xi1)%float) in *.
  destruct (mul_step p01 xi2 (405001 # 50) 90 Hf01 Hz B01 Bz ltac:(small)) as (Hf012 & He012 & Hm012).
  assert (B012 : - (36450091 # 50) <= F2Q (p01 * xi2) <= (36450091 # 50)) by (unfold u64, tiny in *; lra).
  clear He012 Hm012. set (p012 := (p01 * xi2)%float) in *.
  destruct (mul_step xi1 xi2 90 90 Hy Hz By Bz ltac:(small)) as (Hf12 & He12 & Hm12).
  assert (B12 : - (405001 # 50) <= F2Q (xi1 * xi2) <= (405001 # 50)) by (unfold u64, tiny in *; lra).
  clear He12 Hm12. set (p12 := (xi1 * xi2)%float) in *.
  destruct (mul_step xi0 xi2 90 90 Hx Hz Bx Bz ltac:(small)) as (Hf02 & He02 & Hm02).
  assert (B02 : - (405001 # 50) <= F2Q (xi0 * xi2) <= (405001 # 50)) by (unfold u64, tiny in *; lra).
  clear He02 Hm02. set (p02 := (xi0 * xi2)%float) in *.
  destruct (sub_step 1 xi0 (91001 # 1000) Hone Hx ltac:(lra) ltac:(small)) as [Hf_c0_1 He_c0_1].
  unfold u64, tiny in He_c0_1. set (c0_1 := (1 - xi0)%float) in *.
  destruct (sub_step c0_1 xi1 (9051 # 50) Hf_c0_1 Hy ltac:(lra) ltac:(small)) as [Hf_c0_2 He_c0_2].
  unfold u64, tiny in He_c0_2. set (c0_2 := (c0_1 - xi1)%float) in *.
  destruct (sub_step c0_2 xi2 (13551 # 50) Hf_c0_2 Hz ltac:(lra) ltac:(small)) as [Hf_c0_3 He_c0_3].
  unfold u64, tiny in He_c0_3. set (c0_3 := (c0_2 - xi2)%float) in *.
  destruct (add_step c0_3 p01 (41856 # 5) Hf_c0_3 Hf01 ltac:(lra) ltac:(small)) as [Hf_c0_4 He_c0_4].
  unfold u64, tiny in He_c0_4. set (c0_4 := (c0_3 + p01)%float) in *.
  destruct (add_step c0_4 p02 16473 Hf_c0_4 Hf02 ltac:(lra) ltac:(small)) as [Hf_c0_5 He_c0_5].
  unfold u64, tiny in He_c0_5. set (c0_5 := (c0_4 + p02)%float) in *.
  destruct (add_step c0_5 p12 24573 Hf_c0_5 Hf12 ltac:(lra) ltac:(small)) as [Hf_c0_6 He_c0_6].
  unfold u64, tiny in He_c0_6. set (c0_6 := (c0_5 + p12)%float) in *.
  destruct (sub_step c0_6 p012 753590 Hf_c0_6 Hf012 ltac:(lra) ltac:(small)) as [Hf_c0 He_c0].
  unfold u64, tiny in He_c0. set (c0 := (c0_6 - p012)%float) in *.
  destruct (sub_step xi0 p01 (40951 # 5) Hx Hf01 ltac:(lra) ltac:(small)) as [Hf_c1_1 He_c1_1].
  unfold u64, tiny in He_c1_1. set (c1_1 := (xi0 - p01)%float) in *.
  destruct (sub_step c1_1 p02 16292 Hf_c1_1 Hf02 ltac:(lra) ltac:(small)) as [Hf_c1_2 He_c1_2].
  unfold u64, tiny in He_c1_2. set (c1_2 := (c1_1 - p02)%float) in *.
  destruct (add_step c1_2 p012 745310 Hf_c1_2 Hf012 ltac:(lra) ltac:(small)) as [Hf_c1 He_c1].
  unfold u64, tiny in He_c1. set (c1 := (c1_2 + p012)%float) in *.
  destruct (sub_step xi1 p01 (40951 # 5) Hy Hf01 ltac:(lra) ltac:(small)) as [Hf_c2_1 He_c2_1].
  unfold u64, tiny in He_c2_1. set (c2_1 := (xi1 - p01)%float) in *.
  destruct (sub_step c2_1 p12 16292 Hf_c2_1 Hf12 ltac:(lra) ltac:(small)) as [Hf_c2_2 He_c2_2].
  unfold u64, tiny in He_c2_2. set (c2_2 := (c2_1 - p12)%float) in *.
  destruct (add_step c2_2 p012 745310 Hf_c2_2 Hf012 ltac:(lra) ltac:(small)) as [Hf_c2 He_c2].
  unfold u64, tiny in He_c2. set (c2 := (c2_2 + p012)%float) in *.
  destruct (sub_step p01 p012 737120 Hf01 Hf012 ltac:(lra) ltac:(small)) as [Hf_c3 He_c3].
  unfold u64, tiny in He_c3. set (c3 := (p01 - p012)%float) in *.
  destruct (sub_step xi2 p02 (40951 # 5) Hz Hf02 ltac:(lra) ltac:(small)) as [Hf_c4_1 He_c4_1].
  unfold u64, tiny in He_c4_1. set (c4_1 := (xi2 - p02)%float) in *.
  destruct (sub_step c4_1 p12 16292 Hf_c4_1 Hf12 ltac:(lra) ltac:(small)) as [Hf_c4_2 He_c4_2].
  unfold u64, tiny in He_c4_2. set (c4_2 := (c4_1 - p12)%float) in *.
  destruct (add_step c4_2 p012 745310 Hf_c4_2 Hf012 ltac:(lra) ltac:(small)) as [Hf_c4 He_c4].
  unfold u64, tiny in He_c4. set (c4 := (c4_2 + p012)%float) in *.
  destruct (sub_step p02 p012 737120 Hf02 Hf012 ltac:(lra) ltac:(small)) as [Hf_c5 He_c5].
  unfold u64, tiny in He_c5. set (c5 := (p02 - p012)%float) in *.
  destruct (sub_step p12 p012 737120 Hf12 Hf012 ltac:(lra) ltac:(small)) as [Hf_c6 He_c6].
  unfold u64, tiny in He_c6. set (c6 := (p12 - p012)%float) in *.
  destruct (add_step 0 c0 753590 Hzero Hf_c0 ltac:(lra) ltac:(small)) as [Hf_s1 He_s1].
  unfold u64, tiny in He_s1. set (s1 := (0 + c0)%float) in *.
  destruct (add_step s1 c1 (41406 # 5) Hf_s1 Hf_c1 ltac:(lra) ltac:(small)) as [Hf_s2 He_s2].
  unfold u64, tiny in He_s2. set (s2 := (s1 + c1)%float) in *.
  destruct (add_step s2 c2 737210 Hf_s2 Hf_c2 ltac:(lra) ltac:(small)) as [Hf_s3 He_s3].
  unfold u64, tiny in He_s3. set (s3 := (s2 + c2)%float) in *.
  destruct (add_step s3 c3 (45501 # 500) Hf_s3 Hf_c3 ltac:(lra) ltac:(small)) as [Hf_s4 He_s4].
  unfold u64, tiny in He_s4. set (s4 := (s3 + c3)%float) in *.
  destruct (add_step s4 c4 745220 Hf_s4 Hf_c4 ltac:(lra) ltac:(small)) as [Hf_s5 He_s5].
  unfold u64, tiny in He_s5. set (s5 := (s4 + c4)%float) in *.
  destruct (add_step s5 c5 (40506 # 5) Hf_s5 Hf_c5 ltac:(lra) ltac:(small)) as [Hf_s6 He_s6].
  unfold u64, tiny in He_s6. set (s6 := (s5 + c5)%float) in *.
  destruct (add_step s6 c6 729020 Hf_s6 Hf_c6 ltac:(lra) ltac:(small)) as [Hf_s7 He_s7].
  unfold u64, tiny in He_s7. set (s7 := (s6 + c6)%float) in *.
  destruct (add_step s7 p012 (5001 # 5000) Hf_s7 Hf012 ltac:(lra) ltac:(small)) as [Hf_s8 He_s8].
  unfold u64, tiny in He_s8. set (s8 := (s7 + p012)%float) in *.
  destruct (sub_step s8 1 (46107 # 50000000000000) Hf_s8 Hone ltac:(lra) ltac:(small)) as [Hf_d He_d].
  unfold u64, tiny in He_d. set (d := (s8 - 1)%float) in *.
  apply (leb_abs_intro d _ (37 # 40000000000)); [exact Hf_d | reflexivity | |].
  - lra.
  - apply Qle_bool_iff. vm_compute. reflexivity.
Qed.

End BasisDoubles.

(** ** The blend of [pointSearchLinHex] *)

Section BlendDoubles.
Local Open Scope Q_scope.

(** One addition, with the least of three bounds on its exact result that
    the context gives. *)
Ltac add_least x y Hx Hy Hf He :=
  first
    [ destruct (add_step x y (1001 # 1000) Hx Hy ltac:(lra) ltac:(small)) as [Hf He]
    | destruct (add_step x y (2001 # 1000) Hx Hy ltac:(lra) ltac:(small)) as [Hf He]
    | destruct (add_step x y (3001 # 1000) Hx Hy ltac:(lra) ltac:(small)) as [Hf He] ];
  unfold u64, tiny in He.

Lemma blend1_lower (b0 b1 b2 b3 : bool) (x y z : float) :
  blend_bits b0 b1 b2 b3 = true ->
  finite x = true -> finite y = true -> finite z = true ->
  0 <= F2Q x <= 1 -> 0 <= F2Q y <= 1 -> 0 <= F2Q z <= 1 ->
  finite (blend1 b0 b1 b2 b3 x y z) = true
  /\ - (9 # 10000000000000000) <= F2Q (blend1 b0 b1 b2 b3 x y z).
Proof.
  intros Hbits Hx Hy Hz Bx By Bz.
  assert (Hone : finite 1 = true) by reflexivity.
  assert (Vone : F2Q 1 == 1) by literal.
  unfold blend1.
  destruct (sub_step 1 x (1001 # 1000) Hone Hx ltac:(lra) ltac:(small)) as [Hf1 He1].
  unfold u64, tiny in He1. set (t1 := (1 - x)%float) in *.
  destruct (sub_step t1 y (1001 # 1000) Hf1 Hy ltac:(lra) ltac:(small)) as [Hf2 He2].
  unfold u64, tiny in He2. set (t2 := (t1 - y)%float) in *.
  destruct (sub_step t2 z (2001 # 1000) Hf2 Hz ltac:(lra) ltac:(small)) as [Hf3 He3].
  unfold u64, tiny in He3. set (t3 := (t2 - z)%float) in *.
  destruct (mul_corner_l b0 t3 3 Hf3 ltac:(lra) ltac:(small)) as [Hg0 Em0].
  destruct (mul_corner_l b1 x 1 Hx ltac:(lra) ltac:(small)) as [Hg1 Em1].
  destruct (mul_corner_l b2 y 1 Hy ltac:(lra) ltac:(small)) as [Hg2 Em2].
  destruct (mul_corner_l b3 z 1 Hz ltac:(lra) ltac:(small)) as [Hg3 Em3].
  set (m0 := (corner b0 * t3)%float) in *. set (m1 := (corner b1 * x)%float) in *.
  set (m2 := (corner b2 * y)%float) in *. set (m3 := (corner b3 * z)%float) in *.
  clearbody m0 m1 m2 m3.
  destruct b0, b1, b2, b3; try discriminate Hbits; clear Hbits;
    add_least m0 m1 Hg0 Hg1 Ha1 Ea1; set (a1 := (m0 + m1)%float) in *;
    add_least a1 m2 Ha1 Hg2 Ha2 Ea2; set (a2 := (a1 + m2)%float) in *;
    add_least a2 m3 Ha2 Hg3 Ha3 Ea3; set (a3 := (a2 + m3)%float) in *;
    (split; [exact Ha3 | lra]).
Qed.
End BlendDoubles.

Section SearchDoubles.
Local Open Scope Q_scope.

Lemma isInUnitCube_doubles (xi : vec3 float) :
  isInUnitCube xi 0%float = true ->
  (finite (_x xi) = true /\ 0 <= F2Q (_x xi) <= 1)
  /\ (finite (_y xi) = true /\ 0 <= F2Q (_y xi) <= 1)
  /\ (finite (_z xi) = true /\ 0 <= F2Q (_z xi) <= 1).
Proof.
  unfold isInUnitCube. rewrite !andb_true_iff.
  cbn [rleb ropp radd rone float_ops].
  assert (Hlo : finite (- 0)%float = true) by reflexivity.
  assert (Vlo : F2Q (- 0)%float == 0) by literal.
  assert (Hhi : finite (1 + 0)%float = true) by reflexivity.
  assert (Vhi : F2Q (1 + 0)%float == 1) by literal.
  intros [[[[[Hx1 Hx2] Hy1] Hy2] Hz1] Hz2].
  pose proof (leb_between _ _ _ Hlo Hhi Hx1 Hx2) as [Hfx Bx].
  pose proof (leb_between _ _ _ Hlo Hhi Hy1 Hy2) as [Hfy By].
  pose proof (leb_between _ _ _ Hlo Hhi Hz1 Hz2) as [Hfz Bz].
  rewrite Vlo, Vhi in Bx, By, Bz. repeat split; tauto.
Qed.

Lemma tetBlend_lower_doubles (row : list (vec3 float)) (xi : vec3 float) :
  row ∈ divtets ->
  isInUnitCube xi 0%float = true ->
  let r := tetBlend row xi in
  (finite (_x r) = true /\ - (9 # 10000000000000000) <= F2Q (_x r))
  /\ (finite (_y r) = true /\ - (9 # 10000000000000000) <= F2Q (_y r))
  /\ (finite (_z r) = true /\ - (9 # 10000000000000000) <= F2Q (_z r)).
Proof.
  intros Hrow Hxi. apply isInUnitCube_doubles in Hxi as ((Hx & Bx) & (Hy & By) & (Hz & Bz)).
  unfold divtets in Hrow.
  repeat (apply elem_of_cons in Hrow as [-> | Hrow]); [ .. | by apply elem_of_nil in Hrow ];
    cbv zeta; repeat split;
    pick ltac:(fun b0 => pick ltac:(fun b1 => pick ltac:(fun b2 => pick ltac:(fun b3 =>
      first [ exact (proj1 (blend1_lower b0 b1 b2 b3 _ _ _ eq_refl Hx Hy Hz Bx By Bz))
            | exact (proj2 (blend1_lower b0 b1 b2 b3 _ _ _ eq_refl Hx Hy Hz Bx By Bz)) ])))).
Qed.

Lemma ltb_false_of_lower (c x : float) (C : Q) :
  finite c = true -> F2Q c <= C -> finite x = true -> C <= F2Q x -> (x <? c)%float = false.
Proof.
  intros Hc HC Hx HCx. destruct (x <? c)%float eqn:E; [|reflexivity].
  apply ltb_value in E; [|exact Hx|exact Hc]. lra.
Qed.

Lemma tetBlend_not_below (row : list (vec3 float)) (xi : vec3 float) :
  row ∈ divtets ->
  isInUnitCube xi 0%float = true ->
  let r := tetBlend row xi in
  (_x r <? -1e-15)%float = false /\ (_y r <? -1e-15)%float = false
  /\ (_z r <? -1e-15)%float = false.
Proof.
  intros Hrow Hxi r.
  destruct (tetBlend_lower_doubles row xi Hrow Hxi) as ((Hx & Bx) & (Hy & By) & (Hz & Bz)).
  fold r in Hx, Bx, Hy, By, Hz, Bz.
  assert (Hc : finite (-1e-15) = true) by reflexivity.
  assert (HC : F2Q (-1e-15) <= - (9 # 10000000000000000))
    by (apply Qle_bool_iff; vm_compute; reflexivity).
  repeat split; eapply ltb_false_of_lower; eassumption.
Qed.

Lemma pointSearchLinHex_below_sentinel (pt n1 n2 n3 n4 n5 n6 n7 n8 : vec3 float) :
  let r := pointSearchLinHex pt n1 n2 n3 n4 n5 n6 n7 n8 in
  (_x r <? -1e-15)%float = true \/ (_y r <? -1e-15)%float = true
  \/ (_z r <? -1e-15)%float = true ->
  r = vec3_of (-1)%float.
Proof.
  intros r Hneg. subst r. revert Hneg.
  rewrite pointSearchLinHex_unfold.
  destruct (inAABB pt _ _); [|reflexivity].
  rewrite searchTets_find.
  destruct (List.find _ divtets) as [row|] eqn:Hfind; [|reflexivity].
  apply List.find_some in Hfind as [Hin Hok].
  apply list_elem_of_In in Hin.
  unfold inSimplex in Hok. apply andb_true_iff in Hok as [Hcube _].
  pose proof (tetBlend_not_below row _ Hin Hcube) as (Hx & Hy & Hz). cbv zeta in *.
  intros [H | [H | H]]; congruence.
Qed.
End SearchDoubles.

Section ClaimsDoubles.
Local Open Scope Q_scope.

(** ** The claims in doubles *)

(** C2, amended: in doubles, for every xi triple with each [|xi_k|] at most
    700000 the four coefficients of [basis_Tet1NL] sum to 1 within 1e-9,
    and for every xi triple with each [|xi_k|] at most 90 the eight
    coefficients of [basis_Hex1NL] sum to 1 within 1e-9 (the sums taken
    first to last, the test being [fabs(sum-1.0) <= 1e-9] in doubles too);
    at the eight corner triples, each xi 0 or 1, both sums are exactly 1;
    and in exact arithmetic both sums are exactly 1 for every xi triple. *)
Theorem basis_sum_within_tolerance :
  (forall xi0 xi1 xi2 : float,
     (fabs xi0 <=? 700000%float)%re = true ->
     (fabs xi1 <=? 700000%float)%re = true ->
     (fabs xi2 <=? 700000%float)%re = true ->
     sums_to_one_within 1e-9%float (basis_Tet1NL xi0 xi1 xi2) = true)
  /\ (forall xi0 xi1 xi2 : float,
        (fabs xi0 <=? 90%float)%re = true ->
        (fabs xi1 <=? 90%float)%re = true ->
        (fabs xi2 <=? 90%float)%re = true ->
        sums_to_one_within 1e-9%float (basis_Hex1NL xi0 xi1 xi2) = true)
  /\ (forall b0 b1 b2 : bool,
        sums_to_one (basis_Tet1NL (corner b0) (corner b1) (corner b2)) = true
        /\ sums_to_one (basis_Hex1NL (corner b0) (corner b1) (corner b2)) = true)
  /\ (forall xi0 xi1 xi2 : Q,
        rsum (basis_Tet1NL xi0 xi1 xi2) == 1 /\ rsum (basis_Hex1NL xi0 xi1 xi2) == 1)%Q.
Proof.
  split; [exact Tet1NL_sum_doubles|]. split; [exact Hex1NL_sum_doubles|]. split.
  - intros [] [] []; split; vm_compute; reflexivity.
  - intros xi0 xi1 xi2. unfold rsum, basis_Tet1NL, basis_Hex1NL. cbn. split; ring.
Qed.

(** C1, amended: [pointSearchLinHex] in doubles.  The table [divtets] has
    the five rows written out below, and [tetXi] runs [pointSearchLinTet]
    on the four vertices [hexInterp] makes of a row.  A point that fails
    the bounding-box test of the eight nodes gets the sentinel (-1,-1,-1).
    Otherwise the rows are tried in order: for the first row whose [xi]
    passes [inSimplex] (in the unit cube, coordinates summing to at most
    [1+dEPSILON]) the result is the row's four corner xi triples weighted
    by [1-xi0-xi1-xi2], [xi0], [xi1] and [xi2], and no component of it is
    below -1e-15; when no row passes, the result is the sentinel.  Every
    component of the sentinel is negative, and a result with a component
    below -1e-15 is the sentinel.  In exact arithmetic: [hexInterp] at a
    corner of the reference cell is the node of that corner; the
    bounding-box test passes exactly when on every axis some node lies
    below the point and some node above it, within [dEPSILON]; the [xi] of
    a row that passes [inSimplex] are the barycentric coordinates of the
    point in the row's tetrahedron, unless it is degenerate; and a result
    with a negative component is the sentinel. *)
Theorem pointSearchLinHex_first_containing_tet (pt n1 n2 n3 n4 n5 n6 n7 n8 : vec3 float) :
  let bounds := hexBounds n1 n2 n3 n4 n5 n6 n7 n8 in
  let vertex := hexInterp n1 n2 n3 n4 n5 n6 n7 n8 in
  let xi := tetXi pt n1 n2 n3 n4 n5 n6 n7 n8 in
  let r := pointSearchLinHex pt n1 n2 n3 n4 n5 n6 n7 n8 in
  let sentinel : vec3 float := Vec3 (-1)%float (-1)%float (-1)%float in
  (divtets (real:=float)
   = [ [Vec3 0 0 0; Vec3 1 0 1; Vec3 1 1 0; Vec3 0 1 1];
       [Vec3 0 0 0; Vec3 1 1 0; Vec3 0 1 0; Vec3 0 1 1];
       [Vec3 0 0 0; Vec3 1 0 1; Vec3 0 1 1; Vec3 0 0 1];
       [Vec3 1 0 1; Vec3 1 1 0; Vec3 0 1 1; Vec3 1 1 1];
       [Vec3 0 0 0; Vec3 1 0 0; Vec3 1 1 0; Vec3 1 0 1] ]%float
   /\ (forall c0 c1 c2 c3 : vec3 float,
         xi [c0; c1; c2; c3]
         = pointSearchLinTet pt (vertex c0) (vertex c1) (vertex c2) (vertex c3))
   /\ (forall v : vec3 float,
         inSimplex v
         = isInUnitCube v 0%float && (_x v + _y v + _z v <=? 1 + 1e-10)%float)) /\
  (inAABB pt (fst bounds) (snd bounds) = false -> r = sentinel) /\
  (inAABB pt (fst bounds) (snd bounds) = true ->
     (forall (t : nat) (c0 c1 c2 c3 : vec3 float),
        divtets !! t = Some [c0; c1; c2; c3] ->
        (forall (s : nat) (row' : list (vec3 float)),
           (s < t)%nat -> divtets !! s = Some row' -> inSimplex (xi row') = false) ->
        inSimplex (xi [c0; c1; c2; c3]) = true ->
        let v := xi [c0; c1; c2; c3] in
        r = vadd (vadd (vadd (vscale c0 (1 - _x v - _y v - _z v)%float) (vscale c1 (_x v)))
                       (vscale c2 (_y v)))
                 (vscale c3 (_z v))
        /\ ~ below_tolerance r) /\
     ((forall row, row ∈ divtets -> inSimplex (xi row) = false) -> r = sentinel)) /\
  ((_x sentinel <? 0)%float = true /\ (_y sentinel <? 0)%float = true
   /\ (_z sentinel <? 0)%float = true /\ isInUnitCube sentinel 0%float = false
   /\ below_tolerance sentinel) /\
  (below_tolerance r -> r = sentinel) /\
  (forall q m1 m2 m3 m4 m5 m6 m7 m8 : vec3 Q,
     (forall b0 b1 b2 : bool,
        vec_eq (hexInterp m1 m2 m3 m4 m5 m6 m7 m8 (Vec3 (cornerQ b0) (cornerQ b1) (cornerQ b2)))
               (hexNode m1 m2 m3 m4 m5 m6 m7 m8 b0 b1 b2))
     /\ (inAABB q (fst (hexBounds m1 m2 m3 m4 m5 m6 m7 m8))
                  (snd (hexBounds m1 m2 m3 m4 m5 m6 m7 m8)) = true
         <-> Forall (fun c : vec3 Q -> Q =>
                       Exists (fun n => c n < c q + dEPSILON) [m1; m2; m3; m4; m5; m6; m7; m8]
                       /\ Exists (fun n => c q - dEPSILON < c n) [m1; m2; m3; m4; m5; m6; m7; m8])
                    [_x; _y; _z])
     /\ (forall c0 c1 c2 c3 : vec3 Q,
           let w := hexInterp m1 m2 m3 m4 m5 m6 m7 m8 in
           let x := tetXi q m1 m2 m3 m4 m5 m6 m7 m8 [c0; c1; c2; c3] in
           inSimplex x = true ->
           ~ tetDet (w c0) (w c1) (w c2) (w c3) == 0 ->
           vec_eq (tetPoint (w c0) (w c1) (w c2) (w c3) x) q)
     /\ (let res := pointSearchLinHex q m1 m2 m3 m4 m5 m6 m7 m8 in
         _x res < 0 \/ _y res < 0 \/ _z res < 0 -> res = vec3_of (- (1))))%Q.
Proof.
  intros bounds vertex xi r sentinel.
  split; [split; [reflexivity | split; [reflexivity | reflexivity]]|].
  split; [|split; [|split; [|split; [|]]]].
  - subst r. rewrite pointSearchLinHex_unfold. fold bounds. intros ->. reflexivity.
  - subst r. rewrite pointSearchLinHex_unfold. fold bounds. intros ->. split.
    + intros t c0 c1 c2 c3 Ht Hpre Hrow v.
      assert (Hr : searchTets pt n1 n2 n3 n4 n5 n6 n7 n8 divtets
                   = tetBlend [c0; c1; c2; c3] (xi [c0; c1; c2; c3])).
      { pose proof Ht as Ht'.
        apply list_elem_of_split_length in Ht' as (pre & post & Hsplit & Hlen).
        rewrite Hsplit. apply searchTets_first; [|exact Hrow].
        intros r' Hr'. apply list_elem_of_lookup in Hr' as [s Hs].
        apply (Hpre s).
        * apply lookup_lt_Some in Hs. lia.
        * rewrite Hsplit. rewrite lookup_app_l; [exact Hs|]. by apply lookup_lt_Some in Hs. }
      rewrite Hr. split; [reflexivity|].
      assert (Hin : [c0; c1; c2; c3] ∈ divtets (real:=float))
        by (apply list_elem_of_lookup; exists t; exact Ht).
      unfold inSimplex in Hrow. apply andb_true_iff in Hrow as [Hcube _].
      destruct (tetBlend_not_below _ _ Hin Hcube) as (Hx & Hy & Hz).
      unfold below_tolerance. intros [H | [H | H]]; congruence.
    + intros Hnone. etransitivity; [apply searchTets_none; exact Hnone | reflexivity].
  - unfold below_tolerance. repeat split; try reflexivity. left. reflexivity.
  - apply pointSearchLinHex_below_sentinel.
  - intros q m1 m2 m3 m4 m5 m6 m7 m8.
    split; [apply hexInterp_corner_exact|].
    split; [apply hexBounds_inAABB_exact|].
    split; [|apply pointSearchLinHex_negative_exact].
    intros c0 c1 c2 c3 w x Hx Hdet.
    exact (tetXi_barycentric_exact q m1 m2 m3 m4 m5 m6 m7 m8 [c0; c1; c2; c3] Hx Hdet).
Qed.
End ClaimsDoubles.

(** * Instances of the further properties on concrete objects *)

(** Decide a closed comparison of integers by evaluation. *)
Ltac zdec :=
  vm_compute; repeat split; first [reflexivity | discriminate].

Lemma local_2x2_data : data (this local_2x2) = Some [4; 0; 0; 9].
Proof. vm_compute. reflexivity. Qed.

Lemma local_2x2_well_formed : well_formed (this local_2x2).
Proof.
  unfold well_formed, stored. rewrite local_2x2_data.
  change (_n (this local_2x2)) with 2. change (_n_actual (this local_2x2)) with 2.
  change (_m (this local_2x2)) with 2. cbn [length]. lia.
Qed.

(** X2 on [local_2x2]. *)
Lemma fill_sets_every_cell_witness :
  exists e', fill 7 local_2x2 = (Returns tt, e')
    /\ getAt (elem := Element_real) 1 0 e' = (Returns 7, e').
Proof.
  destruct (fill_sets_every_cell (elem := Element_real) local_2x2 7 local_2x2_well_formed)
    as (e' & Hrun & _ & _ & _ & Hcells & _).
  exists e'. split; [exact Hrun|].
  apply Hcells; zdec.
Defined.

(** X3 on [local_2x2], grown to three rows. *)
Lemma setN_keeps_rows_witness :
  exists e', setN (elem := Element_real) 3 local_2x2 = (Returns tt, e')
    /\ _n (this e') = 3
    /\ at_ (elem := Element_real) (this e') 1 1 = 9.
Proof.
  destruct (setN_keeps_rows (elem := Element_real) local_2x2 3)
    as (e' & Hrun & _ & Hn & _ & _ & _ & Hcells & _).
  - reflexivity.
  - exact local_2x2_well_formed.
  - lia.
  - lia.
  - zdec.
  - exists e'. split; [exact Hrun|]. split; [exact Hn|].
    rewrite (Hcells 1 1).
    + vm_compute. reflexivity.
    + zdec.
    + zdec.
Defined.

(** X4 on [local_2x2]. *)
Lemma append_adds_row_witness :
  exists e', append (elem := Element_real) 5 1 local_2x2 = (Returns tt, e')
    /\ getAt (elem := Element_real) 2 1 e' = (Returns 5, e')
    /\ getAt (elem := Element_real) 1 1 e' = (Returns 9, e').
Proof.
  destruct (append_adds_row (elem := Element_real) local_2x2 5 1)
    as (e' & Hrun & _ & _ & _ & _ & Hnew & Hold & _).
  - reflexivity.
  - exact local_2x2_well_formed.
  - zdec.
  - zdec.
  - zdec.
  - exists e'. split; [exact Hrun|]. split; [exact Hnew|].
    rewrite (Hold 1 1).
    + vm_compute. reflexivity.
    + zdec.
    + zdec.
Defined.

(** X6 on [local_2x2]. *)
Lemma setShared_true_moves_cells_witness :
  exists e', setShared (elem := Element_real) true local_2x2 = (Returns tt, e')
    /\ _isShared (this e') = true
    /\ at_ (elem := Element_real) (this e') 1 1 = 9.
Proof.
  destruct (setShared_true_moves_cells (elem := Element_real) local_2x2)
    as (e' & Hrun & Hsh & _ & _ & _ & _ & _ & _ & _ & _ & Hcells).
  - reflexivity.
  - reflexivity.
  - exact local_2x2_well_formed.
  - reflexivity.
  - reflexivity.
  - reflexivity.
  - apply lookup_empty.
  - exists e'. split; [exact Hrun|]. split; [exact Hsh|].
    rewrite (Hcells 1 1).
    + vm_compute. reflexivity.
    + zdec.
    + zdec.
Defined.

(** X8 on [local_2x2] and [shared_2x2]. *)
Lemma shared_segment_outlives_matrix_witness :
  is_Some (segments (os shared_2x2) !! c_str (_sharedname (this shared_2x2)))
  /\ is_Some (segments (os (snd (clear shared_2x2)))
              !! c_str (_sharedname (this shared_2x2)))
  /\ _sharedname (this (snd (clear shared_2x2))) = "".
Proof.
  destruct (shared_segment_outlives_matrix (elem := Element_real) local_2x2 shared_2x2)
    as (_ & Hseg & _ & Hclear).
  - reflexivity.
  - reflexivity.
  - vm_compute. reflexivity.
  - cbn zeta in Hclear. destruct Hclear as (_ & _ & _ & Hname & Hkept).
    split; [exact Hseg|]. split; [|exact Hname].
    rewrite Hkept. exact Hseg.
Defined.

(** X9 on [local_2x2], reshaped to one row of four. *)
Lemma setM_reshapes_witness :
  exists e', setM 4 local_2x2 = (Returns tt, e')
    /\ _m (this e') = 4 /\ _n (this e') = 1 /\ _n_actual (this e') = 2.
Proof.
  destruct (setM_reshapes (elem := Element_real) local_2x2 4) as [_ Hok].
  - reflexivity.
  - exact local_2x2_well_formed.
  - lia.
  - destruct Hok as (e' & Hrun & Hm & Hn & _ & _ & _ & Hcap & _).
    + zdec.
    + exists e'. split; [exact Hrun|]. split; [exact Hm|]. split; [exact Hn | exact Hcap].
Defined.


(** X11 for a local and a shared 2 by 2 matrix of reals on [host0]. *)
Lemma Matrix_new_zero_filled_witness :
  (exists e, Matrix_new (elem := Element_real) "m" "" 2 2 false host0 = (Returns tt, e)
     /\ getAt (elem := Element_real) 1 1 e = (Returns 0, e))
  /\ (exists e, Matrix_new (elem := Element_real) "m" "" 2 2 true host0 = (Returns tt, e)
        /\ _isShared (this e) = true
        /\ getAt (elem := Element_real) 1 1 e = (Returns 0, e)).
Proof.
  destruct (Matrix_new_zero_filled (elem := Element_real) "m" "" 2 2 host0)
    as [Hlocal Hshared]; [lia | lia | lia |].
  split.
  - destruct Hlocal as (e & Hrun & _ & _ & _ & _ & _ & _ & _ & _ & Hcells).
    exists e. split; [exact Hrun|]. apply Hcells; lia.
  - destruct Hshared as (e & Hrun & _ & _ & _ & _ & Hsh & _ & _ & _ & Hcells).
    + reflexivity.
    + reflexivity.
    + reflexivity.
    + apply lookup_empty.
    + exists e. split; [exact Hrun|]. split; [exact Hsh|]. apply Hcells; lia.
Defined.

Section MetaInstances.
Local Close Scope Z_scope.

Lemma plain_a : plain "a".
Proof. split; intros H; repeat (apply elem_of_cons in H as [H | H]; [discriminate H|]); by apply elem_of_nil in H. Qed.
Lemma plain_1 : plain "1".
Proof. split; intros H; repeat (apply elem_of_cons in H as [H | H]; [discriminate H|]); by apply elem_of_nil in H. Qed.

(** X13 on the map holding the pair ("a","1"). *)
Lemma serializeMeta_round_trip_witness :
  deserializeMeta (serializeMeta {["a" := "1"]}) ∅ = Some ({["a" := "1"]} : metamap).
Proof.
  refine (proj1 (proj2 (serializeMeta_round_trip {["a" := "1"]} ∅ _ _))).
  - intros k v Hkv. apply lookup_singleton_Some in Hkv as [<- <-].
    split; [exact plain_a | exact plain_1].
  - intros k v Hkv. apply lookup_singleton_Some in Hkv as [<- <-].
    split; discriminate.
Defined.
End MetaInstances.

Section ExactInstances.
Local Close Scope Z_scope.
Local Open Scope Q_scope.

(** X15 on the rotator (w,x,y,z) = (3/5, 4/5, 0, 0). *)
Lemma rotator_rotation_is_isometry_witness :
  let r := Rot.Rotator (3 # 5) (4 # 5) 0 0 in
  Rot.rlenSq r == 1
  /\ lenSq (Rot.rotate r (Vec3 1 2 3)) == lenSq (Vec3 1 2 3)
  /\ dot (Rot.rotate r (Vec3 1 2 3)) (Rot.rotate r (Vec3 0 1 0)) == dot (Vec3 1 2 3) (Vec3 0 1 0).
Proof.
  cbn zeta.
  assert (Hr : Rot.rlenSq (Rot.Rotator (3 # 5) (4 # 5) 0 0) == 1) by (vm_compute; reflexivity).
  split; [exact Hr|].
  destruct (rotator_rotation_is_isometry (Rot.Rotator (3 # 5) (4 # 5) 0 0)
              (Vec3 1 2 3) (Vec3 0 1 0) Hr) as (Hlen & Hdot & _).
  split; [exact Hlen | exact Hdot].
Defined.

(** X18 on the reference tetrahedron and its point (1/4, 1/4, 1/4). *)
Lemma pointSearchLinTet_inverts_tetPoint_witness :
  let n1 := Vec3 0 0 0 in let n2 := Vec3 1 0 0 in
  let n3 := Vec3 0 1 0 in let n4 := Vec3 0 0 1 in
  let xi := Vec3 (1 # 4) (1 # 4) (1 # 4) in
  vec_eq (pointSearchLinTet (tetPoint n1 n2 n3 n4 xi) n1 n2 n3 n4) xi
  /\ pointInTet (tetPoint n1 n2 n3 n4 xi) n1 n2 n3 n4 = true.
Proof.
  cbn zeta.
  destruct (pointSearchLinTet_inverts_tetPoint (Vec3 0 0 0) (Vec3 1 0 0) (Vec3 0 1 0) (Vec3 0 0 1))
    as (Hin & _).
  - intros H. vm_compute in H. discriminate H.
  - apply Hin; vm_compute; discriminate.
Defined.

(** X19 on the ray from (0,0,1) along -Z and the plane Z = 0. *)
Lemma intersectsPlane_hits_plane_witness :
  let r := mkRay (Vec3 0 0 1) (Vec3 0 0 (- (1))) (inv (Vec3 0 0 (- (1)))) false false true in
  planeDist (getPosition r (intersectsPlane r (Vec3 0 0 0) (Vec3 0 0 1))) (Vec3 0 0 0) (Vec3 0 0 1)
  == 0.
Proof.
  cbn zeta.
  refine (proj1 (intersectsPlane_hits_plane
    (mkRay (Vec3 0 0 1) (Vec3 0 0 (- (1))) (inv (Vec3 0 0 (- (1)))) false false true)
    (Vec3 0 0 0) (Vec3 0 0 1) _)).
  intros H. vm_compute in H. discriminate H.
Defined.

(** X20 on the same ray and the point (3,4,5). *)
Lemma distTo_projects_witness :
  let r := mkRay (Vec3 0 0 1) (Vec3 0 0 (- (1))) (inv (Vec3 0 0 (- (1)))) false false true in
  dot (dir r) (vsub (Vec3 3 4 5) (getPosition r (distTo r (Vec3 3 4 5)))) == 0.
Proof.
  cbn zeta.
  refine (proj1 (distTo_projects
    (mkRay (Vec3 0 0 1) (Vec3 0 0 (- (1))) (inv (Vec3 0 0 (- (1)))) false false true)
    (Vec3 3 4 5) _)).
  vm_compute. reflexivity.
Defined.

(** X21 on the ray from the origin along (1,1,1) and the box from
    (-1,-1,-1) to (1,1,1): the origin is inside. *)
Lemma intersectsAABB_slab_witness :
  let r := mkRay (Vec3 0 0 0) (Vec3 1 1 1) (inv (Vec3 1 1 1)) false false false in
  let res := intersectsAABB r (Vec3 (- (1)) (- (1)) (- (1))) (Vec3 1 1 1) in
  ray_invariant r /\ fst res <= 0 <= snd res.
Proof.
  cbn zeta.
  assert (Hinv : ray_invariant
            (mkRay (Vec3 0 0 0) (Vec3 1 1 1) (inv (Vec3 1 1 1)) false false false))
    by (repeat split; vm_compute; reflexivity).
  split; [exact Hinv|].
  refine (proj1 (proj2 (intersectsAABB_slab
    (mkRay (Vec3 0 0 0) (Vec3 1 1 1) (inv (Vec3 1 1 1)) false false false)
    (Vec3 (- (1)) (- (1)) (- (1))) (Vec3 1 1 1) Hinv _ _ _) 0 _)).
  - intros H. vm_compute in H. discriminate H.
  - intros H. vm_compute in H. discriminate H.
  - intros H. vm_compute in H. discriminate H.
  - vm_compute. repeat split; discriminate.
Defined.

(** X22 on the scaling by 2 along X. *)
Lemma mat4_inverse_exact_witness :
  let a := Mat4 2 0 0 0  0 1 0 0  0 0 1 0  0 0 0 1 in
  mat4_eq (mat4_mul a (inverse a)) ident /\ mat4_eq (mat4_mul (inverse a) a) ident.
Proof.
  cbn zeta. apply mat4_inverse_exact.
  intros H. vm_compute in H. discriminate H.
Defined.

(** X24 on the scaling by 2 along X after the translation by (1,0,0),
    at the vector (1,2,3). *)
Lemma mat4_apply_composes_witness :
  let a := Mat4 2 0 0 0  0 1 0 0  0 0 1 0  0 0 0 1 in
  let m := Mat4 1 0 0 1  0 1 0 0  0 0 1 0  0 0 0 1 in
  vec_eq (mat4_apply (mat4_mul a m) (Vec3 1 2 3)) (mat4_apply a (mat4_apply m (Vec3 1 2 3))).
Proof.
  cbn zeta. apply mat4_apply_composes.
  - intros H. vm_compute in H. discriminate H.
  - intros H. vm_compute in H. discriminate H.
Defined.
End ExactInstances.

(** * Instances of the claims in doubles *)

(** C2, counterexample in doubles: inside the unit cube, at xi =
    (0, 0.2, 0.1), the Tet1NL coefficients sum to 1.0000000000000002, not
    to exactly 1; past the bounds of the amended claim the sums leave the
    tolerance: the Tet1NL sum at (-2023347.6, -2069716.8, -2214574.9) and
    the Hex1NL sum at (140.7, -119.3, -139.3) are both 1.0000000013969839;
    and at (1e20, 0, 0) the Tet1NL coefficients are -1e20, 1e20, 0, 0 and
    both sums are 0. *)
Lemma basis_sum_fails_in_doubles :
  (rsum (basis_Tet1NL 0 0.2 0.1)%float = 1.0000000000000002%float
   /\ sums_to_one (basis_Tet1NL 0 0.2 0.1)%float = false)
  /\ (rsum (basis_Tet1NL (-2023347.6) (-2069716.8) (-2214574.9))%float
      = 1.0000000013969839%float
      /\ sums_to_one_within 1e-9%float
           (basis_Tet1NL (-2023347.6) (-2069716.8) (-2214574.9))%float = false)
  /\ (rsum (basis_Hex1NL 140.7 (-119.3) (-139.3))%float = 1.0000000013969839%float
      /\ sums_to_one_within 1e-9%float (basis_Hex1NL 140.7 (-119.3) (-139.3))%float = false)
  /\ (basis_Tet1NL 1e20 0 0 = [-1e20; 1e20; 0; 0]
      /\ rsum (basis_Tet1NL 1e20 0 0) = 0
      /\ sums_to_one (basis_Tet1NL 1e20 0 0) = false
      /\ rsum (basis_Hex1NL 1e20 0 0) = 0
      /\ sums_to_one_within 1e-9 (basis_Hex1NL 1e20 0 0) = false)%float.
Proof. repeat split; vm_compute; reflexivity. Qed.

(** C2 at (0, 0.2, 0.1) and at (0.1, 0.2, 0.3). *)
Lemma basis_sum_within_tolerance_witness :
  sums_to_one_within 1e-9%float (basis_Tet1NL 0 0.2 0.1)%float = true
  /\ sums_to_one_within 1e-9%float (basis_Hex1NL 0.1 0.2 0.3)%float = true.
Proof.
  destruct basis_sum_within_tolerance as (Htet & Hhex & _).
  split; [apply Htet | apply Hhex]; vm_compute; reflexivity.
Defined.

(** C1, counterexample in doubles: for the hexahedron (0,0,0), (1,0,0),
    (0,1,0), (1,1,0), (0,0,1), (-0.1,0,1), (0.7,1,0.3), (1,1,1) and its
    seventh node as the point, the search passes the bounding-box test,
    fails in the first three rows of [divtets] and finds the point in the
    fourth, with xi = (9.25e-17, 1, 0); the result
    (-1.85e-17, 1, 0.99999999999999989) has a negative component and is not
    the sentinel. *)
Lemma pointSearchLinHex_found_negative :
  let pt : vec3 float := (Vec3 0.7 1 0.3)%float in
  let search := fun q : vec3 float =>
    (pointSearchLinHex q (Vec3 0 0 0) (Vec3 1 0 0) (Vec3 0 1 0) (Vec3 1 1 0)
                         (Vec3 0 0 1) (Vec3 (-0.1) 0 1) (Vec3 0.7 1 0.3) (Vec3 1 1 1))%float in
  let xi :=
    (tetXi pt (Vec3 0 0 0) (Vec3 1 0 0) (Vec3 0 1 0) (Vec3 1 1 0)
              (Vec3 0 0 1) (Vec3 (-0.1) 0 1) (Vec3 0.7 1 0.3) (Vec3 1 1 1))%float in
  map (fun row => inSimplex (xi row)) divtets = [false; false; false; true; false]
  /\ search pt = (Vec3 (-1.8503717077085988e-17) 1 0.99999999999999989)%float
  /\ (_x (search pt) <? 0)%float = true
  /\ search pt <> (Vec3 (-1) (-1) (-1))%float.
Proof.
  cbv zeta. split; [vm_compute; reflexivity|]. split; [vm_compute; reflexivity|].
  split; [vm_compute; reflexivity|]. vm_compute. discriminate.
Qed.

(** C1 on the unit cube: the point (0.25, 0.25, 0.25) is found in the
    first row of [divtets], the point (2, 2, 2) fails the bounding-box
    test. *)
Lemma pointSearchLinHex_first_containing_tet_witness :
  let search := fun q =>
    pointSearchLinHex q (cube_node false false false) (cube_node true false false)
      (cube_node false true false) (cube_node true true false) (cube_node false false true)
      (cube_node true false true) (cube_node false true true) (cube_node true true true) in
  (search (Vec3 0.25 0.25 0.25)%float = (Vec3 0.25 0.25 0.25)%float
   /\ ~ below_tolerance (search (Vec3 0.25 0.25 0.25)%float))
  /\ search (Vec3 2 2 2)%float = (Vec3 (-1) (-1) (-1))%float.
Proof.
  cbv zeta. split.
  - destruct (pointSearchLinHex_first_containing_tet (Vec3 0.25 0.25 0.25)%float
                (cube_node false false false) (cube_node true false false)
                (cube_node false true false) (cube_node true true false)
                (cube_node false false true) (cube_node true false true)
                (cube_node false true true) (cube_node true true true))
      as (_ & _ & Hin & _).
    destruct Hin as [Hfound _]; [vm_compute; reflexivity|].
    destruct (Hfound 0%nat (Vec3 0 0 0) (Vec3 1 0 1) (Vec3 1 1 0) (Vec3 0 1 1))%float
      as [Hr Hnb].
    + reflexivity.
    + intros s row' Hs. lia.
    + vm_compute. reflexivity.
    + split; [|exact Hnb]. rewrite Hr. vm_compute. reflexivity.
  - destruct (pointSearchLinHex_first_containing_tet (Vec3 2 2 2)%float
                (cube_node false false false) (cube_node true false false)
                (cube_node false true false) (cube_node true true false)
                (cube_node false false true) (cube_node true false true)
                (cube_node false true true) (cube_node true true true))
      as (_ & Hout & _).
    apply Hout. vm_compute. reflexivity.
Defined.
